(** * FAudio mixing core: decode, resample, mix

    A shallow embedding of [src/FAudio_internal.c] (buffer-queue decoding,
    the linear resampler, the source and submix mix passes, the engine
    update loop and the built-in PCM / MSADPCM decoders), together with the
    properties of the design document that can be stated about it.

    Conventions.
    - C integers are [Z] with the wrap-around of their type written out
      ([u32], [u64], [s16]).
    - [float] and [double] values are [spec_float] at precision 24 / 53;
      every C operation rounds to nearest-even as the machine does.
    - Memory that C indexes by pointer is a list; an access outside the
      list, a division by zero or a failed [FAudio_assert] is [Fault];
      loops whose termination the source does not guarantee take fuel and
      answer [OutOfFuel] when it runs out.
    - Callbacks are notification sinks: invoking one appends an [event] to
      the trace and does nothing else. *)

From Stdlib Require Import ZArith List Bool Lia.
From Stdlib Require Import Strings.Byte.
From Stdlib Require Import Floats.SpecFloat.
From Stdlib Require Reals Lra.
From stdpp Require Import base option list gmap.
Import ListNotations.
Local Open Scope Z_scope.

(** ** C integer types *)

Definition u32 (z : Z) : Z := z mod 2 ^ 32.
Definition u64 (z : Z) : Z := z mod 2 ^ 64.
Definition s16 (z : Z) : Z := (z + 2 ^ 15) mod 2 ^ 16 - 2 ^ 15.

(** [FAudio_min] and [FAudio_clamp] are the usual comparison macros of
    FAudio_internal.h. *)
Definition FAudio_min (a b : Z) : Z := if a <? b then a else b.
Definition FAudio_clamp (val lo hi : Z) : Z :=
  if val >? hi then hi else if val <? lo then lo else val.

(** ** Fixed-point macros *)

Definition FIXED_PRECISION : Z := 32.
Definition FIXED_ONE : Z := Z.shiftl 1 FIXED_PRECISION.
Definition FIXED_FRACTION_MASK : Z := FIXED_ONE - 1.
Definition FIXED_INTEGER_MASK : Z := Z.lnot FIXED_FRACTION_MASK.

(** ** Results of partial computations *)

Inductive res (A : Type) : Type :=
| Ok (a : A)
| Fault
| OutOfFuel.
Arguments Ok {A} a.
Arguments Fault {A}.
Arguments OutOfFuel {A}.

#[global] Instance res_ret : MRet res := fun _ a => Ok a.
#[global] Instance res_bind : MBind res := fun _ _ f m =>
  match m with
  | Ok a => f a
  | Fault => Fault
  | OutOfFuel => OutOfFuel
  end.

Definition guard_res (b : bool) : res unit := if b then Ok tt else Fault.

(** ** IEEE-754 arithmetic of the C types [float] and [double] *)

Module F64.
Definition prec : Z := 53.
Definition emax : Z := 1024.
Definition add := SFadd prec emax.
Definition mul := SFmul prec emax.
Definition div := SFdiv prec emax.
Definition of_Z (z : Z) : spec_float := binary_normalize prec emax z 0 false.
Definition of_pow2 (m e : Z) : spec_float := binary_normalize prec emax m e false.
(** Widening a [float]: exact, only the mantissa is re-aligned. *)
Definition of_float (x : spec_float) : spec_float :=
  match x with
  | S754_finite s m e => binary_round prec emax s m e
  | _ => x
  end.
(** [(uint64_t) x]: truncation toward zero; outside [0, 2^64) and for
    infinities and NaN the C conversion is undefined. *)
Definition trunc (x : spec_float) : option Z :=
  match x with
  | S754_zero _ => Some 0
  | S754_finite s m e =>
      Some (cond_Zopp s (if 0 <=? e then Z.shiftl (Zpos m) e
                         else Z.shiftr (Zpos m) (- e)))
  | _ => None
  end.
Definition to_uint64 (x : spec_float) : res Z :=
  match trunc x with
  | Some z => if (0 <=? z) && (z <? 2 ^ 64) then Ok z else Fault
  | None => Fault
  end.
End F64.

Module F32.
Definition prec : Z := 24.
Definition emax : Z := 128.
Definition add := SFadd prec emax.
Definition mul := SFmul prec emax.
Definition div := SFdiv prec emax.
Definition eqb := SFeqb.
Definition ltb := SFltb.
Definition zero : spec_float := S754_zero false.
Definition of_Z (z : Z) : spec_float := binary_normalize prec emax z 0 false.
Definition of_pow2 (m e : Z) : spec_float := binary_normalize prec emax m e false.
(** Narrowing a [double]. *)
Definition of_double (x : spec_float) : spec_float :=
  match x with
  | S754_finite s m e => binary_round prec emax s m e
  | _ => x
  end.
(** [FAudio_clamp] at type [float]. *)
Definition clamp (val lo hi : spec_float) : spec_float :=
  if ltb hi val then hi else if ltb val lo then lo else val.
End F32.

(** ** Data model (FAudio.h / FAudio_internal.h as the code uses them) *)

Record FAudioBuffer : Type := {
  Flags : Z;
  AudioBytes : Z;
  pAudioData : list byte;
  PlayBegin : Z;
  PlayLength : Z;
  LoopBegin : Z;
  LoopLength : Z;
  LoopCount : Z;
  pContext : Z
}.

Record FAudioWaveFormatEx : Type := {
  wFormatTag : Z;
  nChannels : Z;
  nSamplesPerSec : Z;
  nAvgBytesPerSec : Z;
  nBlockAlign : Z;
  wBitsPerSample : Z;
  cbSize : Z
}.

Definition set_PlayBegin (b : FAudioBuffer) (pb : Z) : FAudioBuffer :=
  {| Flags := Flags b; AudioBytes := AudioBytes b; pAudioData := pAudioData b;
     PlayBegin := pb; PlayLength := PlayLength b; LoopBegin := LoopBegin b;
     LoopLength := LoopLength b; LoopCount := LoopCount b;
     pContext := pContext b |}.

Definition set_LoopCount (b : FAudioBuffer) (n : Z) : FAudioBuffer :=
  {| Flags := Flags b; AudioBytes := AudioBytes b; pAudioData := pAudioData b;
     PlayBegin := PlayBegin b; PlayLength := PlayLength b;
     LoopBegin := LoopBegin b; LoopLength := LoopLength b; LoopCount := n;
     pContext := pContext b |}.

(** ** Reading and writing arrays *)

(** [n] consecutive elements starting at index [off]. *)
Definition load {A} (mem : list A) (off n : Z) : res (list A) :=
  if (0 <=? off) && (0 <=? n) && (off + n <=? Z.of_nat (length mem))
  then Ok (take (Z.to_nat n) (drop (Z.to_nat off) mem))
  else Fault.

(** Overwrite the elements from index [off] on with [vals]. *)
Definition store {A} (mem : list A) (off : Z) (vals : list A) : res (list A) :=
  if (0 <=? off) && (off + Z.of_nat (length vals) <=? Z.of_nat (length mem))
  then Ok (take (Z.to_nat off) mem ++ vals ++
           drop (Z.to_nat off + length vals) mem)
  else Fault.

Definition load1 {A} (mem : list A) (i : Z) : res A :=
  if 0 <=? i then
    match mem !! Z.to_nat i with
    | Some a => Ok a
    | None => Fault
    end
  else Fault.

Definition store1 {A} (mem : list A) (i : Z) (a : A) : res (list A) :=
  if (0 <=? i) && (i <? Z.of_nat (length mem))
  then Ok (<[Z.to_nat i := a]> mem)
  else Fault.

Definition uint8_of (b : byte) : Z := Z.of_N (Byte.to_N b).
Definition int8_of (b : byte) : Z :=
  let v := uint8_of b in if v <? 128 then v else v - 256.
(** A 16-bit sample as the little-endian host reads it. *)
Definition int16_of (lo hi : byte) : Z := s16 (uint8_of lo + 256 * uint8_of hi).

Fixpoint int16s_of (bytes : list byte) : list Z :=
  match bytes with
  | lo :: hi :: rest => int16_of lo hi :: int16s_of rest
  | _ => []
  end.

(** ** Sample decoders *)

Module Decoders.

(** *** 8-bit PCM *)

Definition FAudio_INTERNAL_DecodeMonoPCM8
  (buffer : FAudioBuffer) (curOffset samples : Z)
  (UNUSED : FAudioWaveFormatEx) : res (list Z) :=
  buf ← load (pAudioData buffer) (u32 (PlayBegin buffer + curOffset)) samples;
  Ok (map (fun b => s16 (Z.shiftl (int8_of b) 8)) buf).

Definition FAudio_INTERNAL_DecodeStereoPCM8
  (buffer : FAudioBuffer) (curOffset samples : Z)
  (UNUSED : FAudioWaveFormatEx) : res (list Z) :=
  buf ← load (pAudioData buffer)
             (u32 ((PlayBegin buffer + curOffset) * 2)) (samples * 2);
  Ok (map (fun b => s16 (Z.shiftl (int8_of b) 8)) buf).

(** *** 16-bit PCM: [FAudio_memcpy] of [samples * 2] (resp. [* 4]) bytes
    from an [int16_t] pointer advanced by the sample offset. *)

Definition FAudio_INTERNAL_DecodeMonoPCM16
  (buffer : FAudioBuffer) (curOffset samples : Z)
  (UNUSED : FAudioWaveFormatEx) : res (list Z) :=
  buf ← load (pAudioData buffer)
             (2 * u32 (PlayBegin buffer + curOffset)) (u32 (samples * 2));
  Ok (int16s_of buf).

Definition FAudio_INTERNAL_DecodeStereoPCM16
  (buffer : FAudioBuffer) (curOffset samples : Z)
  (UNUSED : FAudioWaveFormatEx) : res (list Z) :=
  buf ← load (pAudioData buffer)
             (2 * u32 ((PlayBegin buffer + curOffset) * 2)) (u32 (samples * 4));
  Ok (int16s_of buf).

(** *** MSADPCM *)

Definition AdaptionTable : list Z :=
  [230; 230; 230; 230; 307; 409; 512; 614;
   768; 614; 512; 409; 307; 230; 230; 230].
Definition AdaptCoeff_1 : list Z := [256; 512; 0; 192; 240; 460; 392].
Definition AdaptCoeff_2 : list Z := [0; -256; 0; 64; 0; -208; -232].

(** The decoder state that [FAudio_INTERNAL_ParseNibble] updates through
    its pointer arguments. *)
Record adpcm : Type := {
  delta : Z;
  sample1 : Z;
  sample2 : Z
}.

Definition FAudio_INTERNAL_ParseNibble
  (nibble predictor : Z) (st : adpcm) : res (Z * adpcm) :=
  let signedNibble :=
    if Z.eqb (Z.land nibble 8) 0 then nibble else nibble - 16 in
  c1 ← load1 AdaptCoeff_1 predictor;
  c2 ← load1 AdaptCoeff_2 predictor;
  let sampleInt := Z.quot (sample1 st * c1 + sample2 st * c2) 256 in
  let sampleInt := sampleInt + signedNibble * delta st in
  let sample := FAudio_clamp sampleInt (-32768) 32767 in
  a ← load1 AdaptionTable nibble;
  let delta' := s16 (Z.quot (a * delta st) 256) in
  let delta' := if delta' <? 16 then 16 else delta' in
  Ok (sample, {| delta := delta'; sample1 := sample; sample2 := sample1 st |}).

Definition FAudio_INTERNAL_ReadMonoPreamble (buf : list byte)
  : res (Z * adpcm) :=
  match buf with
  | p :: d0 :: d1 :: a0 :: a1 :: b0 :: b1 :: _ =>
      Ok (uint8_of p, {| delta := int16_of d0 d1; sample1 := int16_of a0 a1;
                         sample2 := int16_of b0 b1 |})
  | _ => Fault
  end.

Definition FAudio_INTERNAL_ReadStereoPreamble (buf : list byte)
  : res ((Z * adpcm) * (Z * adpcm)) :=
  match buf with
  | pl :: pr :: dl0 :: dl1 :: dr0 :: dr1 :: al0 :: al1 :: ar0 :: ar1
       :: bl0 :: bl1 :: br0 :: br1 :: _ =>
      Ok ((uint8_of pl, {| delta := int16_of dl0 dl1;
                           sample1 := int16_of al0 al1;
                           sample2 := int16_of bl0 bl1 |}),
          (uint8_of pr, {| delta := int16_of dr0 dr1;
                           sample1 := int16_of ar0 ar1;
                           sample2 := int16_of br0 br1 |}))
  | _ => Fault
  end.

(** The nibble loop of the mono block decoder: both nibbles of a byte go
    through the one predictor state, high nibble first. *)
Fixpoint mono_nibbles (predictor : Z) (nibbles : list byte) (st : adpcm)
  : res (list Z) :=
  match nibbles with
  | [] => Ok []
  | n :: rest =>
      '(s1, st) ← FAudio_INTERNAL_ParseNibble
                    (Z.shiftr (uint8_of n) 4) predictor st;
      '(s2, st) ← FAudio_INTERNAL_ParseNibble
                    (Z.land (uint8_of n) 15) predictor st;
      out ← mono_nibbles predictor rest st;
      Ok (s1 :: s2 :: out)
  end.

(** The stereo loop: high nibble to the left channel, low nibble to the
    right one. *)
Fixpoint stereo_nibbles (l_predictor r_predictor : Z) (nibbles : list byte)
  (l r : adpcm) : res (list Z) :=
  match nibbles with
  | [] => Ok []
  | n :: rest =>
      '(sl, l) ← FAudio_INTERNAL_ParseNibble
                   (Z.shiftr (uint8_of n) 4) l_predictor l;
      '(sr, r) ← FAudio_INTERNAL_ParseNibble
                   (Z.land (uint8_of n) 15) r_predictor r;
      out ← stereo_nibbles l_predictor r_predictor rest l r;
      Ok (sl :: sr :: out)
  end.

(** One block: the decoded [blockCache].  [nibbles] is a local array of 255
    (resp. 510) bytes, so a larger [align + 15] overruns it. *)
Definition FAudio_INTERNAL_DecodeMonoMSADPCMBlock
  (data : list byte) (buf align : Z) : res (list Z) :=
  pre ← load data buf 7;
  '(predictor, st) ← FAudio_INTERNAL_ReadMonoPreamble pre;
  guard_res (align + 15 <=? 255);;
  nibbles ← load data (buf + 7) (align + 15);
  out ← mono_nibbles predictor nibbles st;
  Ok (sample1 st :: sample2 st :: out).

Definition FAudio_INTERNAL_DecodeStereoMSADPCMBlock
  (data : list byte) (buf align : Z) : res (list Z) :=
  pre ← load data buf 14;
  '((l_predictor, l), (r_predictor, r)) ← FAudio_INTERNAL_ReadStereoPreamble pre;
  guard_res ((align + 15) * 2 <=? 510);;
  nibbles ← load data (buf + 14) ((align + 15) * 2);
  out ← stereo_nibbles l_predictor r_predictor nibbles l r;
  Ok (sample2 l :: sample2 r :: sample1 l :: sample1 r :: out).

(** The block loop, [while (samples > 0)]: every round copies at least one
    sample, so [samples] rounds of fuel are never used up. *)
Fixpoint mono_blocks (fuel : nat) (data : list byte)
  (buf align bsize midOffset samples : Z) : res (list Z) :=
  if samples >? 0 then
    match fuel with
    | O => OutOfFuel
    | S fuel =>
        let copy := FAudio_min samples (u32 (bsize - midOffset)) in
        blockCache ← FAudio_INTERNAL_DecodeMonoMSADPCMBlock data buf align;
        chunk ← load blockCache midOffset copy;
        out ← mono_blocks fuel data (buf + (align + 22)) align bsize 0
                          (u32 (samples - copy));
        Ok (chunk ++ out)
    end
  else Ok [].

Fixpoint stereo_blocks (fuel : nat) (data : list byte)
  (buf align bsize midOffset samples : Z) : res (list Z) :=
  if samples >? 0 then
    match fuel with
    | O => OutOfFuel
    | S fuel =>
        let copy := FAudio_min samples (u32 (bsize - midOffset)) in
        blockCache ← FAudio_INTERNAL_DecodeStereoMSADPCMBlock data buf align;
        chunk ← load blockCache (midOffset * 2) (copy * 2);
        out ← stereo_blocks fuel data (buf + (align + 22) * 2) align bsize 0
                            (u32 (samples - copy));
        Ok (chunk ++ out)
    end
  else Ok [].

Definition FAudio_INTERNAL_DecodeMonoMSADPCM
  (buffer : FAudioBuffer) (curOffset samples : Z)
  (format : FAudioWaveFormatEx) : res (list Z) :=
  let align := nBlockAlign format in
  let bsize := u32 ((align + 16) * 2) in
  guard_res (negb (bsize =? 0));;
  let buf := u32 (curOffset / bsize * (align + 22)) in
  let midOffset := curOffset mod bsize in
  mono_blocks (Z.to_nat samples) (pAudioData buffer)
              buf align bsize midOffset samples.

Definition FAudio_INTERNAL_DecodeStereoMSADPCM
  (buffer : FAudioBuffer) (curOffset samples : Z)
  (format : FAudioWaveFormatEx) : res (list Z) :=
  let align := nBlockAlign format in
  let bsize := u32 ((align + 16) * 2) in
  guard_res (negb (bsize =? 0));;
  let buf := u32 (curOffset / bsize * ((align + 22) * 2)) in
  let midOffset := curOffset mod bsize in
  stereo_blocks (Z.to_nat samples) (pAudioData buffer)
                buf align bsize midOffset samples.

End Decoders.

(** ** Voices *)

(** Notifications a voice or the engine delivers, in the order delivered.
    [OnBufferStart], [OnBufferEnd] and [OnLoopEnd] carry the buffer's
    [pContext]; [OnVoiceProcessingPassStart] carries [BytesRequired]. *)
Inductive event : Type :=
| Ev_OnBufferStart (ctx : Z)
| Ev_OnBufferEnd (ctx : Z)
| Ev_OnLoopEnd (ctx : Z)
| Ev_OnStreamEnd
| Ev_OnVoiceProcessingPassStart (BytesRequired : Z)
| Ev_OnVoiceProcessingPassEnd
| Ev_OnProcessingPassStart (engine_callback : nat)
| Ev_OnProcessingPassEnd (engine_callback : nat).

#[global] Instance event_eq_dec : EqDecision event.
Proof. solve_decision. Defined.

(** [FAudioVoiceCallback]: a field is [true] when the function pointer is
    not [NULL]. *)
Record FAudioVoiceCallback : Type := {
  OnBufferEnd : bool;
  OnBufferStart : bool;
  OnLoopEnd : bool;
  OnStreamEnd : bool;
  OnVoiceProcessingPassEnd : bool;
  OnVoiceProcessingPassStart : bool
}.

(** Whether [voice->src.callback != NULL && voice->src.callback->f != NULL]. *)
Definition registered (callback : option FAudioVoiceCallback)
  (f : FAudioVoiceCallback -> bool) : bool :=
  match callback with
  | Some cb => f cb
  | None => false
  end.

Record FAudioSendDescriptor : Type := {
  send_Flags : Z;
  pOutputVoice : nat
}.

(** The fields every voice has. [sends] is [voice->sends.pSends], its
    length [voice->sends.SendCount]. *)
Record FAudioVoiceCommon : Type := {
  sends : list FAudioSendDescriptor;
  sendCoefficients : list (list spec_float);
  channelVolume : list spec_float;
  volume : spec_float
}.

Definition SendCount (c : FAudioVoiceCommon) : Z := Z.of_nat (length (sends c)).

Definition FAudioDecodeCallback : Type :=
  FAudioBuffer -> Z -> Z -> FAudioWaveFormatEx -> res (list Z).

(** [voice->src]. [src_bufferList] is the queue of buffer entries, head
    first; [src_decode] is the decoder selected when the voice was made,
    returning what it writes to its [decodeCache] argument. *)
Record FAudioSourceVoice : Type := {
  src_common : FAudioVoiceCommon;
  src_decodeSamples : Z;
  src_outputSamples : Z;
  src_decodeCache : list Z;
  src_outputResampleCache : list spec_float;
  src_resampleFreqRatio : spec_float;
  src_resampleStep : Z;
  src_resampleOffset : Z;
  src_format : FAudioWaveFormatEx;
  src_decode : FAudioDecodeCallback;
  src_callback : option FAudioVoiceCallback;
  src_active : bool;
  src_freqRatio : spec_float;
  src_bufferList : list FAudioBuffer;
  src_curBufferOffset : Z;
  src_curBufferOffsetDec : Z
}.

(** The part of a source voice that decoding writes. *)
Definition set_decode_state (v : FAudioSourceVoice) (cache : list Z)
  (queue : list FAudioBuffer) (off dec : Z) : FAudioSourceVoice :=
  {| src_common := src_common v;
     src_decodeSamples := src_decodeSamples v;
     src_outputSamples := src_outputSamples v;
     src_decodeCache := cache;
     src_outputResampleCache := src_outputResampleCache v;
     src_resampleFreqRatio := src_resampleFreqRatio v;
     src_resampleStep := src_resampleStep v;
     src_resampleOffset := src_resampleOffset v;
     src_format := src_format v;
     src_decode := src_decode v;
     src_callback := src_callback v;
     src_active := src_active v;
     src_freqRatio := src_freqRatio v;
     src_bufferList := queue;
     src_curBufferOffset := off;
     src_curBufferOffsetDec := dec |}.

(** The part that resampling writes. *)
Definition set_resample_state (v : FAudioSourceVoice)
  (out : list spec_float) (ratio : spec_float) (step offset : Z)
  : FAudioSourceVoice :=
  {| src_common := src_common v;
     src_decodeSamples := src_decodeSamples v;
     src_outputSamples := src_outputSamples v;
     src_decodeCache := src_decodeCache v;
     src_outputResampleCache := out;
     src_resampleFreqRatio := ratio;
     src_resampleStep := step;
     src_resampleOffset := offset;
     src_format := src_format v;
     src_decode := src_decode v;
     src_callback := src_callback v;
     src_active := src_active v;
     src_freqRatio := src_freqRatio v;
     src_bufferList := src_bufferList v;
     src_curBufferOffset := src_curBufferOffset v;
     src_curBufferOffsetDec := src_curBufferOffsetDec v |}.

(** ** The buffer queue: [FAudio_INTERNAL_DecodeBuffers] *)

Section DecodeBuffers.

(** Two constants of the headers, which are not part of the sources at
    hand: the look-ahead padding added to every decode request and the
    end-of-stream bit of [FAudioBuffer.Flags]. *)
Variable EXTRA_DECODE_PADDING : Z.
Variable FAUDIO_END_OF_STREAM : Z.

(** The locals of the function that live across loop rounds, and the
    notifications delivered so far. *)
Record decode_loop : Type := {
  dl_voice : FAudioSourceVoice;
  dl_decoded : Z;
  dl_resetOffset : Z;
  dl_trace : list event
}.

Definition notify (callback : option FAudioVoiceCallback)
  (f : FAudioVoiceCallback -> bool) (e : event) : list event :=
  if registered callback f then [e] else [].

Definition is_end_of_stream (buffer : FAudioBuffer) : bool :=
  negb (Z.land (Flags buffer) FAUDIO_END_OF_STREAM =? 0).

(** One round of [while (decoded < *toDecode && buffer != NULL)], entered
    with [buffer] the head of the queue. *)
Definition DecodeBuffers_round (toDecode : Z) (buffer : FAudioBuffer)
  (next : list FAudioBuffer) (st : decode_loop) : res decode_loop :=
  let voice := dl_voice st in
  let decoded := dl_decoded st in
  let chans := nChannels (src_format voice) in
  let decoding := u32 (toDecode - decoded) in
  (* Start-of-buffer behavior *)
  let started :=
    if src_curBufferOffset voice =? PlayBegin buffer
    then notify (src_callback voice) OnBufferStart
                (Ev_OnBufferStart (pContext buffer))
    else [] in
  (* Check for end-of-buffer *)
  let end_ :=
    if (LoopCount buffer >? 0) && (LoopLength buffer >? 0)
    then LoopLength buffer else PlayLength buffer in
  let endRead := FAudio_min (u32 (end_ - src_curBufferOffset voice)) decoding in
  (* Decode... *)
  pcm ← src_decode voice buffer (src_curBufferOffset voice) endRead
                   (src_format voice);
  cache ← store (src_decodeCache voice) (u32 (decoded * chans)) pcm;
  (* End-of-buffer behavior *)
  if endRead <? decoding then
    let resetOffset := u32 (dl_resetOffset st + endRead) in
    if LoopCount buffer >? 0 then
      let buffer' :=
        if LoopCount buffer <? 255
        then set_LoopCount buffer (u32 (LoopCount buffer - 1)) else buffer in
      Ok {| dl_voice := set_decode_state voice cache (buffer' :: next)
                          (LoopBegin buffer) (src_curBufferOffsetDec voice);
            dl_decoded := u32 (decoded + endRead);
            dl_resetOffset := resetOffset;
            dl_trace := dl_trace st ++ started ++
              notify (src_callback voice) OnLoopEnd
                     (Ev_OnLoopEnd (pContext buffer)) |}
    else
      (* For EOS we can stop storing fraction offsets *)
      let dec :=
        if is_end_of_stream buffer then 0 else src_curBufferOffsetDec voice in
      let ended :=
        notify (src_callback voice) OnBufferEnd
               (Ev_OnBufferEnd (pContext buffer)) ++
        (if is_end_of_stream buffer
         then notify (src_callback voice) OnStreamEnd Ev_OnStreamEnd
         else []) in
      (* Change active buffer, delete finished buffer *)
      match next with
      | buffer' :: _ =>
          Ok {| dl_voice := set_decode_state voice cache next
                              (PlayBegin buffer') dec;
                dl_decoded := u32 (decoded + endRead);
                dl_resetOffset := resetOffset;
                dl_trace := dl_trace st ++ started ++ ended |}
      | [] =>
          cache ← store cache (u32 (decoded * chans + endRead))
                        (replicate (Z.to_nat (u32 (decoding - endRead))) 0);
          Ok {| dl_voice := set_decode_state voice cache []
                              (src_curBufferOffset voice) dec;
                dl_decoded := u32 (decoded + endRead);
                dl_resetOffset := resetOffset;
                dl_trace := dl_trace st ++ started ++ ended |}
      end
  else
    Ok {| dl_voice := set_decode_state voice cache (buffer :: next)
                        (src_curBufferOffset voice)
                        (src_curBufferOffsetDec voice);
          dl_decoded := u32 (decoded + endRead);
          dl_resetOffset := dl_resetOffset st;
          dl_trace := dl_trace st ++ started |}.

Fixpoint DecodeBuffers_loop (fuel : nat) (toDecode : Z) (st : decode_loop)
  : res decode_loop :=
  match src_bufferList (dl_voice st) with
  | buffer :: next =>
      if dl_decoded st <? toDecode then
        match fuel with
        | O => OutOfFuel
        | S fuel =>
            st' ← DecodeBuffers_round toDecode buffer next st;
            DecodeBuffers_loop fuel toDecode st'
        end
      else Ok st
  | [] => Ok st
  end.

(** The whole call: the voice afterwards, the value left in [*toDecode],
    the returned [resetOffset], and the notifications delivered. *)
Definition FAudio_INTERNAL_DecodeBuffers (fuel : nat)
  (voice : FAudioSourceVoice) (toDecode : Z)
  : res (FAudioSourceVoice * Z * Z * list event) :=
  (* ... FIXME: I keep going past the buffer *)
  let toDecode := u64 (toDecode + EXTRA_DECODE_PADDING) in
  (* This should never go past the max ratio size *)
  guard_res (toDecode <=? src_decodeSamples voice);;
  st ← DecodeBuffers_loop fuel toDecode
         {| dl_voice := voice; dl_decoded := 0; dl_resetOffset := 0;
            dl_trace := [] |};
  Ok (dl_voice st, u32 (dl_decoded st - EXTRA_DECODE_PADDING),
      dl_resetOffset st, dl_trace st).

End DecodeBuffers.

(** ** The resampler *)

(** [DOUBLE_TO_FIXED(dbl)]: [(uint64_t) (dbl * FIXED_ONE + 0.5)]. *)
Definition DOUBLE_TO_FIXED (dbl : spec_float) : res Z :=
  F64.to_uint64
    (F64.add (F64.mul dbl (F64.of_Z FIXED_ONE)) (F64.of_pow2 1 (-1))).

(** [FIXED_TO_DOUBLE(fxd)] for an unsigned 64-bit [fxd]. *)
Definition FIXED_TO_DOUBLE (fxd : Z) : spec_float :=
  F64.add
    (F64.of_Z (Z.shiftr fxd FIXED_PRECISION))
    (F64.mul (F64.of_Z (Z.land fxd FIXED_FRACTION_MASK))
             (F64.div (F64.of_Z 1) (F64.of_Z FIXED_ONE))).

(** [(float) (a + (b - a) * FIXED_TO_DOUBLE(cur)) / 32768.0f]: the
    interpolation is done in [double], narrowed, then normalised. *)
Definition lerp (a b cur : Z) : spec_float :=
  F32.div
    (F32.of_double
       (F64.add (F64.of_Z a)
                (F64.mul (F64.of_Z (b - a)) (FIXED_TO_DOUBLE cur))))
    (F32.of_Z 32768).

(** [(float) a / 32768.0f]. *)
Definition normalize (a : Z) : spec_float :=
  F32.div (F32.of_Z a) (F32.of_Z 32768).

(** What the resampler loops carry: the read index into [decodeCache], the
    write index into the output cache, the fractional phase [cur], the
    voice's [resampleOffset] and the output cache itself. *)
Record resample_loop : Type := {
  rl_decodeCache : Z;
  rl_resampleCache : Z;
  rl_cur : Z;
  rl_resampleOffset : Z;
  rl_out : list spec_float
}.

Definition ResamplePCM_stereo_round (decodeCache : list Z) (step : Z)
  (st : resample_loop) : res resample_loop :=
  let p := rl_decodeCache st in
  d0 ← load1 decodeCache p;
  d1 ← load1 decodeCache (p + 1);
  d2 ← load1 decodeCache (p + 2);
  d3 ← load1 decodeCache (p + 3);
  (* lerp, then convert to float value *)
  out ← store1 (rl_out st) (rl_resampleCache st) (lerp d0 d2 (rl_cur st));
  out ← store1 out (rl_resampleCache st + 1) (lerp d1 d3 (rl_cur st));
  (* Increment fraction offset by the stepping value *)
  let cur := u64 (rl_cur st + step) in
  Ok {| rl_decodeCache :=
          p + Z.shiftr cur FIXED_PRECISION + Z.shiftr cur FIXED_PRECISION;
        rl_resampleCache := rl_resampleCache st + 2;
        rl_cur := Z.land cur FIXED_FRACTION_MASK;
        rl_resampleOffset := u64 (rl_resampleOffset st + step);
        rl_out := out |}.

Definition ResamplePCM_mono_round (decodeCache : list Z) (step : Z)
  (st : resample_loop) : res resample_loop :=
  let p := rl_decodeCache st in
  d0 ← load1 decodeCache p;
  d1 ← load1 decodeCache (p + 1);
  out ← store1 (rl_out st) (rl_resampleCache st) (lerp d0 d1 (rl_cur st));
  let cur := u64 (rl_cur st + step) in
  Ok {| rl_decodeCache := p + Z.shiftr cur FIXED_PRECISION;
        rl_resampleCache := rl_resampleCache st + 1;
        rl_cur := Z.land cur FIXED_FRACTION_MASK;
        rl_resampleOffset := u64 (rl_resampleOffset st + step);
        rl_out := out |}.

(** [n] rounds of a loop body. *)
Fixpoint rounds {S} (n : nat) (body : S -> res S) (st : S) : res S :=
  match n with
  | O => Ok st
  | S n => st' ← body st; rounds n body st'
  end.

(** [FAudio_INTERNAL_ResamplePCM (voice, resampleCache, toResample)], with
    [resampleCache] given as an index into the voice's output cache.  The
    loop counter is 32 bits wide: a larger [toResample] is never reached. *)
Definition FAudio_INTERNAL_ResamplePCM (voice : FAudioSourceVoice)
  (resampleCache toResample : Z) : res FAudioSourceVoice :=
  if toResample <? 2 ^ 32 then
    let body :=
      if nChannels (src_format voice) =? 2
      then ResamplePCM_stereo_round (src_decodeCache voice)
                                    (src_resampleStep voice)
      else ResamplePCM_mono_round (src_decodeCache voice)
                                  (src_resampleStep voice) in
    st ← rounds (Z.to_nat toResample) body
          {| rl_decodeCache := 0;
             rl_resampleCache := resampleCache;
             rl_cur := Z.land (src_resampleOffset voice) FIXED_FRACTION_MASK;
             rl_resampleOffset := src_resampleOffset voice;
             rl_out := src_outputResampleCache voice |};
    Ok (set_resample_state voice (rl_out st) (src_resampleFreqRatio voice)
          (src_resampleStep voice) (rl_resampleOffset st))
  else OutOfFuel.

(** The branch of [FAudio_INTERNAL_MixSource] taken when
    [resampleStep == FIXED_ONE]: [count] values of [decodeCache], read from
    its start, are normalised into the output cache from [resampleCache]
    on. *)
Fixpoint convert_loop (decodeCache : list Z) (i : Z) (count : nat)
  (resampleCache : Z) (out : list spec_float) : res (list spec_float) :=
  match count with
  | O => Ok out
  | S count =>
      d ← load1 decodeCache i;
      out ← store1 out resampleCache (normalize d);
      convert_loop decodeCache (i + 1) count (resampleCache + 1) out
  end.

Definition MixSource_convert (voice : FAudioSourceVoice)
  (resampleCache toResample : Z) : res FAudioSourceVoice :=
  let count := u64 (toResample * nChannels (src_format voice)) in
  if count <? 2 ^ 32 then
    out ← convert_loop (src_decodeCache voice) 0 (Z.to_nat count)
                       resampleCache (src_outputResampleCache voice);
    guard_res (negb (nChannels (src_format voice) =? 0));;
    Ok (set_resample_state voice out (src_resampleFreqRatio voice)
          (src_resampleStep voice) (src_resampleOffset voice))
  else OutOfFuel.

(** ** Destination voices *)

(** [voice->mix]. [mix_resampler] is the handle of the platform resampler. *)
Record FAudioSubmixVoice : Type := {
  mix_common : FAudioVoiceCommon;
  mix_inputChannels : Z;
  mix_inputSampleRate : Z;
  mix_inputSamples : Z;
  mix_inputCache : list spec_float;
  mix_outputSamples : Z;
  mix_outputResampleCache : list spec_float;
  mix_resampler : nat;
  mix_processingStage : Z
}.

(** [voice->master]. [master_output] is the caller's block, bound for the
    duration of one update. *)
Record FAudioMasterVoice : Type := {
  master_inputChannels : Z;
  master_inputSampleRate : Z;
  master_output : list spec_float
}.

(** A voice that sends can target; [FAUDIO_VOICE_MASTER] is the [Master]
    case of [out->type]. *)
Inductive FAudioVoice : Type :=
| Submix (mix : FAudioSubmixVoice)
| Master (master : FAudioMasterVoice).

(** The voices that pointers of type [FAudioVoice*] refer to, by address. *)
Abbreviation voices := (gmap nat FAudioVoice).

Definition set_inputCache (m : FAudioSubmixVoice) (cache : list spec_float)
  : FAudioSubmixVoice :=
  {| mix_common := mix_common m;
     mix_inputChannels := mix_inputChannels m;
     mix_inputSampleRate := mix_inputSampleRate m;
     mix_inputSamples := mix_inputSamples m;
     mix_inputCache := cache;
     mix_outputSamples := mix_outputSamples m;
     mix_outputResampleCache := mix_outputResampleCache m;
     mix_resampler := mix_resampler m;
     mix_processingStage := mix_processingStage m |}.

Definition set_outputResampleCache (m : FAudioSubmixVoice)
  (cache : list spec_float) : FAudioSubmixVoice :=
  {| mix_common := mix_common m;
     mix_inputChannels := mix_inputChannels m;
     mix_inputSampleRate := mix_inputSampleRate m;
     mix_inputSamples := mix_inputSamples m;
     mix_inputCache := mix_inputCache m;
     mix_outputSamples := mix_outputSamples m;
     mix_outputResampleCache := cache;
     mix_resampler := mix_resampler m;
     mix_processingStage := mix_processingStage m |}.

Definition set_output (m : FAudioMasterVoice) (output : list spec_float)
  : FAudioMasterVoice :=
  {| master_inputChannels := master_inputChannels m;
     master_inputSampleRate := master_inputSampleRate m;
     master_output := output |}.

(** [stream] and [oChan] as the send loops pick them from [out]. *)
Definition stream_of (out : FAudioVoice) : list spec_float :=
  match out with
  | Master m => master_output m
  | Submix m => mix_inputCache m
  end.

Definition oChan_of (out : FAudioVoice) : Z :=
  match out with
  | Master m => master_inputChannels m
  | Submix m => mix_inputChannels m
  end.

Definition set_stream (out : FAudioVoice) (stream : list spec_float)
  : FAudioVoice :=
  match out with
  | Master m => Master (set_output m stream)
  | Submix m => Submix (set_inputCache m stream)
  end.

Definition inputSampleRate_of (out : FAudioVoice) : Z :=
  match out with
  | Master m => master_inputSampleRate m
  | Submix m => mix_inputSampleRate m
  end.

Definition deref (heap : voices) (p : nat) : res FAudioVoice :=
  match heap !! p with
  | Some v => Ok v
  | None => Fault
  end.

(** [for (i = 0; i < n; i += 1) body], started at [i]. *)
Fixpoint for_from {S} (i : Z) (n : nat) (body : Z -> S -> res S) (st : S)
  : res S :=
  match n with
  | O => Ok st
  | S n => st' ← body i st; for_from (i + 1) n body st'
  end.

Definition for_loop {S} (n : Z) (body : Z -> S -> res S) (st : S) : res S :=
  for_from 0 (Z.to_nat n) body st.

(** ** Mixing *)

Section Mixing.

Variable EXTRA_DECODE_PADDING : Z.
Variable FAUDIO_END_OF_STREAM : Z.
(** The ceiling of the accumulators, a [float] constant of FAudio.h. *)
Variable FAUDIO_MAX_VOLUME_LEVEL : spec_float.
(** The platform resampler of submix voices: the output cache it leaves
    and the number of samples it reports. *)
Variable FAudio_PlatformResample :
  nat -> list spec_float -> Z -> list spec_float -> Z -> list spec_float * Z.

(** [stream[idx] = FAudio_clamp(stream[idx] + x, -MAX, MAX)] on the stream
    of the voice at [out]. *)
Definition accumulate (heap : voices) (out : nat) (idx : Z) (x : spec_float)
  : res voices :=
  o ← deref heap out;
  s ← load1 (stream_of o) idx;
  stream ← store1 (stream_of o) idx
             (F32.clamp (F32.add s x) (SFopp FAUDIO_MAX_VOLUME_LEVEL)
                        FAUDIO_MAX_VOLUME_LEVEL);
  Ok (<[out := set_stream o stream]> heap).

(** *** [FAudio_INTERNAL_MixSource] *)

(** "Calculate the resample stepping value". *)
Definition MixSource_step (master : nat) (heap : voices)
  (voice : FAudioSourceVoice) : res FAudioSourceVoice :=
  if negb (F32.eqb (src_resampleFreqRatio voice) (src_freqRatio voice)) then
    out ← deref heap match sends (src_common voice) with
                     | [] => master
                     | send :: _ => pOutputVoice send
                     end;
    let outputRate := inputSampleRate_of out in
    let stepd :=
      F64.div (F64.mul (F64.of_float (src_freqRatio voice))
                       (F64.of_Z (nSamplesPerSec (src_format voice))))
              (F64.of_Z outputRate) in
    step ← DOUBLE_TO_FIXED stepd;
    Ok (set_resample_state voice (src_outputResampleCache voice)
          (src_freqRatio voice) step (src_resampleOffset voice))
  else Ok voice.

(** What the decode/resample loop carries. *)
Record mix_loop : Type := {
  ml_voice : FAudioSourceVoice;
  ml_mixed : Z;
  ml_resampleCache : Z;
  ml_trace : list event
}.

Definition MixSource_round (fuel : nat) (st : mix_loop) : res mix_loop :=
  let voice := ml_voice st in
  let left := u32 (src_outputSamples voice - ml_mixed st) in
  (* Base decode size, int to fixed, rounded up, fixed to int *)
  let toDecode := u64 (left * src_resampleStep voice) in
  let toDecode :=
    u64 (toDecode + (src_curBufferOffsetDec voice + FIXED_FRACTION_MASK)) in
  let toDecode := Z.shiftr toDecode FIXED_PRECISION in
  (* Decode... *)
  '(voice, toDecode, resetOffset, evs) ←
    FAudio_INTERNAL_DecodeBuffers EXTRA_DECODE_PADDING FAUDIO_END_OF_STREAM
      fuel voice toDecode;
  let step := src_resampleStep voice in
  let chans := nChannels (src_format voice) in
  let toResample := u64 (Z.shiftl toDecode FIXED_PRECISION) in
  let toResample := u64 (toResample - src_curBufferOffsetDec voice) in
  guard_res (negb (step =? 0));;
  let toResample := toResample / step in
  let toResample := FAudio_min toResample left in
  (* Resample... *)
  '(voice, toResample, resampleCache) ←
    (if step =? FIXED_ONE then
       voice ← MixSource_convert voice (ml_resampleCache st) toResample;
       Ok (voice, u64 (toResample * chans) / chans,
           ml_resampleCache st + u64 (toResample * chans))
     else
       voice ← FAudio_INTERNAL_ResamplePCM voice (ml_resampleCache st)
                 toResample;
       Ok (voice, toResample, ml_resampleCache st));
  (* Update buffer offsets *)
  let voice :=
    match src_bufferList voice with
    | _ :: _ =>
        let dec := u64 (src_curBufferOffsetDec voice + toResample * step) in
        let off :=
          u32 (src_curBufferOffset voice + Z.shiftr dec FIXED_PRECISION) in
        set_decode_state voice (src_decodeCache voice) (src_bufferList voice)
          (u32 (off - resetOffset)) (Z.land dec FIXED_FRACTION_MASK)
    | [] =>
        set_decode_state voice (src_decodeCache voice) (src_bufferList voice)
          0 0
    end in
  Ok {| ml_voice := voice;
        ml_mixed := u32 (ml_mixed st + toResample);
        ml_resampleCache := resampleCache;
        ml_trace := ml_trace st ++ evs |}.

Fixpoint MixSource_loop (fuel : nat) (st : mix_loop) : res mix_loop :=
  match src_bufferList (ml_voice st) with
  | _ :: _ =>
      if ml_mixed st <? src_outputSamples (ml_voice st) then
        match fuel with
        | O => OutOfFuel
        | S fuel' => st' ← MixSource_round fuel st; MixSource_loop fuel' st'
        end
      else Ok st
  | [] => Ok st
  end.

(** The contribution of source channel [ci] of frame [j] to destination
    channel [co] through send [i]:
    [cache[j * chans + ci] * channelVolume[ci] * volume * coefficients]. *)
Definition MixSource_term (voice : FAudioSourceVoice) (i j co ci : Z)
  : res spec_float :=
  let chans := nChannels (src_format voice) in
  x ← load1 (src_outputResampleCache voice) (u32 (j * chans + ci));
  cv ← load1 (channelVolume (src_common voice)) ci;
  row ← load1 (sendCoefficients (src_common voice)) i;
  k ← load1 row (u32 (co * chans + ci));
  Ok (F32.mul (F32.mul (F32.mul x cv) (volume (src_common voice))) k).

(** "Send float cache to sends". *)
Definition MixSource_sends (voice : FAudioSourceVoice) (mixed : Z)
  (heap : voices) : res voices :=
  for_loop (SendCount (src_common voice)) (fun i heap =>
    send ← load1 (sends (src_common voice)) i;
    out ← deref heap (pOutputVoice send);
    let oChan := oChan_of out in
    for_loop mixed (fun j heap =>
    for_loop oChan (fun co heap =>
    for_loop (nChannels (src_format voice)) (fun ci heap =>
      x ← MixSource_term voice i j co ci;
      accumulate heap (pOutputVoice send) (u32 (j * oChan + co)) x)
    heap) heap) heap) heap.

Definition FAudio_INTERNAL_MixSource (fuel : nat) (master : nat)
  (heap : voices) (voice : FAudioSourceVoice)
  : res (voices * FAudioSourceVoice * list event) :=
  (* Calculate the resample stepping value *)
  voice ← MixSource_step master heap voice;
  (* Last call for buffer data! *)
  let started :=
    notify (src_callback voice) OnVoiceProcessingPassStart
      (Ev_OnVoiceProcessingPassStart (u32 (src_decodeSamples voice * 2))) in
  let ended :=
    notify (src_callback voice) OnVoiceProcessingPassEnd
      Ev_OnVoiceProcessingPassEnd in
  match src_bufferList voice with
  | [] =>
      (* Nothing to do? *)
      Ok (heap, voice, started)
  | _ :: _ =>
      st ← MixSource_loop fuel
             {| ml_voice := voice; ml_mixed := 0; ml_resampleCache := 0;
                ml_trace := started |};
      let voice := ml_voice st in
      if ml_mixed st =? 0 then Ok (heap, voice, ml_trace st ++ ended)
      else if SendCount (src_common voice) =? 0
      then Ok (heap, voice, ml_trace st ++ ended)
      else
        heap ← MixSource_sends voice (ml_mixed st) heap;
        Ok (heap, voice, ml_trace st ++ ended)
  end.

(** *** [FAudio_INTERNAL_MixSubmix] *)

(** "Submix volumes are applied before effects/filters". *)
Definition MixSubmix_volume (m : FAudioSubmixVoice) (resampled : Z)
  (cache : list spec_float) : res (list spec_float) :=
  let chans := mix_inputChannels m in
  for_loop resampled (fun i cache =>
  for_loop chans (fun ci cache =>
    x ← load1 cache (u32 (i * chans + ci));
    cv ← load1 (channelVolume (mix_common m)) ci;
    store1 cache (u32 (i * chans + ci))
           (F32.mul (F32.mul x cv) (volume (mix_common m))))
  cache) cache.

Definition MixSubmix_term (m : FAudioSubmixVoice) (i j co ci : Z)
  : res spec_float :=
  let chans := mix_inputChannels m in
  x ← load1 (mix_outputResampleCache m) (u32 (j * chans + ci));
  row ← load1 (sendCoefficients (mix_common m)) i;
  k ← load1 row (u32 (co * chans + ci));
  Ok (F32.mul x k).

Definition as_submix (v : FAudioVoice) : res FAudioSubmixVoice :=
  match v with
  | Submix m => Ok m
  | Master _ => Fault
  end.

(** "Send float cache to sends", for the submix voice at address [p]. *)
Definition MixSubmix_sends (p : nat) (resampled : Z) (heap : voices)
  : res voices :=
  m ← deref heap p ≫= as_submix;
  for_loop (SendCount (mix_common m)) (fun i heap =>
    send ← load1 (sends (mix_common m)) i;
    out ← deref heap (pOutputVoice send);
    let oChan := oChan_of out in
    for_loop resampled (fun j heap =>
    for_loop oChan (fun co heap =>
    for_loop (mix_inputChannels m) (fun ci heap =>
      x ← MixSubmix_term m i j co ci;
      accumulate heap (pOutputVoice send) (u32 (j * oChan + co)) x)
    heap) heap) heap) heap.

(** "Zero this at the end, for the next update":
    [FAudio_zero(inputCache, sizeof(float) * inputSamples)]. *)
Definition MixSubmix_end (p : nat) (heap : voices) : res voices :=
  m ← deref heap p ≫= as_submix;
  cache ← store (mix_inputCache m) 0
            (replicate (Z.to_nat (mix_inputSamples m)) F32.zero);
  Ok (<[p := Submix (set_inputCache m cache)]> heap).

Definition FAudio_INTERNAL_MixSubmix (p : nat) (heap : voices) : res voices :=
  m ← deref heap p ≫= as_submix;
  if SendCount (mix_common m) =? 0 then
    (* Nothing to do? *)
    MixSubmix_end p heap
  else
    (* Resample (if necessary) *)
    let '(cache, resampled) :=
      FAudio_PlatformResample (mix_resampler m) (mix_inputCache m)
        (mix_inputSamples m) (mix_outputResampleCache m)
        (mix_outputSamples m) in
    let chans := mix_inputChannels m in
    guard_res (negb (chans =? 0));;
    let resampled := u32 resampled / chans in
    cache ← MixSubmix_volume m resampled cache;
    let resampled := u32 (resampled * chans) / chans in
    let heap := <[p := Submix (set_outputResampleCache m cache)]> heap in
    heap ← MixSubmix_sends p resampled heap;
    MixSubmix_end p heap.

End Mixing.

(** ** The engine: [FAudio_INTERNAL_UpdateEngine] *)

Record FAudioEngineCallback : Type := {
  OnProcessingPassEnd : bool;
  OnProcessingPassStart : bool
}.

(** [audio->sources] holds the source voices themselves, [audio->submixes]
    the addresses of the submix voices, both in list order. *)
Record FAudio : Type := {
  active : bool;
  callbacks : list FAudioEngineCallback;
  master : nat;
  sources : list FAudioSourceVoice;
  submixes : list nat;
  submixStages : Z;
  heap : voices
}.

(** A call of one of the two mix passes: the source voice at a position of
    [audio->sources], or the submix voice at an address. *)
Inductive mix_call : Type :=
| Call_MixSource (i : nat)
| Call_MixSubmix (p : nat).

#[global] Instance mix_call_eq_dec : EqDecision mix_call.
Proof. solve_decision. Defined.

(** What an update carries: the voices, the notifications delivered and
    the mix passes called, both in order. *)
Record update : Type := {
  up_heap : voices;
  up_sources : list FAudioSourceVoice;
  up_trace : list event;
  up_calls : list mix_call
}.

Fixpoint foldM {A S} (f : A -> S -> res S) (l : list A) (st : S) : res S :=
  match l with
  | [] => Ok st
  | a :: l => st' ← f a st; foldM f l st'
  end.

Section Engine.

Variable EXTRA_DECODE_PADDING : Z.
Variable FAUDIO_END_OF_STREAM : Z.
Variable FAUDIO_MAX_VOLUME_LEVEL : spec_float.
Variable FAudio_PlatformResample :
  nat -> list spec_float -> Z -> list spec_float -> Z -> list spec_float * Z.

(** "ProcessingPassStart callbacks" / "OnProcessingPassEnd callbacks". *)
Definition engine_notify (f : FAudioEngineCallback -> bool)
  (e : nat -> event) (cbs : list FAudioEngineCallback) : list event :=
  concat (imap (fun i cb => if f cb then [e i] else []) cbs).

(** "Mix sources": one step of the walk over [audio->sources]. *)
Definition UpdateEngine_source (fuel : nat) (master : nat) (i : nat)
  (st : update) : res update :=
  match up_sources st !! i with
  | Some voice =>
      if src_active voice then
        '(heap, voice, evs) ←
          FAudio_INTERNAL_MixSource EXTRA_DECODE_PADDING FAUDIO_END_OF_STREAM
            FAUDIO_MAX_VOLUME_LEVEL fuel master (up_heap st) voice;
        Ok {| up_heap := heap;
              up_sources := <[i := voice]> (up_sources st);
              up_trace := up_trace st ++ evs;
              up_calls := up_calls st ++ [Call_MixSource i] |}
      else Ok st
  | None => Fault
  end.

(** "Mix submixes, ordered by processing stage": one step of the inner
    walk over [audio->submixes], in the round of stage [i]. *)
Definition UpdateEngine_submix (i : Z) (p : nat) (st : update) : res update :=
  m ← deref (up_heap st) p ≫= as_submix;
  if mix_processingStage m =? i then
    heap ← FAudio_INTERNAL_MixSubmix FAUDIO_MAX_VOLUME_LEVEL
             FAudio_PlatformResample p (up_heap st);
    Ok {| up_heap := heap;
          up_sources := up_sources st;
          up_trace := up_trace st;
          up_calls := up_calls st ++ [Call_MixSubmix p] |}
  else Ok st.

Definition FAudio_INTERNAL_UpdateEngine (fuel : nat) (audio : FAudio)
  (output : list spec_float) : res update :=
  let idle :=
    {| up_heap := heap audio; up_sources := sources audio;
       up_trace := []; up_calls := [] |} in
  if active audio then
    (* Writes to master will directly write to output *)
    m ← deref (heap audio) (master audio);
    heap ← match m with
           | Master m =>
               Ok (<[master audio := Master (set_output m output)]>
                     (heap audio))
           | Submix _ => Fault
           end;
    let st :=
      {| up_heap := heap; up_sources := sources audio;
         up_trace := engine_notify OnProcessingPassStart
                       Ev_OnProcessingPassStart (callbacks audio);
         up_calls := [] |} in
    (* Mix sources *)
    st ← foldM (UpdateEngine_source fuel (master audio))
               (seq 0 (length (sources audio))) st;
    (* Mix submixes, ordered by processing stage *)
    st ← for_loop (submixStages audio)
           (fun i st => foldM (UpdateEngine_submix i) (submixes audio) st) st;
    Ok {| up_heap := up_heap st;
          up_sources := up_sources st;
          up_trace := up_trace st ++
            engine_notify OnProcessingPassEnd Ev_OnProcessingPassEnd
              (callbacks audio);
          up_calls := up_calls st |}
  else Ok idle.

End Engine.
(** * The FFmpeg decoder: [src/FAudio_ffmpeg.c]

    The decoder of WMA and XMA voices. Samples stay what the codec made of
    them: the caches hold the 32-bit words of [float] values, which the
    decoder moves and never computes with. libavcodec is a parameter of
    the embedding: what it answers is not fixed, so every property holds
    for whatever codec is linked. *)

Module FFmpeg.

(** [AVFrame], as the decoder reads it: the samples per channel and the
    data planes, each a run of 32-bit words. A plane that is not there (a
    null pointer) is an empty run. *)
Record AVFrame : Type := {
  nb_samples : Z;
  data : list (list Z)
}.

Definition plane (frame : AVFrame) (c : Z) : list Z :=
  if 0 <=? c then default [] (data frame !! Z.to_nat c) else [].

(** [avpkt.data]: a pointer into the payload of the buffer or into the
    padding buffer. *)
Inductive packet_data : Type :=
| InAudioData (off : Z)
| InPaddingBuffer (off : Z).

(** [FAudioBufferWMA]. *)
Record FAudioBufferWMA : Type := {
  pDecodedPacketCumulativeBytes : list Z;
  PacketCount : Z
}.

(** [pRealloc(mem, n)] of an allocator that succeeds: the first [n]
    elements stay, what is new holds [fresh]. *)
Definition pRealloc {A} (fresh : A) (mem : list A) (n : Z) : list A :=
  take (Z.to_nat n) mem ++ replicate (Z.to_nat n - length mem) fresh.

Section Codec.

(** [AVCodecContext] and the calls of libavcodec. A call answers with the
    context it leaves and its return value; [avcodec_receive_frame] also
    with the frame it leaves, [avcodec_send_packet] is given the bytes from
    [avpkt.data] on and [avpkt.size]. *)
Context {AVCodecContext : Type}.
Variable channels : AVCodecContext -> Z.
(** [av_sample_fmt_is_planar(av_ctx->sample_fmt)]. *)
Variable av_sample_fmt_is_planar : AVCodecContext -> bool.
Variable avcodec_receive_frame :
  AVCodecContext -> AVFrame -> AVCodecContext * AVFrame * Z.
Variable avcodec_send_packet :
  AVCodecContext -> list byte -> Z -> AVCodecContext * Z.
(** [AVERROR(EAGAIN)] and [AV_INPUT_BUFFER_PADDING_SIZE]. *)
Variable AVERROR_EAGAIN : Z.
Variable AV_INPUT_BUFFER_PADDING_SIZE : Z.
(** What newly allocated memory holds. *)
Variable fresh_byte : byte.
Variable fresh_word : Z.

Record FAudioFFmpeg : Type := {
  av_ctx : AVCodecContext;
  av_frame : AVFrame;
  encOffset : Z;
  decOffset : Z;
  paddingBytes : Z;
  paddingBuffer : list byte;
  convertCapacity : Z;
  convertSamples : Z;
  convertOffset : Z;
  convertCache : list Z
}.

Definition set_codec (f : FAudioFFmpeg) (ctx : AVCodecContext)
  (frame : AVFrame) : FAudioFFmpeg :=
  {| av_ctx := ctx; av_frame := frame;
     encOffset := encOffset f; decOffset := decOffset f;
     paddingBytes := paddingBytes f; paddingBuffer := paddingBuffer f;
     convertCapacity := convertCapacity f;
     convertSamples := convertSamples f;
     convertOffset := convertOffset f; convertCache := convertCache f |}.

Definition set_offsets (f : FAudioFFmpeg) (enc dec : Z) : FAudioFFmpeg :=
  {| av_ctx := av_ctx f; av_frame := av_frame f;
     encOffset := enc; decOffset := dec;
     paddingBytes := paddingBytes f; paddingBuffer := paddingBuffer f;
     convertCapacity := convertCapacity f;
     convertSamples := convertSamples f;
     convertOffset := convertOffset f; convertCache := convertCache f |}.

Definition set_padding (f : FAudioFFmpeg) (n : Z) (mem : list byte)
  : FAudioFFmpeg :=
  {| av_ctx := av_ctx f; av_frame := av_frame f;
     encOffset := encOffset f; decOffset := decOffset f;
     paddingBytes := n; paddingBuffer := mem;
     convertCapacity := convertCapacity f;
     convertSamples := convertSamples f;
     convertOffset := convertOffset f; convertCache := convertCache f |}.

Definition set_convert (f : FAudioFFmpeg) (capacity samples offset : Z)
  (cache : list Z) : FAudioFFmpeg :=
  {| av_ctx := av_ctx f; av_frame := av_frame f;
     encOffset := encOffset f; decOffset := decOffset f;
     paddingBytes := paddingBytes f; paddingBuffer := paddingBuffer f;
     convertCapacity := capacity; convertSamples := samples;
     convertOffset := offset; convertCache := cache |}.

(** [FAudio_FFMPEG_reset]. *)
Definition FAudio_FFMPEG_reset (f : FAudioFFmpeg) : FAudioFFmpeg :=
  set_offsets f 0 0.

(** [FAudio_INTERNAL_ResizeConvertCache]. *)
Definition FAudio_INTERNAL_ResizeConvertCache (f : FAudioFFmpeg)
  (samples : Z) : FAudioFFmpeg :=
  if samples >? convertCapacity f then
    set_convert f samples (convertSamples f) (convertOffset f)
      (pRealloc fresh_word (convertCache f) samples)
  else f.

(** The bytes that [avpkt.data] points at. *)
Definition packet_bytes (f : FAudioFFmpeg) (buffer : FAudioBuffer)
  (p : packet_data) : list byte :=
  match p with
  | InAudioData off => drop (Z.to_nat off) (pAudioData buffer)
  | InPaddingBuffer off => drop (Z.to_nat off) (paddingBuffer f)
  end.

Definition packet_advance (p : packet_data) (n : Z) : packet_data :=
  match p with
  | InAudioData off => InAudioData (off + n)
  | InPaddingBuffer off => InPaddingBuffer (off + n)
  end.

(** "The FFmpeg API requires that a number of extra bytes must be
    available past the end of the buffer": the copy near the end of the
    buffer. *)
Definition Fill_pad (f : FAudioFFmpeg) (buffer : FAudioBuffer)
  : res FAudioFFmpeg :=
  let remain := u32 (AudioBytes buffer - encOffset f) in
  let f :=
    if paddingBytes f <? remain + AV_INPUT_BUFFER_PADDING_SIZE then
      set_padding f (remain + AV_INPUT_BUFFER_PADDING_SIZE)
        (pRealloc fresh_byte (paddingBuffer f)
           (remain + AV_INPUT_BUFFER_PADDING_SIZE))
    else f in
  bytes ← load (pAudioData buffer) (encOffset f) remain;
  mem ← store (paddingBuffer f) 0 bytes;
  mem ← store mem remain
          (replicate (Z.to_nat AV_INPUT_BUFFER_PADDING_SIZE) x00);
  Ok (set_padding f (paddingBytes f) mem).

(** One round of the [for(;;)]: [inl] to go round again, [inr] for a
    [break]. A call of the codec that fails stops at its [FAudio_assert]. *)
Definition Fill_round (size : Z) (buffer : FAudioBuffer)
  (st : FAudioFFmpeg * packet_data)
  : res (FAudioFFmpeg * packet_data + FAudioFFmpeg) :=
  let '(f, avpkt_data) := st in
  let '(ctx, frame, averr) :=
    avcodec_receive_frame (av_ctx f) (av_frame f) in
  let f := set_codec f ctx frame in
  if averr =? AVERROR_EAGAIN then
    (* ffmpeg needs more data to decode *)
    if encOffset f >=? AudioBytes buffer then
      (* no more data in this buffer *)
      Ok (inr f)
    else
      '(f, avpkt_data) ←
        (if u32 (encOffset f + size + AV_INPUT_BUFFER_PADDING_SIZE)
              >? AudioBytes buffer
         then f ← Fill_pad f buffer; Ok (f, InPaddingBuffer 0)
         else Ok (f, avpkt_data));
      let '(ctx, averr) :=
        avcodec_send_packet (av_ctx f) (packet_bytes f buffer avpkt_data)
          size in
      let f := set_codec f ctx (av_frame f) in
      guard_res (averr =? 0);;
      Ok (inl (set_offsets f (u32 (encOffset f + size)) (decOffset f),
               packet_advance avpkt_data size))
  else
    guard_res (averr =? 0);;
    Ok (inr f).

Fixpoint Fill_loop (fuel : nat) (size : Z) (buffer : FAudioBuffer)
  (st : FAudioFFmpeg * packet_data) : res FAudioFFmpeg :=
  match fuel with
  | O => OutOfFuel
  | S fuel' =>
      r ← Fill_round size buffer st;
      match r with
      | inl st' => Fill_loop fuel' size buffer st'
      | inr f => Ok f
      end
  end.

(** "copy decoded samples to internal buffer, reordering if necessary". *)
Definition Fill_planar (frame : AVFrame) (chans : Z) (cache : list Z)
  : res (list Z * Z) :=
  for_loop (nb_samples frame) (fun s st =>
  for_loop chans (fun c '(cache, dst) =>
    w ← load1 (plane frame c) s;
    cache ← store1 cache dst w;
    Ok (cache, dst + 1))
  st) (cache, 0).

Definition Fill_copy (f : FAudioFFmpeg) : res FAudioFFmpeg :=
  let frame := av_frame f in
  let chans := channels (av_ctx f) in
  let total_samples := u32 (nb_samples frame * chans) in
  let f := FAudio_INTERNAL_ResizeConvertCache f total_samples in
  cache ←
    (if av_sample_fmt_is_planar (av_ctx f) then
       '(cache, _) ← Fill_planar frame chans (convertCache f);
       Ok cache
     else
       ws ← load (plane frame 0) 0 total_samples;
       store (convertCache f) 0 ws);
  Ok (set_convert f (convertCapacity f) (u32 (nb_samples frame)) 0 cache).

(** [FAudio_INTERNAL_FillConvertCache]; [nBlockAlign] is that of the
    format of the voice. *)
Definition FAudio_INTERNAL_FillConvertCache (fuel : nat) (nBlockAlign : Z)
  (f : FAudioFFmpeg) (buffer : FAudioBuffer) : res FAudioFFmpeg :=
  f ← Fill_loop fuel nBlockAlign buffer (f, InAudioData (encOffset f));
  Fill_copy f.

(** What the decoder reads of the voice: [voice->src.format],
    [voice->src.curBufferOffset], the [bufferWMA] of the head of
    [voice->src.bufferList] if there is one, and [voice->src.ffmpeg]. *)
Record wma_source : Type := {
  voice_format : FAudioWaveFormatEx;
  voice_curBufferOffset : Z;
  voice_bufferWMA : option FAudioBufferWMA;
  voice_ffmpeg : FAudioFFmpeg
}.

(** "figure out in which encoded packet has this position". *)
Fixpoint Decode_seek (fuel : nat) (cumulative : list Z) (byteOffset : Z)
  (packetIdx : Z) : res Z :=
  if packetIdx >? 0 then
    bytes ← load1 cumulative packetIdx;
    if bytes >? byteOffset then
      match fuel with
      | O => OutOfFuel
      | S fuel' =>
          Decode_seek fuel' cumulative byteOffset (u32 (packetIdx - 1))
      end
    else Ok packetIdx
  else Ok packetIdx.

(** "check if we need to reposition in the stream". *)
Definition Decode_reposition (cur : Z) (f : FAudioFFmpeg)
  : FAudioFFmpeg * bool :=
  if cur <? decOffset f then
    let delta := u32 (decOffset f - cur) in
    if convertOffset f >=? delta then
      (set_offsets
         (set_convert f (convertCapacity f) (convertSamples f)
            (u32 (convertOffset f - delta)) (convertCache f))
         (encOffset f) cur,
       false)
    else (f, true)
  else if cur >? decOffset f then (f, true)
  else (f, false).

Definition Decode_reseek (fuel : nat) (voice : wma_source)
  (buffer : FAudioBuffer) (f : FAudioFFmpeg) : res FAudioFFmpeg :=
  let format := voice_format voice in
  let decSampleSize := u32 (nChannels format * wBitsPerSample format / 8) in
  let outSampleSize := u32 (nChannels format * 4) in
  match voice_bufferWMA voice with
  | None => Fault
  | Some bufferWMA =>
      let byteOffset := u32 (voice_curBufferOffset voice * decSampleSize) in
      let table := pDecodedPacketCumulativeBytes bufferWMA in
      packetIdx ← Decode_seek (length table) table byteOffset
                    (u32 (PacketCount bufferWMA - 1));
      cumulative ←
        (if packetIdx =? 0 then Ok 0 else load1 table (packetIdx - 1));
      (* seek to the wanted position in the stream *)
      let f := set_offsets f (u32 (packetIdx * nBlockAlign format))
                 (decOffset f) in
      f ← FAudio_INTERNAL_FillConvertCache fuel (nBlockAlign format) f buffer;
      guard_res (negb (outSampleSize =? 0));;
      Ok (set_offsets
            (set_convert f (convertCapacity f) (convertSamples f)
               (u32 (byteOffset - cumulative) / outSampleSize)
               (convertCache f))
            (encOffset f) (voice_curBufferOffset voice))
  end.

(** What the copy loop carries. *)
Record copy_loop : Type := {
  cl_ffmpeg : FAudioFFmpeg;
  cl_decodeCache : list Z;
  cl_done : Z
}.

Definition Decode_round (fuel : nat) (format : FAudioWaveFormatEx)
  (buffer : FAudioBuffer) (samples : Z) (st : copy_loop)
  : res (copy_loop + copy_loop) :=
  let chans := nChannels format in
  (* check for available data in decoded cache, refill if necessary *)
  f ← (if convertOffset (cl_ffmpeg st) >=? convertSamples (cl_ffmpeg st)
       then FAudio_INTERNAL_FillConvertCache fuel (nBlockAlign format)
              (cl_ffmpeg st) buffer
       else Ok (cl_ffmpeg st));
  let available := u32 (convertSamples f - convertOffset f) in
  if available <=? 0 then
    Ok (inr {| cl_ffmpeg := f; cl_decodeCache := cl_decodeCache st;
               cl_done := cl_done st |})
  else
    let todo := FAudio_min available (u32 (samples - cl_done st)) in
    ws ← load (convertCache f) (u32 (convertOffset f * chans))
           (u32 (todo * chans));
    cache ← store (cl_decodeCache st) (u32 (cl_done st * chans)) ws;
    Ok (inl {| cl_ffmpeg :=
                 set_convert f (convertCapacity f) (convertSamples f)
                   (u32 (convertOffset f + todo)) (convertCache f);
               cl_decodeCache := cache;
               cl_done := u32 (cl_done st + todo) |}).

Fixpoint Decode_loop (fuel : nat) (format : FAudioWaveFormatEx)
  (buffer : FAudioBuffer) (samples : Z) (st : copy_loop)
  : res copy_loop :=
  if cl_done st <? samples then
    match fuel with
    | O => OutOfFuel
    | S fuel' =>
        r ← Decode_round fuel format buffer samples st;
        match r with
        | inl st' => Decode_loop fuel' format buffer samples st'
        | inr st' => Ok st'
        end
    end
  else Ok st.

(** [FAudio_INTERNAL_DecodeFFMPEG]: the state of the decoder and the
    decode cache that the call leaves. *)
Definition FAudio_INTERNAL_DecodeFFMPEG (fuel : nat) (voice : wma_source)
  (buffer : FAudioBuffer) (decodeCache : list Z) (samples : Z)
  : res (FAudioFFmpeg * list Z) :=
  let format := voice_format voice in
  let chans := nChannels format in
  let '(f, reseek) :=
    Decode_reposition (voice_curBufferOffset voice) (voice_ffmpeg voice) in
  f ← (if reseek then Decode_reseek fuel voice buffer f else Ok f);
  st ← Decode_loop fuel format buffer samples
         {| cl_ffmpeg := f; cl_decodeCache := decodeCache; cl_done := 0 |};
  (* FIXME: This block should not be here! *)
  cache ←
    (if cl_done st <? samples then
       store (cl_decodeCache st) (u32 (cl_done st * chans))
         (replicate (Z.to_nat (u32 ((samples - cl_done st) * chans))) 0)
     else Ok (cl_decodeCache st));
  let f := cl_ffmpeg st in
  Ok (set_offsets f (encOffset f) (u32 (decOffset f + samples)), cache).

End Codec.

End FFmpeg.

(** ** Vocabulary of the properties *)

(** How many queued buffers carry the context [c], and how often an event
    was delivered. *)
Definition queued (c : Z) (q : list FAudioBuffer) : nat :=
  length (filter (fun b => pContext b = c) q).

Definition fired (e : event) (tr : list event) : nat :=
  count_occ event_eq_dec tr e.

(** Between two decode calls the owner of the voice may move the play
    position and replace the caches, but the queue and the registered
    callbacks are those the last call left. *)
Definition same_queue (v v' : FAudioSourceVoice) : Prop :=
  src_bufferList v = src_bufferList v' /\ src_callback v = src_callback v'.

(** A stretch of a voice's life: any number of decode calls, of any sizes,
    with the notifications they deliver. *)
Inductive playback (EXTRA_DECODE_PADDING FAUDIO_END_OF_STREAM : Z)
  : FAudioSourceVoice -> list event -> FAudioSourceVoice -> Prop :=
| playback_done v : playback EXTRA_DECODE_PADDING FAUDIO_END_OF_STREAM v [] v
| playback_decode v v1 v2 v3 fuel toDecode toDecode' resetOffset evs evs' :
    same_queue v v1 ->
    FAudio_INTERNAL_DecodeBuffers EXTRA_DECODE_PADDING FAUDIO_END_OF_STREAM
      fuel v1 toDecode = Ok (v2, toDecode', resetOffset, evs) ->
    playback EXTRA_DECODE_PADDING FAUDIO_END_OF_STREAM v2 evs' v3 ->
    playback EXTRA_DECODE_PADDING FAUDIO_END_OF_STREAM v (evs ++ evs') v3.

(** What one round of the decode loop may do to the queue it found as
    [buffer :: next], and the notifications that go with it: carry on in
    the same buffer, rewind it into its loop, or finish it. *)
Inductive round_effect (cbk : option FAudioVoiceCallback)
  (buffer : FAudioBuffer) (next : list FAudioBuffer)
  : list FAudioBuffer -> list event -> Prop :=
| effect_continue started :
    started = [] \/
    started = notify cbk OnBufferStart (Ev_OnBufferStart (pContext buffer)) ->
    round_effect cbk buffer next (buffer :: next) started
| effect_loop started :
    started = [] \/
    started = notify cbk OnBufferStart (Ev_OnBufferStart (pContext buffer)) ->
    LoopCount buffer > 0 ->
    round_effect cbk buffer next
      ((if LoopCount buffer <? 255
        then set_LoopCount buffer (u32 (LoopCount buffer - 1))
        else buffer) :: next)
      (started ++ notify cbk OnLoopEnd (Ev_OnLoopEnd (pContext buffer)))
| effect_end started ended :
    started = [] \/
    started = notify cbk OnBufferStart (Ev_OnBufferStart (pContext buffer)) ->
    ended = [] \/ ended = notify cbk OnStreamEnd Ev_OnStreamEnd ->
    LoopCount buffer <= 0 ->
    round_effect cbk buffer next next
      (started ++
       notify cbk OnBufferEnd (Ev_OnBufferEnd (pContext buffer)) ++ ended).

(** The state of a buffer with context [c] that entered the queue with
    loop counter [n]: still queued, with as many loops left as [n] exceeds
    the loop-end notifications so far and no buffer-end yet; or gone, after
    [n] loop-ends and one buffer-end. *)
Definition loop_progress (c n : Z) (q : list FAudioBuffer) (tr : list event)
  : Prop :=
  (queued c q = 1%nat /\
   (forall b, b ∈ q -> pContext b = c ->
      0 <= LoopCount b /\
      LoopCount b + Z.of_nat (fired (Ev_OnLoopEnd c) tr) = n) /\
   fired (Ev_OnBufferEnd c) tr = 0%nat)
  \/
  (queued c q = 0%nat /\
   Z.of_nat (fired (Ev_OnLoopEnd c) tr) = n /\
   fired (Ev_OnBufferEnd c) tr = 1%nat).

(** A buffer whose loop counter is 255 is still queued, the only one with
    its context, and has had no buffer-end. *)
Definition loops_forever (b : FAudioBuffer) (q : list FAudioBuffer)
  (tr : list event) : Prop :=
  b ∈ q /\ queued (pContext b) q = 1%nat /\
  fired (Ev_OnBufferEnd (pContext b)) tr = 0%nat.

(** Decode calls one after the other, with the requests [reqs], the voice
    left alone in between. *)
Fixpoint run_calls (EXTRA_DECODE_PADDING FAUDIO_END_OF_STREAM : Z)
  (fuel : nat) (reqs : list Z) (v : FAudioSourceVoice)
  : res (FAudioSourceVoice * list event) :=
  match reqs with
  | [] => Ok (v, [])
  | toDecode :: reqs =>
      '(v, _, _, evs) ← FAudio_INTERNAL_DecodeBuffers EXTRA_DECODE_PADDING
                          FAUDIO_END_OF_STREAM fuel v toDecode;
      '(v, evs') ← run_calls EXTRA_DECODE_PADDING FAUDIO_END_OF_STREAM
                     fuel reqs v;
      Ok (v, evs ++ evs')
  end.

(** ** The samples of a PCM payload

    Sample [i] of an 8-bit payload is its byte [i], as the high byte of a
    16-bit sample; sample [i] of a 16-bit payload is made of its bytes
    [2 * i] and [2 * i + 1]. A stereo payload holds the left and the right
    sample of frame [k] as its samples [2 * k] and [2 * k + 1]. *)

Definition pcm8_at (data : list byte) (i : Z) : option Z :=
  match data !! Z.to_nat i with
  | Some b => Some (s16 (Z.shiftl (int8_of b) 8))
  | None => None
  end.

Definition pcm16_at (data : list byte) (i : Z) : option Z :=
  match data !! Z.to_nat (2 * i), data !! Z.to_nat (2 * i + 1) with
  | Some lo, Some hi => Some (int16_of lo hi)
  | _, _ => None
  end.

(** A decoder call gave the [n] samples of the payload that begin with its
    sample [first], in the payload's order, and nothing else. *)
Definition reads_from (sample_at : Z -> option Z) (first n : Z)
  (r : res (list Z)) : Prop :=
  exists out,
    r = Ok out /\ Z.of_nat (length out) = n /\
    forall j, 0 <= j < n ->
      is_Some (sample_at (first + j)) /\
      out !! Z.to_nat j = sample_at (first + j).

(** ** Sample voices *)

Definition pcm8 (chans : Z) : FAudioWaveFormatEx :=
  {| wFormatTag := 1; nChannels := chans; nSamplesPerSec := 44100;
     nAvgBytesPerSec := 44100 * chans; nBlockAlign := chans;
     wBitsPerSample := 8; cbSize := 0 |}.

Definition all_callbacks : FAudioVoiceCallback :=
  {| OnBufferEnd := true; OnBufferStart := true; OnLoopEnd := true;
     OnStreamEnd := true; OnVoiceProcessingPassEnd := true;
     OnVoiceProcessingPassStart := true |}.

Definition no_sends : FAudioVoiceCommon :=
  {| sends := []; sendCoefficients := []; channelVolume := [F32.of_Z 1];
     volume := F32.of_Z 1 |}.

(** A voice at rate ratio 1 with room for 64 decoded values, whose cache
    holds 9s from earlier blocks. *)
Definition sample_voice (format : FAudioWaveFormatEx)
  (decode : FAudioDecodeCallback) (queue : list FAudioBuffer)
  : FAudioSourceVoice :=
  {| src_common := no_sends;
     src_decodeSamples := 64;
     src_outputSamples := 4;
     src_decodeCache := replicate 64 9;
     src_outputResampleCache := replicate 64 F32.zero;
     src_resampleFreqRatio := F32.of_Z 1;
     src_resampleStep := FIXED_ONE;
     src_resampleOffset := 0;
     src_format := format;
     src_decode := decode;
     src_callback := Some all_callbacks;
     src_active := true;
     src_freqRatio := F32.of_Z 1;
     src_bufferList := queue;
     src_curBufferOffset := 0;
     src_curBufferOffsetDec := 0 |}.

(** Four mono 8-bit samples, played from 0 to 4, looping [n] times over
    [1, 3). *)
Definition looping_buffer (n : Z) : FAudioBuffer :=
  {| Flags := 0; AudioBytes := 4; pAudioData := [x01; x02; x03; x04];
     PlayBegin := 0; PlayLength := 4; LoopBegin := 1; LoopLength := 3;
     LoopCount := n; pContext := 7 |}.

Definition looping_voice (n : Z) : FAudioSourceVoice :=
  sample_voice (pcm8 1) Decoders.FAudio_INTERNAL_DecodeMonoPCM8
    [looping_buffer n].

(** Two mono 8-bit samples whose loop window is the whole play window,
    looped once. *)
Definition rewinding_buffer : FAudioBuffer :=
  {| Flags := 0; AudioBytes := 2; pAudioData := [x01; x02];
     PlayBegin := 0; PlayLength := 2; LoopBegin := 0; LoopLength := 2;
     LoopCount := 1; pContext := 7 |}.

Definition rewinding_voice : FAudioSourceVoice :=
  sample_voice (pcm8 1) Decoders.FAudio_INTERNAL_DecodeMonoPCM8
    [rewinding_buffer].

(** Two frames of 8-bit PCM, not looped, as the last buffer of a queue:
    read as mono they are the frames 1, 2 and 3, 4 of a longer buffer, read
    as stereo the frames (1, 2) and (3, 4). *)
Definition last_buffer (bytes : list byte) : FAudioBuffer :=
  {| Flags := 0; AudioBytes := Z.of_nat (length bytes); pAudioData := bytes;
     PlayBegin := 0; PlayLength := 2; LoopBegin := 0; LoopLength := 0;
     LoopCount := 0; pContext := 7 |}.

Definition starved_mono_voice : FAudioSourceVoice :=
  sample_voice (pcm8 1) Decoders.FAudio_INTERNAL_DecodeMonoPCM8
    [last_buffer [x01; x02]].

Definition starved_stereo_voice : FAudioSourceVoice :=
  sample_voice (pcm8 2) Decoders.FAudio_INTERNAL_DecodeStereoPCM8
    [last_buffer [x01; x02; x03; x04]].

(** The decode cache after a call, when the call returns. *)
Definition cache_after (r : res (FAudioSourceVoice * Z * Z * list event))
  : option (list Z) :=
  match r with
  | Ok (v, _, _, _) => Some (src_decodeCache v)
  | _ => None
  end.

(** The notifications of a run of decode calls, when it returns. *)
Definition trace_after (r : res (FAudioSourceVoice * list event))
  : option (list event) :=
  match r with
  | Ok (_, tr) => Some tr
  | _ => None
  end.

(** A voice with callbacks and nothing queued, at rate ratio 1. *)
Definition idle_voice : FAudioSourceVoice :=
  sample_voice (pcm8 1) Decoders.FAudio_INTERNAL_DecodeMonoPCM8 [].

(** The notifications of a source mix pass, when it returns. *)
Definition trace_of_mix (r : res (voices * FAudioSourceVoice * list event))
  : option (list event) :=
  match r with
  | Ok (_, _, tr) => Some tr
  | _ => None
  end.

(** [FAUDIO_MAX_VOLUME_LEVEL] as XAudio2 has it, 2^24. *)
Definition max_volume_2_24 : spec_float := F32.of_pow2 1 24.

(** The resample step as a function of the rate ratio and the two rates:
    [ratio * sourceRate / destRate], evaluated in [double] as C does,
    scaled by 2^32 and rounded half up by [DOUBLE_TO_FIXED]. *)
Definition resample_step (ratio : spec_float) (sourceRate destRate : Z)
  : res Z :=
  DOUBLE_TO_FIXED
    (F64.div (F64.mul (F64.of_float ratio) (F64.of_Z sourceRate))
             (F64.of_Z destRate)).

(** The same quantity without the arithmetic of [double]: for a ratio
    m * 2^e it is m * 2^e * sourceRate / destRate * 2^32, a quotient of
    integers, rounded half up to an integer: the floor of the quotient
    plus one half. *)
Definition rounded_step (ratio : spec_float) (sourceRate destRate : Z)
  : option Z :=
  match ratio with
  | S754_zero _ => Some 0
  | S754_finite false m e =>
      let num := Zpos m * sourceRate * 2 ^ Z.max 0 (e + 32) in
      let den := destRate * 2 ^ Z.max 0 (- (e + 32)) in
      Some ((2 * num + den) / (2 * den))
  | _ => None
  end.

(** A positive value of the C type [float]: at most 24 digits, the
    exponent in the range of the format. *)
Definition positive_float (x : spec_float) : Prop :=
  match x with
  | S754_finite false m e => Zpos m < 2 ^ 24 /\ -149 <= e <= 104
  | _ => False
  end.

(** The voice whose rate the step is computed against: the target of the
    first send, or the master voice when there are no sends. *)
Definition step_target (master : nat) (voice : FAudioSourceVoice) : nat :=
  match sends (src_common voice) with
  | [] => master
  | send :: _ => pOutputVoice send
  end.

(** A master voice at 48 kHz with one channel and a block of [n] frames. *)
Definition master_48k (n : nat) : FAudioVoice :=
  Master {| master_inputChannels := 1; master_inputSampleRate := 48000;
            master_output := replicate n F32.zero |}.

(** A 44.1 kHz voice whose rate ratio was just set to 1 and whose cached
    ratio is still 0. *)
Definition retuned_voice : FAudioSourceVoice :=
  set_resample_state idle_voice (src_outputResampleCache idle_voice)
    F32.zero 0 0.

#[global] Instance spec_float_eq_dec : EqDecision spec_float.
Proof. solve_decision. Defined.

(** A value of an [int16_t] array. *)
Definition int16 (z : Z) : Prop := -32768 <= z <= 32767.

(** [f] holds of the [n] integers from [lo] on. *)
Fixpoint forall_from (lo : Z) (n : nat) (f : Z -> bool) : bool :=
  match n with
  | O => true
  | S n => f lo && forall_from (lo + 1) n f
  end.

(** A [double] that is [+0] or finite. *)
Definition plain (x : spec_float) : bool :=
  match x with
  | S754_zero false => true
  | S754_finite _ _ _ => true
  | _ => false
  end.

(** Whether narrowing the [double] of an integer gives its [float]. *)
Definition narrows_exactly (z : Z) : bool :=
  bool_decide (F32.of_double (F64.of_Z z) = F32.of_Z z).

(** A mono voice at step 1.0 whose [resampleOffset] is half a sample into
    its fraction, with the decoded samples 0, 16384, 0, 0. *)
Definition half_phase_voice : FAudioSourceVoice :=
  set_resample_state
    (set_decode_state idle_voice ([0; 16384; 0; 0] ++ replicate 60 0) [] 0 0)
    (replicate 4 F32.zero) (F32.of_Z 1) FIXED_ONE (2 ^ 31).

(** A voice with three channels at step 1.0 and phase 0, with two decoded
    frames. *)
Definition three_channel_voice : FAudioSourceVoice :=
  set_resample_state
    (set_decode_state
       (sample_voice (pcm8 3) Decoders.FAudio_INTERNAL_DecodeMonoPCM8 [])
       [256; 512; 768; 1024; 1280; 1536] [] 0 0)
    (replicate 4 F32.zero) (F32.of_Z 1) FIXED_ONE 0.

(** The output cache and [resampleOffset] a resampling step leaves. *)
Definition resampled (r : res FAudioSourceVoice)
  : option (list spec_float * Z) :=
  match r with
  | Ok v => Some (src_outputResampleCache v, src_resampleOffset v)
  | _ => None
  end.

(** A stereo voice at step 1.0 and phase 0 with three decoded frames. *)
Definition zero_phase_voice : FAudioSourceVoice :=
  set_resample_state
    (set_decode_state
       (sample_voice (pcm8 2) Decoders.FAudio_INTERNAL_DecodeStereoPCM8 [])
       [256; -512; 768; -1024; 32767; -32768] [] 0 0)
    (replicate 4 F32.zero) (F32.of_Z 1) FIXED_ONE 0.

(** A mono voice with one send, into the voice at address 0, at volume
    2^24 and send coefficient 1, holding one resampled frame [x] and the
    channel volume [cv]. *)
Definition loud_voice (x cv : spec_float) : FAudioSourceVoice :=
  {| src_common :=
       {| sends := [{| send_Flags := 0; pOutputVoice := 0%nat |}];
          sendCoefficients := [[F32.of_Z 1]];
          channelVolume := [cv];
          volume := F32.of_pow2 1 24 |};
     src_decodeSamples := 64;
     src_outputSamples := 1;
     src_decodeCache := replicate 64 0;
     src_outputResampleCache := [x];
     src_resampleFreqRatio := F32.of_Z 1;
     src_resampleStep := FIXED_ONE;
     src_resampleOffset := 0;
     src_format := pcm8 1;
     src_decode := Decoders.FAudio_INTERNAL_DecodeMonoPCM8;
     src_callback := None;
     src_active := true;
     src_freqRatio := F32.of_Z 1;
     src_bufferList := [];
     src_curBufferOffset := 0;
     src_curBufferOffsetDec := 0 |}.

(** 0.5 at channel volume 4 and -0.5 at channel volume 2: contributions of
    2^25 and -2^24. *)
Definition voice_up : FAudioSourceVoice :=
  loud_voice (F32.of_pow2 1 (-1)) (F32.of_Z 4).
Definition voice_down : FAudioSourceVoice :=
  loud_voice (F32.of_pow2 (-1) (-1)) (F32.of_Z 2).

(** The first value of the stream of the voice at [p] after mixing. *)
Definition mixed_sample (p : nat) (r : res voices) : option spec_float :=
  match r with
  | Ok heap =>
      match heap !! p with
      | Some out => stream_of out !! 0%nat
      | None => None
      end
  | _ => None
  end.

(** Two quiet voices: contributions of 0.5 and 0.25. *)
Definition voice_half : FAudioSourceVoice :=
  loud_voice (F32.of_pow2 1 (-1)) (F32.of_pow2 1 (-24)).
Definition voice_quarter : FAudioSourceVoice :=
  loud_voice (F32.of_pow2 1 (-2)) (F32.of_pow2 1 (-24)).

(** What mixing leaves alone in a destination voice: its kind, its stage,
    the size of its stream. *)
Definition layout (v : FAudioVoice) : bool * Z * Z * nat :=
  match v with
  | Submix m =>
      (true, mix_processingStage m, mix_inputSamples m,
       length (mix_inputCache m))
  | Master m => (false, 0, 0, length (master_output m))
  end.

Definition same_layout (h h' : voices) : Prop :=
  forall q, layout <$> h !! q = layout <$> h' !! q.

(** The processing stage of the submix voice at [q], if there is one. *)
Definition stage_of (h : voices) (q : nat) : option Z :=
  match h !! q with
  | Some (Submix m) => Some (mix_processingStage m)
  | _ => None
  end.

(** A platform resampler that copies its input. *)
Definition copy_resampler (resampler : nat) (input : list spec_float)
  (inputSamples : Z) (output : list spec_float) (outputSamples : Z)
  : list spec_float * Z :=
  (input, inputSamples).

(** A mono submix voice at stage [stage] holding the two frames 0.5 and
    0.25, with the given sends at coefficient 1. *)
Definition sample_mix (stage : Z) (targets : list nat) : FAudioSubmixVoice :=
  {| mix_common :=
       {| sends := map (fun p => {| send_Flags := 0; pOutputVoice := p |})
                       targets;
          sendCoefficients := map (fun _ => [F32.of_Z 1]) targets;
          channelVolume := [F32.of_Z 1];
          volume := F32.of_Z 1 |};
     mix_inputChannels := 1;
     mix_inputSampleRate := 48000;
     mix_inputSamples := 2;
     mix_inputCache := [F32.of_pow2 1 (-1); F32.of_pow2 1 (-2)];
     mix_outputSamples := 2;
     mix_outputResampleCache := [F32.zero; F32.zero];
     mix_resampler := 0;
     mix_processingStage := stage |}.

Definition sample_submix (stage : Z) (targets : list nat) : FAudioVoice :=
  Submix (sample_mix stage targets).

(** The streams of the voices at 0 and 1 after a submix pass. *)
Definition streams_after (r : res voices)
  : option (list spec_float * list spec_float) :=
  match r with
  | Ok h =>
      match h !! 0%nat, h !! 1%nat with
      | Some a, Some b => Some (stream_of a, stream_of b)
      | _, _ => None
      end
  | _ => None
  end.

(** The order of an update, against the engine as the update found it:
    [h0] its voices, [srcs] its source voices, [subs] its submix list. *)
Section Order.

Variable h0 : voices.
Variable srcs : list FAudioSourceVoice.
Variable subs : list nat.

(** Every active source voice has been mixed. *)
Definition sources_done (calls : list mix_call) : Prop :=
  forall i voice, srcs !! i = Some voice -> src_active voice = true ->
    Call_MixSource i ∈ calls.

(** Every listed submix voice of a stage below [k] has been mixed. *)
Definition lower_done (k : Z) (calls : list mix_call) : Prop :=
  forall q j, q ∈ subs -> stage_of h0 q = Some j -> 0 <= j < k ->
    Call_MixSubmix q ∈ calls.

(** Whatever is mixed is a submix voice of stage [k] or above. *)
Definition later_ok (k : Z) (calls : list mix_call) : Prop :=
  forall c, c ∈ calls ->
    exists q j, c = Call_MixSubmix q /\ stage_of h0 q = Some j /\ k <= j.

(** Wherever the calls mix a submix voice, its stage is at most [i], the
    sources and the lower stages come before and nothing lower after. *)
Definition ordered_upto (i : Z) (calls : list mix_call) : Prop :=
  forall pre p post, calls = pre ++ Call_MixSubmix p :: post ->
    exists k, stage_of h0 p = Some k /\ 0 <= k <= i /\
      sources_done pre /\ lower_done k pre /\ later_ok k post.

(** While an update runs: the stages and the [active] flags are those it
    found. *)
Definition stages_kept (st : update) : Prop :=
  forall q, stage_of (up_heap st) q = stage_of h0 q.

Definition flags_kept (st : update) : Prop :=
  forall i, src_active <$> up_sources st !! i = src_active <$> srcs !! i.

(** After the source voices at the positions [done]: only source passes
    have been called, one for every active voice among them. *)
Definition sources_phase (done : list nat) (st : update) : Prop :=
  stages_kept st /\ flags_kept st /\
  (forall c, c ∈ up_calls st -> exists i, c = Call_MixSource i) /\
  (forall i voice, i ∈ done -> srcs !! i = Some voice ->
     src_active voice = true -> Call_MixSource i ∈ up_calls st).

(** In the round of stage [i], after the listed submix voices [done]. *)
Definition stage_round (i : Z) (done : list nat) (st : update) : Prop :=
  stages_kept st /\
  sources_done (up_calls st) /\
  lower_done i (up_calls st) /\
  ordered_upto i (up_calls st) /\
  (forall q, q ∈ done -> stage_of h0 q = Some i ->
     Call_MixSubmix q ∈ up_calls st).

(** When the rounds of the stages below [i] are over. *)
Definition stages_phase (i : Z) (st : update) : Prop :=
  0 <= i /\ stages_kept st /\
  sources_done (up_calls st) /\
  lower_done i (up_calls st) /\
  ordered_upto (i - 1) (up_calls st).

End Order.

(** An engine with the master voice at address 0, submix voice 1 at stage
    1 sending to the master and submix voice 2 at stage 0 sending to voice
    1, listed in this order, and no source voices. *)
Definition sample_engine : FAudio :=
  {| active := true;
     callbacks := [];
     master := 0%nat;
     sources := [];
     submixes := [1%nat; 2%nat];
     submixStages := 2;
     heap := {[ 0%nat := master_48k 2;
                1%nat := sample_submix 1 [0%nat];
                2%nat := sample_submix 0 [1%nat] ]} |}.

(** The mix passes an update called, when it returns. *)
Definition calls_of (r : res update) : option (list mix_call) :=
  match r with
  | Ok st => Some (up_calls st)
  | _ => None
  end.

(** The same engine with the two stage tags exchanged. *)
Definition swapped_engine : FAudio :=
  {| active := true;
     callbacks := [];
     master := 0%nat;
     sources := [];
     submixes := [1%nat; 2%nat];
     submixStages := 2;
     heap := {[ 0%nat := master_48k 2;
                1%nat := sample_submix 0 [0%nat];
                2%nat := sample_submix 1 [1%nat] ]} |}.

(** The master's block after an update, when it returns. *)
Definition block_of (r : res update) : option (list spec_float) :=
  match r with
  | Ok st =>
      match up_heap st !! 0%nat with
      | Some (Master m) => Some (master_output m)
      | _ => None
      end
  | _ => None
  end.

(** Source mix passes one after the other, for [n] blocks. *)
Fixpoint run_mixes (EXTRA_DECODE_PADDING FAUDIO_END_OF_STREAM : Z)
  (FAUDIO_MAX_VOLUME_LEVEL : spec_float) (fuel : nat) (master : nat)
  (heap : voices) (n : nat) (voice : FAudioSourceVoice)
  : res (FAudioSourceVoice * list event) :=
  match n with
  | O => Ok (voice, [])
  | S n =>
      '(heap, voice, evs) ←
        FAudio_INTERNAL_MixSource EXTRA_DECODE_PADDING FAUDIO_END_OF_STREAM
          FAUDIO_MAX_VOLUME_LEVEL fuel master heap voice;
      '(voice, evs') ←
        run_mixes EXTRA_DECODE_PADDING FAUDIO_END_OF_STREAM
          FAUDIO_MAX_VOLUME_LEVEL fuel master heap n voice;
      Ok (voice, evs ++ evs')
  end.

(** Four mono samples, not looped, played at a quarter of the output rate
    in blocks of one output sample. *)
Definition slow_voice : FAudioSourceVoice :=
  {| src_common := no_sends;
     src_decodeSamples := 64;
     src_outputSamples := 1;
     src_decodeCache := replicate 64 0;
     src_outputResampleCache := replicate 4 F32.zero;
     src_resampleFreqRatio := F32.of_pow2 1 (-2);
     src_resampleStep := 2 ^ 30;
     src_resampleOffset := 0;
     src_format := pcm8 1;
     src_decode := Decoders.FAudio_INTERNAL_DecodeMonoPCM8;
     src_callback := Some all_callbacks;
     src_active := true;
     src_freqRatio := F32.of_pow2 1 (-2);
     src_bufferList :=
       [{| Flags := 0; AudioBytes := 4; pAudioData := [x01; x02; x03; x04];
           PlayBegin := 0; PlayLength := 4; LoopBegin := 0; LoopLength := 0;
           LoopCount := 0; pContext := 7 |}];
     src_curBufferOffset := 0;
     src_curBufferOffsetDec := 0 |}.

(** Twenty-four frames of 8-bit mono PCM, of which the first eight are to
    be played, the last three of these, frames 5 to 7, twice more: a play
    window [0, 8) and a loop window that begins at 5 and is 3 long. *)
Definition late_loop_buffer : FAudioBuffer :=
  {| Flags := 0; AudioBytes := 24;
     pAudioData :=
       [x01; x02; x03; x04; x05; x06; x07; x08; x09; x0a; x0b; x0c;
        x0d; x0e; x0f; x10; x11; x12; x13; x14; x15; x16; x17; x18];
     PlayBegin := 0; PlayLength := 8; LoopBegin := 5; LoopLength := 3;
     LoopCount := 2; pContext := 7 |}.

Definition late_loop_voice : FAudioSourceVoice :=
  sample_voice (pcm8 1) Decoders.FAudio_INTERNAL_DecodeMonoPCM8
    [late_loop_buffer].

(** Where a run of mix passes has left the voice: the play position and the
    loop counters of the queue. *)
Definition position_after (r : res (FAudioSourceVoice * list event))
  : option (Z * list Z) :=
  match r with
  | Ok (v, _) => Some (src_curBufferOffset v, map LoopCount (src_bufferList v))
  | _ => None
  end.

(** The values a run of mix passes has left at the head of the decode
    cache. *)
Definition head_of_cache_after (n : nat)
  (r : res (FAudioSourceVoice * list event)) : option (list Z) :=
  match r with
  | Ok (v, _) => Some (take n (src_decodeCache v))
  | _ => None
  end.

(** ** Vocabulary of the further properties *)

(** A sample that has taken in the terms [ts] one after the other, each sum
    cut to the ceiling [max] as [FAudio_clamp] cuts it. *)
Definition add_terms (max : spec_float) (ts : list spec_float)
  (x : spec_float) : spec_float :=
  fold_left (fun acc t => F32.clamp (F32.add acc t) (SFopp max) max) ts x.

(** A stream of frames of [C] values whose first [k] values have taken in
    their terms, [t j co] being the terms for value [co] of frame [j]. *)
Definition mix_into (max : spec_float) (t : Z -> Z -> list spec_float)
  (C k : Z) (s : list spec_float) : list spec_float :=
  imap (fun idx x =>
          if Z.of_nat idx <? k
          then add_terms max (t (Z.of_nat idx / C) (Z.of_nat idx mod C)) x
          else x) s.

(** The term a source voice sends through its first send, [F32.zero] where
    the send loop would read outside an array. *)
Definition term_of (voice : FAudioSourceVoice) (j co ci : Z) : spec_float :=
  match MixSource_term voice 0 j co ci with
  | Ok x => x
  | _ => F32.zero
  end.

(** The stream of the voice at [p] after mixing. *)
Definition mixed_stream (p : nat) (r : res voices)
  : option (list spec_float) :=
  match r with
  | Ok heap => stream_of <$> heap !! p
  | _ => None
  end.

(** A voice of [chans] channels with one send, into the voice at address
    0, at volume 1 and channel volumes 1, holding the resampled values
    [xs] and the send coefficients [ks]. *)
Definition quiet_voice (chans : Z) (xs ks : list spec_float)
  : FAudioSourceVoice :=
  {| src_common :=
       {| sends := [{| send_Flags := 0; pOutputVoice := 0%nat |}];
          sendCoefficients := [ks];
          channelVolume := replicate (Z.to_nat chans) (F32.of_Z 1);
          volume := F32.of_Z 1 |};
     src_decodeSamples := 64;
     src_outputSamples := 2;
     src_decodeCache := replicate 64 0;
     src_outputResampleCache := xs;
     src_resampleFreqRatio := F32.of_Z 1;
     src_resampleStep := FIXED_ONE;
     src_resampleOffset := 0;
     src_format := pcm8 chans;
     src_decode := Decoders.FAudio_INTERNAL_DecodeMonoPCM8;
     src_callback := None;
     src_active := true;
     src_freqRatio := F32.of_Z 1;
     src_bufferList := [];
     src_curBufferOffset := 0;
     src_curBufferOffsetDec := 0 |}.

(** A master voice at 48 kHz with two channels and a block of [n] frames. *)
Definition stereo_master (n : nat) : FAudioVoice :=
  Master {| master_inputChannels := 2; master_inputSampleRate := 48000;
            master_output := replicate (2 * n) F32.zero |}.

(** Two stereo frames, (0.5, 0.25) and (0.125, 0.0625), sent to the left
    at coefficient 1 and to the right at coefficient 0.5. *)
Definition wide_voice : FAudioSourceVoice :=
  quiet_voice 2
    [F32.of_pow2 1 (-1); F32.of_pow2 1 (-2);
     F32.of_pow2 1 (-3); F32.of_pow2 1 (-4)]
    [F32.of_Z 1; F32.of_Z 1; F32.of_pow2 1 (-1); F32.of_pow2 1 (-1)].

(** A stream of frames of [C] values whose first [k] values are replaced
    by [f] of their frame and channel. *)
Definition fill_upto (f : Z -> Z -> spec_float) (C k : Z)
  (s : list spec_float) : list spec_float :=
  imap (fun idx x =>
          if Z.of_nat idx <? k
          then f (Z.of_nat idx / C) (Z.of_nat idx mod C)
          else x) s.

(** Two mono voices of two frames each, sent to the left at coefficient 1
    and to the right at coefficient 0.5. *)
Definition narrow_voice (a b : spec_float) : FAudioSourceVoice :=
  quiet_voice 1 [a; b] [F32.of_Z 1; F32.of_pow2 1 (-1)].

(** A mono MSADPCM block for [nBlockAlign = 0]: predictor 1, [delta] 16,
    [sample1] 100, [sample2] 50 and fifteen bytes of nibbles. *)
Definition msadpcm_mono_block : list byte :=
  [x01; x10; x00; x64; x00; x32; x00] ++ replicate 15 x3f.

(** A stereo block for [nBlockAlign = 0]: predictors 1 and 2, both
    [delta]s 16, and thirty bytes of nibbles. *)
Definition msadpcm_stereo_block : list byte :=
  [x01; x02; x10; x00; x10; x00; x64; x00; x9c; xff; x32; x00; xce; xff] ++
  replicate 30 x3f.

(** The block loop that the two MSADPCM decoders share: [decode buf] is
    the block at [buf], [A] its size in bytes, [chans] the values a
    frame. *)
Fixpoint block_loop (decode : Z -> res (list Z)) (A chans : Z) (fuel : nat)
  (buf bsize midOffset samples : Z) : res (list Z) :=
  if samples >? 0 then
    match fuel with
    | O => OutOfFuel
    | S fuel =>
        let copy := FAudio_min samples (u32 (bsize - midOffset)) in
        blockCache ← decode buf;
        chunk ← load blockCache (midOffset * chans) (copy * chans);
        out ← block_loop decode A chans fuel (buf + A) bsize 0
                (u32 (samples - copy));
        Ok (chunk ++ out)
    end
  else Ok [].

(** An MSADPCM format of [chans] channels with [nBlockAlign = 0], and
    buffers of two blocks each. *)
Definition adpcm_format (chans : Z) : FAudioWaveFormatEx :=
  {| wFormatTag := 2; nChannels := chans; nSamplesPerSec := 44100;
     nAvgBytesPerSec := 22 * chans; nBlockAlign := 0;
     wBitsPerSample := 4; cbSize := 0 |}.

Definition adpcm_buffer (data : list byte) : FAudioBuffer :=
  {| Flags := 0; AudioBytes := Z.of_nat (length data); pAudioData := data;
     PlayBegin := 0; PlayLength := 64; LoopBegin := 0; LoopLength := 0;
     LoopCount := 0; pContext := 0 |}.

Definition adpcm_mono_buffer : FAudioBuffer :=
  adpcm_buffer (msadpcm_mono_block ++ msadpcm_mono_block).

Definition adpcm_stereo_buffer : FAudioBuffer :=
  adpcm_buffer (msadpcm_stereo_block ++ msadpcm_stereo_block).

(** Whether a call returned, and with how many values. *)
Definition returned {A} (r : res (list A)) : option nat :=
  match r with
  | Ok l => Some (length l)
  | _ => None
  end.

(** A PCM buffer of 24 bytes whose play window begins one frame in. *)
Definition pcm_buffer : FAudioBuffer :=
  {| Flags := 0; AudioBytes := 24;
     pAudioData :=
       [x01; x02; x03; x04; x05; x06; x07; x08; x09; x0a; x0b; x0c;
        x0d; x0e; x0f; x10; x11; x12; x13; x14; x15; x16; x17; x18];
     PlayBegin := 1; PlayLength := 4; LoopBegin := 0; LoopLength := 0;
     LoopCount := 0; pContext := 0 |}.

(** The rounds of the decode loop that a queue can end or rewind: one for
    each buffer and one for each of its loops. *)
Definition queue_rounds (q : list FAudioBuffer) : nat :=
  foldr (fun b k => (S (Z.to_nat (LoopCount b)) + k)%nat) 0%nat q.

(** What a decode call leaves: the length of the queue, [*toDecode] and
    the returned [resetOffset]. *)
Definition decoded_after (r : res (FAudioSourceVoice * Z * Z * list event))
  : option (nat * Z * Z) :=
  match r with
  | Ok (v, toDecode, resetOffset, _) =>
      Some (length (src_bufferList v), toDecode, resetOffset)
  | _ => None
  end.

(** A voice in a buffer that loops without end over the empty window
    [2, 2), standing at the start of the loop. *)
Definition stuck_voice : FAudioSourceVoice :=
  set_decode_state
    (sample_voice (pcm8 1) Decoders.FAudio_INTERNAL_DecodeMonoPCM8 [])
    (replicate 64 9)
    [{| Flags := 0; AudioBytes := 4; pAudioData := [x01; x02; x03; x04];
        PlayBegin := 0; PlayLength := 4; LoopBegin := 2; LoopLength := 2;
        LoopCount := 255; pContext := 7 |}]
    2 0.

(** The decoded value at index [k], 0 outside the cache. *)
Definition decoded_at (cache : list Z) (k : Z) : Z :=
  default 0 (cache !! Z.to_nat k).

(** The output cache after the linear resampler has written [n] frames of
    [c] values from index [start] on, reading from index [p] of the decode
    cache on. Frame [i] stands at [phase + i * step] in 32.32 fixed point:
    it interpolates, by the fraction, between the decoded frame at the
    whole part and the frame after it. *)
Definition resampled_into (cache : list Z) (c p phase step start n : Z)
  (out : list spec_float) : list spec_float :=
  imap (fun idx x =>
          let r := Z.of_nat idx - start in
          if (0 <=? r) && (r <? c * n) then
            let at_ := phase + r / c * step in
            let k := p + c * (at_ / 2 ^ 32) + r mod c in
            lerp (decoded_at cache k) (decoded_at cache (k + c))
                 (at_ mod 2 ^ 32)
          else x) out.

(** A stereo voice at step 1.5, half a frame into its fraction, with the
    decoded frames (0, 0), (16384, -16384), (8192, 4096) and silence. *)
Definition pitched_voice : FAudioSourceVoice :=
  set_resample_state
    (set_decode_state
       (sample_voice (pcm8 2) Decoders.FAudio_INTERNAL_DecodeStereoPCM8 [])
       ([0; 0; 16384; -16384; 8192; 4096] ++ replicate 58 0) [] 0 0)
    (replicate 6 F32.zero) (F32.of_pow2 3 (-1)) (3 * 2 ^ 31) (2 ^ 31).

(** Of the [positions] in a list of source voices, those of the active
    voices. *)
Definition active_sources (srcs : list FAudioSourceVoice)
  (positions : list nat) : list nat :=
  concat (map (fun i => match srcs !! i with
                        | Some v => if src_active v then [i] else []
                        | None => []
                        end) positions).

(** The submix voices of stage [i] among [subs], in list order. *)
Definition stage_members (h : voices) (subs : list nat) (i : Z) : list nat :=
  concat (map (fun p => match stage_of h p with
                        | Some k => if k =? i then [p] else []
                        | None => []
                        end) subs).

(** The mix passes of an update, in order: the active source voices as
    listed, then stage by stage the submix voices as listed. *)
Definition schedule (audio : FAudio) : list mix_call :=
  map Call_MixSource
    (active_sources (sources audio) (seq 0 (length (sources audio)))) ++
  concat (map (fun i => map Call_MixSubmix
                          (stage_members (heap audio) (submixes audio) i))
              (seqZ 0 (submixStages audio))).

(** What holds in the course of an update, against the engine as the
    update found it: [h0] its voices, [srcs] its source voices, [subs] its
    submix list. *)
Section Scheduled.

Variable h0 : voices.
Variable srcs : list FAudioSourceVoice.
Variable subs : list nat.

(** After the source voices at the positions [done]. *)
Definition sources_scheduled (done : list nat) (st : update) : Prop :=
  stages_kept h0 st /\ flags_kept srcs st /\
  up_calls st = map Call_MixSource (active_sources srcs done) /\
  (forall i v, srcs !! i = Some v -> src_active v = false ->
     up_sources st !! i = Some v).

(** In the round of stage [i], after the listed submix voices [done]:
    [base] are the passes called before the round. *)
Definition stage_scheduled (base : list mix_call) (sources : list FAudioSourceVoice)
  (i : Z) (done : list nat) (st : update) : Prop :=
  stages_kept h0 st /\ up_sources st = sources /\
  up_calls st = base ++ map Call_MixSubmix (stage_members h0 done i).

(** After the rounds of the stages below [i]. *)
Definition stages_scheduled (base : list mix_call)
  (sources : list FAudioSourceVoice) (i : Z) (st : update) : Prop :=
  0 <= i /\ stages_kept h0 st /\ up_sources st = sources /\
  up_calls st =
    base ++ concat (map (fun k => map Call_MixSubmix (stage_members h0 subs k))
                        (seqZ 0 i)).

End Scheduled.

(** A mono 8-bit voice at rate ratio 1 with four frames queued, sending
    blocks of two frames to the voice at [target]. *)
Definition feeding_voice (on : bool) (target : nat) : FAudioSourceVoice :=
  {| src_common :=
       {| sends := [{| send_Flags := 0; pOutputVoice := target |}];
          sendCoefficients := [[F32.of_Z 1]];
          channelVolume := [F32.of_Z 1];
          volume := F32.of_Z 1 |};
     src_decodeSamples := 64;
     src_outputSamples := 2;
     src_decodeCache := replicate 64 0;
     src_outputResampleCache := replicate 2 F32.zero;
     src_resampleFreqRatio := F32.of_Z 1;
     src_resampleStep := FIXED_ONE;
     src_resampleOffset := 0;
     src_format := pcm8 1;
     src_decode := Decoders.FAudio_INTERNAL_DecodeMonoPCM8;
     src_callback := Some all_callbacks;
     src_active := on;
     src_freqRatio := F32.of_Z 1;
     src_bufferList :=
       [{| Flags := 0; AudioBytes := 4; pAudioData := [x01; x02; x03; x04];
           PlayBegin := 0; PlayLength := 4; LoopBegin := 0; LoopLength := 0;
           LoopCount := 0; pContext := 7 |}];
     src_curBufferOffset := 0;
     src_curBufferOffsetDec := 0 |}.

(** An engine with two stages: three source voices, the second of them
    not active, feeding the submix voice at 2; that voice, of stage 0,
    feeds the voice at 1, of stage 1, which feeds the master; the voice at
    3 is of stage 5. *)
Definition busy_engine : FAudio :=
  {| active := true;
     callbacks :=
       [{| OnProcessingPassEnd := true; OnProcessingPassStart := true |};
        {| OnProcessingPassEnd := false; OnProcessingPassStart := true |}];
     master := 0%nat;
     sources :=
       [feeding_voice true 2; feeding_voice false 2; feeding_voice true 2];
     submixes := [1%nat; 2%nat; 3%nat];
     submixStages := 2;
     heap := {[ 0%nat := master_48k 2;
                1%nat := sample_submix 1 [0%nat];
                2%nat := sample_submix 0 [1%nat];
                3%nat := sample_submix 5 [0%nat] ]} |}.

(** The notifications of the decode loop. *)
Definition buffer_event (e : event) : Prop :=
  match e with
  | Ev_OnBufferStart _ | Ev_OnBufferEnd _ | Ev_OnLoopEnd _ | Ev_OnStreamEnd =>
      True
  | _ => False
  end.

(** The voice has registered the callback that a notification goes to. *)
Definition asked_for (cbk : option FAudioVoiceCallback) (e : event) : Prop :=
  match e with
  | Ev_OnBufferStart _ => registered cbk OnBufferStart = true
  | Ev_OnBufferEnd _ => registered cbk OnBufferEnd = true
  | Ev_OnLoopEnd _ => registered cbk OnLoopEnd = true
  | Ev_OnStreamEnd => registered cbk OnStreamEnd = true
  | Ev_OnVoiceProcessingPassStart _ =>
      registered cbk OnVoiceProcessingPassStart = true
  | Ev_OnVoiceProcessingPassEnd =>
      registered cbk OnVoiceProcessingPassEnd = true
  | Ev_OnProcessingPassStart _ | Ev_OnProcessingPassEnd _ => False
  end.

(** A notification of the decode loop that the voice has asked for. *)
Definition decode_event (cbk : option FAudioVoiceCallback) (e : event)
  : Prop :=
  buffer_event e /\ asked_for cbk e.

(** The notifications of a voice, as against those of the engine. *)
Definition voice_event (e : event) : Prop :=
  match e with
  | Ev_OnProcessingPassStart _ | Ev_OnProcessingPassEnd _ => False
  | _ => True
  end.

(** The notifications of an update, when it returns. *)
Definition trace_of_update (r : res update) : option (list event) :=
  match r with
  | Ok st => Some (up_trace st)
  | _ => None
  end.

(** The voices a voice sends to. *)
Definition targets (c : FAudioVoiceCommon) : list nat :=
  map pOutputVoice (sends c).

(** What a source voice is set up with, as against the state of its
    playback: sends and volumes, cache sizes, format, callbacks, the
    [active] flag and the frequency ratio asked for. *)
Definition src_setup (v : FAudioSourceVoice)
  : FAudioVoiceCommon * Z * Z * FAudioWaveFormatEx *
    option FAudioVoiceCallback * bool * spec_float :=
  (src_common v, src_decodeSamples v, src_outputSamples v, src_format v,
   src_callback v, src_active v, src_freqRatio v).

(** The same for a submix voice. *)
Definition mix_setup (m : FAudioSubmixVoice)
  : FAudioVoiceCommon * Z * Z * Z * Z * nat * Z :=
  (mix_common m, mix_inputChannels m, mix_inputSampleRate m,
   mix_inputSamples m, mix_outputSamples m, mix_resampler m,
   mix_processingStage m).

(** A cache of frames of [mix_inputChannels] values whose first [k] values
    are scaled by the volume of their channel and by the volume of the
    voice. *)
Definition with_volumes (m : FAudioSubmixVoice) (k : Z)
  (cache : list spec_float) : list spec_float :=
  imap (fun idx x =>
          if Z.of_nat idx <? k then
            F32.mul
              (F32.mul x
                 (default F32.zero
                    (channelVolume (mix_common m)
                       !! Z.to_nat (Z.of_nat idx mod mix_inputChannels m))))
              (volume (mix_common m))
          else x) cache.

(** What the sends of the submix voice [m] at [p] keep of the voices
    [heap]: at [p] a submix voice of the same setup and the same resampled
    values, and every voice that is neither [p] nor a target. *)
Definition sends_keep (p : nat) (m : FAudioSubmixVoice) (heap h : voices)
  : Prop :=
  (exists m', h !! p = Some (Submix m') /\
              mix_setup m' = mix_setup m /\
              mix_outputResampleCache m' = mix_outputResampleCache m) /\
  forall q, q <> p -> q ∉ targets (mix_common m) -> h !! q = heap !! q.

(** The resampled values of a submix voice after its pass: as they were
    when the voice has no sends, else what the resampler returns with the
    volumes applied. *)
Definition MixSubmix_resampled
  (FAudio_PlatformResample :
     nat -> list spec_float -> Z -> list spec_float -> Z ->
     list spec_float * Z)
  (m : FAudioSubmixVoice) : res (list spec_float) :=
  if SendCount (mix_common m) =? 0 then Ok (mix_outputResampleCache m)
  else
    let '(cache, resampled) :=
      FAudio_PlatformResample (mix_resampler m) (mix_inputCache m)
        (mix_inputSamples m) (mix_outputResampleCache m)
        (mix_outputSamples m) in
    MixSubmix_volume m (u32 resampled / mix_inputChannels m) cache.

(** ** An update as the run of its mix passes *)

(** The voices as an update has them when it begins to mix: those of the
    engine, with the block to fill as the output of the master voice. *)
Definition bound_heap (audio : FAudio) (output : list spec_float) : voices :=
  match heap audio !! master audio with
  | Some (Master m) =>
      <[master audio := Master (set_output m output)]> (heap audio)
  | _ => heap audio
  end.

Section Replay.

Variable EXTRA_DECODE_PADDING : Z.
Variable FAUDIO_END_OF_STREAM : Z.
Variable FAUDIO_MAX_VOLUME_LEVEL : spec_float.
Variable FAudio_PlatformResample :
  nat -> list spec_float -> Z -> list spec_float -> Z -> list spec_float * Z.

(** One mix pass, on the voices and the source voices of an engine: of the
    source voice at a position of the list, or of the submix voice at an
    address. *)
Definition run_call (fuel : nat) (master : nat) (c : mix_call)
  (st : voices * list FAudioSourceVoice)
  : res (voices * list FAudioSourceVoice) :=
  match c with
  | Call_MixSource i =>
      match st.2 !! i with
      | Some voice =>
          '(heap, voice, _) ←
            FAudio_INTERNAL_MixSource EXTRA_DECODE_PADDING
              FAUDIO_END_OF_STREAM FAUDIO_MAX_VOLUME_LEVEL fuel master
              st.1 voice;
          Ok (heap, <[i := voice]> st.2)
      | None => Fault
      end
  | Call_MixSubmix p =>
      heap ← FAudio_INTERNAL_MixSubmix FAUDIO_MAX_VOLUME_LEVEL
               FAudio_PlatformResample p st.1;
      Ok (heap, st.2)
  end.

(** Mix passes one after the other, each on what the one before left. *)
Definition replay (fuel : nat) (master : nat) (calls : list mix_call)
  (st : voices * list FAudioSourceVoice)
  : res (voices * list FAudioSourceVoice) :=
  foldM (run_call fuel master) calls st.

(** The state [st] of an update comes from its state [st0] by the mix
    passes it has logged since, and by nothing else. *)
Definition replayed (fuel : nat) (master : nat) (st0 st : update) : Prop :=
  exists calls,
    up_calls st = up_calls st0 ++ calls /\
    replay fuel master calls (up_heap st0, up_sources st0) =
      Ok (up_heap st, up_sources st).


End Replay.

(** The accumulator and the output of the submix voice at [p], among the
    voices that a run of passes has left. *)
Definition accumulator_after (p : nat)
  (r : res (voices * list FAudioSourceVoice)) : option (list spec_float) :=
  match r with
  | Ok (h, _) =>
      match h !! p with
      | Some (Submix m) => Some (mix_inputCache m)
      | _ => None
      end
  | _ => None
  end.

Definition output_after (p : nat)
  (r : res (voices * list FAudioSourceVoice)) : option (list spec_float) :=
  match r with
  | Ok (h, _) =>
      match h !! p with
      | Some (Submix m) => Some (mix_outputResampleCache m)
      | _ => None
      end
  | _ => None
  end.

(** A stereo submix voice whose left channel is at volume 1/2 and whose
    right channel is at volume 2, at voice volume 1/2, sending to the
    voice at address 0. *)
Definition balanced_mix : FAudioSubmixVoice :=
  {| mix_common :=
       {| sends := [{| send_Flags := 0; pOutputVoice := 0%nat |}];
          sendCoefficients :=
            [[F32.of_Z 1; F32.zero; F32.zero; F32.of_Z 1]];
          channelVolume := [F32.of_pow2 1 (-1); F32.of_Z 2];
          volume := F32.of_pow2 1 (-1) |};
     mix_inputChannels := 2;
     mix_inputSampleRate := 48000;
     mix_inputSamples := 4;
     mix_inputCache := replicate 4 (F32.of_Z 1);
     mix_outputSamples := 4;
     mix_outputResampleCache := replicate 4 F32.zero;
     mix_resampler := 0;
     mix_processingStage := 0 |}.

(** A stereo master voice at address 0, [balanced_mix] at address 1 and a
    mono submix voice without sends at address 2. *)
Definition balanced_voices : voices :=
  {[ 0%nat := stereo_master 2; 1%nat := Submix balanced_mix;
     2%nat := sample_submix 0 [] ]}.

(** [feeding_voice] with its rate ratio set to 0 since the last pass. *)
Definition halted_voice : FAudioSourceVoice :=
  {| src_common := src_common (feeding_voice true 0);
     src_decodeSamples := 64;
     src_outputSamples := 2;
     src_decodeCache := replicate 64 0;
     src_outputResampleCache := replicate 2 F32.zero;
     src_resampleFreqRatio := F32.of_Z 1;
     src_resampleStep := FIXED_ONE;
     src_resampleOffset := 0;
     src_format := pcm8 1;
     src_decode := Decoders.FAudio_INTERNAL_DecodeMonoPCM8;
     src_callback := None;
     src_active := true;
     src_freqRatio := F32.zero;
     src_bufferList := src_bufferList (feeding_voice true 0);
     src_curBufferOffset := 0;
     src_curBufferOffsetDec := 0 |}.

(** The step that a pass of [voice] works with. *)
Definition step_of_pass (master : nat) (heap : voices)
  (voice : FAudioSourceVoice) : option Z :=
  match MixSource_step master heap voice with
  | Ok v => Some (src_resampleStep v)
  | _ => None
  end.

(** ** Vocabulary of the properties of the FFmpeg decoder *)

(** A convert cache whose first [k] words hold the frame [frame] of
    [chans] channels: from a planar frame, sample [s] of channel [c] at
    [s * chans + c]; from a packed frame, the words of plane 0 in their
    order. *)
Definition interleaved (frame : FFmpeg.AVFrame) (chans : Z) (planar : bool)
  (k : Z) (cache : list Z) : list Z :=
  imap (fun idx w =>
          if Z.of_nat idx <? k then
            if planar then
              default 0
                (FFmpeg.plane frame (Z.of_nat idx mod chans)
                   !! Z.to_nat (Z.of_nat idx / chans))
            else default 0 (FFmpeg.plane frame 0 !! idx)
          else w) cache.

(** A frame of [chans] channels that holds what it says: a count in the
    range of [int] that is not negative, and words for every sample it
    counts. *)
Definition frame_holds (frame : FFmpeg.AVFrame) (chans : Z) (planar : bool)
  : Prop :=
  0 <= FFmpeg.nb_samples frame < 2 ^ 31 /\ 0 <= chans /\
  FFmpeg.nb_samples frame * chans < 2 ^ 32 /\
  if planar then
    forall c, 0 <= c < chans ->
      FFmpeg.nb_samples frame <= Z.of_nat (length (FFmpeg.plane frame c))
  else
    FFmpeg.nb_samples frame * chans
      <= Z.of_nat (length (FFmpeg.plane frame 0)).

(** What feeding the codec keeps of the decoder: the position in the
    decoded stream and the convert cache with its counters. *)
Definition fed {AVCodecContext : Type}
  (f f' : @FFmpeg.FAudioFFmpeg AVCodecContext) : Prop :=
  FFmpeg.decOffset f' = FFmpeg.decOffset f /\
  FFmpeg.convertCapacity f' = FFmpeg.convertCapacity f /\
  FFmpeg.convertSamples f' = FFmpeg.convertSamples f /\
  FFmpeg.convertOffset f' = FFmpeg.convertOffset f /\
  FFmpeg.convertCache f' = FFmpeg.convertCache f.

(** What converting a frame keeps: the codec and its frame, the positions
    in both streams and the padding buffer. *)
Definition converted {AVCodecContext : Type}
  (f f' : @FFmpeg.FAudioFFmpeg AVCodecContext) : Prop :=
  FFmpeg.av_ctx f' = FFmpeg.av_ctx f /\
  FFmpeg.av_frame f' = FFmpeg.av_frame f /\
  FFmpeg.encOffset f' = FFmpeg.encOffset f /\
  FFmpeg.decOffset f' = FFmpeg.decOffset f /\
  FFmpeg.paddingBytes f' = FFmpeg.paddingBytes f /\
  FFmpeg.paddingBuffer f' = FFmpeg.paddingBuffer f.

(** What the copy loop keeps: the position of the decoder, the size of
    the decode cache and every word behind the frames asked for; it never
    counts more frames than were asked for. *)
Definition copy_keeps {AVCodecContext : Type} (chans samples : Z)
  (decodeCache : list Z) (position : Z)
  (st : @FFmpeg.copy_loop AVCodecContext) : Prop :=
  FFmpeg.decOffset (FFmpeg.cl_ffmpeg st) = position /\
  length (FFmpeg.cl_decodeCache st) = length decodeCache /\
  0 <= FFmpeg.cl_done st <= samples /\
  forall i : nat, samples * chans <= Z.of_nat i ->
    FFmpeg.cl_decodeCache st !! i = decodeCache !! i.

(** *** A codec for the examples *)

(** A context is the frames that are ready. Every packet becomes one
    planar stereo frame: the first half of its bytes the left plane, the
    second half the right one. *)
Definition echo_receive (ctx : list FFmpeg.AVFrame) (frame : FFmpeg.AVFrame)
  : list FFmpeg.AVFrame * FFmpeg.AVFrame * Z :=
  match ctx with
  | ready :: rest => (rest, ready, 0)
  | [] => ([], {| FFmpeg.nb_samples := 0; FFmpeg.data := [] |}, -11)
  end.

Definition echo_send (ctx : list FFmpeg.AVFrame) (bytes : list byte)
  (size : Z) : list FFmpeg.AVFrame * Z :=
  let half := Z.to_nat (size / 2) in
  (ctx ++ [{| FFmpeg.nb_samples := size / 2;
              FFmpeg.data :=
                [map uint8_of (take half bytes);
                 map uint8_of (take half (drop half bytes))] |}],
   0).

Definition echo_channels (ctx : list FFmpeg.AVFrame) : Z := 2.
Definition echo_planar (ctx : list FFmpeg.AVFrame) : bool := true.

Abbreviation echo_fill :=
  (FFmpeg.FAudio_INTERNAL_FillConvertCache echo_channels echo_planar
     echo_receive echo_send (-11) 2 x00 0).

Abbreviation echo_decode :=
  (FFmpeg.FAudio_INTERNAL_DecodeFFMPEG echo_channels echo_planar
     echo_receive echo_send (-11) 2 x00 0).

(** A decoder that has not been fed, and a buffer of two packets of four
    bytes. *)
Definition echo_start : @FFmpeg.FAudioFFmpeg (list FFmpeg.AVFrame) :=
  {| FFmpeg.av_ctx := [];
     FFmpeg.av_frame := {| FFmpeg.nb_samples := 0; FFmpeg.data := [] |};
     FFmpeg.encOffset := 0; FFmpeg.decOffset := 0;
     FFmpeg.paddingBytes := 0; FFmpeg.paddingBuffer := [];
     FFmpeg.convertCapacity := 0; FFmpeg.convertSamples := 0;
     FFmpeg.convertOffset := 0; FFmpeg.convertCache := [] |}.

Definition echo_buffer : FAudioBuffer :=
  {| Flags := 0; AudioBytes := 8;
     pAudioData := [x01; x02; x03; x04; x05; x06; x07; x08];
     PlayBegin := 0; PlayLength := 0; LoopBegin := 0; LoopLength := 0;
     LoopCount := 0; pContext := 0 |}.

Definition echo_format : FAudioWaveFormatEx :=
  {| wFormatTag := 353; nChannels := 2; nSamplesPerSec := 48000;
     nAvgBytesPerSec := 24000; nBlockAlign := 4; wBitsPerSample := 16;
     cbSize := 0 |}.

Definition echo_voice (position : Z)
  (f : @FFmpeg.FAudioFFmpeg (list FFmpeg.AVFrame))
  : @FFmpeg.wma_source (list FFmpeg.AVFrame) :=
  {| FFmpeg.voice_format := echo_format;
     FFmpeg.voice_curBufferOffset := position;
     FFmpeg.voice_bufferWMA :=
       Some {| FFmpeg.pDecodedPacketCumulativeBytes := [8; 16];
               FFmpeg.PacketCount := 2 |};
     FFmpeg.voice_ffmpeg := f |}.

(** The decoder after the first refill from [echo_buffer]. *)
Definition echo_filled : @FFmpeg.FAudioFFmpeg (list FFmpeg.AVFrame) :=
  {| FFmpeg.av_ctx := [];
     FFmpeg.av_frame :=
       {| FFmpeg.nb_samples := 2; FFmpeg.data := [[1; 2]; [3; 4]] |};
     FFmpeg.encOffset := 4; FFmpeg.decOffset := 0;
     FFmpeg.paddingBytes := 0; FFmpeg.paddingBuffer := [];
     FFmpeg.convertCapacity := 4; FFmpeg.convertSamples := 2;
     FFmpeg.convertOffset := 0; FFmpeg.convertCache := [1; 3; 2; 4] |}.

(** The decode cache that a call leaves. *)
Definition decoded_words {AVCodecContext : Type}
  (r : res (@FFmpeg.FAudioFFmpeg AVCodecContext * list Z))
  : option (list Z) :=
  match r with
  | Ok (_, cache) => Some cache
  | _ => None
  end.

(** A buffer of three packets that decode to 100 bytes each. *)
Definition three_packets : FFmpeg.FAudioBufferWMA :=
  {| FFmpeg.pDecodedPacketCumulativeBytes := [100; 200; 300];
     FFmpeg.PacketCount := 3 |}.

(** The decoder when every byte of [echo_buffer] has been sent and every
    frame has been copied. *)
Definition echo_drained : @FFmpeg.FAudioFFmpeg (list FFmpeg.AVFrame) :=
  {| FFmpeg.av_ctx := [];
     FFmpeg.av_frame :=
       {| FFmpeg.nb_samples := 2; FFmpeg.data := [[5; 6]; [7; 8]] |};
     FFmpeg.encOffset := 8; FFmpeg.decOffset := 4;
     FFmpeg.paddingBytes := 6;
     FFmpeg.paddingBuffer := [x05; x06; x07; x08; x00; x00];
     FFmpeg.convertCapacity := 4; FFmpeg.convertSamples := 2;
     FFmpeg.convertOffset := 2; FFmpeg.convertCache := [5; 7; 6; 8] |}.

(** ** Exact values

    The real numbers that the floating-point values stand for, to measure
    what the [double] arithmetic of the resample step loses. *)

Module Dyadic.

Import Reals.
Local Open Scope R_scope.

(** 2^e, for any integer [e]. *)
Definition p2 (e : Z) : R := powerRZ 2 e.

(** The value of a finite float; the other floats do not occur. *)
Definition val (x : spec_float) : R :=
  match x with
  | S754_finite s m e => IZR (cond_Zopp s (Zpos m)) * p2 e
  | _ => 0
  end.

(** A real [x] lies where the record of a shifted mantissa says: at the
    integer [shr_m], strictly between it and the midpoint to the next, at
    the midpoint, or beyond. *)
Definition inbetween (x : R) (mrs : shr_record) : Prop :=
  let m := IZR (shr_m mrs) in
  match shr_r mrs, shr_s mrs with
  | false, false => x = m
  | false, true => m < x < m + / 2
  | true, false => x = m + / 2
  | true, true => m + / 2 < x < m + 1
  end.

(** A positive [double] in normal form: a mantissa of 53 digits. *)
Definition normal (x : spec_float) : Prop :=
  match x with
  | S754_finite false m e => (2 ^ 52 <= Zpos m < 2 ^ 53)%Z
  | _ => False
  end.

(** [y] is [x] up to the relative error of one rounding, 2^-53. *)
Definition rounds (x y : R) : Prop :=
  - (p2 (-53) * x) <= y - x <= p2 (-53) * x.

(** The values that every operation considered here keeps in the range
    of the normal numbers. *)
Definition in_range (x : R) : Prop := p2 (-1021) <= x < p2 1023.

End Dyadic.

(** * Properties *)

(** ** Reasoning about [res] *)

Lemma bind_Ok {A B} (m : res A) (f : A -> res B) (b : B) :
  m ≫= f = Ok b -> exists a, m = Ok a /\ f a = Ok b.
Proof. destruct m; simpl; intros H; try discriminate. eauto. Qed.

Ltac inv_res :=
  repeat match goal with
  | H : _ ≫= _ = Ok _ |- _ =>
      let a := fresh "a" in let Ha := fresh "Ha" in
      apply bind_Ok in H; destruct H as (a & Ha & H)
  | H : Ok _ = Ok _ |- _ => injection H as H
  | H : Fault = Ok _ |- _ => discriminate H
  | H : OutOfFuel = Ok _ |- _ => discriminate H
  end.

(** ** The buffer queue *)

Section QueueFacts.

Variable EXTRA_DECODE_PADDING : Z.
Variable FAUDIO_END_OF_STREAM : Z.

Lemma DecodeBuffers_round_effect toDecode buffer next st st' :
  DecodeBuffers_round FAUDIO_END_OF_STREAM toDecode buffer next st = Ok st' ->
  src_callback (dl_voice st') = src_callback (dl_voice st) /\
  exists evs,
    dl_trace st' = dl_trace st ++ evs /\
    round_effect (src_callback (dl_voice st)) buffer next
      (src_bufferList (dl_voice st')) evs.
Proof.
  unfold DecodeBuffers_round. intros H. inv_res.
  set (started := if src_curBufferOffset (dl_voice st) =? PlayBegin buffer
                  then _ else _) in *.
  assert (Hs : started = [] \/ started = notify (src_callback (dl_voice st))
             OnBufferStart (Ev_OnBufferStart (pContext buffer))).
  { subst started. destruct (_ =? _); auto. }
  destruct (_ <? _) eqn:Hend in H.
  - destruct (LoopCount buffer >? 0) eqn:Hl.
    + inv_res. subst st'. simpl. split; [reflexivity|].
      eexists; split; [reflexivity|]. apply effect_loop; [exact Hs|lia].
    + destruct next as [|b' next'].
      * inv_res. subst st'. simpl. split; [reflexivity|].
        eexists; split; [reflexivity|].
        apply effect_end; [exact Hs| |lia]. destruct (is_end_of_stream _ _); auto.
      * inv_res. subst st'. simpl. split; [reflexivity|].
        eexists; split; [reflexivity|].
        apply effect_end; [exact Hs| |lia]. destruct (is_end_of_stream _ _); auto.
  - inv_res. subst st'. simpl. split; [reflexivity|].
    eexists; split; [reflexivity|]. apply effect_continue, Hs.
Qed.

(** A property of queue and trace that every round keeps is kept by the
    loop, by a call, and by any playback. *)
Section Invariant.

Variable cbk : option FAudioVoiceCallback.
Variable P : list FAudioBuffer -> list event -> Prop.
Hypothesis P_round : forall buffer next q' tr evs,
  round_effect cbk buffer next q' evs ->
  P (buffer :: next) tr -> P q' (tr ++ evs).

Lemma DecodeBuffers_loop_invariant fuel : forall toDecode st st' tr0,
  src_callback (dl_voice st) = cbk ->
  DecodeBuffers_loop FAUDIO_END_OF_STREAM fuel toDecode st = Ok st' ->
  P (src_bufferList (dl_voice st)) (tr0 ++ dl_trace st) ->
  P (src_bufferList (dl_voice st')) (tr0 ++ dl_trace st') /\
  src_callback (dl_voice st') = cbk.
Proof.
  induction fuel as [|fuel IH]; intros toDecode st st' tr0 Hcb Hrun HP;
    simpl in Hrun;
    destruct (src_bufferList (dl_voice st)) as [|buffer next] eqn:Hq;
    try (inv_res; subst st'; rewrite Hq; auto; fail);
    destruct (dl_decoded st <? toDecode);
    try (inv_res; subst st'; rewrite Hq; auto; fail).
  inv_res.
  destruct (DecodeBuffers_round_effect _ _ _ _ _ Ha) as (Hcb' & evs & Htr & He).
  apply (IH _ _ _ tr0) in Hrun; [exact Hrun|congruence|].
  rewrite Htr, app_assoc. apply (P_round buffer next); [|exact HP].
  rewrite <- Hcb. exact He.
Qed.

Lemma DecodeBuffers_invariant fuel voice toDecode voice' toDecode' reset evs tr0 :
  src_callback voice = cbk ->
  FAudio_INTERNAL_DecodeBuffers EXTRA_DECODE_PADDING FAUDIO_END_OF_STREAM
    fuel voice toDecode = Ok (voice', toDecode', reset, evs) ->
  P (src_bufferList voice) tr0 ->
  P (src_bufferList voice') (tr0 ++ evs) /\ src_callback voice' = cbk.
Proof.
  unfold FAudio_INTERNAL_DecodeBuffers. intros Hcb H HP. inv_res.
  apply (DecodeBuffers_loop_invariant _ _ _ _ tr0) in Ha0;
    [subst; exact Ha0|exact Hcb|].
  simpl. rewrite app_nil_r. exact HP.
Qed.

Lemma playback_invariant v tr v' :
  playback EXTRA_DECODE_PADDING FAUDIO_END_OF_STREAM v tr v' ->
  forall tr0, src_callback v = cbk ->
  P (src_bufferList v) tr0 ->
  P (src_bufferList v') (tr0 ++ tr) /\ src_callback v' = cbk.
Proof.
  induction 1 as [v|v v1 v2 v3 fuel td td' ro evs evs' [Hq Hc] Hcall _ IH];
    intros tr0 Hcb HP.
  - rewrite app_nil_r. auto.
  - rewrite Hq in HP. rewrite Hc in Hcb.
    destruct (DecodeBuffers_invariant _ _ _ _ _ _ _ tr0 Hcb Hcall HP)
      as [HP2 Hcb2].
    rewrite app_assoc. apply IH; assumption.
Qed.

End Invariant.

(** *** Counting notifications *)

Lemma fired_app e tr1 tr2 :
  fired e (tr1 ++ tr2) = (fired e tr1 + fired e tr2)%nat.
Proof. apply count_occ_app. Qed.

Lemma fired_notify_other cbk f e e' : e <> e' -> fired e (notify cbk f e') = 0%nat.
Proof.
  intros Hne. unfold notify, fired. destruct (registered cbk f); simpl; auto.
  destruct (event_eq_dec e' e); congruence.
Qed.

Lemma fired_notify cbk f e :
  registered cbk f = true -> fired e (notify cbk f e) = 1%nat.
Proof.
  intros Hr. unfold notify, fired. rewrite Hr. simpl.
  destruct (event_eq_dec e e); congruence.
Qed.

Lemma started_silent cbk c c' started :
  started = [] \/ started = notify cbk OnBufferStart (Ev_OnBufferStart c) ->
  fired (Ev_OnLoopEnd c') started = 0%nat /\
  fired (Ev_OnBufferEnd c') started = 0%nat.
Proof.
  intros [->| ->]; [split; reflexivity|].
  split; apply fired_notify_other; discriminate.
Qed.

Lemma ended_silent cbk c' ended :
  ended = [] \/ ended = notify cbk OnStreamEnd Ev_OnStreamEnd ->
  fired (Ev_OnLoopEnd c') ended = 0%nat /\
  fired (Ev_OnBufferEnd c') ended = 0%nat.
Proof.
  intros [->| ->]; [split; reflexivity|].
  split; apply fired_notify_other; discriminate.
Qed.

Lemma queued_cons c b q :
  queued c (b :: q) =
  ((if decide (pContext b = c) then 1 else 0) + queued c q)%nat.
Proof.
  unfold queued. rewrite filter_cons. destruct (decide _); reflexivity.
Qed.

Lemma queued_zero c q b : queued c q = 0%nat -> b ∈ q -> pContext b <> c.
Proof.
  induction q as [|a q IH]; intros Hz Hin; [by apply elem_of_nil in Hin|].
  rewrite queued_cons in Hz. destruct (decide (pContext a = c)); [lia|].
  apply elem_of_cons in Hin as [->|Hin]; auto.
Qed.

(** Every round keeps [loop_progress]. *)
Lemma loop_progress_round cb c n buffer next q' tr evs :
  OnLoopEnd cb = true -> OnBufferEnd cb = true -> n <= 254 ->
  round_effect (Some cb) buffer next q' evs ->
  loop_progress c n (buffer :: next) tr ->
  loop_progress c n q' (tr ++ evs).
Proof.
  intros HL HE Hn Heff Hinv. unfold loop_progress in *.
  rewrite !fired_app.
  destruct (decide (pContext buffer = c)) as [Hc|Hc].
  - (* the head is the buffer we follow *)
    destruct Hinv as [(Hq & Hb & He)|(Hq & _)];
      [|rewrite queued_cons in Hq; destruct (decide _); [lia|contradiction]].
    assert (Hnext : queued c next = 0%nat).
    { rewrite queued_cons in Hq. destruct (decide _); [lia|contradiction]. }
    destruct (Hb buffer (list_elem_of_here _ _) Hc) as [H0 Hsum].
    destruct Heff as [started Hs|started Hs Hpos|started ended Hs Hen Hle];
      destruct (started_silent _ _ c _ Hs) as [HsL HsE].
    + left. rewrite HsL, HsE, !Nat.add_0_r. auto.
    + left. rewrite !fired_app, HsL, HsE.
      rewrite Hc, fired_notify by exact HL.
      rewrite fired_notify_other by discriminate.
      assert (Hlt : (LoopCount buffer <? 255) = true) by lia. rewrite Hlt.
      split; [|split; [|lia]].
      * rewrite queued_cons. simpl. destruct (decide _); [lia|contradiction].
      * intros b Hin Hbc. apply elem_of_cons in Hin as [->|Hin].
        -- simpl. unfold u32. rewrite Z.mod_small by lia. lia.
        -- exfalso. exact (queued_zero _ _ _ Hnext Hin Hbc).
    + right. assert (LoopCount buffer = 0) by lia.
      destruct (ended_silent _ c _ Hen) as [HeL HeE].
      rewrite !fired_app, HsL, HsE, HeL, HeE.
      rewrite Hc, fired_notify by exact HE.
      rewrite fired_notify_other by discriminate. split; [exact Hnext|lia].
  - (* another buffer is being played *)
    assert (Hev : fired (Ev_OnLoopEnd c) evs = 0%nat /\
                  fired (Ev_OnBufferEnd c) evs = 0%nat).
    { destruct Heff as [started Hs|started Hs Hpos|started ended Hs Hen Hle];
        destruct (started_silent _ _ c _ Hs) as [HsL HsE];
        try destruct (ended_silent _ c _ Hen) as [HeL HeE];
        rewrite ?fired_app, ?HsL, ?HsE, ?HeL, ?HeE;
        rewrite ?fired_notify_other by congruence; auto. }
    destruct Hev as [-> ->]. rewrite !Nat.add_0_r.
    assert (Hq' : queued c q' = queued c next /\
                  forall b, b ∈ q' -> pContext b = c -> b ∈ next).
    { destruct Heff as [started Hs|started Hs Hpos|started ended Hs Hen Hle].
      - rewrite queued_cons. destruct (decide _); [contradiction|].
        split; [reflexivity|]. intros b Hin Hbc.
        apply elem_of_cons in Hin as [->|Hin]; [contradiction|exact Hin].
      - rewrite queued_cons.
        assert (Hc' : pContext (if LoopCount buffer <? 255
                  then set_LoopCount buffer (u32 (LoopCount buffer - 1))
                  else buffer) = pContext buffer)
          by (destruct (_ <? _); reflexivity).
        rewrite Hc'. destruct (decide _); [contradiction|].
        split; [reflexivity|]. intros b Hin Hbc.
        apply elem_of_cons in Hin as [->|Hin]; [congruence|exact Hin].
      - auto. }
    destruct Hq' as [Hqe Hsub].
    rewrite queued_cons in Hinv. destruct (decide _); [contradiction|].
    simpl in Hinv. rewrite Hqe.
    destruct Hinv as [(Hq & Hb & He)|Hgone]; [left|right; exact Hgone].
    split; [exact Hq|split; [|exact He]].
    intros b Hin Hbc. apply Hb; [right; auto|exact Hbc].
Qed.

(** Every round keeps a buffer whose loop counter is 255 in the queue,
    untouched. *)
Lemma loops_forever_round cbk b buffer next q' tr evs :
  LoopCount b = 255 ->
  round_effect cbk buffer next q' evs ->
  loops_forever b (buffer :: next) tr ->
  loops_forever b q' (tr ++ evs).
Proof.
  intros H255 Heff (Hin & Hq & He). unfold loops_forever.
  rewrite fired_app.
  assert (Hhead : pContext buffer = pContext b -> buffer = b).
  { intros Hc. apply elem_of_cons in Hin as [->|Hin]; [reflexivity|].
    rewrite queued_cons in Hq. destruct (decide _); [|contradiction].
    exfalso. apply (queued_zero (pContext b) next b); [lia|exact Hin|reflexivity]. }
  destruct (decide (pContext buffer = pContext b)) as [Hc|Hc].
  - specialize (Hhead Hc). subst buffer.
    destruct Heff as [started Hs|started Hs Hpos|started ended Hs Hen Hle];
      [| |lia]; destruct (started_silent _ _ (pContext b) _ Hs) as [_ HsE].
    + rewrite HsE. auto with lia.
    + assert (Hlt : (LoopCount b <? 255) = false) by lia. rewrite Hlt.
      rewrite fired_app, HsE, fired_notify_other by discriminate.
      auto with lia.
  - assert (Hin' : b ∈ next).
    { apply elem_of_cons in Hin as [->|Hin]; [contradiction|exact Hin]. }
    assert (Hq' : queued (pContext b) next = 1%nat).
    { rewrite queued_cons in Hq. destruct (decide _); [contradiction|exact Hq]. }
    destruct Heff as [started Hs|started Hs Hpos|started ended Hs Hen Hle];
      destruct (started_silent _ _ (pContext b) _ Hs) as [_ HsE];
      try destruct (ended_silent _ (pContext b) _ Hen) as [_ HeE];
      rewrite ?fired_app, ?HsE, ?HeE, ?fired_notify_other by congruence.
    + split; [right; exact Hin'|]. split; [|lia].
      rewrite queued_cons. destruct (decide _); [contradiction|exact Hq'].
    + split; [right; exact Hin'|]. split; [|lia].
      rewrite queued_cons.
      destruct (LoopCount buffer <? 255); simpl;
        destruct (decide _); try contradiction; exact Hq'.
    + split; [exact Hin'|]. split; [exact Hq'|lia].
Qed.

(** A rewind goes to the start of the loop: the round that delivers a
    loop-end leaves the play position at [LoopBegin]. *)
Lemma DecodeBuffers_round_rewind toDecode buffer next st st' cb :
  src_callback (dl_voice st) = Some cb -> OnLoopEnd cb = true ->
  DecodeBuffers_round FAUDIO_END_OF_STREAM toDecode buffer next st = Ok st' ->
  fired (Ev_OnLoopEnd (pContext buffer)) (dl_trace st') =
    S (fired (Ev_OnLoopEnd (pContext buffer)) (dl_trace st)) ->
  src_curBufferOffset (dl_voice st') = LoopBegin buffer.
Proof.
  unfold DecodeBuffers_round. intros Hcb HL H Hcount. inv_res.
  set (started := if src_curBufferOffset (dl_voice st) =? PlayBegin buffer
                  then _ else _) in *.
  assert (Hs : fired (Ev_OnLoopEnd (pContext buffer)) started = 0%nat).
  { subst started. destruct (_ =? _); [|reflexivity].
    apply fired_notify_other. discriminate. }
  destruct (_ <? _) eqn:Hend in H.
  - destruct (LoopCount buffer >? 0) eqn:Hl.
    + inv_res. subst st'. reflexivity.
    + exfalso. revert Hcount.
      destruct next as [|b' next']; inv_res; subst st'; simpl;
        rewrite !fired_app, Hs, fired_notify_other by discriminate;
        (destruct (is_end_of_stream _ _);
           [rewrite fired_notify_other by discriminate|]); simpl; lia.
  - exfalso. inv_res. subst st'. simpl in Hcount.
    rewrite fired_app, Hs in Hcount. lia.
Qed.

Lemma run_calls_playback fuel reqs : forall v v' tr,
  run_calls EXTRA_DECODE_PADDING FAUDIO_END_OF_STREAM fuel reqs v = Ok (v', tr) ->
  playback EXTRA_DECODE_PADDING FAUDIO_END_OF_STREAM v tr v'.
Proof.
  induction reqs as [|toDecode reqs IH]; intros v v' tr H; simpl in H.
  - inv_res. subst. constructor.
  - inv_res. destruct a as [[[v2 td'] ro] evs]. inv_res.
    destruct a as [v3 evs']. inv_res. subst.
    eapply playback_decode; [split; reflexivity|exact Ha|apply IH, Ha0].
Qed.

(** Counting the loops. Take a queued buffer [b], the only one with its
    context, on a voice that has the loop-end and buffer-end callbacks, and
    any playback of that voice: decode calls of any sizes, the play position
    moved at will in between. If [b]'s loop counter is n in 1..254, then
    once [b] has left the queue exactly n loop-ends and exactly one
    buffer-end have been delivered for it, and as long as it is queued at
    most n loop-ends and no buffer-end; each loop-end is a rewind of the
    play position to the loop start ([DecodeBuffers_round_rewind]). If the
    counter is 255, [b] stays in the queue unchanged, counter included, and
    no buffer-end is ever delivered for it. Whether [b] does leave the
    queue is another matter: see [DecodeBuffers_past_LoopLength]. *)
Theorem loop_count_semantics v tr v' cb b :
  playback EXTRA_DECODE_PADDING FAUDIO_END_OF_STREAM v tr v' ->
  src_callback v = Some cb -> OnLoopEnd cb = true -> OnBufferEnd cb = true ->
  b ∈ src_bufferList v -> queued (pContext b) (src_bufferList v) = 1%nat ->
  0 < LoopLength b ->
  (1 <= LoopCount b <= 254 ->
     (queued (pContext b) (src_bufferList v') = 0%nat ->
        Z.of_nat (fired (Ev_OnLoopEnd (pContext b)) tr) = LoopCount b /\
        fired (Ev_OnBufferEnd (pContext b)) tr = 1%nat) /\
     (queued (pContext b) (src_bufferList v') <> 0%nat ->
        Z.of_nat (fired (Ev_OnLoopEnd (pContext b)) tr) <= LoopCount b /\
        fired (Ev_OnBufferEnd (pContext b)) tr = 0%nat)) /\
  (LoopCount b = 255 ->
     b ∈ src_bufferList v' /\ LoopCount b = 255 /\
     fired (Ev_OnBufferEnd (pContext b)) tr = 0%nat).
Proof.
  intros Hplay Hcb HL HE Hin Hq _. split.
  - intros Hn.
    assert (Hinit : loop_progress (pContext b) (LoopCount b)
                      (src_bufferList v) []).
    { left. split; [exact Hq|]. split; [|reflexivity].
      intros b' Hin' Hc'. simpl.
      assert (b' = b) as ->; [|lia].
      clear -Hin Hin' Hc' Hq. induction (src_bufferList v) as [|a q IH];
        [by apply elem_of_nil in Hin|].
      rewrite queued_cons in Hq.
      apply elem_of_cons in Hin as [->|Hin];
        apply elem_of_cons in Hin' as [->|Hin']; auto.
      - destruct (decide _); [|contradiction]. exfalso.
        apply (queued_zero (pContext a) q b'); [lia|exact Hin'|exact Hc'].
      - destruct (decide _); [|congruence]. exfalso.
        apply (queued_zero (pContext b) q b); [lia|exact Hin|reflexivity].
      - destruct (decide _); apply IH; auto. exfalso.
        apply (queued_zero (pContext b) q b); [lia|exact Hin|reflexivity]. }
    destruct (playback_invariant (Some cb)
                (loop_progress (pContext b) (LoopCount b))
                (fun buffer next q' tr0 evs =>
                   loop_progress_round cb _ _ buffer next q' tr0 evs HL HE
                     (proj2 Hn))
                v tr v' Hplay [] Hcb Hinit) as [Hfin _].
    simpl in Hfin.
    destruct Hfin as [(Hq1 & Hb1 & He1)|(Hq0 & HnL & HnE)].
    + split; [intros Hz; lia|]. intros _. split; [|exact He1].
      assert (Hex : exists b', b' ∈ src_bufferList v' /\ pContext b' = pContext b).
      { clear -Hq1. induction (src_bufferList v') as [|a q IH];
          [discriminate|].
        rewrite queued_cons in Hq1. destruct (decide _) as [Hc|Hc].
        - exists a. split; [left|exact Hc].
        - destruct (IH Hq1) as (b' & Hb' & Hc'). exists b'.
          split; [right; exact Hb'|exact Hc']. }
      destruct Hex as (b' & Hb' & Hc'). destruct (Hb1 b' Hb' Hc'). lia.
    + split; [auto|]. intros Hnz. contradiction.
  - intros H255.
    destruct (playback_invariant (src_callback v) (loops_forever b)
                (fun buffer next q' tr0 evs =>
                   loops_forever_round _ b buffer next q' tr0 evs H255)
                v tr v' Hplay [] eq_refl) as [(Hin' & _ & He') _].
    + split; [exact Hin|]. split; [exact Hq|reflexivity].
    + auto.
Qed.

(** The end of a loop pass is the position [LoopLength], not
    [LoopBegin + LoopLength]. A call that finds the play position beyond
    it, with loops left, computes [end - curBufferOffset] in 32 bits
    without a sign: nothing ends, whatever is read, and the buffer stays
    at the head of the queue with its loop counter, the position where it
    was. *)
Lemma DecodeBuffers_past_LoopLength fuel v b next toDecode
  v' toDecode' resetOffset evs :
  src_bufferList v = b :: next ->
  LoopCount b > 0 ->
  0 < LoopLength b < src_curBufferOffset v -> src_curBufferOffset v < 2 ^ 32 ->
  0 <= toDecode + EXTRA_DECODE_PADDING
    <= 2 ^ 32 - (src_curBufferOffset v - LoopLength b) ->
  FAudio_INTERNAL_DecodeBuffers EXTRA_DECODE_PADDING FAUDIO_END_OF_STREAM
    (S fuel) v toDecode = Ok (v', toDecode', resetOffset, evs) ->
  src_bufferList v' = b :: next /\
  src_curBufferOffset v' = src_curBufferOffset v /\
  resetOffset = 0 /\
  fired (Ev_OnLoopEnd (pContext b)) evs = 0%nat /\
  fired (Ev_OnBufferEnd (pContext b)) evs = 0%nat.
Proof.
  intros Hq Hcount Hpos Hcur Hreq H.
  unfold FAudio_INTERNAL_DecodeBuffers in H.
  assert (HT : u64 (toDecode + EXTRA_DECODE_PADDING) =
               toDecode + EXTRA_DECODE_PADDING).
  { unfold u64. apply Z.mod_small. lia. }
  rewrite HT in H. set (T := toDecode + EXTRA_DECODE_PADDING) in *.
  inv_res. rename a0 into st. cbn [DecodeBuffers_loop dl_voice dl_decoded] in Ha0.
  rewrite Hq in Ha0.
  destruct (0 <? T) eqn:HT0.
  2:{ inv_res. subst st. cbn in H. inv_res. subst. cbn.
      rewrite Hq. auto. }
  inv_res. rename a0 into st1.
  assert (Hround :
    src_bufferList (dl_voice st1) = b :: next /\
    src_curBufferOffset (dl_voice st1) = src_curBufferOffset v /\
    dl_resetOffset st1 = 0 /\ dl_decoded st1 = T /\
    fired (Ev_OnLoopEnd (pContext b)) (dl_trace st1) = 0%nat /\
    fired (Ev_OnBufferEnd (pContext b)) (dl_trace st1) = 0%nat).
  { unfold DecodeBuffers_round in Ha1.
    cbn [dl_voice dl_decoded dl_resetOffset dl_trace] in Ha1.
    assert (Hend : ((LoopCount b >? 0) && (LoopLength b >? 0)) = true).
    { rewrite andb_true_iff. lia. }
    rewrite Hend in Ha1.
    assert (Hdec : u32 (T - 0) = T).
    { unfold u32. rewrite Z.sub_0_r. apply Z.mod_small. lia. }
    rewrite Hdec in Ha1.
    assert (Hwrap : u32 (LoopLength b - src_curBufferOffset v) =
                    2 ^ 32 - (src_curBufferOffset v - LoopLength b)).
    { unfold u32.
      replace (LoopLength b - src_curBufferOffset v)
        with (2 ^ 32 - (src_curBufferOffset v - LoopLength b) + -1 * 2 ^ 32)
        by lia.
      rewrite Z.mod_add by lia. apply Z.mod_small. lia. }
    rewrite Hwrap in Ha1.
    assert (Hmin : FAudio_min
                     (2 ^ 32 - (src_curBufferOffset v - LoopLength b)) T = T).
    { unfold FAudio_min.
      destruct (Z.ltb_spec0
                  (2 ^ 32 - (src_curBufferOffset v - LoopLength b)) T); lia. }
    rewrite Hmin in Ha1. inv_res.
    rewrite Z.ltb_irrefl in Ha1. inv_res. subst st1.
    cbn [dl_voice dl_decoded dl_resetOffset dl_trace set_decode_state
         src_bufferList src_curBufferOffset].
    repeat split; try reflexivity.
    - unfold u32. rewrite Z.add_0_l. apply Z.mod_small. lia.
    - cbn [app]. destruct (_ =? _); [|reflexivity].
      apply fired_notify_other. discriminate.
    - cbn [app]. destruct (_ =? _); [|reflexivity].
      apply fired_notify_other. discriminate. }
  destruct Hround as (Hq1 & Hc1 & Hr1 & Hd1 & HL1 & HE1).
  assert (Hst : st = st1).
  { destruct fuel; cbn [DecodeBuffers_loop] in Ha0; rewrite Hq1, Hd1 in Ha0;
      rewrite Z.ltb_irrefl in Ha0; inv_res; congruence. }
  subst st1. inv_res. subst. auto.
Qed.

End QueueFacts.

(** A buffer with three loops, decoded by two calls: three loop-ends, then
    the buffer-end. *)
Lemma loop_count_semantics_witness :
  exists v' tr,
    run_calls 2 64 40 [2; 20] (looping_voice 3) = Ok (v', tr) /\
    src_bufferList v' = [] /\
    Z.of_nat (fired (Ev_OnLoopEnd 7) tr) = 3 /\
    fired (Ev_OnBufferEnd 7) tr = 1%nat.
Proof.
  assert (Hobs : match run_calls 2 64 40 [2; 20] (looping_voice 3) with
                 | Ok (v, _) => src_bufferList v = []
                 | _ => False
                 end) by (vm_compute; reflexivity).
  destruct (run_calls 2 64 40 [2; 20] (looping_voice 3))
    as [[v' tr]| |] eqn:Hrun; try contradiction.
  exists v', tr. split; [reflexivity|]. split; [exact Hobs|].
  apply run_calls_playback in Hrun.
  refine (proj1 (proj1 (loop_count_semantics 2 64 (looping_voice 3) tr v'
            all_callbacks (looping_buffer 3) Hrun eq_refl eq_refl eq_refl
            _ eq_refl _) _) _).
  - left.
  - reflexivity.
  - simpl; lia.
  - rewrite Hobs. reflexivity.
Defined.

(** The same buffer decoded by a single call. The cache shows the passes:
    samples 0 to 2 up to the end of the loop window, the window [1, 3)
    twice more, and after the third rewind samples 1 to 3 through the
    window to the end of the buffer; zeros for the rest of the request. *)
Lemma loop_traversals_example :
  cache_after (FAudio_INTERNAL_DecodeBuffers 2 64 40 (looping_voice 3) 20) =
    Some ([256; 512; 768] ++ [512; 768] ++ [512; 768] ++ [512; 768; 1024] ++
          replicate 12 0 ++ replicate 42 9) /\
  trace_after (run_calls 2 64 40 [20] (looping_voice 3)) =
    Some [Ev_OnBufferStart 7; Ev_OnLoopEnd 7; Ev_OnLoopEnd 7; Ev_OnLoopEnd 7;
          Ev_OnBufferEnd 7].
Proof. split; vm_compute; reflexivity. Qed.


(** C1. The buffer [late_loop_buffer] has a play window [0, 8), a loop
    window that begins at frame 5 and is 3 frames long, and loop counter 2:
    its loop window is to be played twice more, with two loop-ends, and
    then the buffer is to end. The code takes the end of a loop pass to be
    the position [LoopLength]. The first block plays the frames 0 to 2,
    rewinds to frame 5 with one loop-end, and plays on from there. From
    then on the position is beyond [LoopLength], and every block reads on:
    after five blocks the position is 22, far beyond the play window, the
    loop counter is still 1, and neither the second loop-end nor the
    buffer-end has been delivered; the sixth block reads beyond the
    payload. *)
Theorem loop_pass_ends_at_LoopLength :
  trace_after (run_mixes 2 64 max_volume_2_24 40 0 ∅ 1 late_loop_voice) =
    Some [Ev_OnVoiceProcessingPassStart 128; Ev_OnBufferStart 7;
          Ev_OnLoopEnd 7; Ev_OnVoiceProcessingPassEnd] /\
  head_of_cache_after 6
    (run_mixes 2 64 max_volume_2_24 40 0 ∅ 1 late_loop_voice) =
    Some ([256; 512; 768] ++ [1536; 1792; 2048]) /\
  position_after (run_mixes 2 64 max_volume_2_24 40 0 ∅ 1 late_loop_voice) =
    Some (6, [1]) /\
  trace_after (run_mixes 2 64 max_volume_2_24 40 0 ∅ 5 late_loop_voice) =
    Some ([Ev_OnVoiceProcessingPassStart 128; Ev_OnBufferStart 7;
           Ev_OnLoopEnd 7; Ev_OnVoiceProcessingPassEnd] ++
          [Ev_OnVoiceProcessingPassStart 128; Ev_OnVoiceProcessingPassEnd;
           Ev_OnVoiceProcessingPassStart 128; Ev_OnVoiceProcessingPassEnd;
           Ev_OnVoiceProcessingPassStart 128; Ev_OnVoiceProcessingPassEnd;
           Ev_OnVoiceProcessingPassStart 128; Ev_OnVoiceProcessingPassEnd]) /\
  head_of_cache_after 6
    (run_mixes 2 64 max_volume_2_24 40 0 ∅ 5 late_loop_voice) =
    Some [4864; 5120; 5376; 5632; 5888; 6144] /\
  position_after (run_mixes 2 64 max_volume_2_24 40 0 ∅ 5 late_loop_voice) =
    Some (22, [1]) /\
  run_mixes 2 64 max_volume_2_24 40 0 ∅ 6 late_loop_voice = Fault.
Proof. repeat split; vm_compute; reflexivity. Qed.

(** After the first block [late_loop_voice] is in the state of
    [DecodeBuffers_past_LoopLength]: whatever is asked of it then, up to
    the whole of its cache, no decode call that returns delivers a
    loop-end or a buffer-end, or moves the buffer from the head of the
    queue. *)
Lemma late_loop_never_ends v1 tr1 fuel toDecode v' toDecode' resetOffset evs :
  run_mixes 2 64 max_volume_2_24 40 0 ∅ 1 late_loop_voice = Ok (v1, tr1) ->
  0 <= toDecode <= 62 ->
  FAudio_INTERNAL_DecodeBuffers 2 64 (S fuel) v1 toDecode =
    Ok (v', toDecode', resetOffset, evs) ->
  src_bufferList v' = src_bufferList v1 /\
  src_curBufferOffset v' = src_curBufferOffset v1 /\
  fired (Ev_OnLoopEnd 7) evs = 0%nat /\
  fired (Ev_OnBufferEnd 7) evs = 0%nat.
Proof.
  intros Hrun Hreq Hcall.
  assert (Hv1 : src_bufferList v1 = [set_LoopCount late_loop_buffer 1] /\
                src_curBufferOffset v1 = 6).
  { assert (Hc : match run_mixes 2 64 max_volume_2_24 40 0 ∅ 1
                         late_loop_voice with
                 | Ok (v, _) =>
                     src_bufferList v = [set_LoopCount late_loop_buffer 1] /\
                     src_curBufferOffset v = 6
                 | _ => True
                 end) by (vm_compute; split; reflexivity).
    rewrite Hrun in Hc. exact Hc. }
  destruct Hv1 as [Hq Hpos].
  assert (Hcount : LoopCount (set_LoopCount late_loop_buffer 1) > 0)
    by (cbn; lia).
  assert (Hwin : 0 < LoopLength (set_LoopCount late_loop_buffer 1)
                   < src_curBufferOffset v1) by (rewrite Hpos; cbn; lia).
  assert (Hcur : src_curBufferOffset v1 < 2 ^ 32) by (rewrite Hpos; lia).
  assert (Hfit : 0 <= toDecode + 2
                   <= 2 ^ 32 - (src_curBufferOffset v1 -
                                LoopLength (set_LoopCount late_loop_buffer 1)))
    by (rewrite Hpos; cbn; lia).
  destruct (DecodeBuffers_past_LoopLength 2 64 fuel v1
              (set_LoopCount late_loop_buffer 1) [] toDecode
              v' toDecode' resetOffset evs Hq Hcount Hwin Hcur Hfit Hcall)
    as (Hq' & Hp' & _ & HL & HE).
  rewrite Hq. auto.
Qed.

(** ** Start-of-buffer notifications *)

(** C8. The start-of-buffer test is [curBufferOffset == PlayBegin], made in
    every round of the decode loop. A buffer whose loop starts where its
    play window starts passes it again after the rewind: for
    [rewinding_buffer], one decode call of 6 samples delivers the
    buffer-start notification twice, the second time after the loop-end. *)
Theorem buffer_start_fires_again :
  trace_after (run_calls 2 64 40 [6] rewinding_voice) =
    Some [Ev_OnBufferStart 7; Ev_OnLoopEnd 7;
          Ev_OnBufferStart 7; Ev_OnBufferEnd 7] /\
  (forall tr, trace_after (run_calls 2 64 40 [6] rewinding_voice) = Some tr ->
     fired (Ev_OnBufferStart 7) tr = 2%nat).
Proof.
  assert (H : trace_after (run_calls 2 64 40 [6] rewinding_voice) =
              Some [Ev_OnBufferStart 7; Ev_OnLoopEnd 7;
                    Ev_OnBufferStart 7; Ev_OnBufferEnd 7])
    by (vm_compute; reflexivity).
  split; [exact H|]. intros tr Htr. rewrite H in Htr.
  injection Htr as <-. reflexivity.
Qed.

(** The same happens without a loop when the position does not move: at a
    quarter of the output rate and one output sample a block,
    [slow_voice] stays on sample 0 for four blocks, and each of them
    delivers the buffer-start notification. *)
Lemma buffer_start_fires_every_block :
  trace_after (run_mixes 2 64 max_volume_2_24 40 0 ∅ 2 slow_voice) =
    Some [Ev_OnVoiceProcessingPassStart 128; Ev_OnBufferStart 7;
          Ev_OnVoiceProcessingPassEnd;
          Ev_OnVoiceProcessingPassStart 128; Ev_OnBufferStart 7;
          Ev_OnVoiceProcessingPassEnd].
Proof. vm_compute. reflexivity. Qed.

(** ** Starvation *)

Section Starvation.

Variable EXTRA_DECODE_PADDING : Z.
Variable FAUDIO_END_OF_STREAM : Z.

Lemma load_length {A} (mem : list A) off n l :
  load mem off n = Ok l -> Z.of_nat (length l) = n.
Proof.
  unfold load. intros H.
  destruct (0 <=? off) eqn:H1; destruct (0 <=? n) eqn:H2;
    destruct (off + n <=? Z.of_nat (length mem)) eqn:H3; simpl in H;
    inv_res. subst l. rewrite length_take, length_drop. lia.
Qed.

Lemma store_Ok {A} (mem : list A) off vals :
  0 <= off -> off + Z.of_nat (length vals) <= Z.of_nat (length mem) ->
  store mem off vals =
    Ok (take (Z.to_nat off) mem ++ vals ++
        drop (Z.to_nat off + length vals) mem).
Proof.
  intros H0 H1. unfold store.
  assert (Hc : ((0 <=? off) &&
                (off + Z.of_nat (length vals) <=? Z.of_nat (length mem)))%bool
               = true) by (apply andb_true_intro; split; lia).
  rewrite Hc. reflexivity.
Qed.

Lemma u32_small z : 0 <= z < 2 ^ 32 -> u32 z = z.
Proof. apply Z.mod_small. Qed.

Lemma DecodeBuffers_loop_empty fuel toDecode st :
  src_bufferList (dl_voice st) = [] ->
  DecodeBuffers_loop FAUDIO_END_OF_STREAM fuel toDecode st = Ok st.
Proof. intros H. destruct fuel; simpl; rewrite H; reflexivity. Qed.

(** The mono case. A voice with one channel plays the last buffer of its
    queue, not looped, with [M] samples left; a request that comes to [N]
    samples with the padding, [M < N], leaves in the decode cache the [M]
    decoded samples, then [N - M] zeros, then what was there before. *)
Lemma starvation_mono fuel voice toDecode b pcm :
  nChannels (src_format voice) = 1 ->
  src_bufferList voice = [b] ->
  LoopCount b = 0 ->
  let M := PlayLength b - src_curBufferOffset voice in
  let N := toDecode + EXTRA_DECODE_PADDING in
  0 <= M < N -> N <= src_decodeSamples voice ->
  N <= Z.of_nat (length (src_decodeCache voice)) -> N < 2 ^ 32 ->
  src_decode voice b (src_curBufferOffset voice) M (src_format voice) = Ok pcm ->
  Z.of_nat (length pcm) = M ->
  cache_after (FAudio_INTERNAL_DecodeBuffers EXTRA_DECODE_PADDING
                 FAUDIO_END_OF_STREAM (S fuel) voice toDecode) =
    Some (pcm ++ replicate (Z.to_nat (N - M)) 0 ++
          drop (Z.to_nat N) (src_decodeCache voice)).
Proof.
  intros Hch Hq Hloop M N HM Hcap Hlen H32 Hdec Hpcm.
  unfold FAudio_INTERNAL_DecodeBuffers.
  assert (HN : u64 (toDecode + EXTRA_DECODE_PADDING) = N).
  { unfold u64. apply Z.mod_small. fold N. lia. }
  rewrite HN.
  assert (Hg : (N <=? src_decodeSamples voice) = true) by lia.
  rewrite Hg.
  cbn [guard_res mbind res_bind DecodeBuffers_loop dl_voice dl_decoded].
  rewrite Hq.
  assert (H0N : (0 <? N) = true) by lia. rewrite H0N.
  unfold DecodeBuffers_round.
  cbn [dl_voice dl_decoded dl_resetOffset dl_trace].
  rewrite Hloop, Hch, Z.sub_0_r, Z.mul_0_l, !Z.add_0_l.
  change (0 >? 0) with false. cbn [andb].
  assert (Hend : FAudio_min (u32 (PlayLength b - src_curBufferOffset voice))
                            (u32 N) = M).
  { unfold FAudio_min. fold M. rewrite !u32_small by lia.
    assert (Hlt : (M <? N) = true) by lia. rewrite Hlt. reflexivity. }
  rewrite Hend, Hdec. cbn [mbind res_bind].
  rewrite (u32_small 0), (u32_small M), (u32_small N), (u32_small (N - M))
    by lia.
  rewrite store_Ok by lia. cbn [mbind res_bind].
  assert (Hlt : (M <? N) = true) by lia. rewrite Hlt.
  rewrite store_Ok.
  2: lia.
  2: { rewrite length_replicate, !length_app, length_take, length_drop. lia. }
  cbn [mbind res_bind].
  rewrite DecodeBuffers_loop_empty by reflexivity.
  cbn [mbind res_bind dl_voice set_decode_state cache_after src_decodeCache].
  f_equal. change (Z.to_nat 0) with 0%nat. rewrite take_0, Nat.add_0_l.
  cbn [app].
  assert (Hz : Z.to_nat M = length pcm) by lia.
  rewrite Hz, take_app_length, length_replicate.
  rewrite drop_app_ge by lia. rewrite drop_drop.
  do 2 f_equal. f_equal. lia.
Qed.

End Starvation.

(** The lemma at work: two samples left, four requested with the padding. *)
Lemma starvation_mono_example :
  cache_after (FAudio_INTERNAL_DecodeBuffers 2 64 40 starved_mono_voice 2) =
    Some ([256; 512] ++ [0; 0] ++ replicate 60 9).
Proof. vm_compute. reflexivity. Qed.

(** C2. Starvation, with two channels. The zero-fill starts at value
    [decoded * nChannels + endRead] of the cache and covers
    [decoding - endRead] values, where the frames just decoded end at
    [(decoded + endRead) * nChannels] and the request at
    [(decoded + decoding) * nChannels]. With two frames (1, 2), (3, 4) left
    and four requested, the cache should hold the two frames and then four
    zeros for the two missing frames; the call leaves frame (1, 2), zeros
    in place of frame (3, 4), and the old contents of the cache where the
    missing frames belong. *)
Theorem starvation_stereo_zero_fill :
  cache_after (FAudio_INTERNAL_DecodeBuffers 2 64 40 starved_stereo_voice 2) =
    Some ([256; 512] ++ [0; 0] ++ [9; 9; 9; 9] ++ replicate 56 9) /\
  Decoders.FAudio_INTERNAL_DecodeStereoPCM8
    (last_buffer [x01; x02; x03; x04]) 0 2 (pcm8 2) =
    Ok [256; 512; 768; 1024] /\
  cache_after (FAudio_INTERNAL_DecodeBuffers 2 64 40 starved_stereo_voice 2) <>
    Some ([256; 512; 768; 1024] ++ [0; 0; 0; 0] ++ replicate 56 9).
Proof.
  assert (H : cache_after (FAudio_INTERNAL_DecodeBuffers 2 64 40
                             starved_stereo_voice 2) =
              Some ([256; 512] ++ [0; 0] ++ [9; 9; 9; 9] ++ replicate 56 9))
    by (vm_compute; reflexivity).
  split; [exact H|]. split; [vm_compute; reflexivity|].
  rewrite H. vm_compute. discriminate.
Qed.

(** ** The decoders and [PlayBegin] *)

Lemma u32_add_idem a : u32 (0 + u32 a) = u32 a.
Proof. unfold u32. rewrite Z.add_0_l. apply Z.mod_mod. lia. Qed.

Lemma u32_mul_idem a k : u32 ((0 + u32 a) * k) = u32 (a * k).
Proof. unfold u32. rewrite Z.add_0_l. apply Z.mul_mod_idemp_l. lia. Qed.

(** In the four PCM decoders the sum [PlayBegin + curOffset] is a 32-bit
    one, and nothing else of [PlayBegin] is read. *)
Lemma PCM_offset_is_a_32_bit_sum buffer curOffset samples format :
  (Decoders.FAudio_INTERNAL_DecodeMonoPCM8 buffer curOffset samples format =
   Decoders.FAudio_INTERNAL_DecodeMonoPCM8 (set_PlayBegin buffer 0)
     (u32 (PlayBegin buffer + curOffset)) samples format) /\
  (Decoders.FAudio_INTERNAL_DecodeStereoPCM8 buffer curOffset samples format =
   Decoders.FAudio_INTERNAL_DecodeStereoPCM8 (set_PlayBegin buffer 0)
     (u32 (PlayBegin buffer + curOffset)) samples format) /\
  (Decoders.FAudio_INTERNAL_DecodeMonoPCM16 buffer curOffset samples format =
   Decoders.FAudio_INTERNAL_DecodeMonoPCM16 (set_PlayBegin buffer 0)
     (u32 (PlayBegin buffer + curOffset)) samples format) /\
  (Decoders.FAudio_INTERNAL_DecodeStereoPCM16 buffer curOffset samples format =
   Decoders.FAudio_INTERNAL_DecodeStereoPCM16 (set_PlayBegin buffer 0)
     (u32 (PlayBegin buffer + curOffset)) samples format).
Proof.
  unfold Decoders.FAudio_INTERNAL_DecodeMonoPCM8,
    Decoders.FAudio_INTERNAL_DecodeStereoPCM8,
    Decoders.FAudio_INTERNAL_DecodeMonoPCM16,
    Decoders.FAudio_INTERNAL_DecodeStereoPCM16.
  cbn [set_PlayBegin PlayBegin pAudioData].
  rewrite !u32_add_idem, !u32_mul_idem. repeat split; reflexivity.
Qed.

Lemma load_Ok {A} (mem : list A) off n :
  0 <= off -> 0 <= n -> off + n <= Z.of_nat (length mem) ->
  load mem off n = Ok (take (Z.to_nat n) (drop (Z.to_nat off) mem)).
Proof.
  intros H1 H2 H3. unfold load.
  assert (Hb : (0 <=? off) && (0 <=? n) &&
               (off + n <=? Z.of_nat (length mem)) = true).
  { rewrite !andb_true_iff. lia. }
  rewrite Hb. reflexivity.
Qed.

Lemma load_lookup {A} (mem : list A) off n l i :
  load mem off n = Ok l -> (Z.of_nat i < n) ->
  l !! i = mem !! (Z.to_nat off + i)%nat.
Proof.
  unfold load. intros H Hi.
  destruct (_ && _) in H; inv_res. subst l.
  rewrite lookup_take_lt by lia. apply lookup_drop.
Qed.

Lemma int16s_of_length k : forall l,
  length l = (2 * k)%nat -> length (int16s_of l) = k.
Proof.
  induction k as [|k IH]; intros l Hl.
  - destruct l; [reflexivity|discriminate].
  - destruct l as [|lo [|hi l]]; try (simpl in Hl; lia).
    cbn [int16s_of length]. rewrite IH by (simpl in Hl; lia). reflexivity.
Qed.

Lemma int16s_of_lookup j : forall l lo hi,
  l !! (2 * j)%nat = Some lo -> l !! (2 * j + 1)%nat = Some hi ->
  int16s_of l !! j = Some (int16_of lo hi).
Proof.
  induction j as [|j IH]; intros l lo hi Hlo Hhi.
  - destruct l as [|a [|b l]]; try discriminate.
    cbn in Hlo, Hhi. injection Hlo as ->. injection Hhi as ->. reflexivity.
  - destruct l as [|a [|b l]]; try discriminate.
    cbn [int16s_of]. rewrite lookup_cons. apply IH.
    + replace (2 * S j)%nat with (S (S (2 * j))) in Hlo by lia. exact Hlo.
    + replace (2 * S j + 1)%nat with (S (S (2 * j + 1))) in Hhi by lia.
      exact Hhi.
Qed.

(** What an 8-bit decoder makes of the bytes it has loaded. *)
Lemma load_reads_pcm8 data off n :
  0 <= off -> 0 <= n -> off + n <= Z.of_nat (length data) ->
  reads_from (pcm8_at data) off n
    (buf ← load data off n; Ok (map (fun b => s16 (Z.shiftl (int8_of b) 8)) buf)).
Proof.
  intros Hoff Hn Hin.
  pose proof (load_Ok data off n Hoff Hn Hin) as Hl.
  rewrite Hl. cbn [mbind res_bind]. eexists. split; [reflexivity|].
  split.
  { rewrite length_map. eapply load_length, Hl. }
  intros j Hj. unfold pcm8_at.
  rewrite list_lookup_fmap, (load_lookup _ _ _ _ _ Hl) by lia.
  replace (Z.to_nat (off + j)) with (Z.to_nat off + Z.to_nat j)%nat by lia.
  destruct (lookup_lt_is_Some_2 data (Z.to_nat off + Z.to_nat j)%nat) as [b Hb];
    [lia|].
  rewrite Hb. split; [eexists|]; reflexivity.
Qed.

(** What a 16-bit decoder makes of the bytes it has copied: [off] and [n]
    count samples of two bytes. *)
Lemma load_reads_pcm16 data off n :
  0 <= off -> 0 <= n -> 2 * (off + n) <= Z.of_nat (length data) ->
  reads_from (pcm16_at data) off n
    (buf ← load data (2 * off) (2 * n); Ok (int16s_of buf)).
Proof.
  intros Hoff Hn Hin.
  assert (Hl : load data (2 * off) (2 * n) =
               Ok (take (Z.to_nat (2 * n)) (drop (Z.to_nat (2 * off)) data)))
    by (apply load_Ok; lia).
  rewrite Hl. cbn [mbind res_bind]. eexists. split; [reflexivity|].
  pose proof (load_length _ _ _ _ Hl) as Hlen.
  split.
  { rewrite (int16s_of_length (Z.to_nat n)); lia. }
  intros j Hj. unfold pcm16_at.
  destruct (lookup_lt_is_Some_2 data (Z.to_nat (2 * (off + j)))) as [lo Hlo];
    [lia|].
  destruct (lookup_lt_is_Some_2 data (Z.to_nat (2 * (off + j) + 1)))
    as [hi Hhi]; [lia|].
  rewrite Hlo, Hhi. split; [eexists; reflexivity|].
  apply int16s_of_lookup.
  - rewrite (load_lookup _ _ _ _ _ Hl) by lia. rewrite <- Hlo. f_equal. lia.
  - rewrite (load_lookup _ _ _ _ _ Hl) by lia. rewrite <- Hhi. f_equal. lia.
Qed.

(** C10. The four PCM decoders read the payload from offset
    [PlayBegin + curOffset] on. For a payload of fewer than 2^32 bytes
    and a request that lies within it, what a PCM decoder returns is the
    run of [samples] frames of the payload that begins with frame
    [PlayBegin + curOffset]: of a mono payload its samples
    [PlayBegin + curOffset + j], of a stereo payload its samples
    [2 * (PlayBegin + curOffset) + j], each byte of 8-bit data and each
    pair of bytes of 16-bit data making one sample. The two MSADPCM
    decoders never read [PlayBegin]: whatever value it is given, they
    decode the same. *)
Theorem decoders_and_PlayBegin buffer curOffset samples format :
  0 <= PlayBegin buffer -> 0 <= curOffset -> 0 <= samples ->
  Z.of_nat (length (pAudioData buffer)) < 2 ^ 32 ->
  (PlayBegin buffer + curOffset + samples
     <= Z.of_nat (length (pAudioData buffer)) ->
   reads_from (pcm8_at (pAudioData buffer))
     (PlayBegin buffer + curOffset) samples
     (Decoders.FAudio_INTERNAL_DecodeMonoPCM8 buffer curOffset samples
        format)) /\
  (2 * (PlayBegin buffer + curOffset + samples)
     <= Z.of_nat (length (pAudioData buffer)) ->
   reads_from (pcm8_at (pAudioData buffer))
     (2 * (PlayBegin buffer + curOffset)) (2 * samples)
     (Decoders.FAudio_INTERNAL_DecodeStereoPCM8 buffer curOffset samples
        format)) /\
  (2 * (PlayBegin buffer + curOffset + samples)
     <= Z.of_nat (length (pAudioData buffer)) ->
   reads_from (pcm16_at (pAudioData buffer))
     (PlayBegin buffer + curOffset) samples
     (Decoders.FAudio_INTERNAL_DecodeMonoPCM16 buffer curOffset samples
        format)) /\
  (4 * (PlayBegin buffer + curOffset + samples)
     <= Z.of_nat (length (pAudioData buffer)) ->
   reads_from (pcm16_at (pAudioData buffer))
     (2 * (PlayBegin buffer + curOffset)) (2 * samples)
     (Decoders.FAudio_INTERNAL_DecodeStereoPCM16 buffer curOffset samples
        format)) /\
  (forall begin,
     Decoders.FAudio_INTERNAL_DecodeMonoMSADPCM (set_PlayBegin buffer begin)
       curOffset samples format =
     Decoders.FAudio_INTERNAL_DecodeMonoMSADPCM buffer curOffset samples
       format) /\
  (forall begin,
     Decoders.FAudio_INTERNAL_DecodeStereoMSADPCM (set_PlayBegin buffer begin)
       curOffset samples format =
     Decoders.FAudio_INTERNAL_DecodeStereoMSADPCM buffer curOffset samples
       format).
Proof.
  intros Hpb Hcur Hn Hlen.
  unfold Decoders.FAudio_INTERNAL_DecodeMonoPCM8,
    Decoders.FAudio_INTERNAL_DecodeStereoPCM8,
    Decoders.FAudio_INTERNAL_DecodeMonoPCM16,
    Decoders.FAudio_INTERNAL_DecodeStereoPCM16.
  repeat split.
  - intros Hin. rewrite u32_small by lia. apply load_reads_pcm8; lia.
  - intros Hin. rewrite u32_small by lia.
    replace ((PlayBegin buffer + curOffset) * 2)
      with (2 * (PlayBegin buffer + curOffset)) by lia.
    replace (samples * 2) with (2 * samples) by lia.
    apply load_reads_pcm8; lia.
  - intros Hin. rewrite !u32_small by lia.
    replace (samples * 2) with (2 * samples) by lia.
    apply load_reads_pcm16; lia.
  - intros Hin. rewrite !u32_small by lia.
    replace ((PlayBegin buffer + curOffset) * 2)
      with (2 * (PlayBegin buffer + curOffset)) by lia.
    replace (samples * 4) with (2 * (2 * samples)) by lia.
    apply load_reads_pcm16; lia.
Qed.

(** The samples 2, 3 of [pcm_buffer] read as 8-bit mono from [PlayBegin = 1]
    and offset 1; its samples 4 to 7 read as 8-bit stereo; its samples 2, 3
    read as 16-bit mono; its samples 4 to 7 read as 16-bit stereo. *)
Lemma decoders_and_PlayBegin_witness :
  reads_from (pcm8_at (pAudioData pcm_buffer)) 2 2
    (Decoders.FAudio_INTERNAL_DecodeMonoPCM8 pcm_buffer 1 2 (pcm8 1)) /\
  reads_from (pcm8_at (pAudioData pcm_buffer)) 4 4
    (Decoders.FAudio_INTERNAL_DecodeStereoPCM8 pcm_buffer 1 2 (pcm8 2)) /\
  reads_from (pcm16_at (pAudioData pcm_buffer)) 2 2
    (Decoders.FAudio_INTERNAL_DecodeMonoPCM16 pcm_buffer 1 2 (pcm8 1)) /\
  reads_from (pcm16_at (pAudioData pcm_buffer)) 4 4
    (Decoders.FAudio_INTERNAL_DecodeStereoPCM16 pcm_buffer 1 2 (pcm8 2)).
Proof.
  assert (H0 : 0 <= PlayBegin pcm_buffer) by (cbn; lia).
  assert (H1 : 0 <= 1) by lia.
  assert (H2 : 0 <= 2) by lia.
  assert (H3 : Z.of_nat (length (pAudioData pcm_buffer)) < 2 ^ 32)
    by (cbn; lia).
  assert (Hin : 4 * (PlayBegin pcm_buffer + 1 + 2)
                <= Z.of_nat (length (pAudioData pcm_buffer))) by (cbn; lia).
  repeat split.
  - apply (decoders_and_PlayBegin pcm_buffer 1 2 (pcm8 1) H0 H1 H2 H3).
    cbn. lia.
  - apply (decoders_and_PlayBegin pcm_buffer 1 2 (pcm8 2) H0 H1 H2 H3).
    cbn. lia.
  - apply (decoders_and_PlayBegin pcm_buffer 1 2 (pcm8 1) H0 H1 H2 H3).
    cbn. lia.
  - apply (decoders_and_PlayBegin pcm_buffer 1 2 (pcm8 2) H0 H1 H2 H3).
    exact Hin.
Defined.

(** The PCM decoders do depend on [PlayBegin]. *)
Lemma pcm_reads_from_PlayBegin :
  Decoders.FAudio_INTERNAL_DecodeMonoPCM8
    (last_buffer [x01; x02]) 0 1 (pcm8 1) = Ok [256] /\
  Decoders.FAudio_INTERNAL_DecodeMonoPCM8
    (set_PlayBegin (last_buffer [x01; x02]) 1) 0 1 (pcm8 1) = Ok [512].
Proof. split; vm_compute; reflexivity. Qed.

(** ** The pass-end notification of a source voice *)

Section PassEnd.

Variable EXTRA_DECODE_PADDING : Z.
Variable FAUDIO_END_OF_STREAM : Z.
Variable FAUDIO_MAX_VOLUME_LEVEL : spec_float.

Lemma MixSource_step_keeps master heap voice voice' :
  MixSource_step master heap voice = Ok voice' ->
  src_bufferList voice' = src_bufferList voice /\
  src_callback voice' = src_callback voice.
Proof.
  unfold MixSource_step. destruct (negb _); intros H; inv_res; subst;
    split; reflexivity.
Qed.

(** With nothing queued the pass returns right after the pass-start
    notification. *)
Lemma MixSource_empty_queue fuel master heap voice voice' :
  src_bufferList voice = [] ->
  MixSource_step master heap voice = Ok voice' ->
  FAudio_INTERNAL_MixSource EXTRA_DECODE_PADDING FAUDIO_END_OF_STREAM
    FAUDIO_MAX_VOLUME_LEVEL fuel master heap voice =
  Ok (heap, voice',
      notify (src_callback voice') OnVoiceProcessingPassStart
        (Ev_OnVoiceProcessingPassStart (u32 (src_decodeSamples voice' * 2)))).
Proof.
  intros Hq Hstep. unfold FAudio_INTERNAL_MixSource. rewrite Hstep.
  cbn [mbind res_bind].
  destruct (MixSource_step_keeps _ _ _ _ Hstep) as [-> _]. rewrite Hq.
  reflexivity.
Qed.

(** The decode loop delivers no pass-end notification. *)
Lemma round_effect_no_pass_end cbk buffer next q' tr evs :
  round_effect cbk buffer next q' evs ->
  fired Ev_OnVoiceProcessingPassEnd tr = 0%nat ->
  fired Ev_OnVoiceProcessingPassEnd (tr ++ evs) = 0%nat.
Proof.
  intros Heff Htr. rewrite fired_app, Htr.
  destruct Heff as [started Hs|started Hs Hpos|started ended Hs Hen Hle];
    rewrite ?fired_app;
    destruct Hs as [->| ->]; try destruct Hen as [->| ->];
    rewrite ?fired_notify_other by discriminate; reflexivity.
Qed.

Lemma MixSource_loop_no_pass_end fuel : forall st st',
  MixSource_loop EXTRA_DECODE_PADDING FAUDIO_END_OF_STREAM fuel st = Ok st' ->
  fired Ev_OnVoiceProcessingPassEnd (ml_trace st) = 0%nat ->
  fired Ev_OnVoiceProcessingPassEnd (ml_trace st') = 0%nat /\
  src_callback (ml_voice st') = src_callback (ml_voice st).
Proof.
  induction fuel as [|fuel IH]; intros st st' Hrun Htr;
    cbn [MixSource_loop] in Hrun;
    destruct (src_bufferList (ml_voice st)) as [|buffer next] eqn:Hq;
    try (inv_res; subst st'; auto; fail);
    destruct (ml_mixed st <? src_outputSamples (ml_voice st));
    try (inv_res; subst st'; auto; fail).
  inv_res. rename a into st1.
  assert (Hround : fired Ev_OnVoiceProcessingPassEnd (ml_trace st1) = 0%nat /\
                   src_callback (ml_voice st1) = src_callback (ml_voice st)).
  { clear Hrun IH. unfold MixSource_round in Ha. inv_res.
    destruct a as [[[v1 td] ro] evs]. inv_res.
    destruct a0 as [[v2 tr2] rc2]. inv_res. subst st1.
    cbn [ml_trace ml_voice].
    destruct (DecodeBuffers_invariant EXTRA_DECODE_PADDING FAUDIO_END_OF_STREAM
                (src_callback (ml_voice st))
                (fun _ tr => fired Ev_OnVoiceProcessingPassEnd tr = 0%nat)
                (round_effect_no_pass_end _)
                _ _ _ _ _ _ _ (ml_trace st) eq_refl Ha0 Htr) as [Hev Hcb].
    split; [exact Hev|].
    assert (Hv2 : src_callback v2 = src_callback v1).
    { destruct (src_resampleStep v1 =? FIXED_ONE); inv_res; subst.
      - unfold MixSource_convert in Ha.
        destruct (_ <? _); inv_res. subst. reflexivity.
      - unfold FAudio_INTERNAL_ResamplePCM in Ha.
        destruct (_ <? _); inv_res. subst. reflexivity. }
    destruct (src_bufferList v2); cbn [set_decode_state src_callback];
      congruence. }
  destruct Hround as [Htr1 Hcb1].
  destruct (IH _ _ Hrun Htr1) as [Hfin Hcb2]. split; congruence.
Qed.

(** With something queued, a pass that returns has delivered the pass-end
    notification once, as its last notification. *)
Lemma MixSource_pass_end_when_queued fuel master heap voice heap' voice' tr cb :
  src_bufferList voice <> [] ->
  src_callback voice = Some cb -> OnVoiceProcessingPassEnd cb = true ->
  FAudio_INTERNAL_MixSource EXTRA_DECODE_PADDING FAUDIO_END_OF_STREAM
    FAUDIO_MAX_VOLUME_LEVEL fuel master heap voice = Ok (heap', voice', tr) ->
  fired Ev_OnVoiceProcessingPassEnd tr = 1%nat /\
  last tr = Some Ev_OnVoiceProcessingPassEnd.
Proof.
  intros Hq Hcb Hreg. unfold FAudio_INTERNAL_MixSource. intros H. inv_res.
  rename a into v1.
  destruct (MixSource_step_keeps _ _ _ _ Ha) as [Hq1 Hcb1].
  destruct (src_bufferList v1) as [|b q] eqn:Hq1'; [congruence|].
  inv_res. rename a into st.
  destruct (MixSource_loop_no_pass_end _ _ _ Ha0) as [Hno Hcbst].
  { simpl. apply fired_notify_other. discriminate. }
  simpl in Hcbst.
  assert (Hend : notify (src_callback (ml_voice st)) OnVoiceProcessingPassEnd
                   Ev_OnVoiceProcessingPassEnd = [Ev_OnVoiceProcessingPassEnd]).
  { unfold notify, registered. rewrite Hcbst, Hcb1, Hcb, Hreg. reflexivity. }
  assert (Hgoal : fired Ev_OnVoiceProcessingPassEnd
                    (ml_trace st ++ [Ev_OnVoiceProcessingPassEnd]) = 1%nat /\
                  last (ml_trace st ++ [Ev_OnVoiceProcessingPassEnd]) =
                    Some Ev_OnVoiceProcessingPassEnd).
  { rewrite fired_app, Hno, last_snoc. split; reflexivity. }
  assert (Hn : notify (src_callback v1) OnVoiceProcessingPassEnd
                 Ev_OnVoiceProcessingPassEnd = [Ev_OnVoiceProcessingPassEnd]).
  { unfold notify, registered. rewrite Hcb1, Hcb, Hreg. reflexivity. }
  rewrite Hn in H.
  destruct (ml_mixed st =? 0); [inv_res; subst; exact Hgoal|].
  destruct (SendCount _ =? 0); inv_res; subst; exact Hgoal.
Qed.

End PassEnd.

(** C7. The pass-end notification when nothing is queued. The test
    "Nothing to do?" leaves [FAudio_INTERNAL_MixSource] by [return], not by
    [goto end] as the two later exits do: an active voice with every
    callback registered and an empty queue gets the pass-start notification
    and no pass-end. *)
Theorem pass_end_skipped_when_queue_empty :
  trace_of_mix (FAudio_INTERNAL_MixSource 2 64 max_volume_2_24 40 0 ∅
                  idle_voice) =
    Some [Ev_OnVoiceProcessingPassStart 128] /\
  registered (src_callback idle_voice) OnVoiceProcessingPassEnd = true /\
  src_active idle_voice = true.
Proof.
  split; [|split; reflexivity].
  rewrite (MixSource_empty_queue 2 64 max_volume_2_24 40 0 ∅ idle_voice
             idle_voice eq_refl eq_refl).
  reflexivity.
Qed.

(** ** The cached resample step *)

(** *** What the arithmetic of [double] loses

    The step is computed with four operations in [double], each rounded
    to nearest, and a conversion to an integer. What follows bounds the
    distance from the step to the quotient rounded exactly: the rounding
    of a mantissa ([binary_round_aux]) against the real number it stands
    for, then the operations, then the step. *)

Module StepError.

Import Reals Lra Dyadic.
Local Open Scope R_scope.

Lemma p2_pos e : 0 < p2 e.
Proof. unfold p2. apply powerRZ_lt. lra. Qed.

Lemma p2_add a b : p2 (a + b) = p2 a * p2 b.
Proof. unfold p2. apply powerRZ_add. lra. Qed.

Lemma p2_0 : p2 0 = 1.
Proof. reflexivity. Qed.

Lemma p2_1 : p2 1 = 2.
Proof. unfold p2. simpl. lra. Qed.

Lemma p2_m1 : p2 (-1) = / 2.
Proof. unfold p2. simpl. rewrite Rmult_1_r. reflexivity. Qed.

Lemma p2_opp e : p2 (- e) = / p2 e.
Proof. unfold p2. apply powerRZ_neg'. Qed.

Lemma p2_sub a b : p2 (a - b) = p2 a / p2 b.
Proof. unfold Z.sub, Rdiv. rewrite p2_add, p2_opp. reflexivity. Qed.

Lemma p2_IZR k : (0 <= k)%Z -> p2 k = IZR (2 ^ k).
Proof.
  intros Hk. unfold p2. rewrite <- (Z2Nat.id k) at 1 by exact Hk.
  rewrite <- pow_powerRZ. rewrite pow_IZR. f_equal. rewrite Z2Nat.id by exact Hk. reflexivity.
Qed.

Lemma p2_le a b : (a <= b)%Z -> p2 a <= p2 b.
Proof.
  intros H. replace b with (a + (b - a))%Z by lia. rewrite p2_add.
  rewrite (p2_IZR (b - a)) by lia.
  assert (1 <= IZR (2 ^ (b - a))).
  { apply IZR_le. assert (0 < 2 ^ (b - a))%Z by (apply Z.pow_pos_nonneg; lia). lia. }
  pose proof (p2_pos a). nra.
Qed.


(** *** Digits *)

Lemma digits2_size m : digits2_pos m = Pos.size m.
Proof. induction m as [m IH|m IH|]; simpl; rewrite ?IH; reflexivity. Qed.

Lemma digits2_bounds m :
  (2 ^ (Zpos (digits2_pos m) - 1) <= Zpos m < 2 ^ Zpos (digits2_pos m))%Z.
Proof.
  rewrite digits2_size. split.
  - pose proof (Pos.size_le m) as H.
    assert (H2 : (2 ^ Zpos (Pos.size m) <= 2 * Zpos m)%Z).
    { change (2 * Zpos m)%Z with (Zpos m~0).
      rewrite <- Pos2Z.inj_pow. apply Pos2Z.pos_le_pos. exact H. }
    replace (Zpos (Pos.size m)) with (Zpos (Pos.size m) - 1 + 1)%Z in H2
      by lia.
    rewrite Z.pow_add_r in H2 by lia. change (2 ^ 1)%Z with 2%Z in H2. lia.
  - pose proof (Pos.size_gt m) as H.
    rewrite <- Pos2Z.inj_pow. apply Pos2Z.pos_lt_pos. exact H.
Qed.

Lemma digits2_le m k : (Zpos m < 2 ^ k)%Z -> (Zpos (digits2_pos m) <= k)%Z.
Proof.
  intros H. destruct (Z_le_gt_dec (Zpos (digits2_pos m)) k) as [|Hgt];
    [assumption|exfalso].
  pose proof (digits2_bounds m) as [Hlo _].
  assert (0 <= k)%Z.
  { destruct (Z_lt_le_dec k 0) as [Hn|]; [|assumption].
    rewrite Z.pow_neg_r in H by exact Hn. lia. }
  assert (2 ^ k <= 2 ^ (Zpos (digits2_pos m) - 1))%Z
    by (apply Z.pow_le_mono_r; lia).
  lia.
Qed.

Lemma digits2_ge m k : (2 ^ k <= Zpos m)%Z -> (k < Zpos (digits2_pos m))%Z.
Proof.
  intros H. destruct (Z_lt_le_dec k (Zpos (digits2_pos m))) as [|Hle];
    [assumption|exfalso].
  pose proof (digits2_bounds m) as [_ Hhi].
  assert (2 ^ Zpos (digits2_pos m) <= 2 ^ k)%Z
    by (apply Z.pow_le_mono_r; lia).
  lia.
Qed.

(** *** Shifting a mantissa to the right *)

Lemma IZR_xO p : IZR (Zpos p~0) = 2 * IZR (Zpos p).
Proof. change (Zpos p~0) with (2 * Zpos p)%Z. rewrite mult_IZR. reflexivity. Qed.

Lemma IZR_xI p : IZR (Zpos p~1) = 2 * IZR (Zpos p) + 1.
Proof.
  change (Zpos p~1) with (2 * Zpos p + 1)%Z. rewrite plus_IZR, mult_IZR.
  reflexivity.
Qed.

Lemma shr_1_inbetween x mrs :
  (0 <= shr_m mrs)%Z -> inbetween x mrs ->
  inbetween (x / 2) (shr_1 mrs) /\ (0 <= shr_m (shr_1 mrs))%Z.
Proof.
  destruct mrs as [m r s]. cbn [shr_m]. intros Hm.
  destruct m as [|p|p]; [| |lia].
  - destruct r, s; unfold inbetween; cbn; intros H; split; (lia || lra).
  - destruct p as [p|p|]; destruct r, s; unfold inbetween;
      cbn [shr_1 shr_m shr_r shr_s orb];
      try rewrite (IZR_xO p); try rewrite (IZR_xI p);
      intros H; split; (lia || lra).
Qed.

Lemma iter_shr_1_inbetween p : forall x mrs,
  (0 <= shr_m mrs)%Z -> inbetween x mrs ->
  inbetween (x / p2 (Zpos p)) (SpecFloat.iter_pos shr_1 p mrs) /\
  (0 <= shr_m (SpecFloat.iter_pos shr_1 p mrs))%Z.
Proof.
  induction p as [p IH|p IH|]; intros x mrs Hm Hx; cbn [SpecFloat.iter_pos].
  - destruct (shr_1_inbetween x mrs Hm Hx) as [H1 Hm1].
    destruct (IH _ _ Hm1 H1) as [H2 Hm2].
    destruct (IH _ _ Hm2 H2) as [H3 Hm3].
    split; [|exact Hm3].
    replace (x / p2 (Zpos p~1)) with (x / 2 / p2 (Zpos p) / p2 (Zpos p));
      [exact H3|].
    replace (Zpos p~1) with (1 + (Zpos p + Zpos p))%Z by lia.
    rewrite !p2_add, p2_1. pose proof (p2_pos (Zpos p)). field. lra.
  - destruct (IH _ _ Hm Hx) as [H2 Hm2].
    destruct (IH _ _ Hm2 H2) as [H3 Hm3].
    split; [|exact Hm3].
    replace (x / p2 (Zpos p~0)) with (x / p2 (Zpos p) / p2 (Zpos p));
      [exact H3|].
    replace (Zpos p~0) with (Zpos p + Zpos p)%Z by lia.
    rewrite !p2_add. pose proof (p2_pos (Zpos p)). field. lra.
  - change (p2 1) with (p2 1). rewrite p2_1. apply shr_1_inbetween; assumption.
Qed.

(** [shr] by [n]: the exponent becomes [e + max 0 n]. *)
Lemma shr_inbetween x mrs e n :
  (0 <= shr_m mrs)%Z -> inbetween x mrs ->
  inbetween (x / p2 (Z.max 0 n)) (fst (shr mrs e n)) /\
  (0 <= shr_m (fst (shr mrs e n)))%Z /\
  snd (shr mrs e n) = (e + Z.max 0 n)%Z.
Proof.
  intros Hm Hx. destruct n as [|p|p]; cbn [shr fst snd].
  - rewrite Z.max_id, p2_0, Z.add_0_r. unfold Rdiv. rewrite Rinv_1, Rmult_1_r.
    auto.
  - replace (Z.max 0 (Zpos p)) with (Zpos p) by lia.
    destruct (iter_shr_1_inbetween p x mrs Hm Hx). auto.
  - replace (Z.max 0 (Zneg p)) with 0%Z by lia.
    rewrite p2_0, Z.add_0_r. unfold Rdiv. rewrite Rinv_1, Rmult_1_r. auto.
Qed.

(** A real that is an integer lies at a mantissa exactly. *)
Lemma inbetween_integer k mrs :
  inbetween (IZR k) mrs ->
  shr_m mrs = k /\ shr_r mrs = false /\ shr_s mrs = false.
Proof.
  destruct mrs as [m r s]. unfold inbetween. cbn [shr_m shr_r shr_s].
  destruct r, s; intros H.
  - exfalso. destruct H as [H1 H2].
    assert (IZR m < IZR k) by lra. apply lt_IZR in H.
    assert (IZR k < IZR (m + 1)) by (rewrite plus_IZR; lra).
    apply lt_IZR in H0. lia.
  - exfalso. assert (H2 : IZR (2 * k) = IZR (2 * m + 1)).
    { rewrite plus_IZR, !mult_IZR. lra. }
    apply eq_IZR in H2. lia.
  - exfalso. destruct H as [H1 H2].
    assert (IZR m < IZR k) by lra. apply lt_IZR in H.
    assert (IZR k < IZR (m + 1)) by (rewrite plus_IZR; lra).
    apply lt_IZR in H0. lia.
  - apply eq_IZR in H. auto.
Qed.

(** Rounding to nearest, ties to even. *)
Lemma round_nearest_even_inbetween x mrs :
  inbetween x mrs ->
  let m1 := round_nearest_even (shr_m mrs) (loc_of_shr_record mrs) in
  - / 2 <= IZR m1 - x <= / 2 /\ (shr_m mrs <= m1 <= shr_m mrs + 1)%Z.
Proof.
  destruct mrs as [m r s]. unfold inbetween. cbn [shr_m shr_r shr_s].
  destruct r, s; cbn [loc_of_shr_record round_nearest_even]; intros H.
  - rewrite plus_IZR. split; [|lia]. lra.
  - destruct (Z.even m); rewrite ?plus_IZR; (split; [|lia]); lra.
  - split; [|lia]. lra.
  - split; [|lia]. lra.
Qed.

(** *** Rounding a mantissa to the format of [double] *)

Lemma record_of_loc_bounds x m l :
  inbetween x (shr_record_of_loc m l) -> IZR m <= x < IZR m + 1.
Proof.
  destruct l as [|[| |]]; unfold inbetween; cbn; intros H; lra.
Qed.

Lemma inbetween_bounds x mrs :
  inbetween x mrs -> IZR (shr_m mrs) <= x < IZR (shr_m mrs) + 1.
Proof.
  destruct mrs as [m r s]. unfold inbetween. cbn [shr_m shr_r shr_s].
  destruct r, s; intros H; lra.
Qed.

Lemma shr_m_record_of_loc m l : shr_m (shr_record_of_loc m l) = m.
Proof. destruct l as [|[| |]]; reflexivity. Qed.

Lemma round_exact m : 
  round_nearest_even m (loc_of_shr_record (shr_record_of_loc m loc_Exact)) = m.
Proof. reflexivity. Qed.

(** The mantissa [mx] at exponent [ex], with [x] the real it is a
    truncation of: in the range of the normal numbers and below the
    overflow threshold the result is a finite float, the nearest to
    [x * 2^ex] on the grid of [e1], the exponent the format gives to a
    number of this size, and [x * 2^ex] itself if that is on the grid. *)
Lemma binary_round_aux_correct s mx ex lx x :
  (0 < mx)%Z ->
  inbetween x (shr_record_of_loc mx lx) ->
  (-1074 <= Zdigits2 mx + ex - 53)%Z ->
  (Z.max (Zdigits2 mx + ex - 53) ex < 971)%Z ->
  exists m e m1,
    binary_round_aux 53 1024 s mx ex lx = S754_finite s m e /\
    (Zpos m < 2 ^ 53)%Z /\
    ((53 <= Zdigits2 mx)%Z -> (2 ^ 52 <= Zpos m)%Z) /\
    IZR (Zpos m) * p2 e = IZR m1 * p2 (Z.max (Zdigits2 mx + ex - 53) ex) /\
    - / 2 <= IZR m1 - x * p2 ex / p2 (Z.max (Zdigits2 mx + ex - 53) ex)
      <= / 2 /\
    (forall k, x * p2 ex / p2 (Z.max (Zdigits2 mx + ex - 53) ex) = IZR k ->
       m1 = k).
Proof.
  intros Hmx Hx Hnormal Hover.
  destruct mx as [|p|p]; try lia. cbn [Zdigits2] in *.
  set (d := Zpos (digits2_pos p)) in *.
  set (e1 := Z.max (d + ex - 53) ex) in *.
  pose proof (digits2_bounds p) as [Hdlo Hdhi]. fold d in Hdlo, Hdhi.
  assert (Hd : (1 <= d)%Z) by (unfold d; lia).
  unfold binary_round_aux, shr_fexp. cbn [Zdigits2]. fold d.
  assert (Hfexp : fexp 53 1024 (d + ex) = (d + ex - 53)%Z).
  { unfold fexp, emin. lia. }
  rewrite Hfexp.
  set (n := (d + ex - 53 - ex)%Z).
  assert (He1 : e1 = (ex + Z.max 0 n)%Z) by (unfold e1, n; lia).
  pose proof (shr_inbetween x (shr_record_of_loc (Zpos p) lx) ex n) as Hshr.
  rewrite shr_m_record_of_loc in Hshr.
  destruct (Hshr ltac:(lia) Hx) as (Hy & Hm' & He'). clear Hshr.
  destruct (shr (shr_record_of_loc (Zpos p) lx) ex n) as [mrs' e'] eqn:Hs.
  cbn [fst snd] in Hy, Hm', He'. rewrite <- He1 in He'. subst e'.
  set (y := x / p2 (Z.max 0 n)) in *.
  assert (Hyx : x * p2 ex / p2 e1 = y).
  { unfold y. rewrite He1, p2_add.
    pose proof (p2_pos ex). pose proof (p2_pos (Z.max 0 n)). field. lra. }
  rewrite Hyx.
  pose proof (round_nearest_even_inbetween y mrs' Hy) as [Hr Hm1].
  set (m1 := round_nearest_even (shr_m mrs') (loc_of_shr_record mrs')) in *.
  pose proof (inbetween_bounds y mrs' Hy) as Hyb.
  pose proof (record_of_loc_bounds x (Zpos p) lx Hx) as Hxb.
  (* the size of [y] *)
  assert (Hy1 : 1 <= y).
  { unfold y. destruct (Z_le_gt_dec n 0) as [Hn|Hn].
    - replace (Z.max 0 n) with 0%Z by lia. rewrite p2_0.
      assert (1 <= IZR (Zpos p)) by (apply IZR_le; lia).
      unfold Rdiv. rewrite Rinv_1. lra.
    - replace (Z.max 0 n) with n by lia.
      assert (Hp : p2 n <= IZR (Zpos p)).
      { rewrite p2_IZR by lia. apply IZR_le.
        transitivity (2 ^ (d - 1))%Z; [|exact Hdlo].
        apply Z.pow_le_mono_r; lia. }
      pose proof (p2_pos n).
      apply (Rmult_le_reg_r (p2 n)); [assumption|].
      unfold Rdiv. rewrite Rmult_assoc, Rinv_l by lra. lra. }
  assert (Hy2 : y < IZR (2 ^ 53)).
  { unfold y.
    assert (Hx2 : x < p2 d).
    { rewrite p2_IZR by lia.
      assert (IZR (Zpos p) + 1 <= IZR (2 ^ d)).
      { rewrite <- plus_IZR. apply IZR_le. lia. }
      lra. }
    assert (Hp : p2 d <= IZR (2 ^ 53) * p2 (Z.max 0 n)).
    { rewrite <- (p2_IZR 53) by lia. rewrite <- p2_add.
      apply p2_le. unfold n. lia. }
    pose proof (p2_pos (Z.max 0 n)).
    apply (Rmult_lt_reg_r (p2 (Z.max 0 n))); [assumption|].
    unfold Rdiv. rewrite Rmult_assoc, Rinv_l by lra. lra. }
  assert (Hm1pos : (0 < m1)%Z).
  { assert (IZR 1 < IZR (shr_m mrs' + 1)) by (rewrite plus_IZR; lra).
    apply lt_IZR in H. lia. }
  assert (Hm1hi : (m1 <= 2 ^ 53)%Z).
  { assert (IZR (shr_m mrs') < IZR (2 ^ 53)) by lra.
    apply lt_IZR in H. lia. }
  assert (Hexact : forall k, y = IZR k -> m1 = k).
  { intros k Hk. rewrite Hk in Hy.
    destruct (inbetween_integer k mrs' Hy) as (Hmk & Hrk & Hsk).
    unfold m1. destruct mrs' as [m' r' s']. cbn in Hmk, Hrk, Hsk. subst.
    reflexivity. }
  assert (Hm1lo : (53 <= d)%Z -> (2 ^ 52 <= m1)%Z).
  { intros H53.
    assert (Hy52 : IZR (2 ^ 52) <= y).
    { unfold y. replace (Z.max 0 n) with n by lia.
      assert (Hp : IZR (2 ^ 52) * p2 n <= IZR (Zpos p)).
      { rewrite <- (p2_IZR 52) by lia. rewrite <- p2_add.
        rewrite p2_IZR by lia. apply IZR_le.
        transitivity (2 ^ (d - 1))%Z; [|exact Hdlo].
        apply Z.pow_le_mono_r; lia. }
      pose proof (p2_pos n).
      apply (Rmult_le_reg_r (p2 n)); [assumption|].
      unfold Rdiv. rewrite Rmult_assoc, Rinv_l by lra. lra. }
    assert (H : IZR (2 ^ 52) < IZR (shr_m mrs' + 1))
      by (rewrite plus_IZR; lra).
    apply lt_IZR in H. lia. }
  destruct m1 as [|q|q] eqn:Hq; try lia.
  destruct (Z.eq_dec (Zpos q) 9007199254740992) as [Htop|Hlow].
  - (* the carry *)
    injection Htop as ->.
    assert (Hn2 : (fexp 53 1024 (Zdigits2 9007199254740992 + e1) - e1 = 1)%Z).
    { unfold fexp, emin. cbn [Zdigits2 digits2_pos Pos.succ]. lia. }
    rewrite Hn2. cbn [shr shr_record_of_loc SpecFloat.iter_pos shr_1 shr_m].
    assert (Hle : (e1 + 1 <=? 1024 - 53)%Z = true) by lia.
    rewrite Hle.
    exists 4503599627370496%positive, (e1 + 1)%Z, 9007199254740992%Z.
    split; [reflexivity|]. split; [lia|]. split; [lia|]. split.
    { rewrite p2_add, p2_1. lra. }
    split; [exact Hr|exact Hexact].
  - assert (Hd1 : (Zpos (digits2_pos q) <= 53)%Z).
    { apply digits2_le. change (2 ^ 53)%Z with 9007199254740992%Z in *. lia. }
    assert (Hn2 : (fexp 53 1024 (Zdigits2 (Zpos q) + e1) - e1 <= 0)%Z).
    { unfold fexp, emin. cbn [Zdigits2]. lia. }
    assert (Hsame : shr (shr_record_of_loc (Zpos q) loc_Exact) e1
                      (fexp 53 1024 (Zdigits2 (Zpos q) + e1) - e1) =
                    (shr_record_of_loc (Zpos q) loc_Exact, e1)).
    { destruct (fexp 53 1024 (Zdigits2 (Zpos q) + e1) - e1)%Z; try lia;
        reflexivity. }
    rewrite Hsame. cbn [shr_record_of_loc shr_m].
    assert (Hle : (e1 <=? 1024 - 53)%Z = true) by lia.
    rewrite Hle.
    exists q, e1, (Zpos q).
    split; [reflexivity|].
    split; [change (2 ^ 53)%Z with 9007199254740992%Z; lia|].
    split; [exact Hm1lo|]. split; [reflexivity|].
    split; [exact Hr|exact Hexact].
Qed.


(** The same with the error relative to the value: for a mantissa of at
    least 53 digits, a value in the range of the normal numbers of
    [double] is rounded to a float with a mantissa of 53 digits, off by at
    most 2^-53 of the value, and not at all if the value has 53 digits. *)
Lemma binary_round_aux_relative s mx ex lx x :
  (0 < mx)%Z ->
  inbetween x (shr_record_of_loc mx lx) ->
  (53 <= Zdigits2 mx)%Z ->
  p2 (-1021) <= x * p2 ex < p2 1023 ->
  exists m e,
    binary_round_aux 53 1024 s mx ex lx = S754_finite s m e /\
    (2 ^ 52 <= Zpos m < 2 ^ 53)%Z /\
    - (p2 (-53) * (x * p2 ex)) <= IZR (Zpos m) * p2 e - x * p2 ex
      <= p2 (-53) * (x * p2 ex) /\
    (forall k, x * p2 ex = IZR k * p2 (Zdigits2 mx + ex - 53) ->
       IZR (Zpos m) * p2 e = x * p2 ex).
Proof.
  intros Hmx Hx H53 [Hlo Hhi].
  destruct mx as [|p|p]; try lia. cbn [Zdigits2] in *.
  set (d := Zpos (digits2_pos p)) in *.
  pose proof (digits2_bounds p) as [Hdlo Hdhi]. fold d in Hdlo, Hdhi.
  pose proof (record_of_loc_bounds x (Zpos p) lx Hx) as Hxb.
  pose proof (p2_pos ex) as Hpex.
  assert (Hx1 : p2 (d - 1 + ex) <= x * p2 ex).
  { rewrite p2_add. apply Rmult_le_compat_r; [lra|].
    rewrite p2_IZR by lia.
    assert (IZR (2 ^ (d - 1)) <= IZR (Zpos p)) by (apply IZR_le; lia).
    lra. }
  assert (Hx2 : x * p2 ex < p2 (d + ex)).
  { rewrite p2_add. apply Rmult_lt_compat_r; [lra|].
    rewrite p2_IZR by lia.
    assert (IZR (Zpos p) + 1 <= IZR (2 ^ d)).
    { rewrite <- plus_IZR. apply IZR_le. lia. }
    lra. }
  assert (Hnormal : (-1021 < d + ex)%Z).
  { destruct (Z_lt_le_dec (-1021) (d + ex)) as [|Hle]; [assumption|].
    apply p2_le in Hle. lra. }
  assert (Hover : (d - 1 + ex < 1023)%Z).
  { destruct (Z_lt_le_dec (d - 1 + ex) 1023) as [|Hle]; [assumption|].
    apply p2_le in Hle. lra. }
  assert (Hmax : Z.max (d + ex - 53) ex = (d + ex - 53)%Z) by lia.
  destruct (binary_round_aux_correct s (Zpos p) ex lx x Hmx Hx)
    as (m & e & m1 & Hres & Hm & Hm52 & Hval & Herr & Hexact);
    cbn [Zdigits2]; fold d; try lia.
  cbn [Zdigits2] in Hm52, Hval, Herr, Hexact.
  fold d in Hm52, Hval, Herr, Hexact. rewrite Hmax in Hval, Herr, Hexact.
  exists m, e. split; [exact Hres|]. split; [split; [auto|exact Hm]|].
  set (e1 := (d + ex - 53)%Z) in *.
  pose proof (p2_pos e1) as Hpe1.
  assert (Hscale : x * p2 ex = x * p2 ex / p2 e1 * p2 e1) by (field; lra).
  split.
  - rewrite Hval.
    assert (Hhalf : / 2 * p2 e1 = p2 (-53) * p2 (d - 1 + ex)).
    { rewrite <- p2_add. replace (-53 + (d - 1 + ex))%Z with (-1 + e1)%Z
        by (unfold e1; lia).
      rewrite p2_add, p2_m1. reflexivity. }
    assert (Hu : 0 < p2 (-53)) by apply p2_pos.
    set (y := x * p2 ex / p2 e1) in *.
    rewrite Hscale. fold y.
    assert (Hb : p2 (-53) * p2 (d - 1 + ex) <= p2 (-53) * (y * p2 e1)).
    { apply Rmult_le_compat_l; [lra|]. rewrite <- Hscale. exact Hx1. }
    nra.
  - intros k Hk. rewrite Hval.
    rewrite (Hexact k); [|rewrite Hk; field; lra].
    symmetry. exact Hk.
Qed.


Lemma digits2_eq m k :
  (2 ^ (k - 1) <= Zpos m < 2 ^ k)%Z -> Zpos (digits2_pos m) = k.
Proof.
  intros [Hlo Hhi]. pose proof (digits2_le m k Hhi).
  pose proof (digits2_ge m (k - 1) Hlo). lia.
Qed.

Lemma iter_xO_val p k : Zpos (Pos.iter xO p k) = (Zpos p * 2 ^ Zpos k)%Z.
Proof.
  induction k as [|k IH] using Pos.peano_ind.
  - cbn [Pos.iter]. lia.
  - rewrite Pos.iter_succ, Pos2Z.inj_xO, IH, Pos2Z.inj_succ.
    rewrite Z.pow_succ_r by lia. lia.
Qed.

(** Aligning a mantissa to a lower exponent keeps the value. *)
Lemma shl_align_val m e e' :
  (e' <= e)%Z ->
  snd (shl_align m e e') = e' /\
  Zpos (fst (shl_align m e e')) = (Zpos m * 2 ^ (e - e'))%Z.
Proof.
  intros He. unfold shl_align.
  destruct (e' - e)%Z as [|k|k] eqn:Hk; cbn [fst snd]; try lia.
  - replace (e - e')%Z with 0%Z by lia. lia.
  - rewrite iter_xO_val. replace (e - e')%Z with (Zpos k) by lia. auto.
Qed.

Lemma IZR_p2 m k e :
  (0 <= k)%Z -> IZR (m * 2 ^ k) * p2 (e - k) = IZR m * p2 e.
Proof.
  intros Hk. rewrite mult_IZR, <- p2_IZR by exact Hk.
  rewrite Rmult_assoc, <- p2_add. f_equal. f_equal. lia.
Qed.

(** [binary_round]: a mantissa of any size, brought to 53 digits. *)
Lemma binary_round_correct s p e :
  p2 (-1021) <= IZR (Zpos p) * p2 e < p2 1023 ->
  exists m' e',
    binary_round 53 1024 s p e = S754_finite s m' e' /\
    (2 ^ 52 <= Zpos m' < 2 ^ 53)%Z /\
    - (p2 (-53) * (IZR (Zpos p) * p2 e))
      <= IZR (Zpos m') * p2 e' - IZR (Zpos p) * p2 e
      <= p2 (-53) * (IZR (Zpos p) * p2 e) /\
    ((Zpos p < 2 ^ 53)%Z -> IZR (Zpos m') * p2 e' = IZR (Zpos p) * p2 e).
Proof.
  intros [Hlo Hhi].
  set (d := Zpos (digits2_pos p)).
  pose proof (digits2_bounds p) as [Hdlo Hdhi]. fold d in Hdlo, Hdhi.
  pose proof (p2_pos e) as Hpe.
  assert (Hx2 : IZR (Zpos p) * p2 e < p2 (d + e)).
  { rewrite p2_add. apply Rmult_lt_compat_r; [lra|].
    rewrite p2_IZR by lia. apply IZR_lt. exact Hdhi. }
  assert (Hnormal : (-1021 < d + e)%Z).
  { destruct (Z_lt_le_dec (-1021) (d + e)) as [|Hle]; [assumption|].
    apply p2_le in Hle. lra. }
  unfold binary_round. fold d.
  assert (Hfexp : fexp 53 1024 (d + e) = (d + e - 53)%Z).
  { unfold fexp, emin. lia. }
  rewrite Hfexp.
  destruct (Z_lt_le_dec d 53) as [Hsmall|Hbig].
  - (* fewer than 53 digits: shifted left, nothing lost *)
    destruct (shl_align_val p e (d + e - 53)) as [He' Hm']; [lia|].
    destruct (shl_align p e (d + e - 53)) as [mz ez]. cbn [fst snd] in *.
    subst ez. replace (e - (d + e - 53))%Z with (53 - d)%Z in Hm' by lia.
    assert (Hdz : Zpos (digits2_pos mz) = 53%Z).
    { apply digits2_eq. rewrite Hm'. split.
      - replace (53 - 1)%Z with ((d - 1) + (53 - d))%Z by lia.
        rewrite Z.pow_add_r by lia.
        apply Z.mul_le_mono_nonneg_r; [apply Z.pow_nonneg; lia|exact Hdlo].
      - replace 53%Z with (d + (53 - d))%Z at 2 by lia.
        rewrite Z.pow_add_r by lia.
        apply Z.mul_lt_mono_pos_r; [apply Z.pow_pos_nonneg; lia|exact Hdhi]. }
    assert (Hval : IZR (Zpos mz) * p2 (d + e - 53) = IZR (Zpos p) * p2 e).
    { rewrite Hm'. replace (d + e - 53)%Z with (e - (53 - d))%Z by lia.
      apply IZR_p2. lia. }
    destruct (binary_round_aux_relative s (Zpos mz) (d + e - 53) loc_Exact
                (IZR (Zpos mz)))
      as (m' & e' & Hres & Hcan & Herr & Hexact).
    + lia.
    + reflexivity.
    + cbn [Zdigits2]. lia.
    + rewrite Hval. lra.
    + exists m', e'. rewrite Hval in Herr, Hexact.
      split; [exact Hres|]. split; [exact Hcan|]. split; [exact Herr|].
      intros _. apply (Hexact (Zpos mz)). cbn [Zdigits2]. rewrite Hdz.
      rewrite <- Hval. f_equal. f_equal. lia.
  - assert (Hsame : shl_align p e (d + e - 53) = (p, e)).
    { unfold shl_align. destruct (d + e - 53 - e)%Z eqn:Hk; try lia;
        reflexivity. }
    rewrite Hsame.
    destruct (binary_round_aux_relative s (Zpos p) e loc_Exact
                (IZR (Zpos p)))
      as (m' & e' & Hres & Hcan & Herr & Hexact).
    + lia.
    + reflexivity.
    + cbn [Zdigits2]. fold d. lia.
    + lra.
    + exists m', e'.
      split; [exact Hres|]. split; [exact Hcan|]. split; [exact Herr|].
      intros Hp. apply (Hexact (Zpos p)). cbn [Zdigits2]. fold d.
      assert (d = 53%Z).
      { apply digits2_le in Hp. fold d in Hp. lia. }
      f_equal. f_equal. lia.
Qed.


(** *** The operations *)

Lemma normal_inv x :
  normal x ->
  exists m e, x = S754_finite false m e /\ (2 ^ 52 <= Zpos m < 2 ^ 53)%Z /\
              val x = IZR (Zpos m) * p2 e.
Proof.
  destruct x as [| | |[|] m e]; cbn; try contradiction.
  intros H. exists m, e. auto.
Qed.

Lemma normal_finite m e :
  (2 ^ 52 <= Zpos m < 2 ^ 53)%Z -> normal (S754_finite false m e).
Proof. intros H. exact H. Qed.

Lemma SFmul_correct a b :
  normal a -> normal b -> in_range (val a * val b) ->
  normal (SFmul 53 1024 a b) /\
  rounds (val a * val b) (val (SFmul 53 1024 a b)).
Proof.
  intros Ha Hb Hr.
  destruct (normal_inv a Ha) as (ma & ea & -> & Hma & Hva).
  destruct (normal_inv b Hb) as (mb & eb & -> & Hmb & Hvb).
  rewrite Hva, Hvb in *. cbn [SFmul xorb].
  assert (Hx : IZR (Zpos (ma * mb)) * p2 (ea + eb) =
               IZR (Zpos ma) * p2 ea * (IZR (Zpos mb) * p2 eb)).
  { rewrite Pos2Z.inj_mul, mult_IZR, p2_add. ring. }
  destruct (binary_round_aux_relative false (Zpos (ma * mb)) (ea + eb)
              loc_Exact (IZR (Zpos (ma * mb))))
    as (m & e & Hres & Hcan & Herr & _).
  - lia.
  - reflexivity.
  - cbn [Zdigits2].
    assert (52 < Zpos (digits2_pos (ma * mb)))%Z; [|lia].
    apply digits2_ge. rewrite Pos2Z.inj_mul.
    change (2 ^ 52)%Z with (2 ^ 52 * 1)%Z at 1.
    apply Z.mul_le_mono_nonneg; lia.
  - rewrite Hx. exact Hr.
  - rewrite Hres. split; [exact Hcan|].
    unfold rounds. cbn [val cond_Zopp]. rewrite <- Hx. exact Herr.
Qed.

(** Scaling by [FIXED_ONE], 2^32, is exact. *)
Lemma SFmul_FIXED_ONE a :
  normal a -> in_range (val a * p2 32) ->
  normal (SFmul 53 1024 a (F64.of_Z FIXED_ONE)) /\
  val (SFmul 53 1024 a (F64.of_Z FIXED_ONE)) = val a * p2 32.
Proof.
  intros Ha Hr.
  destruct (normal_inv a Ha) as (ma & ea & -> & Hma & Hva).
  rewrite Hva in *.
  change (F64.of_Z FIXED_ONE) with (S754_finite false 4503599627370496 (-20)).
  cbn [SFmul xorb].
  assert (Hx : IZR (Zpos (ma * 4503599627370496)) * p2 (ea + -20) =
               IZR (Zpos ma) * p2 ea * p2 32).
  { rewrite Pos2Z.inj_mul, mult_IZR, p2_add.
    change (IZR 4503599627370496) with (IZR (2 ^ 52)).
    rewrite <- (p2_IZR 52) by lia.
    replace (p2 32) with (p2 52 * p2 (-20)); [ring|].
    rewrite <- p2_add. reflexivity. }
  assert (Hd : Zpos (digits2_pos (ma * 4503599627370496)) = 105%Z).
  { apply digits2_eq. rewrite Pos2Z.inj_mul.
    change (Zpos 4503599627370496) with (2 ^ 52)%Z.
    change (2 ^ (105 - 1))%Z with (2 ^ 52 * 2 ^ 52)%Z.
    change (2 ^ 105)%Z with (2 ^ 53 * 2 ^ 52)%Z. lia. }
  destruct (binary_round_aux_relative false (Zpos (ma * 4503599627370496))
              (ea + -20) loc_Exact (IZR (Zpos (ma * 4503599627370496))))
    as (m & e & Hres & Hcan & _ & Hexact).
  - lia.
  - reflexivity.
  - cbn [Zdigits2]. lia.
  - rewrite Hx. exact Hr.
  - rewrite Hres. split; [exact Hcan|].
    cbn [val cond_Zopp]. rewrite <- Hx. apply (Hexact (Zpos ma)).
    rewrite Hx. cbn [Zdigits2]. rewrite Hd.
    replace (105 + (ea + -20) - 53)%Z with (ea + 32)%Z by lia.
    rewrite p2_add. ring.
Qed.


(** Where a quotient lies: [q + r / m] for the remainder [r]. *)
Lemma new_location_inbetween m q r :
  (0 <= r < m)%Z ->
  inbetween (IZR q + IZR r / IZR m) (shr_record_of_loc q (new_location m r)).
Proof.
  intros Hr.
  assert (Hm : 0 < IZR m) by (apply IZR_lt; lia).
  assert (Hr0 : 0 <= IZR r) by (apply IZR_le; lia).
  assert (Hhalf : forall c, (2 * r ?= m)%Z = c ->
            match c with
            | Lt => IZR r / IZR m < / 2
            | Eq => IZR r / IZR m = / 2
            | Gt => / 2 < IZR r / IZR m
            end).
  { intros c Hc. destruct c.
    - apply Z.compare_eq in Hc. apply (f_equal IZR) in Hc.
      rewrite mult_IZR in Hc. apply (Rmult_eq_reg_r (IZR m)); [|lra].
      unfold Rdiv. rewrite Rmult_assoc, Rinv_l by lra. lra.
    - rewrite Z.compare_lt_iff in Hc. apply IZR_lt in Hc.
      rewrite mult_IZR in Hc. apply (Rmult_lt_reg_r (IZR m)); [lra|].
      unfold Rdiv. rewrite Rmult_assoc, Rinv_l by lra. lra.
    - rewrite Z.compare_gt_iff in Hc. apply IZR_lt in Hc.
      rewrite mult_IZR in Hc. apply (Rmult_lt_reg_r (IZR m)); [lra|].
      unfold Rdiv. rewrite Rmult_assoc, Rinv_l by lra. lra. }
  assert (Hpos : r <> 0%Z -> 0 < IZR r / IZR m).
  { intros Hn. apply Rdiv_lt_0_compat; [|exact Hm]. apply IZR_lt. lia. }
  assert (Hlt1 : IZR r / IZR m < 1).
  { apply (Rmult_lt_reg_r (IZR m)); [lra|].
    unfold Rdiv. rewrite Rmult_assoc, Rinv_l by lra.
    assert (IZR r < IZR m) by (apply IZR_lt; lia). lra. }
  unfold new_location.
  destruct (Z.even m) eqn:Heven;
    unfold new_location_even, new_location_odd;
    (destruct (Z.eqb_spec r 0) as [->|Hn];
     [unfold inbetween; cbn; unfold Rdiv; rewrite Rmult_0_l; lra|]);
    specialize (Hpos Hn); pose proof (Hhalf _ eq_refl) as Hc.
  - revert Hc.
    destruct (2 * r ?= m)%Z; intros Hc; unfold inbetween; cbn; lra.
  - destruct (2 * r + 1 ?= m)%Z eqn:Hcmp.
    + apply Z.compare_eq in Hcmp.
      assert (Hlt : (2 * r ?= m)%Z = Lt) by (apply Z.compare_lt_iff; lia).
      rewrite Hlt in Hc. unfold inbetween; cbn; lra.
    + rewrite Z.compare_lt_iff in Hcmp.
      assert (Hlt : (2 * r ?= m)%Z = Lt) by (apply Z.compare_lt_iff; lia).
      rewrite Hlt in Hc. unfold inbetween; cbn; lra.
    + rewrite Z.compare_gt_iff in Hcmp.
      assert (Hodd : m <> (2 * r)%Z).
      { intros ->. rewrite Z.even_mul in Heven. discriminate. }
      assert (Hgt : (2 * r ?= m)%Z = Gt) by (apply Z.compare_gt_iff; lia).
      rewrite Hgt in Hc. unfold inbetween; cbn; lra.
Qed.

Lemma SFdiv_correct a b :
  normal a -> normal b -> in_range (val a / val b) ->
  normal (SFdiv 53 1024 a b) /\
  rounds (val a / val b) (val (SFdiv 53 1024 a b)).
Proof.
  intros Ha Hb Hr.
  destruct (normal_inv a Ha) as (ma & ea & -> & Hma & Hva).
  destruct (normal_inv b Hb) as (mb & eb & -> & Hmb & Hvb).
  rewrite Hva, Hvb in *. cbn [SFdiv xorb]. unfold SFdiv_core_binary.
  cbn [Zdigits2].
  rewrite (digits2_eq ma 53), (digits2_eq mb 53) by (cbn; lia).
  assert (Hma' : 0 < IZR (Zpos ma)) by (apply IZR_lt; lia).
  assert (Hmb' : 0 < IZR (Zpos mb)) by (apply IZR_lt; lia).
  pose proof (p2_pos ea) as Hpa. pose proof (p2_pos eb) as Hpb.
  assert (Hq : IZR (Zpos ma) * p2 ea / (IZR (Zpos mb) * p2 eb) =
               IZR (Zpos ma) / IZR (Zpos mb) * p2 (ea - eb)).
  { rewrite p2_sub. field. lra. }
  rewrite Hq in Hr. destruct Hr as [Hlo Hhi].
  (* the exponent of the quotient *)
  assert (Hratio : IZR (Zpos ma) / IZR (Zpos mb) < 2).
  { apply (Rmult_lt_reg_r (IZR (Zpos mb))); [lra|].
    unfold Rdiv. rewrite Rmult_assoc, Rinv_l by lra.
    assert (IZR (Zpos ma) < IZR (2 * Zpos mb)) by (apply IZR_lt; lia).
    rewrite mult_IZR in H. lra. }
  assert (Hnormal : (-1021 <= ea - eb)%Z).
  { destruct (Z_lt_le_dec (ea - eb) (-1021)) as [Hlt|]; [|assumption].
    assert (Hle : (ea - eb + 1 <= -1021)%Z) by lia.
    apply p2_le in Hle. rewrite p2_add, p2_1 in Hle.
    pose proof (p2_pos (ea - eb)). nra. }
  assert (Hfexp : fexp 53 1024 (53 + ea - (53 + eb)) = (ea - eb - 53)%Z).
  { unfold fexp, emin. lia. }
  rewrite Hfexp.
  replace (Z.min (ea - eb - 53) (ea - eb)) with (ea - eb - 53)%Z by lia.
  replace (ea - eb - (ea - eb - 53))%Z with 53%Z by lia.
  rewrite Z.shiftl_mul_pow2 by lia.
  pose proof (Z.div_eucl_eq (Zpos ma * 2 ^ 53) (Zpos mb) ltac:(lia)) as Heq.
  pose proof (Z.mod_pos_bound (Zpos ma * 2 ^ 53) (Zpos mb) ltac:(lia)) as Hrem.
  unfold Z.modulo in Hrem.
  destruct (Z.div_eucl (Zpos ma * 2 ^ 53) (Zpos mb)) as [q r].
  (* the quotient has 53 or 54 digits *)
  assert (Hq52 : (2 ^ 52 <= q)%Z).
  { assert (2 ^ 52 * Zpos mb < Zpos mb * q + Zpos mb)%Z; [|nia].
    assert (2 ^ 52 * 2 ^ 53 <= Zpos ma * 2 ^ 53)%Z by lia.
    assert (2 ^ 52 * Zpos mb < 2 ^ 52 * 2 ^ 53)%Z by lia.
    lia. }
  destruct q as [|q|q]; try lia.
  set (x := IZR (Zpos q) + IZR r / IZR (Zpos mb)).
  assert (Hx : x * p2 (ea - eb - 53) =
               IZR (Zpos ma) / IZR (Zpos mb) * p2 (ea - eb)).
  { unfold x. replace (ea - eb - 53)%Z with (ea - eb + -53)%Z by lia.
    rewrite p2_add.
    assert (H53 : p2 (-53) * IZR (2 ^ 53) = 1).
    { rewrite <- (p2_IZR 53) by lia. rewrite <- p2_add. reflexivity. }
    apply (f_equal IZR) in Heq. rewrite plus_IZR, !mult_IZR in Heq.
    assert (Hquot : IZR (Zpos q) + IZR r / IZR (Zpos mb) =
                    IZR (Zpos ma) / IZR (Zpos mb) * IZR (2 ^ 53)).
    { apply (Rmult_eq_reg_r (IZR (Zpos mb))); [|lra].
      unfold Rdiv. rewrite Rmult_plus_distr_r.
      rewrite (Rmult_assoc (IZR r)), Rinv_l by lra.
      rewrite (Rmult_assoc (IZR (Zpos ma) * / IZR (Zpos mb))).
      rewrite (Rmult_comm (IZR (2 ^ 53))).
      rewrite <- (Rmult_assoc (IZR (Zpos ma) * / IZR (Zpos mb))).
      rewrite (Rmult_assoc (IZR (Zpos ma))), Rinv_l by lra.
      lra. }
    rewrite Hquot.
    rewrite (Rmult_comm (p2 (ea - eb))), <- Rmult_assoc.
    rewrite (Rmult_assoc (IZR (Zpos ma) / IZR (Zpos mb))).
    rewrite (Rmult_comm (IZR (2 ^ 53))), H53. ring. }
  destruct (binary_round_aux_relative false (Zpos q) (ea - eb - 53)
              (new_location (Zpos mb) r) x)
    as (m & e & Hres & Hcan & Herr & _).
  - lia.
  - apply new_location_inbetween. exact Hrem.
  - cbn [Zdigits2].
    assert (52 < Zpos (digits2_pos q))%Z; [|lia].
    apply digits2_ge. lia.
  - rewrite Hx. split; assumption.
  - rewrite Hres. split; [exact Hcan|].
    unfold rounds. cbn [val cond_Zopp]. rewrite Hq, <- Hx. exact Herr.
Qed.


Lemma SFadd_correct a b :
  normal a -> normal b -> in_range (val a + val b) ->
  normal (SFadd 53 1024 a b) /\
  rounds (val a + val b) (val (SFadd 53 1024 a b)).
Proof.
  intros Ha Hb Hr.
  destruct (normal_inv a Ha) as (ma & ea & -> & Hma & Hva).
  destruct (normal_inv b Hb) as (mb & eb & -> & Hmb & Hvb).
  rewrite Hva, Hvb in *. cbn [SFadd cond_Zopp].
  set (ez := Z.min ea eb).
  destruct (shl_align_val ma ea ez) as [_ Haz]; [unfold ez; lia|].
  destruct (shl_align_val mb eb ez) as [_ Hbz]; [unfold ez; lia|].
  set (az := fst (shl_align ma ea ez)) in *.
  set (bz := fst (shl_align mb eb ez)) in *.
  change (Zpos az + Zpos bz)%Z with (Zpos (az + bz)).
  cbn [binary_normalize].
  assert (Hx : IZR (Zpos (az + bz)) * p2 ez =
               IZR (Zpos ma) * p2 ea + IZR (Zpos mb) * p2 eb).
  { rewrite Pos2Z.inj_add, plus_IZR, Haz, Hbz, Rmult_plus_distr_r.
    rewrite <- (IZR_p2 (Zpos ma) (ea - ez) ea) by (unfold ez; lia).
    rewrite <- (IZR_p2 (Zpos mb) (eb - ez) eb) by (unfold ez; lia).
    f_equal; f_equal; f_equal; lia. }
  destruct (binary_round_correct false (az + bz) ez)
    as (m & e & Hres & Hcan & Herr & _).
  - rewrite Hx. exact Hr.
  - rewrite Hres. split; [exact Hcan|].
    unfold rounds. cbn [val cond_Zopp]. rewrite <- Hx. exact Herr.
Qed.

(** Widening a [float] and converting a 32-bit rate lose nothing. *)
Lemma of_float_exact x :
  positive_float x ->
  normal (F64.of_float x) /\ val (F64.of_float x) = val x /\
  p2 (-149) <= val x < p2 128.
Proof.
  destruct x as [| | |[|] m e]; cbn [positive_float]; try contradiction.
  intros [Hm He]. cbn [F64.of_float val cond_Zopp].
  pose proof (p2_pos e) as Hpe.
  assert (Hlo : p2 (-149) <= IZR (Zpos m) * p2 e).
  { assert (1 <= IZR (Zpos m)) by (apply IZR_le; lia).
    assert (p2 (-149) <= p2 e) by (apply p2_le; lia). nra. }
  assert (Hhi : IZR (Zpos m) * p2 e < p2 128).
  { assert (IZR (Zpos m) < IZR (2 ^ 24)) by (apply IZR_lt; lia).
    assert (p2 e <= p2 104) by (apply p2_le; lia).
    replace (p2 128) with (IZR (2 ^ 24) * p2 104).
    - assert (0 < IZR (Zpos m)) by (apply IZR_lt; lia).
      pose proof (p2_pos 104). nra.
    - rewrite <- (p2_IZR 24) by lia. rewrite <- p2_add. reflexivity. }
  destruct (binary_round_correct false m e)
    as (m' & e' & Hres & Hcan & _ & Hexact).
  - split.
    + assert (p2 (-1021) <= p2 (-149)) by (apply p2_le; lia). lra.
    + assert (p2 128 <= p2 1023) by (apply p2_le; lia). lra.
  - unfold F64.prec, F64.emax. rewrite Hres.
    split; [exact Hcan|]. split; [|split; assumption].
    cbn [val cond_Zopp]. apply Hexact.
    assert (2 ^ 24 < 2 ^ 53)%Z by (apply Z.pow_lt_mono_r; lia). lia.
Qed.

Lemma of_Z_exact z :
  (1 <= z < 2 ^ 32)%Z ->
  normal (F64.of_Z z) /\ val (F64.of_Z z) = IZR z.
Proof.
  intros Hz. destruct z as [|p|p]; try lia.
  unfold F64.of_Z, F64.prec, F64.emax. cbn [binary_normalize].
  assert (H1 : 1 <= IZR (Zpos p)) by (apply IZR_le; lia).
  assert (H2 : IZR (Zpos p) < p2 32).
  { rewrite p2_IZR by lia. apply IZR_lt. lia. }
  destruct (binary_round_correct false p 0)
    as (m' & e' & Hres & Hcan & _ & Hexact).
  - rewrite p2_0, Rmult_1_r. split.
    + assert (p2 (-1021) <= p2 0) by (apply p2_le; lia).
      rewrite p2_0 in H. lra.
    + assert (p2 32 <= p2 1023) by (apply p2_le; lia). lra.
  - rewrite Hres. split; [exact Hcan|].
    cbn [val cond_Zopp]. rewrite Hexact.
    + rewrite p2_0. ring.
    + assert (2 ^ 32 < 2 ^ 53)%Z by (apply Z.pow_lt_mono_r; lia). lia.
Qed.

(** The conversion to an integer: the floor of a positive value. *)
Lemma trunc_floor x :
  normal x ->
  exists z, F64.trunc x = Some z /\ IZR z <= val x < IZR z + 1.
Proof.
  intros Hx. destruct (normal_inv x Hx) as (m & e & -> & Hm & Hv).
  rewrite Hv. cbn [F64.trunc cond_Zopp].
  destruct (Z.leb_spec 0 e) as [He|He].
  - exists (Z.shiftl (Zpos m) e). split; [reflexivity|].
    rewrite Z.shiftl_mul_pow2 by exact He.
    rewrite mult_IZR, <- p2_IZR by exact He. lra.
  - exists (Z.shiftr (Zpos m) (- e)). split; [reflexivity|].
    rewrite Z.shiftr_div_pow2 by lia.
    set (k := (- e)%Z). assert (Hk : (0 < k)%Z) by (unfold k; lia).
    assert (Hp : (0 < 2 ^ k)%Z) by (apply Z.pow_pos_nonneg; lia).
    pose proof (Z.div_mod (Zpos m) (2 ^ k) ltac:(lia)) as Hdm.
    pose proof (Z.mod_pos_bound (Zpos m) (2 ^ k) Hp) as Hrem.
    set (q := (Zpos m / 2 ^ k)%Z) in *. set (r := (Zpos m mod 2 ^ k)%Z) in *.
    replace e with (- k)%Z by (unfold k; lia).
    rewrite p2_opp, (p2_IZR k) by lia.
    assert (H2k : 0 < IZR (2 ^ k)) by (apply IZR_lt; exact Hp).
    apply (f_equal IZR) in Hdm. rewrite plus_IZR, mult_IZR in Hdm.
    assert (Hr0 : 0 <= IZR r) by (apply IZR_le; lia).
    assert (Hr1 : IZR r < IZR (2 ^ k)) by (apply IZR_lt; lia).
    rewrite Hdm. split.
    + apply (Rmult_le_reg_r (IZR (2 ^ k))); [exact H2k|].
      rewrite Rmult_assoc, Rinv_l by lra. nra.
    + apply (Rmult_lt_reg_r (IZR (2 ^ k))); [exact H2k|].
      rewrite Rmult_assoc, Rinv_l by lra. nra.
Qed.


Lemma half_normal :
  normal (F64.of_pow2 1 (-1)) /\ val (F64.of_pow2 1 (-1)) = / 2.
Proof.
  change (F64.of_pow2 1 (-1))
    with (S754_finite false 4503599627370496 (-53)).
  split; [cbn; lia|]. cbn [val cond_Zopp].
  change (IZR 4503599627370496) with (IZR (2 ^ 52)).
  rewrite <- (p2_IZR 52) by lia. rewrite <- p2_add. exact p2_m1.
Qed.

Lemma p2_m53 : p2 (-53) = / 9007199254740992.
Proof.
  change (-53)%Z with (- (53))%Z. rewrite p2_opp, p2_IZR by lia.
  reflexivity.
Qed.

(** *** The exactly rounded step *)

Lemma rounded_step_floor m e src dst exact :
  (1 <= src)%Z -> (1 <= dst)%Z ->
  rounded_step (S754_finite false m e) src dst = Some exact ->
  IZR exact <= IZR (Zpos m) * p2 e * IZR src / IZR dst * p2 32 + / 2
    < IZR exact + 1.
Proof.
  intros Hsrc Hdst H. cbn [rounded_step] in H. injection H as <-.
  set (a := Z.max 0 (e + 32)). set (b := Z.max 0 (- (e + 32))).
  set (num := (Zpos m * src * 2 ^ a)%Z). set (den := (dst * 2 ^ b)%Z).
  assert (Hden : (0 < den)%Z).
  { unfold den. apply Z.mul_pos_pos; [lia|apply Z.pow_pos_nonneg; lia]. }
  assert (Hden' : 0 < IZR den) by (apply IZR_lt; exact Hden).
  assert (Hdst' : 0 < IZR dst) by (apply IZR_lt; lia).
  pose proof (p2_pos b) as Hpb.
  assert (HX : IZR (Zpos m) * p2 e * IZR src / IZR dst * p2 32 =
               IZR num / IZR den).
  { unfold num, den. rewrite !mult_IZR, <- !p2_IZR by (unfold a, b; lia).
    assert (Hab : p2 e * p2 32 = p2 a / p2 b).
    { rewrite <- p2_add, <- p2_sub. f_equal. unfold a, b. lia. }
    transitivity (IZR (Zpos m) * IZR src / IZR dst * (p2 e * p2 32));
      [field; lra|].
    rewrite Hab. field. lra. }
  rewrite HX.
  pose proof (Z.div_mod (2 * num + den) (2 * den) ltac:(lia)) as Hdm.
  pose proof (Z.mod_pos_bound (2 * num + den) (2 * den) ltac:(lia)) as Hrem.
  set (q := ((2 * num + den) / (2 * den))%Z) in *.
  set (r := ((2 * num + den) mod (2 * den))%Z) in *.
  apply (f_equal IZR) in Hdm.
  rewrite !plus_IZR, !mult_IZR in Hdm.
  assert (Hr0 : 0 <= IZR r) by (apply IZR_le; lia).
  assert (Hr1 : IZR r < 2 * IZR den).
  { rewrite <- mult_IZR. apply IZR_lt. lia. }
  assert (Hmid : IZR num / IZR den + / 2 =
                 (2 * IZR num + IZR den) / (2 * IZR den)) by (field; lra).
  rewrite Hmid, Hdm. split.
  - apply (Rmult_le_reg_r (2 * IZR den)); [lra|].
    unfold Rdiv. rewrite Rmult_assoc, Rinv_l by lra. nra.
  - apply (Rmult_lt_reg_r (2 * IZR den)); [lra|].
    unfold Rdiv. rewrite Rmult_assoc, Rinv_l by lra. nra.
Qed.

(** *** The step in [double], against the exactly rounded one *)

Lemma resample_step_within_one ratio src dst exact :
  positive_float ratio ->
  (1 <= src < 2 ^ 32)%Z -> (1 <= dst < 2 ^ 32)%Z ->
  rounded_step ratio src dst = Some exact ->
  (exact <= 2 ^ 50)%Z ->
  exists step,
    resample_step ratio src dst = Ok step /\
    (exact - 1 <= step <= exact + 1)%Z.
Proof.
  intros Hratio Hsrc Hdst Hexact Hsmall.
  destruct (of_float_exact ratio Hratio) as (Hn0 & Hv0 & Hlo0 & Hhi0).
  destruct (of_Z_exact src Hsrc) as (Hns & Hvs).
  destruct (of_Z_exact dst Hdst) as (Hnd & Hvd).
  assert (Hfloor : IZR exact <= val ratio * IZR src / IZR dst * p2 32 + / 2
                     < IZR exact + 1).
  { destruct ratio as [| | |[|] m e]; cbn [positive_float] in Hratio;
      try contradiction.
    cbn [val cond_Zopp]. apply rounded_step_floor; [lia|lia|exact Hexact]. }
  set (R := val ratio) in *.
  assert (Hs1 : 1 <= IZR src) by (apply IZR_le; lia).
  assert (Hs2 : IZR src < p2 32) by (rewrite p2_IZR by lia; apply IZR_lt; lia).
  assert (Hd1 : 1 <= IZR dst) by (apply IZR_le; lia).
  assert (Hd2 : IZR dst < p2 32) by (rewrite p2_IZR by lia; apply IZR_lt; lia).
  pose proof p2_m53 as Hu.
  (* ratio * sourceRate *)
  set (r0 := F64.of_float ratio) in *. set (s0 := F64.of_Z src) in *.
  set (d0 := F64.of_Z dst) in *.
  set (A := R * IZR src).
  assert (HA1 : p2 (-149) <= A).
  { unfold A. pose proof (p2_pos (-149)). nra. }
  assert (HA2 : A < p2 160).
  { unfold A. replace (p2 160) with (p2 128 * p2 32)
      by (rewrite <- p2_add; reflexivity).
    pose proof (p2_pos (-149)). pose proof (p2_pos 32). nra. }
  destruct (SFmul_correct r0 s0 Hn0 Hns) as [Hn1 Hr1].
  { rewrite Hv0, Hvs. fold R A. split.
    - assert (p2 (-1021) <= p2 (-149)) by (apply p2_le; lia). lra.
    - assert (p2 160 <= p2 1023) by (apply p2_le; lia). lra. }
  rewrite Hv0, Hvs in Hr1. fold R A in Hr1.
  set (t1 := F64.mul r0 s0) in *.
  change (SFmul 53 1024 r0 s0) with t1 in Hn1, Hr1.
  unfold rounds in Hr1. rewrite Hu in Hr1.
  (* ... / destRate *)
  set (c := / IZR dst).
  assert (Hc1 : p2 (-32) < c).
  { unfold c. change (-32)%Z with (- (32))%Z. rewrite (p2_opp 32).
    apply Rinv_lt_contravar; [|exact Hd2].
    pose proof (p2_pos 32). nra. }
  assert (Hc2 : c <= 1).
  { unfold c. rewrite <- Rinv_1. apply Rinv_le_contravar; lra. }
  assert (Hc0 : 0 < c) by (pose proof (p2_pos (-32)); lra).
  assert (Ht1lo : p2 (-150) <= val t1).
  { replace (p2 (-150)) with (/ 2 * p2 (-149))
      by (rewrite <- p2_m1, <- p2_add; reflexivity).
    pose proof (p2_pos (-149)). lra. }
  assert (Ht1hi : val t1 < p2 161).
  { replace (p2 161) with (2 * p2 160)
      by (rewrite <- p2_1, <- p2_add; reflexivity).
    pose proof (p2_pos 160). lra. }
  destruct (SFdiv_correct t1 d0 Hn1 Hnd) as [Hn2 Hr2].
  { rewrite Hvd. unfold Rdiv. fold c. split.
    - assert (p2 (-1021) <= p2 (-150) * p2 (-32)).
      { rewrite <- p2_add. apply p2_le. lia. }
      pose proof (p2_pos (-150)). pose proof (p2_pos (-32)). nra.
    - assert (p2 161 <= p2 1023) by (apply p2_le; lia).
      pose proof (p2_pos (-150)). nra. }
  rewrite Hvd in Hr2. unfold Rdiv in Hr2. fold c in Hr2.
  set (t2 := F64.div t1 d0) in *.
  change (SFdiv 53 1024 t1 d0) with t2 in Hn2, Hr2.
  unfold rounds in Hr2. rewrite Hu in Hr2.
  assert (Ht2lo : p2 (-183) <= val t2).
  { assert (p2 (-182) <= val t1 * c).
    { replace (p2 (-182)) with (p2 (-150) * p2 (-32))
        by (rewrite <- p2_add; reflexivity).
      pose proof (p2_pos (-150)). pose proof (p2_pos (-32)). nra. }
    replace (p2 (-183)) with (/ 2 * p2 (-182))
      by (rewrite <- p2_m1, <- p2_add; reflexivity).
    pose proof (p2_pos (-182)). lra. }
  assert (Ht2hi : val t2 < p2 162).
  { assert (val t1 * c < p2 161) by (pose proof (p2_pos (-150)); nra).
    replace (p2 162) with (2 * p2 161)
      by (rewrite <- p2_1, <- p2_add; reflexivity).
    pose proof (p2_pos 161). pose proof (p2_pos (-182)). lra. }
  (* ... * FIXED_ONE *)
  destruct (SFmul_FIXED_ONE t2 Hn2) as [Hn3 Hv3].
  { pose proof (p2_pos 32). split.
    - assert (p2 (-1021) <= p2 (-183) * p2 32).
      { rewrite <- p2_add. apply p2_le. lia. }
      pose proof (p2_pos (-183)). nra.
    - assert (p2 162 * p2 32 <= p2 1023).
      { rewrite <- p2_add. apply p2_le. lia. }
      pose proof (p2_pos (-183)). nra. }
  set (t3 := F64.mul t2 (F64.of_Z FIXED_ONE)) in *.
  change (SFmul 53 1024 t2 (F64.of_Z FIXED_ONE)) with t3 in Hn3, Hv3.
  (* ... + 0.5 *)
  destruct half_normal as [Hnh Hvh].
  assert (Ht3pos : 0 < val t3).
  { rewrite Hv3. pose proof (p2_pos 32). pose proof (p2_pos (-183)). nra. }
  assert (Ht3hi : val t3 < p2 194).
  { rewrite Hv3. replace (p2 194) with (p2 162 * p2 32)
      by (rewrite <- p2_add; reflexivity).
    pose proof (p2_pos 32). nra. }
  destruct (SFadd_correct t3 (F64.of_pow2 1 (-1)) Hn3 Hnh) as [Hn4 Hr4].
  { rewrite Hvh. split.
    - assert (p2 (-1021) <= p2 (-1)) by (apply p2_le; lia).
      rewrite p2_m1 in H. lra.
    - assert (p2 194 + p2 194 <= p2 1023).
      { replace (p2 194 + p2 194) with (p2 195).
        - apply p2_le. lia.
        - replace (p2 195) with (2 * p2 194)
            by (rewrite <- p2_1, <- p2_add; reflexivity). lra. }
      assert (1 <= p2 194).
      { replace 1 with (p2 0) by apply p2_0. apply p2_le. lia. }
      lra. }
  rewrite Hvh in Hr4.
  set (t4 := F64.add t3 (F64.of_pow2 1 (-1))) in *.
  change (SFadd 53 1024 t3 (F64.of_pow2 1 (-1))) with t4 in Hn4, Hr4.
  unfold rounds in Hr4. rewrite Hu in Hr4.
  (* the exact value *)
  set (X := R * IZR src / IZR dst * p2 32) in *.
  assert (HX : X = A * c * p2 32) by (unfold X, A, c; field; lra).
  assert (HX0 : 0 < X).
  { rewrite HX. pose proof (p2_pos (-149)).
    apply Rmult_lt_0_compat;
      [apply Rmult_lt_0_compat; [lra|exact Hc0]|apply p2_pos]. }
  assert (HXhi : X < 1125899906842625).
  { assert (IZR exact <= IZR (2 ^ 50)) by (apply IZR_le; exact Hsmall).
    change (IZR (2 ^ 50)) with 1125899906842624 in H. lra. }
  set (W := val t1 * c * p2 32).
  assert (HW : - (/ 9007199254740992 * X) <= W - X
               <= / 9007199254740992 * X).
  { unfold W. rewrite HX.
    pose proof (p2_pos 32) as H32.
    assert (Hcp : 0 < c * p2 32) by nra.
    replace (val t1 * c * p2 32 - A * c * p2 32)
      with ((val t1 - A) * (c * p2 32)) by ring.
    replace (/ 9007199254740992 * (A * c * p2 32))
      with (/ 9007199254740992 * A * (c * p2 32)) by ring.
    split; nra. }
  assert (H3 : - (/ 9007199254740992 * W) <= val t3 - W
               <= / 9007199254740992 * W).
  { rewrite Hv3. unfold W. pose proof (p2_pos 32) as H32.
    replace (val t2 * p2 32 - val t1 * c * p2 32)
      with ((val t2 - val t1 * c) * p2 32) by ring.
    replace (/ 9007199254740992 * (val t1 * c * p2 32))
      with (/ 9007199254740992 * (val t1 * c) * p2 32) by ring.
    split; nra. }
  assert (Herr : -1 < val t4 - (X + / 2) < 1) by (split; lra).
  (* the conversion *)
  destruct (trunc_floor t4 Hn4) as (z & Hz & Hzb).
  exists z. split.
  - unfold resample_step, DOUBLE_TO_FIXED. fold r0 s0 d0 t1 t2 t3 t4.
    unfold F64.to_uint64. rewrite Hz.
    assert (Hzr : (0 <= z < 2 ^ 64)%Z).
    { split.
      - assert (IZR (-1) < IZR z) by lra. apply lt_IZR in H. lia.
      - assert (IZR z < IZR (2 ^ 64)).
        { change (IZR (2 ^ 64)) with 18446744073709551616. lra. }
        apply lt_IZR in H. exact H. }
    assert (Hb : ((0 <=? z) && (z <? 2 ^ 64))%Z = true).
    { apply andb_true_intro. split; [apply Z.leb_le|apply Z.ltb_lt]; lia. }
    rewrite Hb. reflexivity.
  - assert (H1 : IZR (exact - 2) < IZR z) by (rewrite minus_IZR; lra).
    assert (H2 : IZR z < IZR (exact + 2)) by (rewrite plus_IZR; lra).
    apply lt_IZR in H1, H2. lia.
Qed.

End StepError.

(** C5. The step that the source mix pass caches is [resample_step] of the
    voice's rate ratio, its sample rate and the rate of its target voice,
    and of nothing else: the quotient [ratio * sourceRate / destRate]
    evaluated in [double], times 2^32, plus one half, truncated. For a
    positive ratio of type [float] and two rates from 1 to 2^32 - 1 whose
    exactly rounded step is at most 2^50, the step is computed, and it is
    that quotient times 2^32 rounded half up to within one unit of
    Q32.32; the roundings of the operations in [double] can make it
    miss the exactly rounded value by that one unit. It is computed only
    when the ratio differs from the cached one, and then only the cached
    ratio and the step change; with the ratio unchanged, and so on a
    second computation, the voice is left as it is. *)
Theorem resample_step_cache :
  (forall ratio sourceRate destRate exact,
     positive_float ratio ->
     1 <= sourceRate < 2 ^ 32 -> 1 <= destRate < 2 ^ 32 ->
     rounded_step ratio sourceRate destRate = Some exact ->
     exact <= 2 ^ 50 ->
     exists step,
       resample_step ratio sourceRate destRate = Ok step /\
       exact - 1 <= step <= exact + 1) /\
  (forall master heap voice voice',
     MixSource_step master heap voice = Ok voice' ->
     (F32.eqb (src_resampleFreqRatio voice) (src_freqRatio voice) = true ->
        voice' = voice) /\
     (F32.eqb (src_resampleFreqRatio voice) (src_freqRatio voice) = false ->
        exists out,
          heap !! step_target master voice = Some out /\
          resample_step (src_freqRatio voice)
            (nSamplesPerSec (src_format voice)) (inputSampleRate_of out) =
            Ok (src_resampleStep voice') /\
          voice' = set_resample_state voice (src_outputResampleCache voice)
                     (src_freqRatio voice) (src_resampleStep voice')
                     (src_resampleOffset voice)) /\
     MixSource_step master heap voice' = Ok voice').
Proof.
  split; [exact StepError.resample_step_within_one|].
  intros master heap voice voice'.
  unfold MixSource_step. fold (step_target master voice).
  unfold deref.
  destruct (F32.eqb (src_resampleFreqRatio voice) (src_freqRatio voice))
    eqn:Heq; cbn [negb]; intros H.
  - inv_res. subst voice'. rewrite Heq. cbn [negb].
    split; [reflexivity|]. split; [discriminate|reflexivity].
  - destruct (heap !! step_target master voice) as [out|] eqn:Hout;
      cbn [mbind res_bind] in H; [|discriminate].
    fold (resample_step (src_freqRatio voice)
            (nSamplesPerSec (src_format voice)) (inputSampleRate_of out)) in H.
    inv_res. rename a into step. subst voice'.
    split; [discriminate|]. split.
    + intros _. exists out. split; [reflexivity|]. split; [exact Ha|reflexivity].
    + cbn [set_resample_state src_resampleFreqRatio src_freqRatio src_common
           src_format src_outputResampleCache src_resampleOffset].
      destruct (negb _); [|reflexivity].
      fold (step_target master voice). rewrite Hout. cbn [mbind res_bind].
      fold (resample_step (src_freqRatio voice)
              (nSamplesPerSec (src_format voice)) (inputSampleRate_of out)).
      rewrite Ha. reflexivity.
Qed.

(** At ratio 529, from 192 kHz into 11.025 kHz, the step is not the
    exactly rounded one. The quotient is 39567459258061.3..., which
    rounds down: twice the numerator plus the denominator lies between
    the two multiples of twice the denominator. The product
    529 * 192000 is exact in [double], the division rounds, and so does
    the addition of one half, to the next integer. *)
Lemma resample_step_not_exactly_rounded :
  resample_step (F32.of_Z 529) 192000 11025 = Ok 39567459258062 /\
  rounded_step (F32.of_Z 529) 192000 11025 = Some 39567459258061 /\
  2 * 11025 * 39567459258061
    <= 2 * (529 * 192000 * 2 ^ 32) + 11025
    < 2 * 11025 * (39567459258061 + 1).
Proof.
  split; [vm_compute; reflexivity|].
  split; [vm_compute; reflexivity|lia].
Qed.

(** The same input, within one of the exactly rounded step; and 44.1 kHz
    into 48 kHz at ratio 1, 0.91875 * 2^32 = 3946001203.2, cached and
    left alone by a second computation. *)
Lemma resample_step_cache_witness :
  (exists step,
     resample_step (F32.of_Z 529) 192000 11025 = Ok step /\
     39567459258061 - 1 <= step <= 39567459258061 + 1) /\
  (exists voice',
     MixSource_step 0 {[ 0%nat := master_48k 4 ]} retuned_voice = Ok voice' /\
     src_resampleStep voice' = 3946001203 /\
     resample_step (F32.of_Z 1) 44100 48000 = Ok 3946001203 /\
     MixSource_step 0 {[ 0%nat := master_48k 4 ]} voice' = Ok voice').
Proof.
  split.
  - assert (Hf : positive_float (F32.of_Z 529)).
    { change (F32.of_Z 529) with (S754_finite false 8667136 (-14)).
      cbn. lia. }
    assert (Hs : 1 <= 192000 < 2 ^ 32) by lia.
    assert (Hd : 1 <= 11025 < 2 ^ 32) by lia.
    assert (He : rounded_step (F32.of_Z 529) 192000 11025 =
                 Some 39567459258061) by (vm_compute; reflexivity).
    assert (Hb : 39567459258061 <= 2 ^ 50) by lia.
    exact (proj1 resample_step_cache (F32.of_Z 529) 192000 11025
             39567459258061 Hf Hs Hd He Hb).
  - assert (Hobs : match MixSource_step 0 {[ 0%nat := master_48k 4 ]}
                           retuned_voice with
                   | Ok v => src_resampleStep v = 3946001203
                   | _ => False
                   end) by (vm_compute; reflexivity).
    destruct (MixSource_step 0 {[ 0%nat := master_48k 4 ]} retuned_voice)
      as [voice'| |] eqn:Hstep; try contradiction.
    exists voice'. split; [reflexivity|]. split; [exact Hobs|].
    destruct (proj2 resample_step_cache _ _ _ _ Hstep)
      as (_ & Hnew & Hagain).
    split; [|exact Hagain].
    destruct (Hnew eq_refl) as (out & Hout & Hval & _).
    rewrite <- Hobs.
    assert (Hrate : inputSampleRate_of out = 48000).
    { change (step_target 0 retuned_voice) with 0%nat in Hout.
      rewrite lookup_singleton_eq in Hout. injection Hout as <-. reflexivity. }
    rewrite Hrate in Hval. exact Hval.
Defined.

(** Rounding is half up: 2.5 * 2^-32 becomes 3, and equal rates at ratio 1
    give exactly [FIXED_ONE]. *)
Lemma resample_step_examples :
  resample_step (F32.of_pow2 5 (-33)) 48000 48000 = Ok 3 /\
  resample_step (F32.of_Z 1) 48000 48000 = Ok FIXED_ONE /\
  resample_step (F32.of_pow2 3 (-1)) 22050 44100 = Ok (3 * 2 ^ 30).
Proof. repeat split; vm_compute; reflexivity. Qed.

(** ** The two resampling paths at step 1.0 *)

Lemma forall_from_spec f n : forall lo,
  forall_from lo n f = true ->
  forall z, lo <= z < lo + Z.of_nat n -> f z = true.
Proof.
  induction n as [|n IH]; intros lo H z Hz; [lia|].
  simpl in H. apply andb_prop in H as [Hlo Hrest].
  destruct (Z.eq_dec z lo) as [->|Hne]; [exact Hlo|].
  apply (IH (lo + 1)); [exact Hrest|lia].
Qed.

(** Differences of two samples, and samples, convert to a plain
    [double]. *)
Lemma double_of_sample_plain k :
  -65535 <= k <= 65535 -> plain (F64.of_Z k) = true.
Proof.
  intros Hk.
  apply (forall_from_spec (fun z => plain (F64.of_Z z)) (Z.to_nat 131071)
           (-65535)); [vm_compute; reflexivity|lia].
Qed.

(** Narrowing the [double] of a sample gives the [float] of the sample. *)
Lemma float_of_double_sample a :
  int16 a -> F32.of_double (F64.of_Z a) = F32.of_Z a.
Proof.
  intros Ha.
  assert (H : narrows_exactly a = true).
  { apply (forall_from_spec narrows_exactly (Z.to_nat 65536) (-32768));
      [vm_compute; reflexivity|unfold int16 in Ha; lia]. }
  unfold narrows_exactly in H. apply bool_decide_eq_true_1 in H. exact H.
Qed.

(** At phase 0 the interpolation returns its left end. *)
Lemma lerp_phase_0 a b : int16 a -> int16 b -> lerp a b 0 = normalize a.
Proof.
  intros Ha Hb. unfold lerp, normalize. f_equal.
  rewrite <- (float_of_double_sample a Ha). f_equal.
  change (FIXED_TO_DOUBLE 0) with (S754_zero false).
  assert (Hk : plain (F64.of_Z (b - a)) = true)
    by (apply double_of_sample_plain; unfold int16 in *; lia).
  assert (Hx : plain (F64.of_Z a) = true)
    by (apply double_of_sample_plain; unfold int16 in *; lia).
  destruct (F64.of_Z (b - a)) as [[|]| | |s m e]; try discriminate Hk;
    destruct (F64.of_Z a) as [[|]| | |s' m' e']; try discriminate Hx;
    try destruct s; reflexivity.
Qed.

Lemma load1_Ok {A} (mem : list A) i :
  0 <= i < Z.of_nat (length mem) ->
  exists a, load1 mem i = Ok a /\ mem !! Z.to_nat i = Some a.
Proof.
  intros Hi. unfold load1.
  assert (H0 : (0 <=? i) = true) by lia. rewrite H0.
  destruct (mem !! Z.to_nat i) as [a|] eqn:Ha; [eauto|].
  apply lookup_ge_None in Ha. lia.
Qed.

Lemma store1_Ok {A} (mem : list A) i a :
  0 <= i < Z.of_nat (length mem) ->
  store1 mem i a = Ok (<[Z.to_nat i := a]> mem).
Proof.
  intros Hi. unfold store1.
  assert (H0 : ((0 <=? i) && (i <? Z.of_nat (length mem)))%bool = true)
    by (apply andb_true_intro; split; lia).
  rewrite H0. reflexivity.
Qed.

Lemma u64_add_step off k :
  u64 (u64 (off + FIXED_ONE) + k * FIXED_ONE) = u64 (off + (k + 1) * FIXED_ONE).
Proof.
  unfold u64. rewrite Zplus_mod_idemp_l. f_equal. lia.
Qed.

Section UnitStep.

Variable decodeCache : list Z.
Hypothesis samples : Forall int16 decodeCache.

Lemma sample_at p :
  0 <= p < Z.of_nat (length decodeCache) ->
  exists d, load1 decodeCache p = Ok d /\ int16 d.
Proof.
  intros Hp. destruct (load1_Ok decodeCache p Hp) as (d & Hd & Hl).
  exists d. split; [exact Hd|].
  rewrite Forall_forall in samples. apply samples.
  eapply list_elem_of_lookup_2. exact Hl.
Qed.

Lemma mono_round_unit p rc off out d0 d1 :
  load1 decodeCache p = Ok d0 -> load1 decodeCache (p + 1) = Ok d1 ->
  int16 d0 -> int16 d1 -> 0 <= rc < Z.of_nat (length out) ->
  ResamplePCM_mono_round decodeCache FIXED_ONE
    {| rl_decodeCache := p; rl_resampleCache := rc; rl_cur := 0;
       rl_resampleOffset := off; rl_out := out |} =
  Ok {| rl_decodeCache := p + 1; rl_resampleCache := rc + 1; rl_cur := 0;
        rl_resampleOffset := u64 (off + FIXED_ONE);
        rl_out := <[Z.to_nat rc := normalize d0]> out |}.
Proof.
  intros Hd0 Hd1 Hr0 Hr1 Hrc. unfold ResamplePCM_mono_round.
  cbn [rl_decodeCache rl_resampleCache rl_cur rl_resampleOffset rl_out].
  rewrite Hd0, Hd1. cbn [mbind res_bind].
  rewrite lerp_phase_0 by assumption.
  rewrite store1_Ok by lia. reflexivity.
Qed.

Lemma stereo_round_unit p rc off out d0 d1 d2 d3 :
  load1 decodeCache p = Ok d0 -> load1 decodeCache (p + 1) = Ok d1 ->
  load1 decodeCache (p + 2) = Ok d2 -> load1 decodeCache (p + 3) = Ok d3 ->
  int16 d0 -> int16 d1 -> int16 d2 -> int16 d3 ->
  0 <= rc -> rc + 1 < Z.of_nat (length out) ->
  ResamplePCM_stereo_round decodeCache FIXED_ONE
    {| rl_decodeCache := p; rl_resampleCache := rc; rl_cur := 0;
       rl_resampleOffset := off; rl_out := out |} =
  Ok {| rl_decodeCache := p + 2; rl_resampleCache := rc + 2; rl_cur := 0;
        rl_resampleOffset := u64 (off + FIXED_ONE);
        rl_out := <[Z.to_nat (rc + 1) := normalize d1]>
                    (<[Z.to_nat rc := normalize d0]> out) |}.
Proof.
  intros Hd0 Hd1 Hd2 Hd3 Hr0 Hr1 Hr2 Hr3 Hrc Hrc1.
  unfold ResamplePCM_stereo_round.
  cbn [rl_decodeCache rl_resampleCache rl_cur rl_resampleOffset rl_out].
  rewrite Hd0, Hd1, Hd2, Hd3. cbn [mbind res_bind].
  rewrite !lerp_phase_0 by assumption.
  rewrite store1_Ok by lia. cbn [mbind res_bind].
  rewrite store1_Ok by (rewrite length_insert; lia).
  cbn [mbind res_bind].
  change (Z.shiftr (u64 (0 + FIXED_ONE)) FIXED_PRECISION) with 1.
  change (Z.land (u64 (0 + FIXED_ONE)) FIXED_FRACTION_MASK) with 0.
  do 2 f_equal. lia.
Qed.

(** The mono loop of the resampler at step 1.0 and phase 0 writes what the
    conversion loop writes, and moves on by one sample a round. *)
Lemma mono_unit_step n : forall p rc off out,
  0 <= p -> 0 <= rc ->
  p + Z.of_nat n + 1 <= Z.of_nat (length decodeCache) ->
  rc + Z.of_nat n <= Z.of_nat (length out) ->
  exists out',
    convert_loop decodeCache p n rc out = Ok out' /\
    rounds n (ResamplePCM_mono_round decodeCache FIXED_ONE)
      {| rl_decodeCache := p; rl_resampleCache := rc; rl_cur := 0;
         rl_resampleOffset := off; rl_out := out |} =
    Ok {| rl_decodeCache := p + Z.of_nat n;
          rl_resampleCache := rc + Z.of_nat n; rl_cur := 0;
          rl_resampleOffset :=
            match n with
            | O => off
            | S _ => u64 (off + Z.of_nat n * FIXED_ONE)
            end;
          rl_out := out' |}.
Proof.
  induction n as [|n IH]; intros p rc off out Hp Hrc Hlen Hout.
  - exists out. simpl. rewrite !Z.add_0_r. split; reflexivity.
  - destruct (sample_at p ltac:(lia)) as (d0 & Hd0 & Hr0).
    destruct (sample_at (p + 1) ltac:(lia)) as (d1 & Hd1 & Hr1).
    destruct (IH (p + 1) (rc + 1) (u64 (off + FIXED_ONE))
                (<[Z.to_nat rc := normalize d0]> out))
      as (out' & Hconv & Hrounds); try lia.
    { rewrite length_insert. lia. }
    exists out'. split.
    + simpl. rewrite Hd0. cbn [mbind res_bind].
      rewrite store1_Ok by lia. exact Hconv.
    + cbn [rounds].
      rewrite (mono_round_unit p rc off out d0 d1) by (assumption || lia).
      cbn [mbind res_bind].
      rewrite Hrounds. do 2 f_equal; try lia.
      destruct n as [|n]; [f_equal; lia|].
      rewrite u64_add_step. f_equal. lia.
Qed.

(** The stereo loop does the same with two values a round. *)
Lemma stereo_unit_step n : forall p rc off out,
  0 <= p -> 0 <= rc ->
  p + 2 * Z.of_nat n + 2 <= Z.of_nat (length decodeCache) ->
  rc + 2 * Z.of_nat n <= Z.of_nat (length out) ->
  exists out',
    convert_loop decodeCache p (2 * n) rc out = Ok out' /\
    rounds n (ResamplePCM_stereo_round decodeCache FIXED_ONE)
      {| rl_decodeCache := p; rl_resampleCache := rc; rl_cur := 0;
         rl_resampleOffset := off; rl_out := out |} =
    Ok {| rl_decodeCache := p + 2 * Z.of_nat n;
          rl_resampleCache := rc + 2 * Z.of_nat n; rl_cur := 0;
          rl_resampleOffset :=
            match n with
            | O => off
            | S _ => u64 (off + Z.of_nat n * FIXED_ONE)
            end;
          rl_out := out' |}.
Proof.
  induction n as [|n IH]; intros p rc off out Hp Hrc Hlen Hout.
  - exists out. simpl. rewrite !Z.add_0_r. split; reflexivity.
  - destruct (sample_at p ltac:(lia)) as (d0 & Hd0 & Hr0).
    destruct (sample_at (p + 1) ltac:(lia)) as (d1 & Hd1 & Hr1).
    destruct (sample_at (p + 2) ltac:(lia)) as (d2 & Hd2 & Hr2).
    destruct (sample_at (p + 3) ltac:(lia)) as (d3 & Hd3 & Hr3).
    destruct (IH (p + 2) (rc + 2) (u64 (off + FIXED_ONE))
                (<[Z.to_nat (rc + 1) := normalize d1]>
                   (<[Z.to_nat rc := normalize d0]> out)))
      as (out' & Hconv & Hrounds); try lia.
    { rewrite !length_insert. lia. }
    exists out'. split.
    + replace (2 * S n)%nat with (S (S (2 * n))) by lia.
      cbn [convert_loop]. rewrite Hd0. cbn [mbind res_bind].
      rewrite store1_Ok by lia. cbn [mbind res_bind].
      rewrite Hd1. cbn [mbind res_bind].
      rewrite store1_Ok by (rewrite length_insert; lia).
      cbn [mbind res_bind].
      replace (p + 1 + 1) with (p + 2) by lia.
      replace (rc + 1 + 1) with (rc + 2) by lia. exact Hconv.
    + cbn [rounds].
      rewrite (stereo_round_unit p rc off out d0 d1 d2 d3)
        by (assumption || lia).
      cbn [mbind res_bind].
      rewrite Hrounds. do 2 f_equal; try lia.
      destruct n as [|n]; [f_equal; lia|].
      rewrite u64_add_step. f_equal. lia.
Qed.

End UnitStep.

(** The property as the design document states it fails in two ways.
    When the voice's [resampleOffset] carries a fraction, as it does after
    playing at another ratio: at half a sample into the fraction and
    samples 0, 16384, 0 the conversion loop writes 0 and 0.5, the resampler
    the interpolated 0.25 and 0.25; and the resampler moves
    [resampleOffset] on by two steps where the conversion loop leaves it.
    And when the voice has more than two channels: the resampler's general
    loop reads and writes one value a frame, so of a three-channel frame it
    writes the first value only. *)
Lemma fast_path_ignores_phase :
  src_resampleStep half_phase_voice = FIXED_ONE /\
  resampled (MixSource_convert half_phase_voice 0 2) =
    Some ([F32.zero; F32.of_pow2 1 (-1); F32.zero; F32.zero], 2 ^ 31) /\
  resampled (FAudio_INTERNAL_ResamplePCM half_phase_voice 0 2) =
    Some ([F32.of_pow2 1 (-2); F32.of_pow2 1 (-2); F32.zero; F32.zero],
          2 ^ 31 + 2 * FIXED_ONE) /\
  src_resampleStep three_channel_voice = FIXED_ONE /\
  resampled (MixSource_convert three_channel_voice 0 1) =
    Some ([F32.of_pow2 1 (-7); F32.of_pow2 1 (-6); F32.of_pow2 3 (-7);
           F32.zero], 0) /\
  resampled (FAudio_INTERNAL_ResamplePCM three_channel_voice 0 1) =
    Some ([F32.of_pow2 1 (-7); F32.zero; F32.zero; F32.zero], FIXED_ONE) /\
  fst <$> resampled (MixSource_convert half_phase_voice 0 2) <>
  fst <$> resampled (FAudio_INTERNAL_ResamplePCM half_phase_voice 0 2) /\
  fst <$> resampled (MixSource_convert three_channel_voice 0 1) <>
  fst <$> resampled (FAudio_INTERNAL_ResamplePCM three_channel_voice 0 1).
Proof. repeat split; vm_compute; (reflexivity || discriminate). Qed.

(** C4, as amended. At step 1.0, for a voice with one or two channels
    whose [resampleOffset] has no fraction, the conversion loop and the
    interpolating resampler write the same floats, bit for bit, into the
    output cache, for the same decoded samples (the resampler needs one
    frame of look-ahead). They differ in what they leave behind: the
    resampler has advanced [resampleOffset] by one step per frame, the
    conversion loop has not touched it; its fraction is zero either way. *)
Theorem fast_path_equivalence voice resampleCache toResample :
  src_resampleStep voice = FIXED_ONE ->
  Z.land (src_resampleOffset voice) FIXED_FRACTION_MASK = 0 ->
  0 <= src_resampleOffset voice < 2 ^ 64 ->
  nChannels (src_format voice) = 1 \/ nChannels (src_format voice) = 2 ->
  Forall int16 (src_decodeCache voice) ->
  0 <= toResample -> 0 <= resampleCache ->
  toResample * nChannels (src_format voice) < 2 ^ 32 ->
  (toResample + 1) * nChannels (src_format voice) <=
    Z.of_nat (length (src_decodeCache voice)) ->
  resampleCache + toResample * nChannels (src_format voice) <=
    Z.of_nat (length (src_outputResampleCache voice)) ->
  exists out,
    MixSource_convert voice resampleCache toResample =
      Ok (set_resample_state voice out (src_resampleFreqRatio voice)
            FIXED_ONE (src_resampleOffset voice)) /\
    FAudio_INTERNAL_ResamplePCM voice resampleCache toResample =
      Ok (set_resample_state voice out (src_resampleFreqRatio voice)
            FIXED_ONE
            (u64 (src_resampleOffset voice + toResample * FIXED_ONE))) /\
    Z.land (u64 (src_resampleOffset voice + toResample * FIXED_ONE))
           FIXED_FRACTION_MASK = 0.
Proof.
  intros Hstep Hphase Hoff Hch Hsamples Hn Hrc H32 Hlen Hout.
  assert (Hfinal : forall k,
            match k with
            | O => src_resampleOffset voice
            | S _ => u64 (src_resampleOffset voice + Z.of_nat k * FIXED_ONE)
            end = u64 (src_resampleOffset voice + Z.of_nat k * FIXED_ONE)).
  { intros [|k]; [|reflexivity].
    unfold u64. rewrite Z.mod_small; lia. }
  assert (Hfrac : Z.land (u64 (src_resampleOffset voice +
                               toResample * FIXED_ONE))
                         FIXED_FRACTION_MASK = 0).
  { change FIXED_FRACTION_MASK with (Z.ones 32) in *.
    rewrite Z.land_ones in * by lia.
    assert (Hq : src_resampleOffset voice =
                 2 ^ 32 * (src_resampleOffset voice / 2 ^ 32))
      by (apply Z_div_exact_2; lia).
    unfold u64. rewrite Hq. change FIXED_ONE with (2 ^ 32).
    replace (2 ^ 32 * (src_resampleOffset voice / 2 ^ 32) +
             toResample * 2 ^ 32)
      with (2 ^ 32 * (src_resampleOffset voice / 2 ^ 32 + toResample))
      by lia.
    change (2 ^ 64) with (2 ^ 32 * 2 ^ 32).
    rewrite Z.mul_mod_distr_l by lia.
    rewrite Z.mul_comm, Z.mod_mul by lia. reflexivity. }
  unfold MixSource_convert, FAudio_INTERNAL_ResamplePCM.
  rewrite Hstep, Hphase.
  assert (Hlt : (toResample <? 2 ^ 32) = true) by (destruct Hch; lia).
  rewrite Hlt.
  destruct Hch as [Hch|Hch]; rewrite Hch in *.
  - (* one channel *)
    rewrite Z.mul_1_r in *.
    assert (Hu : u64 toResample = toResample)
      by (unfold u64; apply Z.mod_small; lia).
    rewrite Hu, Hlt. change (1 =? 2) with false. change (1 =? 0) with false.
    destruct (mono_unit_step (src_decodeCache voice) Hsamples
                (Z.to_nat toResample) 0 resampleCache
                (src_resampleOffset voice) (src_outputResampleCache voice))
      as (out & Hconv & Hrounds); try lia.
    exists out. rewrite Hconv, Hrounds, Hfinal, Z2Nat.id by lia.
    cbn [mbind res_bind guard_res negb rl_out rl_resampleOffset].
    split; [reflexivity|split; [reflexivity|exact Hfrac]].
  - (* two channels *)
    assert (Hu : u64 (toResample * 2) = toResample * 2)
      by (unfold u64; apply Z.mod_small; lia).
    rewrite Hu.
    assert (Hlt2 : (toResample * 2 <? 2 ^ 32) = true) by lia.
    rewrite Hlt2. change (2 =? 2) with true. change (2 =? 0) with false.
    destruct (stereo_unit_step (src_decodeCache voice) Hsamples
                (Z.to_nat toResample) 0 resampleCache
                (src_resampleOffset voice) (src_outputResampleCache voice))
      as (out & Hconv & Hrounds); try lia.
    exists out.
    replace (Z.to_nat (toResample * 2)) with (2 * Z.to_nat toResample)%nat
      by lia.
    rewrite Hconv, Hrounds, Hfinal, Z2Nat.id by lia.
    cbn [mbind res_bind guard_res negb rl_out rl_resampleOffset].
    split; [reflexivity|split; [reflexivity|exact Hfrac]].
Qed.

(** Two frames of a stereo voice at phase 0. *)
Lemma fast_path_equivalence_witness :
  exists out,
    MixSource_convert zero_phase_voice 0 2 =
      Ok (set_resample_state zero_phase_voice out (F32.of_Z 1) FIXED_ONE 0) /\
    FAudio_INTERNAL_ResamplePCM zero_phase_voice 0 2 =
      Ok (set_resample_state zero_phase_voice out (F32.of_Z 1) FIXED_ONE
            (2 * FIXED_ONE)).
Proof.
  destruct (fast_path_equivalence zero_phase_voice 0 2) as (out & H1 & H2 & _);
    try reflexivity; try (cbn; lia).
  - cbn. repeat (constructor; [unfold int16; lia|]). constructor.
  - exists out. split; [exact H1|exact H2].
Defined.

(** ** Additive mixing *)

Lemma F32_add_comm x y : F32.add x y = F32.add y x.
Proof.
  destruct x as [[|]|[|]| |sx mx ex], y as [[|]|[|]| |sy my ey];
    try reflexivity.
  unfold F32.add, SFadd. rewrite (Z.min_comm ey ex). f_equal. apply Z.add_comm.
Qed.

(** Summing into a zeroed accumulator does not depend on the order. *)
Lemma F32_sum_from_zero x y :
  F32.add (F32.add F32.zero x) y = F32.add (F32.add F32.zero y) x.
Proof.
  destruct x as [[|]|[|]| |sx mx ex], y as [[|]|[|]| |sy my ey];
    try reflexivity.
  change (F32.add F32.zero (S754_finite sx mx ex)) with (S754_finite sx mx ex).
  change (F32.add F32.zero (S754_finite sy my ey)) with (S754_finite sy my ey).
  apply F32_add_comm.
Qed.

(** ... and is the sum of the two terms, unless both are [-0]. *)
Lemma F32_sum_from_zero_is_sum x y :
  x <> S754_zero true \/ y <> S754_zero true ->
  F32.add (F32.add F32.zero x) y = F32.add x y.
Proof.
  intros H.
  destruct x as [[|]|[|]| |sx mx ex], y as [[|]|[|]| |sy my ey];
    try reflexivity.
  destruct H; congruence.
Qed.

Lemma for_loop_1 {S} (body : Z -> S -> res S) (st : S) :
  for_loop 1 body st = body 0 st.
Proof. unfold for_loop. simpl. destruct (body 0 st); reflexivity. Qed.

Section Additive.

Variable FAUDIO_MAX_VOLUME_LEVEL : spec_float.

Abbreviation ceiling x :=
  (F32.clamp x (SFopp FAUDIO_MAX_VOLUME_LEVEL) FAUDIO_MAX_VOLUME_LEVEL).

Lemma accumulate_Ok heap p idx x o s :
  heap !! p = Some o -> 0 <= idx ->
  stream_of o !! Z.to_nat idx = Some s ->
  accumulate FAUDIO_MAX_VOLUME_LEVEL heap p idx x =
    Ok (<[p := set_stream o (<[Z.to_nat idx := ceiling (F32.add s x)]>
                               (stream_of o))]> heap).
Proof.
  intros Hp Hidx Hs. unfold accumulate, deref, load1.
  rewrite Hp. cbn [mbind res_bind].
  assert (H0 : (0 <=? idx) = true) by lia. rewrite H0, Hs.
  cbn [mbind res_bind].
  rewrite store1_Ok; [reflexivity|].
  apply lookup_lt_Some in Hs. lia.
Qed.

Lemma stream_of_set_stream o stream : stream_of (set_stream o stream) = stream.
Proof. destruct o; reflexivity. Qed.

Lemma set_stream_set_stream o s1 s2 :
  set_stream (set_stream o s1) s2 = set_stream o s2.
Proof. destruct o; reflexivity. Qed.

(** The send loop of a mono voice with one send and one frame, into a
    voice with one channel, is one accumulation. *)
Lemma MixSource_sends_single voice heap p flags out :
  sends (src_common voice) = [{| send_Flags := flags; pOutputVoice := p |}] ->
  nChannels (src_format voice) = 1 ->
  heap !! p = Some out -> oChan_of out = 1 ->
  MixSource_sends FAUDIO_MAX_VOLUME_LEVEL voice 1 heap =
    MixSource_term voice 0 0 0 0 ≫=
      (fun x => accumulate FAUDIO_MAX_VOLUME_LEVEL heap p 0 x).
Proof.
  intros Hs Hch Hp Ho. unfold MixSource_sends, SendCount.
  rewrite Hs, Hch. change (Z.of_nat (length [_])) with 1.
  rewrite for_loop_1. unfold load1. change (0 <=? 0) with true.
  change ([{| send_Flags := flags; pOutputVoice := p |}] !! Z.to_nat 0)
    with (Some {| send_Flags := flags; pOutputVoice := p |}).
  cbn [mbind res_bind pOutputVoice].
  unfold deref. rewrite Hp. cbn [mbind res_bind]. rewrite Ho.
  rewrite !for_loop_1. reflexivity.
Qed.

(** C3, as amended. Two mono voices send one frame each into the same
    one-channel destination, whose sample starts at zero as the caller
    clears it. If neither contribution alone is cut by the ceiling, the
    sample after both passes is the clamped sum of the two contributions,
    whichever voice is mixed first. A contribution is
    [sample * channelVolume * volume * coefficient] as the send loop
    computes it. *)
Theorem additive_mixing v1 v2 heap p flags1 flags2 out rest c1 c2 :
  sends (src_common v1) = [{| send_Flags := flags1; pOutputVoice := p |}] ->
  sends (src_common v2) = [{| send_Flags := flags2; pOutputVoice := p |}] ->
  nChannels (src_format v1) = 1 -> nChannels (src_format v2) = 1 ->
  heap !! p = Some out -> oChan_of out = 1 ->
  stream_of out = F32.zero :: rest ->
  MixSource_term v1 0 0 0 0 = Ok c1 ->
  MixSource_term v2 0 0 0 0 = Ok c2 ->
  ceiling (F32.add F32.zero c1) = F32.add F32.zero c1 ->
  ceiling (F32.add F32.zero c2) = F32.add F32.zero c2 ->
  let mixed := ceiling (F32.add (F32.add F32.zero c1) c2) in
  let heap' := <[p := set_stream out (mixed :: rest)]> heap in
  MixSource_sends FAUDIO_MAX_VOLUME_LEVEL v1 1 heap ≫=
    MixSource_sends FAUDIO_MAX_VOLUME_LEVEL v2 1 = Ok heap' /\
  MixSource_sends FAUDIO_MAX_VOLUME_LEVEL v2 1 heap ≫=
    MixSource_sends FAUDIO_MAX_VOLUME_LEVEL v1 1 = Ok heap' /\
  (c1 <> S754_zero true \/ c2 <> S754_zero true ->
   mixed = ceiling (F32.add c1 c2)).
Proof.
  intros Hs1 Hs2 Hch1 Hch2 Hp Ho Hst Hc1 Hc2 Hfit1 Hfit2 mixed heap'.
  assert (Hzero : stream_of out !! Z.to_nat 0 = Some F32.zero)
    by (rewrite Hst; reflexivity).
  assert (Hpass : forall va vb fa fb ca cb,
    sends (src_common va) = [{| send_Flags := fa; pOutputVoice := p |}] ->
    sends (src_common vb) = [{| send_Flags := fb; pOutputVoice := p |}] ->
    nChannels (src_format va) = 1 -> nChannels (src_format vb) = 1 ->
    MixSource_term va 0 0 0 0 = Ok ca ->
    MixSource_term vb 0 0 0 0 = Ok cb ->
    ceiling (F32.add F32.zero ca) = F32.add F32.zero ca ->
    MixSource_sends FAUDIO_MAX_VOLUME_LEVEL va 1 heap ≫=
      MixSource_sends FAUDIO_MAX_VOLUME_LEVEL vb 1 =
    Ok (<[p := set_stream out
                 (ceiling (F32.add (F32.add F32.zero ca) cb) :: rest)]> heap)).
  { intros va vb fa fb ca cb Hsa Hsb Hcha Hchb Hca Hcb Hfit.
    rewrite (MixSource_sends_single va heap p fa out) by assumption.
    rewrite Hca. cbn [mbind res_bind].
    rewrite (accumulate_Ok heap p 0 ca out F32.zero) by (assumption || lia).
    cbn [mbind res_bind].
    rewrite (MixSource_sends_single vb _ p fb
               (set_stream out (<[Z.to_nat 0 := ceiling (F32.add F32.zero ca)]>
                                  (stream_of out)))); try assumption.
    - rewrite Hcb. cbn [mbind res_bind].
      erewrite (accumulate_Ok _ p 0 cb).
      2: apply lookup_insert_eq.
      2: lia.
      2: { rewrite stream_of_set_stream, Hst. reflexivity. }
      rewrite insert_insert_eq, set_stream_set_stream, stream_of_set_stream.
      rewrite list_insert_insert_eq, Hfit, Hst. reflexivity.
    - apply lookup_insert_eq.
    - destruct out; exact Ho. }
  split; [|split].
  - apply (Hpass v1 v2 flags1 flags2 c1 c2); assumption.
  - unfold heap', mixed. rewrite F32_sum_from_zero.
    apply (Hpass v2 v1 flags2 flags1 c2 c1); assumption.
  - intros Hnz. unfold mixed. rewrite F32_sum_from_zero_is_sum by exact Hnz.
    reflexivity.
Qed.

End Additive.

(** The claim as the design document has it fails when a contribution alone
    passes the ceiling: [voice_up] contributes 2^25 and [voice_down] -2^24
    to a sample that starts at 0, under the ceiling 2^24. Mixed in this
    order the sample is cut to 2^24 and then brought down to 0; mixed in
    the other order it goes to -2^24 and then up to 2^24, which is also the
    clamped sum. *)
Lemma additive_mixing_order_matters :
  let heap : voices := {[ 0%nat := master_48k 1 ]} in
  MixSource_term voice_up 0 0 0 0 = Ok (F32.of_pow2 1 25) /\
  MixSource_term voice_down 0 0 0 0 = Ok (F32.of_pow2 (-1) 24) /\
  mixed_sample 0 (MixSource_sends max_volume_2_24 voice_up 1 heap ≫=
                  MixSource_sends max_volume_2_24 voice_down 1) =
    Some F32.zero /\
  mixed_sample 0 (MixSource_sends max_volume_2_24 voice_down 1 heap ≫=
                  MixSource_sends max_volume_2_24 voice_up 1) =
    Some (F32.of_pow2 1 24) /\
  F32.clamp (F32.add (F32.of_pow2 1 25) (F32.of_pow2 (-1) 24))
            (SFopp max_volume_2_24) max_volume_2_24 = F32.of_pow2 1 24.
Proof. repeat split; vm_compute; reflexivity. Qed.

(** 0.5 and 0.25 mix to 0.75 in either order. *)
Lemma additive_mixing_witness :
  let heap : voices := {[ 0%nat := master_48k 1 ]} in
  mixed_sample 0 (MixSource_sends max_volume_2_24 voice_half 1 heap ≫=
                  MixSource_sends max_volume_2_24 voice_quarter 1) =
    Some (F32.of_pow2 3 (-2)) /\
  mixed_sample 0 (MixSource_sends max_volume_2_24 voice_quarter 1 heap ≫=
                  MixSource_sends max_volume_2_24 voice_half 1) =
    Some (F32.of_pow2 3 (-2)).
Proof.
  intros heap.
  destruct (additive_mixing max_volume_2_24 voice_half voice_quarter heap
              0%nat 0 0 (master_48k 1) []
              (F32.of_pow2 1 (-1)) (F32.of_pow2 1 (-2)))
    as (H12 & H21 & _); try reflexivity.
  rewrite H12, H21. split; vm_compute; reflexivity.
Defined.


(** ** The accumulator of a submix voice *)

Lemma for_from_invariant {S} (Q : S -> Prop) (body : Z -> S -> res S) :
  (forall i st st', body i st = Ok st' -> Q st -> Q st') ->
  forall n i st st', for_from i n body st = Ok st' -> Q st -> Q st'.
Proof.
  intros Hbody. induction n as [|n IH]; intros i st st' H HQ; simpl in H.
  - inv_res. subst. exact HQ.
  - inv_res. eapply IH; [exact H|]. eapply Hbody; eassumption.
Qed.

Lemma for_loop_invariant {S} (Q : S -> Prop) (body : Z -> S -> res S) n st st' :
  (forall i st st', body i st = Ok st' -> Q st -> Q st') ->
  for_loop n body st = Ok st' -> Q st -> Q st'.
Proof. intros Hbody. apply for_from_invariant, Hbody. Qed.

Lemma same_layout_refl h : same_layout h h.
Proof. intros q. reflexivity. Qed.

Lemma same_layout_trans h1 h2 h3 :
  same_layout h1 h2 -> same_layout h2 h3 -> same_layout h1 h3.
Proof. intros H12 H23 q. rewrite H12. apply H23. Qed.

Lemma same_layout_insert h p v v' :
  h !! p = Some v -> layout v' = layout v -> same_layout h (<[p := v']> h).
Proof.
  intros Hp Hl q. destruct (decide (p = q)) as [<-|Hne].
  - rewrite lookup_insert_eq, Hp. simpl. congruence.
  - rewrite lookup_insert_ne by exact Hne. reflexivity.
Qed.

Lemma layout_set_stream o stream :
  length stream = length (stream_of o) -> layout (set_stream o stream) = layout o.
Proof. destruct o; simpl; intros ->; reflexivity. Qed.

Lemma store1_length {A} (mem : list A) i a mem' :
  store1 mem i a = Ok mem' -> length mem' = length mem.
Proof.
  unfold store1. destruct (_ && _); intros H; inv_res. subst.
  apply length_insert.
Qed.

Lemma store_length {A} (mem : list A) off vals mem' :
  store mem off vals = Ok mem' -> length mem' = length mem.
Proof.
  unfold store. destruct (0 <=? off) eqn:H0;
    destruct (off + Z.of_nat (length vals) <=? Z.of_nat (length mem)) eqn:H1;
    simpl; intros H; inv_res. subst.
  rewrite !length_app, length_take, length_drop. lia.
Qed.

Section Submix.

Variable FAUDIO_MAX_VOLUME_LEVEL : spec_float.
Variable FAudio_PlatformResample :
  nat -> list spec_float -> Z -> list spec_float -> Z -> list spec_float * Z.

Lemma accumulate_layout heap out idx x heap' :
  accumulate FAUDIO_MAX_VOLUME_LEVEL heap out idx x = Ok heap' ->
  same_layout heap heap'.
Proof.
  unfold accumulate, deref. intros H.
  destruct (heap !! out) as [o|] eqn:Ho; cbn [mbind res_bind] in H;
    [|discriminate].
  inv_res. subst heap'. apply same_layout_insert with o; [exact Ho|].
  apply layout_set_stream. eapply store1_length. eassumption.
Qed.

(** The send loop of a submix voice writes streams and nothing else. *)
Lemma MixSubmix_sends_layout p resampled heap heap' :
  MixSubmix_sends FAUDIO_MAX_VOLUME_LEVEL p resampled heap = Ok heap' ->
  same_layout heap heap'.
Proof.
  unfold MixSubmix_sends. intros H. inv_res. rename a into m.
  eapply (for_loop_invariant (same_layout heap));
    [|exact H|apply same_layout_refl].
  clear H. intros i h1 h1' H Hacc. cbv beta in H. inv_res.
  eapply (for_loop_invariant (same_layout heap)); [|exact H|exact Hacc].
  clear. intros j h2 h2' H Hacc. cbv beta in H.
  eapply (for_loop_invariant (same_layout heap)); [|exact H|exact Hacc].
  clear. intros co h3 h3' H Hacc. cbv beta in H.
  eapply (for_loop_invariant (same_layout heap)); [|exact H|exact Hacc].
  clear. intros ci h4 h4' H Hacc. cbv beta in H. inv_res.
  eapply same_layout_trans; [exact Hacc|]. eapply accumulate_layout, H.
Qed.

(** The end of the pass: a voice whose accumulator has [inputSamples]
    values is left with that many zeros. *)
Lemma MixSubmix_end_zero p heap m :
  heap !! p = Some (Submix m) ->
  Z.of_nat (length (mix_inputCache m)) = mix_inputSamples m ->
  MixSubmix_end p heap =
    Ok (<[p := Submix (set_inputCache m
                         (replicate (length (mix_inputCache m)) F32.zero))]>
          heap).
Proof.
  intros Hp Hlen. unfold MixSubmix_end, deref. rewrite Hp.
  cbn [mbind res_bind as_submix].
  rewrite store_Ok by (rewrite ?length_replicate; lia).
  cbn [mbind res_bind]. rewrite <- Hlen, Nat2Z.id.
  change (Z.to_nat 0) with 0%nat. rewrite take_0, length_replicate.
  rewrite Nat.add_0_l, drop_all, app_nil_r. reflexivity.
Qed.

(** C9. A submix voice whose accumulator has [inputSamples] values, as
    allocated. Without sends, the pass returns, and what it returns is the
    voices as they were with this voice's accumulator zeroed: no other
    voice, and no other field of this one, is written. With sends, when
    the pass returns the accumulator is all zeros as well. *)
Theorem submix_accumulator_cleared p heap m :
  heap !! p = Some (Submix m) ->
  Z.of_nat (length (mix_inputCache m)) = mix_inputSamples m ->
  let zeros := replicate (length (mix_inputCache m)) F32.zero in
  (SendCount (mix_common m) = 0 ->
     FAudio_INTERNAL_MixSubmix FAUDIO_MAX_VOLUME_LEVEL FAudio_PlatformResample
       p heap = Ok (<[p := Submix (set_inputCache m zeros)]> heap)) /\
  (forall heap',
     FAudio_INTERNAL_MixSubmix FAUDIO_MAX_VOLUME_LEVEL FAudio_PlatformResample
       p heap = Ok heap' ->
     exists m', heap' !! p = Some (Submix m') /\ mix_inputCache m' = zeros).
Proof.
  intros Hp Hlen zeros.
  assert (Hnone : SendCount (mix_common m) = 0 ->
     FAudio_INTERNAL_MixSubmix FAUDIO_MAX_VOLUME_LEVEL FAudio_PlatformResample
       p heap = Ok (<[p := Submix (set_inputCache m zeros)]> heap)).
  { intros Hs. unfold FAudio_INTERNAL_MixSubmix, deref. rewrite Hp.
    cbn [mbind res_bind as_submix]. rewrite Hs. change (0 =? 0) with true.
    apply MixSubmix_end_zero; assumption. }
  split; [exact Hnone|]. intros heap' H.
  destruct (SendCount (mix_common m) =? 0) eqn:Hs.
  - rewrite Hnone in H by lia. inv_res. subst heap'.
    eexists. split; [apply lookup_insert_eq|reflexivity].
  - unfold FAudio_INTERNAL_MixSubmix, deref in H. rewrite Hp in H.
    cbn [mbind res_bind as_submix] in H. rewrite Hs in H.
    destruct (FAudio_PlatformResample _ _ _ _ _) as [cache resampled].
    inv_res. rename a1 into heap1.
    apply MixSubmix_sends_layout in Ha1.
    specialize (Ha1 p). rewrite lookup_insert_eq in Ha1.
    destruct (heap1 !! p) as [[m1|m1]|] eqn:Hp1; try discriminate Ha1.
    simpl in Ha1. injection Ha1 as _ Hsamples Hlen1.
    assert (Hlen' : Z.of_nat (length (mix_inputCache m1)) = mix_inputSamples m1)
      by (rewrite <- Hsamples, <- Hlen1; exact Hlen).
    rewrite (MixSubmix_end_zero p heap1 m1 Hp1 Hlen') in H. inv_res.
    subst heap'. eexists. split; [apply lookup_insert_eq|].
    cbn [set_inputCache mix_inputCache]. unfold zeros. rewrite Hlen1.
    reflexivity.
Qed.

End Submix.

(** A submix voice at address 1 with two frames, without sends and with a
    send into the master voice at address 0: the accumulator is zero after
    both passes, and only the second writes the master's block. *)
Lemma submix_accumulator_cleared_witness :
  streams_after
    (FAudio_INTERNAL_MixSubmix max_volume_2_24 copy_resampler 1
       {[ 0%nat := master_48k 2; 1%nat := sample_submix 0 [] ]}) =
    Some ([F32.zero; F32.zero], [F32.zero; F32.zero]) /\
  streams_after
    (FAudio_INTERNAL_MixSubmix max_volume_2_24 copy_resampler 1
       {[ 0%nat := master_48k 2; 1%nat := sample_submix 0 [0%nat] ]}) =
    Some ([F32.of_pow2 1 (-1); F32.of_pow2 1 (-2)], [F32.zero; F32.zero]).
Proof.
  split.
  - assert (Hp : ({[ 0%nat := master_48k 2; 1%nat := sample_submix 0 [] ]}
                    : voices) !! 1%nat = Some (Submix (sample_mix 0 [])))
      by (vm_compute; reflexivity).
    destruct (submix_accumulator_cleared max_volume_2_24 copy_resampler 1
                _ (sample_mix 0 []) Hp eq_refl) as [Hnone _].
    rewrite (Hnone eq_refl). vm_compute. reflexivity.
  - vm_compute. reflexivity.
Defined.

(** ** The order of an engine update *)

Lemma same_layout_stage h h' q :
  same_layout h h' -> stage_of h' q = stage_of h q.
Proof.
  intros H. specialize (H q). unfold stage_of.
  destruct (h !! q) as [[m|m]|], (h' !! q) as [[m'|m']|];
    simpl in H; try discriminate; try reflexivity.
  injection H as H _ _. congruence.
Qed.

Lemma foldM_invariant {A S} (Q : list A -> S -> Prop) (f : A -> S -> res S) :
  (forall done a st st',
     f a st = Ok st' -> Q done st -> Q (done ++ [a]) st') ->
  forall l done st st',
    foldM f l st = Ok st' -> Q done st -> Q (done ++ l) st'.
Proof.
  intros Hf. induction l as [|a l IH]; intros done st st' H HQ; simpl in H.
  - inv_res. subst. rewrite app_nil_r. exact HQ.
  - inv_res. rewrite (cons_middle a done l), app_assoc.
    eapply IH; [exact H|]. eapply Hf; eassumption.
Qed.

Lemma for_from_steps {T} (Q : Z -> T -> Prop) (body : Z -> T -> res T) :
  (forall i st st', body i st = Ok st' -> Q i st -> Q (i + 1) st') ->
  forall n i st st',
    for_from i n body st = Ok st' -> Q i st -> Q (i + Z.of_nat n) st'.
Proof.
  intros Hbody. induction n as [|n IH]; intros i st st' H HQ; simpl in H.
  - inv_res. subst. rewrite Z.add_0_r. exact HQ.
  - inv_res. replace (i + Z.of_nat (S n)) with (i + 1 + Z.of_nat n) by lia.
    eapply IH; [exact H|]. eapply Hbody; eassumption.
Qed.

(** Appending a call: where a list with one more call splits. *)
Lemma snoc_split {A} (l pre post : list A) (x y : A) :
  l ++ [x] = pre ++ y :: post ->
  (pre = l /\ y = x /\ post = []) \/
  (exists post', post = post' ++ [x] /\ l = pre ++ y :: post').
Proof.
  intros H. destruct (decide (post = [])) as [->|Hne].
  - left. apply app_inj_tail in H as [-> ->]. auto.
  - right. destruct (exists_last Hne) as (post' & z & ->).
    rewrite app_comm_cons, app_assoc in H.
    apply app_inj_tail in H as [-> ->]. eauto.
Qed.

Section Order.

Variable EXTRA_DECODE_PADDING : Z.
Variable FAUDIO_END_OF_STREAM : Z.
Variable FAUDIO_MAX_VOLUME_LEVEL : spec_float.
Variable FAudio_PlatformResample :
  nat -> list spec_float -> Z -> list spec_float -> Z -> list spec_float * Z.

(** *** What the passes leave alone *)

Lemma MixSubmix_layout p heap heap' :
  FAudio_INTERNAL_MixSubmix FAUDIO_MAX_VOLUME_LEVEL FAudio_PlatformResample
    p heap = Ok heap' ->
  same_layout heap heap'.
Proof.
  assert (Hend : forall h h', MixSubmix_end p h = Ok h' -> same_layout h h').
  { unfold MixSubmix_end, deref. intros h h' H.
    destruct (h !! p) as [[m|m]|] eqn:Hp; cbn [mbind res_bind as_submix] in H;
      try discriminate.
    inv_res. subst h'. apply same_layout_insert with (Submix m); [exact Hp|].
    simpl. apply store_length in Ha. rewrite Ha. reflexivity. }
  unfold FAudio_INTERNAL_MixSubmix, deref. intros H.
  destruct (heap !! p) as [[m|m]|] eqn:Hp; cbn [mbind res_bind as_submix] in H;
    try discriminate.
  destruct (SendCount (mix_common m) =? 0); [apply Hend, H|].
  destruct (FAudio_PlatformResample _ _ _ _ _) as [cache resampled].
  inv_res.
  eapply same_layout_trans;
    [exact (same_layout_insert heap p (Submix m)
              (Submix (set_outputResampleCache m a0)) Hp eq_refl)|].
  eapply same_layout_trans; [eapply MixSubmix_sends_layout, Ha1|].
  apply Hend, H.
Qed.

Lemma MixSource_sends_layout voice mixed heap heap' :
  MixSource_sends FAUDIO_MAX_VOLUME_LEVEL voice mixed heap = Ok heap' ->
  same_layout heap heap'.
Proof.
  unfold MixSource_sends. intros H.
  eapply (for_loop_invariant (same_layout heap));
    [|exact H|apply same_layout_refl].
  clear H. intros i h1 h1' H Hacc. cbv beta in H. inv_res.
  eapply (for_loop_invariant (same_layout heap)); [|exact H|exact Hacc].
  clear. intros j h2 h2' H Hacc. cbv beta in H.
  eapply (for_loop_invariant (same_layout heap)); [|exact H|exact Hacc].
  clear. intros co h3 h3' H Hacc. cbv beta in H.
  eapply (for_loop_invariant (same_layout heap)); [|exact H|exact Hacc].
  clear. intros ci h4 h4' H Hacc. cbv beta in H. inv_res.
  eapply same_layout_trans; [exact Hacc|]. eapply accumulate_layout, H.
Qed.

Lemma DecodeBuffers_round_active toDecode buffer next st st' :
  DecodeBuffers_round FAUDIO_END_OF_STREAM toDecode buffer next st = Ok st' ->
  src_active (dl_voice st') = src_active (dl_voice st).
Proof.
  unfold DecodeBuffers_round. intros H. inv_res.
  destruct (_ <? _) in H; [|inv_res; subst st'; reflexivity].
  destruct (LoopCount buffer >? 0); [inv_res; subst st'; reflexivity|].
  destruct next; inv_res; subst st'; reflexivity.
Qed.

Lemma DecodeBuffers_loop_active fuel : forall toDecode st st',
  DecodeBuffers_loop FAUDIO_END_OF_STREAM fuel toDecode st = Ok st' ->
  src_active (dl_voice st') = src_active (dl_voice st).
Proof.
  induction fuel as [|fuel IH]; intros toDecode st st' H;
    cbn [DecodeBuffers_loop] in H;
    destruct (src_bufferList (dl_voice st)) as [|buffer next];
    try (inv_res; subst st'; reflexivity);
    destruct (dl_decoded st <? toDecode);
    try (inv_res; subst st'; reflexivity).
  inv_res. apply IH in H. apply DecodeBuffers_round_active in Ha. congruence.
Qed.

Lemma MixSource_round_active fuel st st' :
  MixSource_round EXTRA_DECODE_PADDING FAUDIO_END_OF_STREAM fuel st = Ok st' ->
  src_active (ml_voice st') = src_active (ml_voice st).
Proof.
  unfold MixSource_round. intros H. inv_res.
  destruct a as [[[v1 td] ro] evs]. inv_res.
  destruct a0 as [[v2 tr2] rc2]. inv_res. subst st'. cbn [ml_voice].
  assert (H1 : src_active v1 = src_active (ml_voice st)).
  { match goal with
    | Hd : FAudio_INTERNAL_DecodeBuffers _ _ _ _ _ = Ok _ |- _ =>
        unfold FAudio_INTERNAL_DecodeBuffers in Hd; inv_res
    end.
    match goal with
    | Hl : DecodeBuffers_loop _ _ _ _ = Ok _ |- _ =>
        apply DecodeBuffers_loop_active in Hl; cbn [dl_voice] in Hl
    end.
    congruence. }
  assert (H2 : src_active v2 = src_active v1).
  { match goal with
    | Hr : (if _ then _ else _) = Ok (v2, _, _) |- _ =>
        destruct (src_resampleStep v1 =? FIXED_ONE); inv_res; subst
    end.
    - match goal with
      | Hc : MixSource_convert _ _ _ = Ok _ |- _ =>
          unfold MixSource_convert in Hc;
          destruct (_ <? _) in Hc; inv_res; subst; reflexivity
      end.
    - match goal with
      | Hc : FAudio_INTERNAL_ResamplePCM _ _ _ = Ok _ |- _ =>
          unfold FAudio_INTERNAL_ResamplePCM in Hc;
          destruct (_ <? _) in Hc; inv_res; subst; reflexivity
      end. }
  destruct (src_bufferList v2); cbn [set_decode_state src_active]; congruence.
Qed.

Lemma MixSource_loop_active fuel : forall st st',
  MixSource_loop EXTRA_DECODE_PADDING FAUDIO_END_OF_STREAM fuel st = Ok st' ->
  src_active (ml_voice st') = src_active (ml_voice st).
Proof.
  induction fuel as [|fuel IH]; intros st st' H; cbn [MixSource_loop] in H;
    destruct (src_bufferList (ml_voice st)) as [|buffer next];
    try (inv_res; subst st'; reflexivity);
    destruct (ml_mixed st <? src_outputSamples (ml_voice st));
    try (inv_res; subst st'; reflexivity).
  inv_res. apply IH in H. apply MixSource_round_active in Ha. congruence.
Qed.

(** A source pass writes streams and its own voice, and leaves the
    voice's [active] flag as it was. *)
Lemma MixSource_leaves fuel master heap voice heap' voice' tr :
  FAudio_INTERNAL_MixSource EXTRA_DECODE_PADDING FAUDIO_END_OF_STREAM
    FAUDIO_MAX_VOLUME_LEVEL fuel master heap voice = Ok (heap', voice', tr) ->
  same_layout heap heap' /\ src_active voice' = src_active voice.
Proof.
  unfold FAudio_INTERNAL_MixSource. intros H. inv_res. rename a into v1.
  assert (H1 : src_active v1 = src_active voice).
  { unfold MixSource_step in Ha. destruct (negb _); inv_res; subst;
      reflexivity. }
  destruct (src_bufferList v1).
  - inv_res. subst. split; [apply same_layout_refl|exact H1].
  - inv_res. rename a into st. apply MixSource_loop_active in Ha0.
    cbn [ml_voice] in Ha0.
    destruct (ml_mixed st =? 0);
      [inv_res; subst; split; [apply same_layout_refl|congruence]|].
    destruct (SendCount _ =? 0);
      [inv_res; subst; split; [apply same_layout_refl|congruence]|].
    inv_res. subst. split; [|congruence].
    eapply MixSource_sends_layout, Ha1.
Qed.

(** *** The two phases *)

Section Update.

Variable h0 : voices.
Variable srcs : list FAudioSourceVoice.
Variable subs : list nat.

Abbreviation stages_kept := (stages_kept h0).
Abbreviation flags_kept := (flags_kept srcs).
Abbreviation sources_phase := (sources_phase h0 srcs).
Abbreviation stage_round := (stage_round h0 srcs subs).
Abbreviation stages_phase := (stages_phase h0 srcs subs).

Lemma UpdateEngine_source_step fuel master done i st st' :
  UpdateEngine_source EXTRA_DECODE_PADDING FAUDIO_END_OF_STREAM
    FAUDIO_MAX_VOLUME_LEVEL fuel master i st = Ok st' ->
  sources_phase done st -> sources_phase (done ++ [i]) st'.
Proof.
  unfold UpdateEngine_source, sources_phase, stages_kept, flags_kept.
  intros H (Hst & Hfl & Hsrc & Hdone).
  destruct (up_sources st !! i) as [voice|] eqn:Hi; [|discriminate].
  assert (Hflag : forall v, srcs !! i = Some v -> src_active v = src_active voice).
  { intros v Hv. specialize (Hfl i). rewrite Hi, Hv in Hfl. simpl in Hfl.
    congruence. }
  destruct (src_active voice) eqn:Hact.
  - inv_res. destruct a as [[heap' voice'] evs]. inv_res. subst st'.
    apply MixSource_leaves in Ha as [Hlay Hact'].
    repeat split; cbn [up_heap up_sources up_calls].
    + intros q. rewrite (same_layout_stage _ _ q Hlay). apply Hst.
    + intros j. destruct (decide (i = j)) as [<-|Hne].
      * rewrite list_lookup_insert_eq by (eapply lookup_lt_Some, Hi).
        rewrite <- Hfl, Hi. simpl. congruence.
      * rewrite list_lookup_insert_ne by exact Hne. apply Hfl.
    + intros c Hc. apply elem_of_app in Hc as [Hc|Hc]; [auto|].
      apply list_elem_of_singleton in Hc. eauto.
    + intros j v Hj Hv Hav. apply elem_of_app.
      apply elem_of_app in Hj as [Hj|Hj]; [left; eauto|].
      apply list_elem_of_singleton in Hj. subst j. right. left.
  - inv_res. subst st'. repeat split; auto.
    intros j v Hj Hv Hav.
    apply elem_of_app in Hj as [Hj|Hj]; [eauto|].
    apply list_elem_of_singleton in Hj. subst j.
    rewrite (Hflag v Hv) in Hav. discriminate.
Qed.

Lemma ordered_upto_snoc i calls p :
  0 <= i -> stage_of h0 p = Some i ->
  sources_done srcs calls -> lower_done h0 subs i calls ->
  ordered_upto h0 srcs subs i calls ->
  ordered_upto h0 srcs subs i (calls ++ [Call_MixSubmix p]).
Proof.
  intros H0 Hp Hsrc Hlow Hord pre q post Hsplit.
  apply snoc_split in Hsplit as [(-> & Hq & ->)|(post' & -> & Hold)].
  - injection Hq as ->. exists i. repeat split; auto; try lia.
    intros c Hc. by apply elem_of_nil in Hc.
  - destruct (Hord pre q post' Hold) as (k & Hk & Hrange & Hs & Hl & Hlater).
    exists k. repeat split; auto; try lia.
    intros c Hc. apply elem_of_app in Hc as [Hc|Hc]; [auto|].
    apply list_elem_of_singleton in Hc. subst c.
    exists p, i. repeat split; auto. lia.
Qed.

Lemma UpdateEngine_submix_step i done q st st' :
  0 <= i ->
  UpdateEngine_submix FAUDIO_MAX_VOLUME_LEVEL FAudio_PlatformResample
    i q st = Ok st' ->
  stage_round i done st -> stage_round i (done ++ [q]) st'.
Proof.
  unfold UpdateEngine_submix, deref, stage_round, stages_kept.
  intros H0 H (Hst & Hsrc & Hlow & Hord & Hdone).
  destruct (up_heap st !! q) as [[m|m]|] eqn:Hq;
    cbn [mbind res_bind as_submix] in H; try discriminate.
  assert (Hstage : stage_of h0 q = Some (mix_processingStage m)).
  { rewrite <- Hst. unfold stage_of. rewrite Hq. reflexivity. }
  destruct (mix_processingStage m =? i) eqn:Hi.
  - assert (mix_processingStage m = i) as Hmi by lia. rewrite Hmi in Hstage.
    inv_res. subst st'. apply MixSubmix_layout in Ha.
    repeat split; cbn [up_heap up_calls].
    + intros r. rewrite (same_layout_stage _ _ r Ha). apply Hst.
    + intros j v Hj Hv. apply elem_of_app. left. eauto.
    + intros r j Hr Hrs Hj. apply elem_of_app. left. eauto.
    + apply ordered_upto_snoc; assumption.
    + intros r Hr Hrs. apply elem_of_app.
      apply elem_of_app in Hr as [Hr|Hr]; [left; auto|].
      apply list_elem_of_singleton in Hr. subst r. right. left.
  - inv_res. subst st'. repeat split; auto.
    intros r Hr Hrs. apply elem_of_app in Hr as [Hr|Hr]; [auto|].
    apply list_elem_of_singleton in Hr. subst r.
    rewrite Hstage in Hrs. injection Hrs as Hrs. lia.
Qed.

Lemma UpdateEngine_stage_step i st st' :
  foldM (UpdateEngine_submix FAUDIO_MAX_VOLUME_LEVEL FAudio_PlatformResample i)
        subs st = Ok st' ->
  stages_phase i st -> stages_phase (i + 1) st'.
Proof.
  intros H (H0 & Hst & Hsrc & Hlow & Hord).
  assert (Hstart : stage_round i [] st).
  { repeat split; auto.
    - intros pre p post Hsplit.
      destruct (Hord pre p post Hsplit) as (k & Hk & Hr & Hrest).
      exists k. repeat split; try tauto; lia.
    - intros q Hq. by apply elem_of_nil in Hq. }
  destruct (foldM_invariant (stage_round i)
              (UpdateEngine_submix FAUDIO_MAX_VOLUME_LEVEL
                 FAudio_PlatformResample i)
              (fun done q s s' Hs => UpdateEngine_submix_step i done q s s' H0 Hs)
              subs [] st st' H Hstart)
    as (Hst' & Hsrc' & Hlow' & Hord' & Hdone').
  repeat split; auto; try lia.
  - intros q j Hq Hqs Hj. destruct (decide (j = i)) as [->|Hne].
    + apply Hdone'; auto.
    + apply (Hlow' q j); auto. lia.
  - replace (i + 1 - 1) with i by lia. exact Hord'.
Qed.

End Update.

(** The order of an update. Wherever the update calls the submix pass
    for a voice [p], of stage [k]: every active source voice has had its
    pass by then, and so has every listed submix voice of a stage below
    [k]; everything mixed afterwards is a submix voice of stage [k] or
    above. The stages are those the update found; no pass changes them. *)
Theorem stage_order fuel audio output st pre p post k :
  FAudio_INTERNAL_UpdateEngine EXTRA_DECODE_PADDING FAUDIO_END_OF_STREAM
    FAUDIO_MAX_VOLUME_LEVEL FAudio_PlatformResample fuel audio output =
    Ok st ->
  up_calls st = pre ++ Call_MixSubmix p :: post ->
  stage_of (heap audio) p = Some k ->
  sources_done (sources audio) pre /\
  lower_done (heap audio) (submixes audio) k pre /\
  later_ok (heap audio) k post.
Proof.
  unfold FAudio_INTERNAL_UpdateEngine. intros H Hsplit Hk.
  destruct (active audio);
    [|inv_res; subst st; destruct pre; discriminate Hsplit].
  inv_res. rename a into m0, a0 into heap1, a1 into st1, a2 into st2.
  subst st. cbn [up_calls] in Hsplit.
  (* binding the master's block keeps the stages *)
  assert (Hbind : forall q, stage_of heap1 q = stage_of (heap audio) q).
  { unfold deref in Ha. destruct (heap audio !! master audio) as [v|] eqn:Hm;
      [|discriminate]. inv_res. subst m0.
    destruct v as [m|m]; inv_res. subst heap1. intros q. unfold stage_of.
    destruct (decide (master audio = q)) as [<-|Hne].
    - rewrite lookup_insert_eq, Hm. reflexivity.
    - rewrite lookup_insert_ne by exact Hne. reflexivity. }
  (* the sources *)
  assert (Hsources : sources_phase (heap audio) (sources audio)
                       (seq 0 (length (sources audio))) st1).
  { apply (foldM_invariant
             (sources_phase (heap audio) (sources audio))
             (UpdateEngine_source EXTRA_DECODE_PADDING FAUDIO_END_OF_STREAM
                FAUDIO_MAX_VOLUME_LEVEL fuel (master audio))
             (fun done i s s' => UpdateEngine_source_step (heap audio)
                                   (sources audio) fuel (master audio)
                                   done i s s')
             _ [] _ _ Ha1).
    repeat split; cbn [up_heap up_sources up_calls]; auto.
    - intros c Hc. by apply elem_of_nil in Hc.
    - intros i v Hi. by apply elem_of_nil in Hi. }
  destruct Hsources as (Hst1 & _ & Honly & Hdone).
  (* the stages *)
  assert (Hstages : stages_phase (heap audio) (sources audio) (submixes audio)
                      (0 + Z.of_nat (Z.to_nat (submixStages audio))) st2).
  { apply (for_from_steps
             (stages_phase (heap audio) (sources audio) (submixes audio))
             (fun i s => foldM (UpdateEngine_submix FAUDIO_MAX_VOLUME_LEVEL
                                  FAudio_PlatformResample i)
                               (submixes audio) s)
             (fun i s s' => UpdateEngine_stage_step (heap audio)
                              (sources audio) (submixes audio) i s s')
             _ _ _ _ Ha2).
    repeat split; auto; try lia.
    - intros i v Hv Hact. apply (Hdone i v); auto.
      apply elem_of_seq. apply lookup_lt_Some in Hv. lia.
    - intros q j _ _ Hj. lia.
    - intros pre' q post' Hsp. exfalso.
      destruct (Honly (Call_MixSubmix q)) as (i & Hi); [|discriminate Hi].
      rewrite Hsp. apply elem_of_app. right. left. }
  destruct Hstages as (_ & _ & _ & _ & Hord).
  destruct (Hord pre p post Hsplit) as (k' & Hk' & _ & Hs & Hl & Hlater).
  assert (k' = k) as -> by congruence. auto.
Qed.

End Order.

(** Listed in the order 1, 2, the voice of stage 0, at address 2, is still
    mixed before the voice of stage 1, at address 1. *)
Lemma stage_order_witness :
  calls_of (FAudio_INTERNAL_UpdateEngine 2 64 max_volume_2_24 copy_resampler
              40 sample_engine [F32.zero; F32.zero]) =
    Some [Call_MixSubmix 2; Call_MixSubmix 1] /\
  lower_done (heap sample_engine) (submixes sample_engine) 1
    [Call_MixSubmix 2].
Proof.
  assert (Hcalls : calls_of (FAudio_INTERNAL_UpdateEngine 2 64 max_volume_2_24
                     copy_resampler 40 sample_engine [F32.zero; F32.zero]) =
                   Some [Call_MixSubmix 2; Call_MixSubmix 1])
    by (vm_compute; reflexivity).
  split; [exact Hcalls|].
  destruct (FAudio_INTERNAL_UpdateEngine 2 64 max_volume_2_24 copy_resampler
              40 sample_engine [F32.zero; F32.zero]) as [st| |] eqn:Hrun;
    try discriminate Hcalls.
  injection Hcalls as Hcalls.
  apply (stage_order 2 64 max_volume_2_24 copy_resampler 40 sample_engine
           [F32.zero; F32.zero] st [Call_MixSubmix 2] 1%nat [] 1 Hrun Hcalls).
  vm_compute. reflexivity.
Defined.

(** The data follows the order. In [sample_engine] voice 2, of stage 0,
    feeds voice 1, of stage 1, which feeds the master: the block holds the
    frames of both, 0.5 + 0.5 and 0.25 + 0.25. With the stage tags
    exchanged voice 1 is mixed first and the frames of voice 2 miss the
    block. *)
Lemma stage_order_data_flow :
  block_of (FAudio_INTERNAL_UpdateEngine 2 64 max_volume_2_24 copy_resampler
              40 sample_engine [F32.zero; F32.zero]) =
    Some [F32.of_Z 1; F32.of_pow2 1 (-1)] /\
  block_of (FAudio_INTERNAL_UpdateEngine 2 64 max_volume_2_24 copy_resampler
              40 swapped_engine [F32.zero; F32.zero]) =
    Some [F32.of_pow2 1 (-1); F32.of_pow2 1 (-2)].
Proof. split; vm_compute; reflexivity. Qed.

(** ** The send loops in closed form *)

Lemma set_stream_id o : set_stream o (stream_of o) = o.
Proof. destruct o as [[]|[]]; reflexivity. Qed.

Lemma oChan_of_set_stream o s : oChan_of (set_stream o s) = oChan_of o.
Proof. destruct o; reflexivity. Qed.

Lemma add_terms_cons max x t ts :
  add_terms max (t :: ts) x =
  add_terms max ts (F32.clamp (F32.add x t) (SFopp max) max).
Proof. reflexivity. Qed.

(** Where a value is in a stream of frames of [C] values. *)
Lemma frame_of_index C n k :
  0 <= n -> 0 <= C -> 0 <= k < n * C ->
  0 <= k / C < n /\ 0 <= k mod C < C.
Proof.
  intros Hn HC Hk. assert (0 < C) by nia. split.
  - split; [apply Z.div_pos; lia|]. apply Z.div_lt_upper_bound; lia.
  - apply Z.mod_pos_bound. lia.
Qed.

Lemma index_of_frame C j co :
  0 <= j -> 0 <= co < C ->
  (j * C + co) / C = j /\ (j * C + co) mod C = co.
Proof.
  intros Hj Hco. split; symmetry.
  - apply Z.div_unique with co; lia.
  - apply Z.mod_unique with j; lia.
Qed.

Section SendLoop.

Variable FAUDIO_MAX_VOLUME_LEVEL : spec_float.

(** The three inner loops of a send, over frames, destination channels and
    source channels, for any way [term] of computing the terms. *)
Variable term : Z -> Z -> Z -> res spec_float.
Variable t : Z -> Z -> Z -> spec_float.
Variable chans : Z.
Variable p : nat.
Variable n : Z.
Variable C : Z.

Hypothesis frames : 0 <= n.
Hypothesis channels : 0 <= C.
Hypothesis small : n * C < 2 ^ 32.
Hypothesis terms : forall j co ci,
  0 <= j < n -> 0 <= co < C -> 0 <= ci < chans ->
  term j co ci = Ok (t j co ci).

Abbreviation ts j co := (map (t j co) (seqZ 0 chans)).

(** The loop over the source channels, for one value of the stream. *)
Lemma send_loop_value j co idx m : forall ci y o h,
  0 <= j < n -> 0 <= co < C -> 0 <= idx ->
  0 <= ci -> ci + Z.of_nat m <= chans ->
  h !! p = Some o -> stream_of o !! Z.to_nat idx = Some y ->
  for_from ci m
    (fun ci h =>
       x ← term j co ci; accumulate FAUDIO_MAX_VOLUME_LEVEL h p idx x) h =
  Ok (<[p := set_stream o
          (<[Z.to_nat idx :=
               add_terms FAUDIO_MAX_VOLUME_LEVEL
                 (map (t j co) (seqZ ci (Z.of_nat m))) y]> (stream_of o))]> h).
Proof.
  induction m as [|m IH]; intros ci y o h Hj Hco Hidx Hci Hm Hp Hy.
  - cbn [for_from]. change (seqZ ci (Z.of_nat 0)) with (@nil Z).
    cbn [map add_terms fold_left].
    rewrite list_insert_id, set_stream_id, insert_id by assumption.
    reflexivity.
  - cbn [for_from]. rewrite terms by lia. cbn [mbind res_bind].
    rewrite (accumulate_Ok FAUDIO_MAX_VOLUME_LEVEL h p idx (t j co ci) o y)
      by assumption.
    cbn [mbind res_bind].
    erewrite IH; try lia.
    2: apply lookup_insert_eq.
    2: { rewrite stream_of_set_stream. apply list_lookup_insert_eq.
         eapply lookup_lt_Some, Hy. }
    rewrite insert_insert_eq, set_stream_set_stream, stream_of_set_stream,
      list_insert_insert_eq.
    rewrite (seqZ_cons ci (Z.of_nat (S m))) by lia.
    replace (Z.pred (Z.of_nat (S m))) with (Z.of_nat m) by lia.
    reflexivity.
Qed.

Variable heap : voices.
Variable out : FAudioVoice.

Hypothesis target : heap !! p = Some out.
Hypothesis room : n * C <= Z.of_nat (length (stream_of out)).
Hypothesis sources : 0 <= chans.

(** The voices after the first [k] values of the stream are done. *)
Abbreviation upto k :=
  (<[p := set_stream out
            (mix_into FAUDIO_MAX_VOLUME_LEVEL (fun j co => ts j co) C k
                      (stream_of out))]> heap).

Lemma mix_into_next k x :
  0 <= k -> stream_of out !! Z.to_nat k = Some x ->
  <[Z.to_nat k :=
      add_terms FAUDIO_MAX_VOLUME_LEVEL (ts (k / C) (k mod C)) x]>
    (mix_into FAUDIO_MAX_VOLUME_LEVEL (fun j co => ts j co) C k
       (stream_of out)) =
  mix_into FAUDIO_MAX_VOLUME_LEVEL (fun j co => ts j co) C (k + 1)
    (stream_of out).
Proof.
  intros Hk Hx. apply list_eq. intros i. unfold mix_into.
  rewrite list_lookup_insert, !list_lookup_imap, length_imap.
  destruct (decide (Z.to_nat k = i /\
                    (Z.to_nat k < length (stream_of out))%nat))
    as [[<- _]|Hne].
  - rewrite Hx. simpl. rewrite Z2Nat.id by lia.
    assert (Hlt : (k <? k + 1) = true) by lia. rewrite Hlt. reflexivity.
  - destruct (stream_of out !! i) as [y|] eqn:Hy; [|reflexivity]. simpl.
    assert (Hi : Z.to_nat k <> i).
    { intros <-. apply Hne. split; [reflexivity|].
      eapply lookup_lt_Some, Hy. }
    destruct (Z.of_nat i <? k) eqn:H1; destruct (Z.of_nat i <? k + 1) eqn:H2;
      try reflexivity; lia.
Qed.

Lemma mix_into_0 : upto 0 = heap.
Proof.
  assert (Hid : mix_into FAUDIO_MAX_VOLUME_LEVEL (fun j co => ts j co) C 0
                  (stream_of out) = stream_of out).
  { apply list_eq. intros i. unfold mix_into. rewrite list_lookup_imap.
    destruct (stream_of out !! i); [|reflexivity]. simpl.
    assert (Hf : (Z.of_nat i <? 0) = false) by (apply Z.ltb_ge; lia).
    rewrite Hf. reflexivity. }
  rewrite Hid, set_stream_id. apply insert_id, target.
Qed.

(** One value: the loop over the source channels at [(j, co)]. *)
Lemma send_loop_sources j co :
  0 <= j < n -> 0 <= co < C ->
  for_loop chans
    (fun ci h =>
       x ← term j co ci;
       accumulate FAUDIO_MAX_VOLUME_LEVEL h p (u32 (j * C + co)) x)
    (upto (j * C + co)) =
  Ok (upto (j * C + co + 1)).
Proof.
  intros Hj Hco. set (k := j * C + co).
  assert (Hk : 0 <= k < n * C) by (unfold k; nia).
  destruct (index_of_frame C j co) as [Hdiv Hmod]; [lia|lia|]. fold k in Hdiv, Hmod.
  rewrite (u32_small k) by lia.
  destruct (lookup_lt_is_Some_2 (stream_of out) (Z.to_nat k)) as [x Hx];
    [lia|].
  unfold for_loop.
  erewrite (send_loop_value j co k (Z.to_nat chans) 0 x); try lia.
  2: apply lookup_insert_eq.
  2: { rewrite stream_of_set_stream. unfold mix_into.
       rewrite list_lookup_imap, Hx. simpl.
       rewrite Z2Nat.id, Z.ltb_irrefl by (apply Hk). reflexivity. }
  rewrite insert_insert_eq, set_stream_set_stream, stream_of_set_stream.
  rewrite Z2Nat.id by lia.
  rewrite <- (mix_into_next k x) by (apply Hk || exact Hx).
  rewrite Hdiv, Hmod. reflexivity.
Qed.

(** One frame: the loop over the destination channels. *)
Lemma send_loop_channels j m : forall co,
  0 <= j < n -> 0 <= co -> co + Z.of_nat m <= C ->
  for_from co m
    (fun co h =>
       for_loop chans
         (fun ci h =>
            x ← term j co ci;
            accumulate FAUDIO_MAX_VOLUME_LEVEL h p (u32 (j * C + co)) x) h)
    (upto (j * C + co)) =
  Ok (upto (j * C + co + Z.of_nat m)).
Proof.
  induction m as [|m IH]; intros co Hj Hco Hm.
  - cbn [for_from]. rewrite Z.add_0_r. reflexivity.
  - cbn [for_from]. rewrite send_loop_sources by lia. cbn [mbind res_bind].
    replace (j * C + co + 1) with (j * C + (co + 1)) by lia.
    rewrite IH by lia. f_equal. f_equal. f_equal. f_equal. lia.
Qed.

(** The loop over the frames. *)
Lemma send_loop_frames m : forall j,
  0 <= j -> j + Z.of_nat m <= n ->
  for_from j m
    (fun j h =>
       for_loop C
         (fun co h =>
            for_loop chans
              (fun ci h =>
                 x ← term j co ci;
                 accumulate FAUDIO_MAX_VOLUME_LEVEL h p
                   (u32 (j * C + co)) x) h) h)
    (upto (j * C)) =
  Ok (upto ((j + Z.of_nat m) * C)).
Proof.
  induction m as [|m IH]; intros j Hj Hm.
  - cbn [for_from]. rewrite Z.add_0_r. reflexivity.
  - cbn [for_from].
    pose proof (send_loop_channels j (Z.to_nat C) 0) as Hc.
    rewrite Z.add_0_r in Hc.
    replace (j * C + Z.of_nat (Z.to_nat C)) with ((j + 1) * C) in Hc by lia.
    change (for_from 0 (Z.to_nat C) ?b ?s) with (for_loop C b s) in Hc.
    rewrite Hc by lia. cbn [mbind res_bind].
    rewrite IH by lia. f_equal. f_equal. f_equal. f_equal. lia.
Qed.

Lemma send_loop_closed :
  for_loop n
    (fun j h =>
       for_loop C
         (fun co h =>
            for_loop chans
              (fun ci h =>
                 x ← term j co ci;
                 accumulate FAUDIO_MAX_VOLUME_LEVEL h p
                   (u32 (j * C + co)) x) h) h) heap =
  Ok (upto (n * C)).
Proof.
  unfold for_loop at 1. rewrite <- mix_into_0 at 1.
  pose proof (send_loop_frames (Z.to_nat n) 0) as Hf.
  rewrite Z.mul_0_l in Hf. rewrite Hf by lia.
  f_equal. f_equal. f_equal. f_equal. lia.
Qed.

End SendLoop.

(** X1. The send loop of a source voice with one send, in closed form. Of
    the destination's stream the first [mixed * oChan] values take in, one
    source channel after the other and each sum cut to the ceiling, the
    terms [sample * channelVolume * volume * coefficient] of their frame and
    channel; the values behind them and every other voice stay as they
    were. *)
Theorem MixSource_sends_closed_form FAUDIO_MAX_VOLUME_LEVEL voice heap p
  flags out n t :
  sends (src_common voice) = [{| send_Flags := flags; pOutputVoice := p |}] ->
  heap !! p = Some out ->
  0 <= n -> 0 <= oChan_of out -> 0 <= nChannels (src_format voice) ->
  n * oChan_of out < 2 ^ 32 ->
  n * oChan_of out <= Z.of_nat (length (stream_of out)) ->
  (forall j co ci,
     0 <= j < n -> 0 <= co < oChan_of out ->
     0 <= ci < nChannels (src_format voice) ->
     MixSource_term voice 0 j co ci = Ok (t j co ci)) ->
  MixSource_sends FAUDIO_MAX_VOLUME_LEVEL voice n heap =
    Ok (<[p := set_stream out
                 (mix_into FAUDIO_MAX_VOLUME_LEVEL
                    (fun j co =>
                       map (t j co) (seqZ 0 (nChannels (src_format voice))))
                    (oChan_of out) (n * oChan_of out) (stream_of out))]>
          heap).
Proof.
  intros Hs Hp Hn HC Hch Hsmall Hroom Hterms.
  unfold MixSource_sends, SendCount. rewrite Hs.
  change (Z.of_nat (length [_])) with 1. rewrite for_loop_1.
  unfold load1. change (0 <=? 0) with true.
  change ([{| send_Flags := flags; pOutputVoice := p |}] !! Z.to_nat 0)
    with (Some {| send_Flags := flags; pOutputVoice := p |}).
  cbn [mbind res_bind pOutputVoice]. unfold deref. rewrite Hp.
  cbn [mbind res_bind].
  apply send_loop_closed; assumption.
Qed.

Lemma small_range j : 0 <= j < 2 -> j = 0 \/ j = 1.
Proof. lia. Qed.

(** [wide_voice] into a stereo block of three frames: two frames are
    mixed, the third is left alone. *)
Lemma MixSource_sends_closed_form_witness :
  mixed_stream 0
    (MixSource_sends max_volume_2_24 wide_voice 2
       {[ 0%nat := stereo_master 3 ]}) =
  Some [F32.of_pow2 3 (-2); F32.of_pow2 3 (-3);
        F32.of_pow2 3 (-4); F32.of_pow2 3 (-5); F32.zero; F32.zero].
Proof.
  rewrite (MixSource_sends_closed_form max_volume_2_24 wide_voice
             {[ 0%nat := stereo_master 3 ]} 0%nat 0 (stereo_master 3) 2
             (term_of wide_voice)).
  - vm_compute. reflexivity.
  - reflexivity.
  - vm_compute. reflexivity.
  - lia.
  - vm_compute. discriminate.
  - vm_compute. discriminate.
  - vm_compute. reflexivity.
  - vm_compute. discriminate.
  - intros j co ci Hj Hco Hci.
    destruct (small_range j Hj) as [-> | ->],
             (small_range co Hco) as [-> | ->],
             (small_range ci Hci) as [-> | ->];
      vm_compute; reflexivity.
Defined.

Lemma mix_into_twice max ta tb f C k s :
  (forall i x, s !! i = Some x -> Z.of_nat i < k ->
     add_terms max (tb (Z.of_nat i / C) (Z.of_nat i mod C))
       (add_terms max (ta (Z.of_nat i / C) (Z.of_nat i mod C)) x) =
     f (Z.of_nat i / C) (Z.of_nat i mod C)) ->
  mix_into max tb C k (mix_into max ta C k s) = fill_upto f C k s.
Proof.
  intros H. apply list_eq. intros i. unfold mix_into, fill_upto.
  rewrite !list_lookup_imap.
  destruct (s !! i) as [x|] eqn:Hx; [|reflexivity]. simpl.
  destruct (Z.of_nat i <? k) eqn:Hk; [|reflexivity].
  f_equal. apply (H i x Hx). lia.
Qed.

(** X2. Two mono voices with one send each, into the same destination of
    any number of channels, mixing [n] frames into values that start at
    zero: when no term alone passes the ceiling, every value of the block
    is the clamped sum of the two terms that reach it, whichever voice is
    mixed first, and the values behind the block are left alone. *)
Theorem mono_sends_commute FAUDIO_MAX_VOLUME_LEVEL v1 v2 heap p flags1 flags2
  out n t1 t2 :
  let ceiling x :=
    F32.clamp x (SFopp FAUDIO_MAX_VOLUME_LEVEL) FAUDIO_MAX_VOLUME_LEVEL in
  sends (src_common v1) = [{| send_Flags := flags1; pOutputVoice := p |}] ->
  sends (src_common v2) = [{| send_Flags := flags2; pOutputVoice := p |}] ->
  nChannels (src_format v1) = 1 -> nChannels (src_format v2) = 1 ->
  heap !! p = Some out ->
  0 <= n -> 0 <= oChan_of out ->
  n * oChan_of out < 2 ^ 32 ->
  n * oChan_of out <= Z.of_nat (length (stream_of out)) ->
  (forall i x, stream_of out !! i = Some x ->
     Z.of_nat i < n * oChan_of out -> x = F32.zero) ->
  (forall j co, 0 <= j < n -> 0 <= co < oChan_of out ->
     MixSource_term v1 0 j co 0 = Ok (t1 j co) /\
     MixSource_term v2 0 j co 0 = Ok (t2 j co) /\
     ceiling (F32.add F32.zero (t1 j co)) = F32.add F32.zero (t1 j co) /\
     ceiling (F32.add F32.zero (t2 j co)) = F32.add F32.zero (t2 j co)) ->
  let mixed j co :=
    ceiling (F32.add (F32.add F32.zero (t1 j co)) (t2 j co)) in
  let heap' :=
    <[p := set_stream out
             (fill_upto mixed (oChan_of out) (n * oChan_of out)
                (stream_of out))]> heap in
  MixSource_sends FAUDIO_MAX_VOLUME_LEVEL v1 n heap ≫=
    MixSource_sends FAUDIO_MAX_VOLUME_LEVEL v2 n = Ok heap' /\
  MixSource_sends FAUDIO_MAX_VOLUME_LEVEL v2 n heap ≫=
    MixSource_sends FAUDIO_MAX_VOLUME_LEVEL v1 n = Ok heap' /\
  (forall j co,
     t1 j co <> S754_zero true \/ t2 j co <> S754_zero true ->
     mixed j co = ceiling (F32.add (t1 j co) (t2 j co))).
Proof.
  intros ceiling Hs1 Hs2 Hch1 Hch2 Hp Hn HC Hsmall Hroom Hzero Hterms
    mixed heap'.
  set (C := oChan_of out) in *.
  assert (Hpass : forall va vb fa fb ta tb,
    sends (src_common va) = [{| send_Flags := fa; pOutputVoice := p |}] ->
    sends (src_common vb) = [{| send_Flags := fb; pOutputVoice := p |}] ->
    nChannels (src_format va) = 1 -> nChannels (src_format vb) = 1 ->
    (forall j co, 0 <= j < n -> 0 <= co < C ->
       MixSource_term va 0 j co 0 = Ok (ta j co)) ->
    (forall j co, 0 <= j < n -> 0 <= co < C ->
       MixSource_term vb 0 j co 0 = Ok (tb j co)) ->
    MixSource_sends FAUDIO_MAX_VOLUME_LEVEL va n heap ≫=
      MixSource_sends FAUDIO_MAX_VOLUME_LEVEL vb n =
    Ok (<[p := set_stream out
                 (mix_into FAUDIO_MAX_VOLUME_LEVEL (fun j co => [tb j co]) C
                    (n * C)
                    (mix_into FAUDIO_MAX_VOLUME_LEVEL (fun j co => [ta j co])
                       C (n * C) (stream_of out)))]> heap)).
  { intros va vb fa fb ta tb Hsa Hsb Hcha Hchb Hta Htb.
    rewrite (MixSource_sends_closed_form FAUDIO_MAX_VOLUME_LEVEL va heap p fa
               out n (fun j co _ => ta j co)); try assumption.
    2: rewrite Hcha; lia.
    2: { intros j co ci Hj Hco Hci. rewrite Hcha in Hci.
         assert (ci = 0) as -> by lia. apply Hta; assumption. }
    cbn [mbind res_bind]. rewrite Hcha. fold C.
    change (seqZ 0 1) with [0]. cbn [map].
    rewrite (MixSource_sends_closed_form FAUDIO_MAX_VOLUME_LEVEL vb _ p fb
               (set_stream out
                  (mix_into FAUDIO_MAX_VOLUME_LEVEL (fun j co => [ta j co])
                     C (n * C) (stream_of out)))
               n (fun j co _ => tb j co)); try assumption.
    - rewrite insert_insert_eq, set_stream_set_stream, stream_of_set_stream,
        oChan_of_set_stream, Hchb. fold C.
      change (seqZ 0 1) with [0]. reflexivity.
    - apply lookup_insert_eq.
    - rewrite oChan_of_set_stream. exact HC.
    - rewrite Hchb. lia.
    - rewrite oChan_of_set_stream. exact Hsmall.
    - rewrite oChan_of_set_stream, stream_of_set_stream.
      unfold mix_into. rewrite length_imap. exact Hroom.
    - intros j co ci Hj Hco Hci. rewrite Hchb in Hci.
      rewrite oChan_of_set_stream in Hco.
      assert (ci = 0) as -> by lia. apply Htb; assumption. }
  assert (Hin : forall i x, stream_of out !! i = Some x ->
            Z.of_nat i < n * C ->
            x = F32.zero /\
            0 <= Z.of_nat i / C < n /\ 0 <= Z.of_nat i mod C < C).
  { intros i x Hx Hi. split; [exact (Hzero i x Hx Hi)|].
    apply frame_of_index; lia. }
  split; [|split].
  - rewrite (Hpass v1 v2 flags1 flags2 t1 t2); try assumption;
      try (intros j co Hj Hco; apply (Hterms j co Hj Hco)).
    unfold heap'. f_equal. f_equal. f_equal.
    apply mix_into_twice. intros i x Hx Hi.
    destruct (Hin i x Hx Hi) as (-> & Hj & Hco).
    destruct (Hterms _ _ Hj Hco) as (_ & _ & Hfit & _).
    cbn [add_terms fold_left]. fold (ceiling (F32.add F32.zero
      (t1 (Z.of_nat i / C) (Z.of_nat i mod C)))). rewrite Hfit. reflexivity.
  - rewrite (Hpass v2 v1 flags2 flags1 t2 t1); try assumption;
      try (intros j co Hj Hco; apply (Hterms j co Hj Hco)).
    unfold heap'. f_equal. f_equal. f_equal.
    apply mix_into_twice. intros i x Hx Hi.
    destruct (Hin i x Hx Hi) as (-> & Hj & Hco).
    destruct (Hterms _ _ Hj Hco) as (_ & _ & _ & Hfit).
    cbn [add_terms fold_left]. fold (ceiling (F32.add F32.zero
      (t2 (Z.of_nat i / C) (Z.of_nat i mod C)))). rewrite Hfit.
    unfold mixed, ceiling. rewrite F32_sum_from_zero. reflexivity.
  - intros j co Hnz. unfold mixed.
    rewrite F32_sum_from_zero_is_sum by exact Hnz. reflexivity.
Qed.

(** Frames (0.5, 0.25) and (0.25, 0.125) into a stereo block of three
    frames, in either order. *)
Lemma mono_sends_commute_witness :
  let heap : voices := {[ 0%nat := stereo_master 3 ]} in
  let v1 := narrow_voice (F32.of_pow2 1 (-1)) (F32.of_pow2 1 (-2)) in
  let v2 := narrow_voice (F32.of_pow2 1 (-2)) (F32.of_pow2 1 (-3)) in
  let block :=
    [F32.of_pow2 3 (-2); F32.of_pow2 3 (-3);
     F32.of_pow2 3 (-3); F32.of_pow2 3 (-4); F32.zero; F32.zero] in
  mixed_stream 0 (MixSource_sends max_volume_2_24 v1 2 heap ≫=
                  MixSource_sends max_volume_2_24 v2 2) = Some block /\
  mixed_stream 0 (MixSource_sends max_volume_2_24 v2 2 heap ≫=
                  MixSource_sends max_volume_2_24 v1 2) = Some block.
Proof.
  intros heap v1 v2 block.
  assert (H := mono_sends_commute max_volume_2_24 v1 v2 heap 0%nat 0 0
                 (stereo_master 3) 2
                 (fun j co => term_of v1 j co 0)
                 (fun j co => term_of v2 j co 0)).
  cbv zeta in H.
  destruct H as (H12 & H21 & _).
  - reflexivity.
  - reflexivity.
  - reflexivity.
  - reflexivity.
  - vm_compute. reflexivity.
  - lia.
  - vm_compute. discriminate.
  - vm_compute. reflexivity.
  - vm_compute. discriminate.
  - intros i x Hx _.
    change (stream_of (stereo_master 3)) with (replicate 6 F32.zero) in Hx.
    apply lookup_replicate in Hx. apply Hx.
  - intros j co Hj Hco.
    destruct (small_range j Hj) as [-> | ->],
             (small_range co Hco) as [-> | ->];
      repeat split; vm_compute; reflexivity.
  - rewrite H12, H21. split; vm_compute; reflexivity.
Defined.

(** ** The MSADPCM decoder *)

Lemma s16_range z : int16 (s16 z).
Proof.
  unfold int16, s16.
  pose proof (Z.mod_pos_bound (z + 2 ^ 15) (2 ^ 16) ltac:(lia)). lia.
Qed.

Lemma s16_int16 z : int16 z -> s16 z = z.
Proof.
  unfold int16, s16. intros H.
  rewrite Z.mod_small by lia. lia.
Qed.

Lemma clamp_range v lo hi : lo <= hi -> lo <= FAudio_clamp v lo hi <= hi.
Proof.
  intros H. unfold FAudio_clamp.
  destruct (v >? hi) eqn:H1; [lia|].
  destruct (v <? lo) eqn:H2; lia.
Qed.

(** X3. One MSADPCM nibble. For a nibble below 16 and a predictor index
    below 7 the step succeeds whatever the state: the sample it returns is
    an [int16_t] value, it becomes [sample1] while the old [sample1] moves
    to [sample2], and the new [delta] lies between 16 and 32767. With a
    predictor index of 7 or more the coefficient tables are overrun. *)
Theorem ParseNibble_step nibble predictor st :
  0 <= nibble < 16 ->
  (0 <= predictor < 7 ->
   exists sample st',
     Decoders.FAudio_INTERNAL_ParseNibble nibble predictor st =
       Ok (sample, st') /\
     int16 sample /\
     Decoders.sample1 st' = sample /\
     Decoders.sample2 st' = Decoders.sample1 st /\
     16 <= Decoders.delta st' <= 32767) /\
  (7 <= predictor ->
   Decoders.FAudio_INTERNAL_ParseNibble nibble predictor st = Fault).
Proof.
  intros Hn. split.
  - intros Hp. unfold Decoders.FAudio_INTERNAL_ParseNibble.
    destruct (load1_Ok Decoders.AdaptCoeff_1 predictor) as (c1 & -> & _);
      [exact Hp|].
    destruct (load1_Ok Decoders.AdaptCoeff_2 predictor) as (c2 & -> & _);
      [exact Hp|].
    destruct (load1_Ok Decoders.AdaptionTable nibble) as (a & -> & _);
      [exact Hn|].
    cbn [mbind res_bind]. eexists _, _. split; [reflexivity|].
    cbn [Decoders.sample1 Decoders.sample2 Decoders.delta].
    split; [apply clamp_range; lia|].
    split; [reflexivity|]. split; [reflexivity|].
    pose proof (s16_range (a * Decoders.delta st ÷ 256)) as Hd.
    unfold int16 in Hd.
    destruct (_ <? 16) eqn:Hlt; lia.
  - intros Hp. unfold Decoders.FAudio_INTERNAL_ParseNibble, load1.
    assert (H0 : (0 <=? predictor) = true) by lia. rewrite H0.
    assert (Hnone : Decoders.AdaptCoeff_1 !! Z.to_nat predictor = None).
    { apply lookup_ge_None. simpl. lia. }
    rewrite Hnone. reflexivity.
Qed.

(** Nibble 3 after the samples 100 and 50 at [delta] 16, predictor 1:
    (100 * 512 - 50 * 256) / 256 + 3 * 16 = 198. *)
Lemma ParseNibble_step_witness :
  exists sample st',
    Decoders.FAudio_INTERNAL_ParseNibble 3 1
      {| Decoders.delta := 16; Decoders.sample1 := 100;
         Decoders.sample2 := 50 |} = Ok (sample, st') /\
    int16 sample /\
    Decoders.sample1 st' = sample /\
    Decoders.sample2 st' = 100 /\
    16 <= Decoders.delta st' <= 32767.
Proof.
  destruct (ParseNibble_step 3 1
              {| Decoders.delta := 16; Decoders.sample1 := 100;
                 Decoders.sample2 := 50 |}) as [Hok _]; [lia|].
  apply Hok. lia.
Defined.

Lemma uint8_range b : 0 <= uint8_of b < 256.
Proof.
  unfold uint8_of. pose proof (Byte.to_N_bounded b). lia.
Qed.

Lemma high_nibble_range b : 0 <= Z.shiftr (uint8_of b) 4 < 16.
Proof.
  pose proof (uint8_range b). rewrite Z.shiftr_div_pow2 by lia.
  change (2 ^ 4) with 16. split.
  - apply Z.div_pos; lia.
  - apply Z.div_lt_upper_bound; lia.
Qed.

Lemma low_nibble_range b : 0 <= Z.land (uint8_of b) 15 < 16.
Proof.
  change 15 with (Z.ones 4). rewrite Z.land_ones by lia.
  apply Z.mod_pos_bound. lia.
Qed.

(** The nibble loops: two samples a byte. *)
Lemma mono_nibbles_shape predictor nibbles : forall st,
  0 <= predictor < 7 ->
  exists out,
    Decoders.mono_nibbles predictor nibbles st = Ok out /\
    length out = (2 * length nibbles)%nat /\ Forall int16 out.
Proof.
  induction nibbles as [|b rest IH]; intros st Hp.
  - exists []. repeat split. constructor.
  - cbn [Decoders.mono_nibbles].
    destruct (ParseNibble_step (Z.shiftr (uint8_of b) 4) predictor st
                (high_nibble_range b)) as [H1 _].
    destruct (H1 Hp) as (s1 & st1 & -> & Hs1 & _). cbn [mbind res_bind].
    destruct (ParseNibble_step (Z.land (uint8_of b) 15) predictor st1
                (low_nibble_range b)) as [H2 _].
    destruct (H2 Hp) as (s2 & st2 & -> & Hs2 & _). cbn [mbind res_bind].
    destruct (IH st2 Hp) as (out & -> & Hlen & Hall). cbn [mbind res_bind].
    eexists. split; [reflexivity|]. split.
    + cbn [length]. lia.
    + constructor; [exact Hs1|constructor; [exact Hs2|exact Hall]].
Qed.

Lemma stereo_nibbles_shape lp rp nibbles : forall l r,
  0 <= lp < 7 -> 0 <= rp < 7 ->
  exists out,
    Decoders.stereo_nibbles lp rp nibbles l r = Ok out /\
    length out = (2 * length nibbles)%nat /\ Forall int16 out.
Proof.
  induction nibbles as [|b rest IH]; intros l r Hl Hr.
  - exists []. repeat split. constructor.
  - cbn [Decoders.stereo_nibbles].
    destruct (ParseNibble_step (Z.shiftr (uint8_of b) 4) lp l
                (high_nibble_range b)) as [H1 _].
    destruct (H1 Hl) as (s1 & l1 & -> & Hs1 & _). cbn [mbind res_bind].
    destruct (ParseNibble_step (Z.land (uint8_of b) 15) rp r
                (low_nibble_range b)) as [H2 _].
    destruct (H2 Hr) as (s2 & r1 & -> & Hs2 & _). cbn [mbind res_bind].
    destruct (IH l1 r1 Hl Hr) as (out & -> & Hlen & Hall).
    cbn [mbind res_bind].
    eexists. split; [reflexivity|]. split.
    + cbn [length]. lia.
    + constructor; [exact Hs1|constructor; [exact Hs2|exact Hall]].
Qed.

Lemma int16_of_range lo hi : int16 (int16_of lo hi).
Proof. apply s16_range. Qed.

(** X4. One MSADPCM block. A block of [align + 22] bytes ([2 * (align +
    22)] in stereo) that lies within the data, with [align] at most 240
    and predictor indices below 7, decodes to [(align + 16) * 2] frames of
    [int16_t] values: as many bytes and frames as the seek arithmetic of
    the decoders counts for a block. *)
Theorem MSADPCM_block_shape data buf align :
  0 <= buf -> 0 <= align <= 240 ->
  (buf + (align + 22) <= Z.of_nat (length data) ->
   (forall b, data !! Z.to_nat buf = Some b -> uint8_of b < 7) ->
   exists block,
     Decoders.FAudio_INTERNAL_DecodeMonoMSADPCMBlock data buf align =
       Ok block /\
     Z.of_nat (length block) = (align + 16) * 2 /\ Forall int16 block) /\
  (buf + (align + 22) * 2 <= Z.of_nat (length data) ->
   (forall b, data !! Z.to_nat buf = Some b -> uint8_of b < 7) ->
   (forall b, data !! Z.to_nat (buf + 1) = Some b -> uint8_of b < 7) ->
   exists block,
     Decoders.FAudio_INTERNAL_DecodeStereoMSADPCMBlock data buf align =
       Ok block /\
     Z.of_nat (length block) = (align + 16) * 2 * 2 /\ Forall int16 block).
Proof.
  intros Hbuf Halign. split.
  - intros Hlen Hpred.
    unfold Decoders.FAudio_INTERNAL_DecodeMonoMSADPCMBlock.
    destruct (load data buf 7) as [pre| |] eqn:Hpre;
      try (rewrite load_Ok in Hpre by lia; discriminate).
    pose proof (load_length _ _ _ _ Hpre) as Hl.
    pose proof (load_lookup _ _ _ _ 0 Hpre ltac:(lia)) as H0.
    cbn [mbind res_bind].
    destruct pre as [|p pre]; [simpl in Hl; lia|].
    destruct pre as [|d0 pre]; [simpl in Hl; lia|].
    destruct pre as [|d1 pre]; [simpl in Hl; lia|].
    destruct pre as [|a0 pre]; [simpl in Hl; lia|].
    destruct pre as [|a1 pre]; [simpl in Hl; lia|].
    destruct pre as [|b0 pre]; [simpl in Hl; lia|].
    destruct pre as [|b1 pre]; [simpl in Hl; lia|].
    cbn [Decoders.FAudio_INTERNAL_ReadMonoPreamble mbind res_bind].
    assert (Hg : (align + 15 <=? 255) = true) by lia. rewrite Hg.
    cbn [guard_res mbind res_bind].
    rewrite load_Ok by lia. cbn [mbind res_bind].
    simpl in H0. rewrite Nat.add_0_r in H0. symmetry in H0.
    pose proof (Hpred p H0) as Hp. pose proof (uint8_range p).
    destruct (mono_nibbles_shape (uint8_of p)
                (take (Z.to_nat (align + 15)) (drop (Z.to_nat (buf + 7)) data))
                {| Decoders.delta := int16_of d0 d1;
                   Decoders.sample1 := int16_of a0 a1;
                   Decoders.sample2 := int16_of b0 b1 |})
      as (out & -> & Hout & Hall); [lia|].
    cbn [mbind res_bind Decoders.sample1 Decoders.sample2].
    eexists. split; [reflexivity|]. split.
    + cbn [length]. rewrite Hout, length_take, length_drop. lia.
    + repeat (constructor; [apply int16_of_range|]). exact Hall.
  - intros Hlen Hpl Hpr.
    unfold Decoders.FAudio_INTERNAL_DecodeStereoMSADPCMBlock.
    destruct (load data buf 14) as [pre| |] eqn:Hpre;
      try (rewrite load_Ok in Hpre by lia; discriminate).
    pose proof (load_length _ _ _ _ Hpre) as Hl.
    pose proof (load_lookup _ _ _ _ 0 Hpre ltac:(lia)) as H0.
    pose proof (load_lookup _ _ _ _ 1 Hpre ltac:(lia)) as H1.
    cbn [mbind res_bind].
    destruct pre as [|pl pre]; [simpl in Hl; lia|].
    destruct pre as [|pr pre]; [simpl in Hl; lia|].
    destruct pre as [|dl0 pre]; [simpl in Hl; lia|].
    destruct pre as [|dl1 pre]; [simpl in Hl; lia|].
    destruct pre as [|dr0 pre]; [simpl in Hl; lia|].
    destruct pre as [|dr1 pre]; [simpl in Hl; lia|].
    destruct pre as [|al0 pre]; [simpl in Hl; lia|].
    destruct pre as [|al1 pre]; [simpl in Hl; lia|].
    destruct pre as [|ar0 pre]; [simpl in Hl; lia|].
    destruct pre as [|ar1 pre]; [simpl in Hl; lia|].
    destruct pre as [|bl0 pre]; [simpl in Hl; lia|].
    destruct pre as [|bl1 pre]; [simpl in Hl; lia|].
    destruct pre as [|br0 pre]; [simpl in Hl; lia|].
    destruct pre as [|br1 pre]; [simpl in Hl; lia|].
    cbn [Decoders.FAudio_INTERNAL_ReadStereoPreamble mbind res_bind].
    assert (Hg : ((align + 15) * 2 <=? 510) = true) by lia. rewrite Hg.
    cbn [guard_res mbind res_bind].
    rewrite load_Ok by lia. cbn [mbind res_bind].
    simpl in H0, H1. rewrite Nat.add_0_r in H0. symmetry in H0, H1.
    replace (Z.to_nat buf + 1)%nat with (Z.to_nat (buf + 1)) in H1 by lia.
    pose proof (Hpl pl H0). pose proof (Hpr pr H1).
    pose proof (uint8_range pl). pose proof (uint8_range pr).
    destruct (stereo_nibbles_shape (uint8_of pl) (uint8_of pr)
                (take (Z.to_nat ((align + 15) * 2))
                      (drop (Z.to_nat (buf + 14)) data))
                {| Decoders.delta := int16_of dl0 dl1;
                   Decoders.sample1 := int16_of al0 al1;
                   Decoders.sample2 := int16_of bl0 bl1 |}
                {| Decoders.delta := int16_of dr0 dr1;
                   Decoders.sample1 := int16_of ar0 ar1;
                   Decoders.sample2 := int16_of br0 br1 |})
      as (out & -> & Hout & Hall); [lia|lia|].
    cbn [mbind res_bind Decoders.sample1 Decoders.sample2].
    eexists. split; [reflexivity|]. split.
    + cbn [length]. rewrite Hout, length_take, length_drop. lia.
    + repeat (constructor; [apply int16_of_range|]). exact Hall.
Qed.

(** A mono block of 22 bytes and a stereo block of 44 bytes, for
    [nBlockAlign = 0], hold 32 frames each. *)
Lemma MSADPCM_block_shape_witness :
  (exists block,
     Decoders.FAudio_INTERNAL_DecodeMonoMSADPCMBlock msadpcm_mono_block 0 0 =
       Ok block /\
     Z.of_nat (length block) = 32 /\ Forall int16 block) /\
  (exists block,
     Decoders.FAudio_INTERNAL_DecodeStereoMSADPCMBlock
       msadpcm_stereo_block 0 0 = Ok block /\
     Z.of_nat (length block) = 64 /\ Forall int16 block).
Proof.
  split.
  - destruct (MSADPCM_block_shape msadpcm_mono_block 0 0) as [Hmono _];
      [lia|lia|].
    apply Hmono.
    + vm_compute. discriminate.
    + intros b Hb. injection Hb as <-. vm_compute. reflexivity.
  - destruct (MSADPCM_block_shape msadpcm_stereo_block 0 0) as [_ Hstereo];
      [lia|lia|].
    apply Hstereo.
    + vm_compute. discriminate.
    + intros b Hb. injection Hb as <-. vm_compute. reflexivity.
    + intros b Hb. injection Hb as <-. vm_compute. reflexivity.
Defined.

(** *** The block loop *)

Lemma mono_blocks_loop data align bsize fuel : forall buf midOffset samples,
  Decoders.mono_blocks fuel data buf align bsize midOffset samples =
  block_loop
    (fun buf => Decoders.FAudio_INTERNAL_DecodeMonoMSADPCMBlock data buf align)
    (align + 22) 1 fuel buf bsize midOffset samples.
Proof.
  induction fuel as [|fuel IH]; intros buf mid samples;
    cbn [Decoders.mono_blocks block_loop]; [reflexivity|].
  destruct (samples >? 0); [|reflexivity].
  rewrite !Z.mul_1_r.
  destruct (Decoders.FAudio_INTERNAL_DecodeMonoMSADPCMBlock data buf align);
    cbn [mbind res_bind]; try reflexivity.
  destruct (load _ _ _); cbn [mbind res_bind]; try reflexivity.
  rewrite IH. reflexivity.
Qed.

Lemma stereo_blocks_loop data align bsize fuel : forall buf midOffset samples,
  Decoders.stereo_blocks fuel data buf align bsize midOffset samples =
  block_loop
    (fun buf =>
       Decoders.FAudio_INTERNAL_DecodeStereoMSADPCMBlock data buf align)
    ((align + 22) * 2) 2 fuel buf bsize midOffset samples.
Proof.
  induction fuel as [|fuel IH]; intros buf mid samples;
    cbn [Decoders.stereo_blocks block_loop]; [reflexivity|].
  destruct (samples >? 0); [|reflexivity].
  destruct (Decoders.FAudio_INTERNAL_DecodeStereoMSADPCMBlock data buf align);
    cbn [mbind res_bind]; try reflexivity.
  destruct (load _ _ _); cbn [mbind res_bind]; try reflexivity.
  rewrite IH. reflexivity.
Qed.

Lemma min_copy samples r :
  0 < samples -> 0 < r ->
  0 < FAudio_min samples r <= samples /\ FAudio_min samples r <= r.
Proof.
  intros Hs Hr. unfold FAudio_min. destruct (samples <? r) eqn:H; lia.
Qed.

Section BlockLoop.

Variable decode : Z -> res (list Z).
Variable A : Z.
Variable chans : Z.
Variable bsize : Z.

Hypothesis bsize_pos : 0 < bsize < 2 ^ 32.
Hypothesis chans_pos : 0 <= chans.
Hypothesis decode_ends : forall buf, decode buf <> OutOfFuel.

(** Every round copies at least one frame: the loop ends, and what it
    returns has [samples] frames. *)
Lemma block_loop_ends fuel : forall buf midOffset samples,
  0 <= midOffset < bsize -> samples < 2 ^ 32 ->
  samples <= Z.of_nat fuel ->
  block_loop decode A chans fuel buf bsize midOffset samples <> OutOfFuel /\
  forall out,
    block_loop decode A chans fuel buf bsize midOffset samples = Ok out ->
    Z.of_nat (length out) = Z.max 0 samples * chans.
Proof.
  induction fuel as [|fuel IH]; intros buf mid samples Hmid Hs Hfuel;
    cbn [block_loop].
  - assert (Hz : (samples >? 0) = false) by lia. rewrite Hz.
    split; [discriminate|]. intros out H. inv_res. subst out. simpl. lia.
  - destruct (samples >? 0) eqn:Hpos.
    2: { split; [discriminate|]. intros out H. inv_res. subst out.
         simpl. lia. }
    rewrite (u32_small (bsize - mid)) by lia.
    destruct (min_copy samples (bsize - mid)) as [Hc1 Hc2]; [lia|lia|].
    set (copy := FAudio_min samples (bsize - mid)) in *.
    rewrite (u32_small (samples - copy)) by lia.
    destruct (IH (buf + A) 0 (samples - copy)) as [Hne Hlen];
      [lia|lia|lia|].
    pose proof (decode_ends buf) as Hdec.
    destruct (decode buf) as [blk| |]; cbn [mbind res_bind];
      [|split; [discriminate|intros; discriminate]|congruence].
    destruct (load blk (mid * chans) (copy * chans)) as [chunk| |] eqn:Hld;
      cbn [mbind res_bind].
    + destruct (block_loop decode A chans fuel (buf + A) bsize 0
                  (samples - copy)) as [rest| |] eqn:Hrest;
        cbn [mbind res_bind].
      * split; [discriminate|]. intros out H. inv_res. subst out.
        rewrite length_app, Nat2Z.inj_add, (Hlen rest eq_refl).
        apply load_length in Hld. nia.
      * split; [discriminate|intros; discriminate].
      * exfalso. apply Hne. reflexivity.
    + split; [discriminate|intros; discriminate].
    + unfold load in Hld. destruct (_ && _) in Hld; discriminate.
Qed.

Lemma block_loop_none fuel buf midOffset :
  block_loop decode A chans fuel buf bsize midOffset 0 = Ok [].
Proof. destruct fuel; reflexivity. Qed.

(** Fuel above the number of frames changes nothing. *)
Lemma block_loop_fuel fuel : forall fuel' buf midOffset samples,
  0 <= midOffset < bsize -> samples < 2 ^ 32 ->
  samples <= Z.of_nat fuel -> samples <= Z.of_nat fuel' ->
  block_loop decode A chans fuel buf bsize midOffset samples =
  block_loop decode A chans fuel' buf bsize midOffset samples.
Proof.
  induction fuel as [|fuel IH]; intros fuel' buf mid samples Hmid Hs Hf Hf'.
  - cbn [block_loop]. assert (Hz : (samples >? 0) = false) by lia.
    rewrite Hz. destruct fuel'; cbn [block_loop]; rewrite Hz; reflexivity.
  - destruct (samples >? 0) eqn:Hpos.
    2: { cbn [block_loop]. rewrite Hpos.
         destruct fuel'; cbn [block_loop]; rewrite Hpos; reflexivity. }
    destruct fuel' as [|fuel']; [lia|].
    cbn [block_loop]. rewrite Hpos.
    rewrite (u32_small (bsize - mid)) by lia.
    destruct (min_copy samples (bsize - mid)) as [Hc1 Hc2]; [lia|lia|].
    set (copy := FAudio_min samples (bsize - mid)) in *.
    rewrite (u32_small (samples - copy)) by lia.
    rewrite (IH fuel' (buf + A) 0 (samples - copy)) by lia.
    reflexivity.
Qed.

Hypothesis block_size : forall buf blk,
  decode buf = Ok blk -> Z.of_nat (length blk) = bsize * chans.

Lemma FAudio_min_r a r : r <= a -> FAudio_min a r = r.
Proof. intros H. unfold FAudio_min. destruct (a <? r) eqn:E; lia. Qed.

Lemma FAudio_min_l a r : a < r -> FAudio_min a r = a.
Proof. intros H. unfold FAudio_min. destruct (a <? r) eqn:E; lia. Qed.

Lemma FAudio_min_add n m r :
  0 < m -> n < r -> FAudio_min (n + m) r = n + FAudio_min m (r - n).
Proof.
  intros Hm Hn. unfold FAudio_min.
  destruct (n + m <? r) eqn:E1; destruct (m <? r - n) eqn:E2; lia.
Qed.

Lemma bind_nil_app (m : res (list Z)) : (o ← m; Ok ([] ++ o)) = m.
Proof. destruct m; reflexivity. Qed.

(** Decoding [n + m] frames is decoding [n] frames and then [m] frames
    from where the first [n] end. *)
Lemma block_loop_split k : forall n m midOffset buf fuel fuel1 fuel2,
  0 <= n <= Z.of_nat k -> 0 <= m -> 0 <= midOffset < bsize ->
  n + m < 2 ^ 32 ->
  n + m <= Z.of_nat fuel -> n <= Z.of_nat fuel1 -> m <= Z.of_nat fuel2 ->
  block_loop decode A chans fuel buf bsize midOffset (n + m) =
  (o1 ← block_loop decode A chans fuel1 buf bsize midOffset n;
   o2 ← block_loop decode A chans fuel2
          (buf + (midOffset + n) / bsize * A) bsize
          ((midOffset + n) mod bsize) m;
   Ok (o1 ++ o2)).
Proof.
  induction k as [|k IH];
    intros n m mid buf f f1 f2 Hn Hm Hmid Hs Hf Hf1 Hf2;
    destruct (Z.eq_dec n 0) as [->|Hn0]; try lia.
  1, 2: rewrite block_loop_none; cbn [mbind res_bind];
    rewrite Z.add_0_l, Z.add_0_r, Z.div_small, Z.mod_small by lia;
    rewrite Z.mul_0_l, Z.add_0_r, bind_nil_app;
    apply block_loop_fuel; lia.
  destruct f as [|f]; [lia|]. destruct f1 as [|f1]; [lia|].
  cbn [block_loop].
  assert (H1 : (n + m >? 0) = true) by lia.
  assert (H2 : (n >? 0) = true) by lia. rewrite H1, H2.
  rewrite (u32_small (bsize - mid)) by lia.
  destruct (decode buf) as [blk| |] eqn:Hblk; cbn [mbind res_bind];
    try reflexivity.
  pose proof (block_size buf blk Hblk) as Hlen.
  set (r := bsize - mid) in *.
  destruct (Z_le_gt_dec r n) as [Hrn|Hrn].
  - rewrite (FAudio_min_r (n + m) r), (FAudio_min_r n r) by lia.
    destruct (load blk (mid * chans) (r * chans)) as [chunk| |];
      cbn [mbind res_bind]; try reflexivity.
    rewrite (u32_small (n + m - r)), (u32_small (n - r)) by lia.
    replace (n + m - r) with ((n - r) + m) by lia.
    rewrite (IH (n - r) m 0 (buf + A) f f1 f2) by lia.
    replace (mid + n) with ((n - r) + 1 * bsize) by lia.
    rewrite Z.div_add, Z.mod_add by lia. rewrite Z.add_0_l.
    replace (buf + ((n - r) / bsize + 1) * A)
      with (buf + A + (n - r) / bsize * A) by ring.
    destruct (block_loop decode A chans f1 (buf + A) bsize 0 (n - r));
      cbn [mbind res_bind]; try reflexivity.
    destruct (block_loop decode A chans f2 _ bsize _ m);
      cbn [mbind res_bind]; try reflexivity.
    rewrite app_assoc. reflexivity.
  - rewrite (FAudio_min_l n r) by lia.
    rewrite Z.div_small, Z.mod_small, Z.mul_0_l, Z.add_0_r by lia.
    replace (n - n) with 0 by lia. change (u32 0) with 0.
    rewrite (block_loop_none f1).
    assert (Hin : mid * chans + r * chans <= Z.of_nat (length blk)) by nia.
    destruct (Z.eq_dec m 0) as [->|Hm0].
    + rewrite Z.add_0_r, (FAudio_min_l n r) by lia.
      replace (n - n) with 0 by lia. change (u32 0) with 0.
      rewrite !block_loop_none.
      destruct (load blk (mid * chans) (n * chans));
        cbn [mbind res_bind]; try reflexivity.
      rewrite !app_nil_r. reflexivity.
    + destruct f2 as [|f2]; [lia|]. cbn [block_loop].
      assert (H3 : (m >? 0) = true) by lia. rewrite H3, Hblk.
      cbn [mbind res_bind].
      rewrite (u32_small (bsize - (mid + n))) by lia.
      rewrite (FAudio_min_add n m r) by lia.
      replace (bsize - (mid + n)) with (r - n) by lia.
      destruct (min_copy m (r - n)) as [Hc1 Hc2]; [lia|lia|].
      set (c := FAudio_min m (r - n)) in *.
      rewrite (load_Ok blk (mid * chans) ((n + c) * chans)) by nia.
      rewrite (load_Ok blk (mid * chans) (n * chans)) by nia.
      rewrite (load_Ok blk ((mid + n) * chans) (c * chans)) by nia.
      cbn [mbind res_bind].
      rewrite (u32_small (n + m - (n + c))), (u32_small (m - c)) by lia.
      replace (n + m - (n + c)) with (m - c) by lia.
      rewrite (block_loop_fuel f f2 (buf + A) 0 (m - c)) by lia.
      destruct (block_loop decode A chans f2 (buf + A) bsize 0 (m - c));
        cbn [mbind res_bind]; try reflexivity.
      rewrite app_nil_r, app_assoc. f_equal. f_equal.
      replace (Z.to_nat ((n + c) * chans))
        with (Z.to_nat (n * chans) + Z.to_nat (c * chans))%nat by nia.
      rewrite <- take_take_drop, drop_drop. f_equal. f_equal. f_equal. nia.
Qed.

End BlockLoop.

Lemma load1_ends {A} (mem : list A) i : load1 mem i <> OutOfFuel.
Proof.
  unfold load1. destruct (0 <=? i); [|discriminate].
  destruct (mem !! Z.to_nat i); discriminate.
Qed.

Lemma load_ends {A} (mem : list A) off n : load mem off n <> OutOfFuel.
Proof. unfold load. destruct (_ && _); discriminate. Qed.

Lemma ParseNibble_ends nibble predictor st :
  Decoders.FAudio_INTERNAL_ParseNibble nibble predictor st <> OutOfFuel.
Proof.
  unfold Decoders.FAudio_INTERNAL_ParseNibble.
  pose proof (load1_ends Decoders.AdaptCoeff_1 predictor).
  pose proof (load1_ends Decoders.AdaptCoeff_2 predictor).
  pose proof (load1_ends Decoders.AdaptionTable nibble).
  destruct (load1 Decoders.AdaptCoeff_1 predictor); cbn [mbind res_bind];
    try congruence.
  destruct (load1 Decoders.AdaptCoeff_2 predictor); cbn [mbind res_bind];
    try congruence.
  destruct (load1 Decoders.AdaptionTable nibble); cbn [mbind res_bind];
    congruence.
Qed.

Lemma mono_nibbles_ends predictor nibbles : forall st,
  Decoders.mono_nibbles predictor nibbles st <> OutOfFuel /\
  forall out, Decoders.mono_nibbles predictor nibbles st = Ok out ->
              length out = (2 * length nibbles)%nat.
Proof.
  induction nibbles as [|b rest IH]; intros st;
    cbn [Decoders.mono_nibbles].
  - split; [discriminate|]. intros out H. inv_res. subst out. reflexivity.
  - pose proof (ParseNibble_ends (Z.shiftr (uint8_of b) 4) predictor st).
    destruct (Decoders.FAudio_INTERNAL_ParseNibble (Z.shiftr (uint8_of b) 4)
                predictor st) as [[s1 st1]| |];
      cbn [mbind res_bind]; try (split; [congruence|discriminate]).
    pose proof (ParseNibble_ends (Z.land (uint8_of b) 15) predictor st1).
    destruct (Decoders.FAudio_INTERNAL_ParseNibble (Z.land (uint8_of b) 15)
                predictor st1) as [[s2 st2]| |];
      cbn [mbind res_bind]; try (split; [congruence|discriminate]).
    destruct (IH st2) as [Hne Hlen].
    destruct (Decoders.mono_nibbles predictor rest st2) as [out| |];
      cbn [mbind res_bind]; try (split; [congruence|discriminate]).
    split; [discriminate|]. intros out' H'. inv_res. subst out'.
    cbn [length]. rewrite (Hlen out eq_refl). lia.
Qed.

Lemma stereo_nibbles_ends lp rp nibbles : forall l r,
  Decoders.stereo_nibbles lp rp nibbles l r <> OutOfFuel /\
  forall out, Decoders.stereo_nibbles lp rp nibbles l r = Ok out ->
              length out = (2 * length nibbles)%nat.
Proof.
  induction nibbles as [|b rest IH]; intros l r;
    cbn [Decoders.stereo_nibbles].
  - split; [discriminate|]. intros out H. inv_res. subst out. reflexivity.
  - pose proof (ParseNibble_ends (Z.shiftr (uint8_of b) 4) lp l).
    destruct (Decoders.FAudio_INTERNAL_ParseNibble (Z.shiftr (uint8_of b) 4)
                lp l) as [[s1 l1]| |];
      cbn [mbind res_bind]; try (split; [congruence|discriminate]).
    pose proof (ParseNibble_ends (Z.land (uint8_of b) 15) rp r).
    destruct (Decoders.FAudio_INTERNAL_ParseNibble (Z.land (uint8_of b) 15)
                rp r) as [[s2 r1]| |];
      cbn [mbind res_bind]; try (split; [congruence|discriminate]).
    destruct (IH l1 r1) as [Hne Hlen].
    destruct (Decoders.stereo_nibbles lp rp rest l1 r1) as [out| |];
      cbn [mbind res_bind]; try (split; [congruence|discriminate]).
    split; [discriminate|]. intros out' H'. inv_res. subst out'.
    cbn [length]. rewrite (Hlen out eq_refl). lia.
Qed.

Lemma guard_res_ends b : guard_res b <> OutOfFuel.
Proof. destruct b; discriminate. Qed.

(** A block decoder ends, and a block it returns has [(align + 16) * 2]
    frames. *)
Lemma mono_block_ends data buf align :
  Decoders.FAudio_INTERNAL_DecodeMonoMSADPCMBlock data buf align
    <> OutOfFuel /\
  forall blk,
    Decoders.FAudio_INTERNAL_DecodeMonoMSADPCMBlock data buf align = Ok blk ->
    -15 <= align <= 240 /\ Z.of_nat (length blk) = (align + 16) * 2 * 1.
Proof.
  unfold Decoders.FAudio_INTERNAL_DecodeMonoMSADPCMBlock.
  pose proof (load_ends data buf 7).
  destruct (load data buf 7) as [pre| |]; cbn [mbind res_bind];
    try (split; [congruence|discriminate]).
  destruct (Decoders.FAudio_INTERNAL_ReadMonoPreamble pre)
    as [[predictor st]| |] eqn:Hpre;
    cbn [mbind res_bind]; try (split; [congruence|discriminate]).
  2: { unfold Decoders.FAudio_INTERNAL_ReadMonoPreamble in Hpre.
       repeat (destruct pre as [|? pre]; try discriminate). }
  destruct (align + 15 <=? 255) eqn:Hg; cbn [guard_res mbind res_bind];
    try (split; [congruence|discriminate]).
  pose proof (load_ends data (buf + 7) (align + 15)).
  destruct (load data (buf + 7) (align + 15)) as [nibbles| |] eqn:Hnib;
    cbn [mbind res_bind]; try (split; [congruence|discriminate]).
  destruct (mono_nibbles_ends predictor nibbles st) as [Hne Hlen].
  destruct (Decoders.mono_nibbles predictor nibbles st) as [out| |];
    cbn [mbind res_bind]; try (split; [congruence|discriminate]).
  split; [discriminate|]. intros blk Hblk. inv_res. subst blk.
  apply load_length in Hnib. cbn [length]. rewrite (Hlen out eq_refl).
  lia.
Qed.

Lemma stereo_block_ends data buf align :
  Decoders.FAudio_INTERNAL_DecodeStereoMSADPCMBlock data buf align
    <> OutOfFuel /\
  forall blk,
    Decoders.FAudio_INTERNAL_DecodeStereoMSADPCMBlock data buf align =
      Ok blk ->
    -15 <= align <= 240 /\ Z.of_nat (length blk) = (align + 16) * 2 * 2.
Proof.
  unfold Decoders.FAudio_INTERNAL_DecodeStereoMSADPCMBlock.
  pose proof (load_ends data buf 14).
  destruct (load data buf 14) as [pre| |]; cbn [mbind res_bind];
    try (split; [congruence|discriminate]).
  destruct (Decoders.FAudio_INTERNAL_ReadStereoPreamble pre)
    as [[[lp l] [rp r]]| |] eqn:Hpre;
    cbn [mbind res_bind]; try (split; [congruence|discriminate]).
  2: { unfold Decoders.FAudio_INTERNAL_ReadStereoPreamble in Hpre.
       repeat (destruct pre as [|? pre]; try discriminate). }
  destruct ((align + 15) * 2 <=? 510) eqn:Hg;
    cbn [guard_res mbind res_bind];
    try (split; [congruence|discriminate]).
  pose proof (load_ends data (buf + 14) ((align + 15) * 2)).
  destruct (load data (buf + 14) ((align + 15) * 2)) as [nibbles| |] eqn:Hnib;
    cbn [mbind res_bind]; try (split; [congruence|discriminate]).
  destruct (stereo_nibbles_ends lp rp nibbles l r) as [Hne Hlen].
  destruct (Decoders.stereo_nibbles lp rp nibbles l r) as [out| |];
    cbn [mbind res_bind]; try (split; [congruence|discriminate]).
  split; [discriminate|]. intros blk Hblk. inv_res. subst blk.
  apply load_length in Hnib. cbn [length]. rewrite (Hlen out eq_refl).
  lia.
Qed.

(** X5. The MSADPCM decoders end: each round of their block loop copies at
    least one frame, whatever the offset, the block size and the data. A
    call that succeeds has written [samples] frames, one value a frame in
    mono and two in stereo. *)
Theorem MSADPCM_decode_ends buffer curOffset samples format :
  0 <= samples < 2 ^ 32 ->
  (Decoders.FAudio_INTERNAL_DecodeMonoMSADPCM buffer curOffset samples format
     <> OutOfFuel /\
   forall out,
     Decoders.FAudio_INTERNAL_DecodeMonoMSADPCM buffer curOffset samples
       format = Ok out ->
     Z.of_nat (length out) = samples) /\
  (Decoders.FAudio_INTERNAL_DecodeStereoMSADPCM buffer curOffset samples
     format <> OutOfFuel /\
   forall out,
     Decoders.FAudio_INTERNAL_DecodeStereoMSADPCM buffer curOffset samples
       format = Ok out ->
     Z.of_nat (length out) = samples * 2).
Proof.
  intros Hs.
  set (bsize := u32 ((nBlockAlign format + 16) * 2)).
  assert (Hb : 0 <= bsize < 2 ^ 32) by (apply Z.mod_pos_bound; lia).
  split.
  - unfold Decoders.FAudio_INTERNAL_DecodeMonoMSADPCM. fold bsize.
    destruct (bsize =? 0) eqn:Hz; cbn [negb guard_res mbind res_bind].
    { split; [discriminate|intros; discriminate]. }
    rewrite mono_blocks_loop.
    destruct (block_loop_ends
                (fun buf => Decoders.FAudio_INTERNAL_DecodeMonoMSADPCMBlock
                              (pAudioData buffer) buf (nBlockAlign format))
                (nBlockAlign format + 22) 1 bsize ltac:(lia) ltac:(lia)
                (fun buf => proj1 (mono_block_ends _ buf _))
                (Z.to_nat samples)
                (u32 (curOffset / bsize * (nBlockAlign format + 22)))
                (curOffset mod bsize) samples) as [Hne Hlen];
      [apply Z.mod_pos_bound; lia|lia|lia|].
    split; [exact Hne|]. intros out Hout. rewrite (Hlen out Hout). lia.
  - unfold Decoders.FAudio_INTERNAL_DecodeStereoMSADPCM. fold bsize.
    destruct (bsize =? 0) eqn:Hz; cbn [negb guard_res mbind res_bind].
    { split; [discriminate|intros; discriminate]. }
    rewrite stereo_blocks_loop.
    destruct (block_loop_ends
                (fun buf => Decoders.FAudio_INTERNAL_DecodeStereoMSADPCMBlock
                              (pAudioData buffer) buf (nBlockAlign format))
                ((nBlockAlign format + 22) * 2) 2 bsize ltac:(lia) ltac:(lia)
                (fun buf => proj1 (stereo_block_ends _ buf _))
                (Z.to_nat samples)
                (u32 (curOffset / bsize * ((nBlockAlign format + 22) * 2)))
                (curOffset mod bsize) samples) as [Hne Hlen];
      [apply Z.mod_pos_bound; lia|lia|lia|].
    split; [exact Hne|]. intros out Hout. rewrite (Hlen out Hout). lia.
Qed.

(** Forty frames from frame 20 on, across the boundary of the two blocks
    of 32 frames. *)
Lemma MSADPCM_decode_ends_witness :
  returned (Decoders.FAudio_INTERNAL_DecodeMonoMSADPCM adpcm_mono_buffer 20
              40 (adpcm_format 1)) = Some 40%nat /\
  returned (Decoders.FAudio_INTERNAL_DecodeStereoMSADPCM adpcm_stereo_buffer
              20 40 (adpcm_format 2)) = Some 80%nat.
Proof.
  split.
  - destruct (MSADPCM_decode_ends adpcm_mono_buffer 20 40 (adpcm_format 1))
      as [[_ Hlen] _]; [lia|].
    destruct (Decoders.FAudio_INTERNAL_DecodeMonoMSADPCM _ _ _ _) as [out| |]
      eqn:Hout; [|vm_compute in Hout; discriminate..].
    cbn [returned]. f_equal. specialize (Hlen out eq_refl). lia.
  - destruct (MSADPCM_decode_ends adpcm_stereo_buffer 20 40 (adpcm_format 2))
      as [_ [_ Hlen]]; [lia|].
    destruct (Decoders.FAudio_INTERNAL_DecodeStereoMSADPCM _ _ _ _)
      as [out| |] eqn:Hout; [|vm_compute in Hout; discriminate..].
    cbn [returned]. f_equal. specialize (Hlen out eq_refl). lia.
Defined.

Lemma offset_after cur n bsize :
  0 < bsize ->
  (cur + n) / bsize = cur / bsize + (cur mod bsize + n) / bsize /\
  (cur + n) mod bsize = (cur mod bsize + n) mod bsize.
Proof.
  intros Hb. split.
  - rewrite (Z_div_mod_eq_full cur bsize) at 1.
    rewrite <- Z.add_assoc, (Z.mul_comm bsize), Z.div_add_l by lia.
    reflexivity.
  - rewrite Z.add_mod_idemp_l by lia. reflexivity.
Qed.

(** X6. The MSADPCM decoders can be called piecewise. For a block size the
    decoders provide for ([nBlockAlign] at most 240), decoding [n + m]
    frames from an offset gives what decoding [n] frames from that offset
    and then [m] frames from [n] frames further gives, one after the
    other, and fails when one of these fails: a block is decoded from its
    start again wherever a call begins inside it. *)
Theorem MSADPCM_decode_split buffer curOffset n m format :
  0 <= nBlockAlign format <= 240 ->
  0 <= curOffset -> 0 <= n -> 0 <= m ->
  (curOffset + n + m < 2 ^ 32 ->
   Decoders.FAudio_INTERNAL_DecodeMonoMSADPCM buffer curOffset (n + m) format =
   (o1 ← Decoders.FAudio_INTERNAL_DecodeMonoMSADPCM buffer curOffset n format;
    o2 ← Decoders.FAudio_INTERNAL_DecodeMonoMSADPCM buffer (curOffset + n) m
           format;
    Ok (o1 ++ o2))) /\
  ((curOffset + n + m) * 2 < 2 ^ 32 ->
   Decoders.FAudio_INTERNAL_DecodeStereoMSADPCM buffer curOffset (n + m)
     format =
   (o1 ← Decoders.FAudio_INTERNAL_DecodeStereoMSADPCM buffer curOffset n
           format;
    o2 ← Decoders.FAudio_INTERNAL_DecodeStereoMSADPCM buffer (curOffset + n)
           m format;
    Ok (o1 ++ o2))).
Proof.
  intros Halign Hcur Hn Hm.
  set (align := nBlockAlign format) in *.
  assert (Hbs : u32 ((align + 16) * 2) = (align + 16) * 2)
    by (apply u32_small; lia).
  set (bsize := (align + 16) * 2) in *.
  assert (Hnz : (bsize =? 0) = false) by lia.
  destruct (offset_after curOffset n bsize) as [Hdiv Hmod]; [lia|].
  pose proof (Z.mod_pos_bound curOffset bsize ltac:(lia)) as Hmid.
  pose proof (Z.mul_div_le (curOffset + n) bsize ltac:(lia)) as Hq.
  pose proof (Z.mul_div_le curOffset bsize ltac:(lia)) as Hq0.
  assert (0 <= curOffset / bsize) by (apply Z.div_pos; lia).
  assert (0 <= (curOffset mod bsize + n) / bsize)
    by (apply Z.div_pos; lia).
  split; intros Hsmall.
  - unfold Decoders.FAudio_INTERNAL_DecodeMonoMSADPCM. fold align bsize.
    rewrite Hbs, Hnz. cbn [negb guard_res mbind res_bind].
    rewrite !mono_blocks_loop.
    rewrite (block_loop_split _ (align + 22) 1 bsize ltac:(lia) ltac:(lia)
               (fun buf blk Hblk =>
                  eq_trans (proj2 (proj2 (mono_block_ends _ buf _) blk Hblk))
                           eq_refl)
               (Z.to_nat n) n m (curOffset mod bsize) _ _
               (Z.to_nat n) (Z.to_nat m)) by lia.
    rewrite Hdiv, Hmod.
    rewrite (u32_small (curOffset / bsize * (align + 22))) by nia.
    rewrite (u32_small ((curOffset / bsize +
                         (curOffset mod bsize + n) / bsize) * (align + 22)))
      by nia.
    rewrite (Z.mul_add_distr_r (curOffset / bsize)
               ((curOffset mod bsize + n) / bsize)).
    reflexivity.
  - unfold Decoders.FAudio_INTERNAL_DecodeStereoMSADPCM. fold align bsize.
    rewrite Hbs, Hnz. cbn [negb guard_res mbind res_bind].
    rewrite !stereo_blocks_loop.
    rewrite (block_loop_split _ ((align + 22) * 2) 2 bsize ltac:(lia)
               ltac:(lia)
               (fun buf blk Hblk =>
                  eq_trans (proj2 (proj2 (stereo_block_ends _ buf _) blk Hblk))
                           eq_refl)
               (Z.to_nat n) n m (curOffset mod bsize) _ _
               (Z.to_nat n) (Z.to_nat m)) by lia.
    rewrite Hdiv, Hmod.
    rewrite (u32_small (curOffset / bsize * ((align + 22) * 2))) by nia.
    rewrite (u32_small ((curOffset / bsize +
                         (curOffset mod bsize + n) / bsize) *
                        ((align + 22) * 2))) by nia.
    rewrite (Z.mul_add_distr_r (curOffset / bsize)
               ((curOffset mod bsize + n) / bsize)).
    reflexivity.
Qed.

(** Thirty frames from frame 20 on, in one call and in calls of 20 and 10
    frames, the first of which ends inside the second block. *)
Lemma MSADPCM_decode_split_witness :
  (Decoders.FAudio_INTERNAL_DecodeMonoMSADPCM adpcm_mono_buffer 20 30
     (adpcm_format 1) =
   (o1 ← Decoders.FAudio_INTERNAL_DecodeMonoMSADPCM adpcm_mono_buffer 20 20
           (adpcm_format 1);
    o2 ← Decoders.FAudio_INTERNAL_DecodeMonoMSADPCM adpcm_mono_buffer 40 10
           (adpcm_format 1);
    Ok (o1 ++ o2))) /\
  (Decoders.FAudio_INTERNAL_DecodeStereoMSADPCM adpcm_stereo_buffer 20 30
     (adpcm_format 2) =
   (o1 ← Decoders.FAudio_INTERNAL_DecodeStereoMSADPCM adpcm_stereo_buffer 20
           20 (adpcm_format 2);
    o2 ← Decoders.FAudio_INTERNAL_DecodeStereoMSADPCM adpcm_stereo_buffer 40
           10 (adpcm_format 2);
    Ok (o1 ++ o2))) /\
  returned (Decoders.FAudio_INTERNAL_DecodeMonoMSADPCM adpcm_mono_buffer 20
              30 (adpcm_format 1)) = Some 30%nat /\
  returned (Decoders.FAudio_INTERNAL_DecodeStereoMSADPCM adpcm_stereo_buffer
              20 30 (adpcm_format 2)) = Some 60%nat.
Proof.
  split; [|split].
  - destruct (MSADPCM_decode_split adpcm_mono_buffer 20 20 10
                (adpcm_format 1)) as [Hmono _];
      [cbn; lia|lia|lia|lia|].
    apply Hmono. lia.
  - destruct (MSADPCM_decode_split adpcm_stereo_buffer 20 20 10
                (adpcm_format 2)) as [_ Hstereo];
      [cbn; lia|lia|lia|lia|].
    apply Hstereo. lia.
  - split; vm_compute; reflexivity.
Defined.

(** ** The PCM decoders *)

Lemma load_split {A} (mem : list A) off a b :
  0 <= off -> 0 <= a -> 0 <= b ->
  load mem off (a + b) =
  (l1 ← load mem off a; l2 ← load mem (off + a) b; Ok (l1 ++ l2)).
Proof.
  intros Hoff Ha Hb.
  destruct (Z_le_gt_dec (off + a + b) (Z.of_nat (length mem))) as [Hin|Hout].
  - rewrite !load_Ok by lia. cbn [mbind res_bind]. f_equal.
    replace (Z.to_nat (a + b)) with (Z.to_nat a + Z.to_nat b)%nat by lia.
    rewrite <- take_take_drop, drop_drop. f_equal. f_equal. f_equal. lia.
  - assert (Hw : load mem off (a + b) = Fault).
    { unfold load.
      assert (Hf : (off + (a + b) <=? Z.of_nat (length mem)) = false) by lia.
      rewrite Hf, andb_false_r. reflexivity. }
    rewrite Hw.
    destruct (Z_le_gt_dec (off + a) (Z.of_nat (length mem))) as [Hin|Hout'].
    + rewrite (load_Ok mem off a) by lia. cbn [mbind res_bind].
      unfold load.
      assert (Hf : (off + a + b <=? Z.of_nat (length mem)) = false) by lia.
      rewrite Hf, andb_false_r. reflexivity.
    + unfold load.
      assert (Hf : (off + a <=? Z.of_nat (length mem)) = false) by lia.
      rewrite Hf, andb_false_r. reflexivity.
Qed.

Lemma int16s_of_app k : forall l1 l2,
  length l1 = (2 * k)%nat ->
  int16s_of (l1 ++ l2) = int16s_of l1 ++ int16s_of l2.
Proof.
  induction k as [|k IH]; intros l1 l2 Hl.
  - destruct l1; [reflexivity|discriminate].
  - destruct l1 as [|lo [|hi l1]]; try (simpl in Hl; lia).
    cbn [app int16s_of]. rewrite IH by (simpl in Hl; lia). reflexivity.
Qed.

Lemma load_split_map {A B} (f : list A -> list B) (mem : list A) off a b :
  0 <= off -> 0 <= a -> 0 <= b ->
  (forall l1 l2, Z.of_nat (length l1) = a -> f (l1 ++ l2) = f l1 ++ f l2) ->
  (buf ← load mem off (a + b); Ok (f buf)) =
  (o1 ← (buf ← load mem off a; Ok (f buf));
   o2 ← (buf ← load mem (off + a) b; Ok (f buf));
   Ok (o1 ++ o2)).
Proof.
  intros Hoff Ha Hb Hf. rewrite load_split by assumption.
  destruct (load mem off a) as [l1| |] eqn:H1; cbn [mbind res_bind];
    try reflexivity.
  destruct (load mem (off + a) b) as [l2| |]; cbn [mbind res_bind];
    try reflexivity.
  rewrite Hf; [reflexivity|]. eapply load_length, H1.
Qed.

(** X7. The PCM decoders can be called piecewise: decoding [n + m] frames
    from an offset gives what decoding [n] frames from that offset and
    then [m] frames from [n] frames further gives, and fails when one of
    these fails. *)
Theorem PCM_decode_split buffer curOffset n m UNUSED :
  0 <= PlayBegin buffer -> 0 <= curOffset -> 0 <= n -> 0 <= m ->
  (PlayBegin buffer + curOffset + n + m) * 4 < 2 ^ 32 ->
  Forall
    (fun decode : FAudioDecodeCallback =>
       decode buffer curOffset (n + m) UNUSED =
       (o1 ← decode buffer curOffset n UNUSED;
        o2 ← decode buffer (curOffset + n) m UNUSED;
        Ok (o1 ++ o2)))
    [Decoders.FAudio_INTERNAL_DecodeMonoPCM8;
     Decoders.FAudio_INTERNAL_DecodeStereoPCM8;
     Decoders.FAudio_INTERNAL_DecodeMonoPCM16;
     Decoders.FAudio_INTERNAL_DecodeStereoPCM16].
Proof.
  intros Hpb Hcur Hn Hm Hsmall.
  set (pb := PlayBegin buffer) in *.
  repeat constructor.
  - unfold Decoders.FAudio_INTERNAL_DecodeMonoPCM8. fold pb.
    rewrite (u32_small (pb + curOffset)),
      (u32_small (pb + (curOffset + n))) by lia.
    replace (pb + (curOffset + n)) with (pb + curOffset + n) by lia.
    apply load_split_map; try lia.
    intros l1 l2 _. apply map_app.
  - unfold Decoders.FAudio_INTERNAL_DecodeStereoPCM8. fold pb.
    rewrite (u32_small ((pb + curOffset) * 2)),
      (u32_small ((pb + (curOffset + n)) * 2)) by lia.
    replace ((pb + (curOffset + n)) * 2)
      with ((pb + curOffset) * 2 + n * 2) by lia.
    replace ((n + m) * 2) with (n * 2 + m * 2) by lia.
    apply load_split_map; try lia.
    intros l1 l2 _. apply map_app.
  - unfold Decoders.FAudio_INTERNAL_DecodeMonoPCM16. fold pb.
    rewrite (u32_small (pb + curOffset)),
      (u32_small (pb + (curOffset + n))), (u32_small ((n + m) * 2)),
      (u32_small (n * 2)), (u32_small (m * 2)) by lia.
    replace (2 * (pb + (curOffset + n)))
      with (2 * (pb + curOffset) + n * 2) by lia.
    replace ((n + m) * 2) with (n * 2 + m * 2) by lia.
    apply load_split_map; try lia.
    intros l1 l2 Hl. apply (int16s_of_app (Z.to_nat n)). lia.
  - unfold Decoders.FAudio_INTERNAL_DecodeStereoPCM16. fold pb.
    rewrite (u32_small ((pb + curOffset) * 2)),
      (u32_small ((pb + (curOffset + n)) * 2)), (u32_small ((n + m) * 4)),
      (u32_small (n * 4)), (u32_small (m * 4)) by lia.
    replace (2 * ((pb + (curOffset + n)) * 2))
      with (2 * ((pb + curOffset) * 2) + n * 4) by lia.
    replace ((n + m) * 4) with (n * 4 + m * 4) by lia.
    apply load_split_map; try lia.
    intros l1 l2 Hl. apply (int16s_of_app (Z.to_nat (n * 2))). lia.
Qed.

(** Three frames from frame 1 of the play window on, in one call and in
    calls of two frames and one. *)
Lemma PCM_decode_split_witness :
  Forall
    (fun decode : FAudioDecodeCallback =>
       decode pcm_buffer 1 3 (pcm8 1) =
       (o1 ← decode pcm_buffer 1 2 (pcm8 1);
        o2 ← decode pcm_buffer 3 1 (pcm8 1);
        Ok (o1 ++ o2)))
    [Decoders.FAudio_INTERNAL_DecodeMonoPCM8;
     Decoders.FAudio_INTERNAL_DecodeStereoPCM8;
     Decoders.FAudio_INTERNAL_DecodeMonoPCM16;
     Decoders.FAudio_INTERNAL_DecodeStereoPCM16] /\
  map (fun decode : FAudioDecodeCallback =>
         returned (decode pcm_buffer 1 3 (pcm8 1)))
    [Decoders.FAudio_INTERNAL_DecodeMonoPCM8;
     Decoders.FAudio_INTERNAL_DecodeStereoPCM8;
     Decoders.FAudio_INTERNAL_DecodeMonoPCM16;
     Decoders.FAudio_INTERNAL_DecodeStereoPCM16] =
  [Some 3%nat; Some 6%nat; Some 3%nat; Some 6%nat].
Proof.
  split.
  - apply (PCM_decode_split pcm_buffer 1 2 1 (pcm8 1)); cbn; lia.
  - vm_compute. reflexivity.
Defined.

(** ** The decode loop: how far it gets and that it ends *)

Lemma store_ends {A} (mem : list A) off vals : store mem off vals <> OutOfFuel.
Proof. unfold store. destruct (_ && _); discriminate. Qed.

Lemma FAudio_min_range a b : 0 <= a -> 0 <= b -> 0 <= FAudio_min a b <= b.
Proof. intros Ha Hb. unfold FAudio_min. destruct (a <? b) eqn:E; lia. Qed.

Lemma u32_range z : 0 <= u32 z < 2 ^ 32.
Proof. apply Z.mod_pos_bound. lia. Qed.

Section DecodeLoop.

Variable EXTRA_DECODE_PADDING : Z.
Variable FAUDIO_END_OF_STREAM : Z.

(** One round, in numbers: the frames decoded so far grow, to at most the
    request; a round that does not complete the request rewinds the first
    buffer or ends it. *)
Lemma DecodeBuffers_round_progress toDecode buffer next st st' :
  DecodeBuffers_round FAUDIO_END_OF_STREAM toDecode buffer next st = Ok st' ->
  0 <= dl_decoded st < toDecode -> toDecode < 2 ^ 32 ->
  0 <= dl_resetOffset st <= dl_decoded st ->
  src_decode (dl_voice st') = src_decode (dl_voice st) /\
  src_format (dl_voice st') = src_format (dl_voice st) /\
  dl_decoded st <= dl_decoded st' <= toDecode /\
  0 <= dl_resetOffset st' <= dl_decoded st' /\
  ((dl_decoded st' = toDecode /\
    src_bufferList (dl_voice st') = buffer :: next) \/
   (0 < LoopCount buffer /\
    src_bufferList (dl_voice st') =
      (if LoopCount buffer <? 255
       then set_LoopCount buffer (LoopCount buffer - 1) else buffer)
      :: next) \/
   (LoopCount buffer <= 0 /\ src_bufferList (dl_voice st') = next)).
Proof.
  unfold DecodeBuffers_round. intros H Hd HT Hr. inv_res.
  rewrite (u32_small (toDecode - dl_decoded st)) in H by lia.
  set (end_ := if (LoopCount buffer >? 0) && (LoopLength buffer >? 0)
               then LoopLength buffer else PlayLength buffer) in *.
  set (cur := src_curBufferOffset (dl_voice st)) in *.
  pose proof (u32_range (end_ - cur)) as Hu.
  pose proof (FAudio_min_range (u32 (end_ - cur)) (toDecode - dl_decoded st)
                ltac:(lia) ltac:(lia)) as Hmin.
  set (endRead := FAudio_min (u32 (end_ - cur)) (toDecode - dl_decoded st))
    in *.
  rewrite (u32_small (dl_decoded st + endRead)) in H by lia.
  rewrite (u32_small (dl_resetOffset st + endRead)) in H by lia.
  destruct (endRead <? toDecode - dl_decoded st) eqn:Hend.
  - destruct (LoopCount buffer >? 0) eqn:Hl.
    + inv_res. subst st'. cbn.
      repeat (split; [first [reflexivity|lia]|]).
      right. left. split; [lia|].
      destruct (LoopCount buffer <? 255) eqn:H255; [|reflexivity].
      rewrite u32_small by lia. reflexivity.
    + destruct next as [|b' next'].
      * inv_res. subst st'. cbn.
        repeat (split; [first [reflexivity|lia]|]).
        right. right. split; [lia|reflexivity].
      * inv_res. subst st'. cbn.
        repeat (split; [first [reflexivity|lia]|]).
        right. right. split; [lia|reflexivity].
  - inv_res. subst st'. cbn.
    repeat (split; [first [reflexivity|lia]|]).
    left. split; [lia|reflexivity].
Qed.

(** The loop stops when the request is complete or the queue is empty, and
    not before. *)
Lemma DecodeBuffers_loop_progress fuel : forall toDecode st st',
  DecodeBuffers_loop FAUDIO_END_OF_STREAM fuel toDecode st = Ok st' ->
  0 <= dl_decoded st <= toDecode -> toDecode < 2 ^ 32 ->
  0 <= dl_resetOffset st <= dl_decoded st ->
  dl_decoded st <= dl_decoded st' <= toDecode /\
  0 <= dl_resetOffset st' <= dl_decoded st' /\
  (src_bufferList (dl_voice st') = [] \/ dl_decoded st' = toDecode).
Proof.
  induction fuel as [|fuel IH]; intros toDecode st st' H Hd HT Hr;
    cbn [DecodeBuffers_loop] in H.
  - destruct (src_bufferList (dl_voice st)) as [|buffer next] eqn:Hq.
    + inv_res. subst st'. rewrite Hq. split; [lia|]. split; [lia|]. auto.
    + destruct (dl_decoded st <? toDecode) eqn:Hlt; [discriminate|].
      inv_res. subst st'. split; [lia|]. split; [lia|]. right. lia.
  - destruct (src_bufferList (dl_voice st)) as [|buffer next] eqn:Hq.
    + inv_res. subst st'. rewrite Hq. split; [lia|]. split; [lia|]. auto.
    + destruct (dl_decoded st <? toDecode) eqn:Hlt.
      2: { inv_res. subst st'. split; [lia|]. split; [lia|]. right. lia. }
      inv_res.
      match goal with
      | Hround : DecodeBuffers_round _ _ _ _ _ = Ok ?s |- _ =>
          destruct (DecodeBuffers_round_progress _ _ _ _ _ Hround)
            as (_ & _ & Hd' & Hr' & _); [lia|lia|lia|];
          destruct (IH _ _ _ H) as (Hd'' & Hr'' & Hexit); [lia|lia|lia|]
      end.
      split; [lia|]. split; [lia|]. exact Hexit.
Qed.

(** X8. A decode call fills the request or drains the queue. When the call
    returns with a buffer still queued, [*toDecode] is what it was: the
    frames asked for, and the padding, have all been decoded. In any case
    no more than these are decoded, and the returned [resetOffset] counts
    frames among them. *)
Theorem DecodeBuffers_fills_or_drains fuel voice toDecode voice' toDecode'
  resetOffset evs :
  FAudio_INTERNAL_DecodeBuffers EXTRA_DECODE_PADDING FAUDIO_END_OF_STREAM
    fuel voice toDecode = Ok (voice', toDecode', resetOffset, evs) ->
  0 <= EXTRA_DECODE_PADDING -> 0 <= toDecode ->
  toDecode + EXTRA_DECODE_PADDING < 2 ^ 64 ->
  src_decodeSamples voice < 2 ^ 32 ->
  (src_bufferList voice' <> [] -> toDecode' = toDecode) /\
  u32 (toDecode' + EXTRA_DECODE_PADDING) <= toDecode + EXTRA_DECODE_PADDING /\
  0 <= resetOffset <= u32 (toDecode' + EXTRA_DECODE_PADDING).
Proof.
  unfold FAudio_INTERNAL_DecodeBuffers. intros H Hpad Htd Hsmall Hsamples.
  assert (Hu : u64 (toDecode + EXTRA_DECODE_PADDING) =
               toDecode + EXTRA_DECODE_PADDING)
    by (apply Z.mod_small; lia).
  rewrite Hu in H. inv_res.
  match goal with
  | Hg : guard_res _ = Ok _ |- _ =>
      destruct (_ <=? _) eqn:Hle in Hg; [|discriminate Hg]
  end.
  match goal with
  | Hloop : DecodeBuffers_loop _ _ _ _ = Ok ?s |- _ =>
      destruct (DecodeBuffers_loop_progress _ _ _ _ Hloop)
        as (Hd & Hr & Hexit); [cbn; lia|lia|cbn; lia|];
      cbn in Hd;
      assert (Hback : u32 (u32 (dl_decoded s - EXTRA_DECODE_PADDING) +
                           EXTRA_DECODE_PADDING) = dl_decoded s)
  end.
  { unfold u32. rewrite Z.add_mod_idemp_l by lia.
    rewrite Z.mod_small by lia. lia. }
  subst. rewrite Hback. split; [|split; [lia|lia]].
  intros Hq. destruct Hexit as [Hempty|Hfull]; [contradiction|].
  rewrite Hfull. rewrite u32_small by lia. lia.
Qed.

Lemma DecodeBuffers_round_ends toDecode buffer next st :
  (forall b off n,
     src_decode (dl_voice st) b off n (src_format (dl_voice st))
       <> OutOfFuel) ->
  DecodeBuffers_round FAUDIO_END_OF_STREAM toDecode buffer next st
    <> OutOfFuel.
Proof.
  intros Hdec. unfold DecodeBuffers_round.
  match goal with
  | |- context [src_decode ?v ?b ?off ?n ?f] =>
      pose proof (Hdec b off n) as Hd;
      destruct (src_decode v b off n f) as [pcm| |];
      cbn [mbind res_bind]; try congruence
  end.
  match goal with
  | |- context [store ?m ?o ?l] =>
      pose proof (store_ends m o l) as Hs;
      destruct (store m o l) as [cache| |];
      cbn [mbind res_bind]; try congruence
  end.
  destruct (_ <? _); [|discriminate].
  destruct (LoopCount buffer >? 0); [discriminate|].
  destruct next; [|discriminate].
  match goal with
  | |- context [store ?m ?o ?l] =>
      pose proof (store_ends m o l) as Hs';
      destruct (store m o l); cbn [mbind res_bind]; congruence
  end.
Qed.

Lemma DecodeBuffers_loop_done fuel toDecode st :
  toDecode <= dl_decoded st ->
  DecodeBuffers_loop FAUDIO_END_OF_STREAM fuel toDecode st = Ok st.
Proof.
  intros H. assert (Hf : (dl_decoded st <? toDecode) = false) by lia.
  destruct fuel; cbn [DecodeBuffers_loop];
    destruct (src_bufferList (dl_voice st)); rewrite ?Hf; reflexivity.
Qed.

Lemma DecodeBuffers_loop_ends fuel : forall toDecode st,
  0 <= dl_decoded st <= toDecode -> toDecode < 2 ^ 32 ->
  0 <= dl_resetOffset st <= dl_decoded st ->
  Forall (fun b => LoopCount b < 255) (src_bufferList (dl_voice st)) ->
  (forall b off n,
     src_decode (dl_voice st) b off n (src_format (dl_voice st))
       <> OutOfFuel) ->
  (queue_rounds (src_bufferList (dl_voice st)) < fuel)%nat ->
  DecodeBuffers_loop FAUDIO_END_OF_STREAM fuel toDecode st <> OutOfFuel.
Proof.
  induction fuel as [|fuel IH]; intros toDecode st Hd HT Hr Hq Hdec Hfuel;
    [lia|].
  cbn [DecodeBuffers_loop].
  destruct (src_bufferList (dl_voice st)) as [|buffer next] eqn:Hqueue;
    [discriminate|].
  destruct (dl_decoded st <? toDecode) eqn:Hlt; [|discriminate].
  pose proof (DecodeBuffers_round_ends toDecode buffer next st Hdec) as Hne.
  destruct (DecodeBuffers_round FAUDIO_END_OF_STREAM toDecode buffer next st)
    as [st'| |] eqn:Hround; cbn [mbind res_bind]; try congruence.
  destruct (DecodeBuffers_round_progress _ _ _ _ _ Hround)
    as (Hsame & Hfmt & Hd' & Hr' & Hcases); [lia|lia|lia|].
  apply Forall_cons in Hq. destruct Hq as [Hb Hnext].
  cbn [queue_rounds foldr] in Hfuel.
  fold (queue_rounds next) in Hfuel.
  destruct Hcases as [[Hfull _]|[[Hloop Hq']|[Hend Hq']]].
  - rewrite DecodeBuffers_loop_done by lia. discriminate.
  - apply IH; try lia.
    + rewrite Hq'. assert (H255 : (LoopCount buffer <? 255) = true) by lia.
      rewrite H255. constructor; [cbn; lia|exact Hnext].
    + rewrite Hsame, Hfmt. exact Hdec.
    + rewrite Hq'. assert (H255 : (LoopCount buffer <? 255) = true) by lia.
      rewrite H255. cbn [queue_rounds foldr set_LoopCount LoopCount].
      fold (queue_rounds next). lia.
  - apply IH; try lia.
    + rewrite Hq'. exact Hnext.
    + rewrite Hsame, Hfmt. exact Hdec.
    + rewrite Hq'. lia.
Qed.

(** X9. The decode loop ends. For a queue without an endless loop (every
    [LoopCount] below 255) and a decoder that ends, a call takes at most
    one round for every buffer, one for every loop of a buffer, and one
    more: with that much fuel it does not run out. *)
Theorem DecodeBuffers_ends fuel voice toDecode :
  src_decodeSamples voice < 2 ^ 32 ->
  Forall (fun b => LoopCount b < 255) (src_bufferList voice) ->
  (forall b off n,
     src_decode voice b off n (src_format voice) <> OutOfFuel) ->
  (queue_rounds (src_bufferList voice) < fuel)%nat ->
  FAudio_INTERNAL_DecodeBuffers EXTRA_DECODE_PADDING FAUDIO_END_OF_STREAM
    fuel voice toDecode <> OutOfFuel.
Proof.
  intros Hsamples Hq Hdec Hfuel. unfold FAudio_INTERNAL_DecodeBuffers.
  set (T := u64 (toDecode + EXTRA_DECODE_PADDING)).
  assert (HT : 0 <= T) by (apply Z.mod_pos_bound; lia).
  clearbody T.
  destruct (T <=? src_decodeSamples voice) eqn:Hle;
    cbn [guard_res mbind res_bind]; [|discriminate].
  match goal with
  | |- context [DecodeBuffers_loop ?e ?f ?t ?s] =>
      pose proof (DecodeBuffers_loop_ends f t s) as Hloop;
      destruct (DecodeBuffers_loop e f t s); cbn [mbind res_bind];
        try discriminate
  end.
  exfalso. apply Hloop; cbn; try lia; try assumption. reflexivity.
Qed.

End DecodeLoop.

(** A buffer that loops three times takes five rounds at most. *)
Lemma DecodeBuffers_ends_witness :
  FAudio_INTERNAL_DecodeBuffers 2 64 5 (looping_voice 3) 4 <> OutOfFuel.
Proof.
  apply DecodeBuffers_ends.
  - cbn. lia.
  - repeat constructor.
  - intros b off n. cbn.
    unfold Decoders.FAudio_INTERNAL_DecodeMonoPCM8.
    pose proof (load_ends (pAudioData b) (u32 (PlayBegin b + off)) n).
    destruct (load _ _ _); cbn [mbind res_bind]; congruence.
  - cbn. lia.
Defined.

(** Four frames and two of padding from a buffer that loops three times
    over one frame: the queue keeps the buffer, [*toDecode] stays 4, and
    the two rewinds took back 3 + 2 frames. *)
Lemma DecodeBuffers_fills_or_drains_witness :
  match FAudio_INTERNAL_DecodeBuffers 2 64 40 (looping_voice 3) 4 with
  | Ok (voice', toDecode', resetOffset, _) =>
      (src_bufferList voice' <> [] -> toDecode' = 4) /\
      u32 (toDecode' + 2) <= 4 + 2 /\
      0 <= resetOffset <= u32 (toDecode' + 2)
  | _ => False
  end /\
  decoded_after (FAudio_INTERNAL_DecodeBuffers 2 64 40 (looping_voice 3) 4) =
    Some (1%nat, 4, 5).
Proof.
  assert (Hc : decoded_after
                 (FAudio_INTERNAL_DecodeBuffers 2 64 40 (looping_voice 3) 4) =
               Some (1%nat, 4, 5)) by (vm_compute; reflexivity).
  split; [|exact Hc].
  destruct (FAudio_INTERNAL_DecodeBuffers 2 64 40 (looping_voice 3) 4)
    as [[[[voice' toDecode'] resetOffset] evs]| |] eqn:H;
    try discriminate Hc.
  apply (DecodeBuffers_fills_or_drains 2 64 40 (looping_voice 3) 4 voice'
           toDecode' resetOffset evs H); cbn; lia.
Defined.

Section EmptyLoop.

Variable EXTRA_DECODE_PADDING : Z.
Variable FAUDIO_END_OF_STREAM : Z.

Lemma store_nothing {A} (mem : list A) : store mem 0 [] = Ok mem.
Proof.
  unfold store. cbn [length]. change (0 <=? 0) with true.
  assert (H : (0 + Z.of_nat 0 <=? Z.of_nat (length mem)) = true)
    by (apply Z.leb_le; lia).
  rewrite H. cbn [andb]. rewrite Nat.add_0_r. cbn [take app drop].
  reflexivity.
Qed.

Lemma DecodeBuffers_loop_stuck fuel : forall toDecode st buffer next,
  src_bufferList (dl_voice st) = buffer :: next ->
  255 <= LoopCount buffer -> 0 < LoopLength buffer ->
  LoopBegin buffer = LoopLength buffer ->
  src_curBufferOffset (dl_voice st) = LoopLength buffer ->
  src_decode (dl_voice st) buffer (LoopLength buffer) 0
    (src_format (dl_voice st)) = Ok [] ->
  dl_decoded st = 0 -> 0 < toDecode < 2 ^ 32 ->
  DecodeBuffers_loop FAUDIO_END_OF_STREAM fuel toDecode st = OutOfFuel.
Proof.
  induction fuel as [|fuel IH];
    intros toDecode st buffer next Hq Hc Hl Hb Hcur Hdec Hd HT;
    cbn [DecodeBuffers_loop]; rewrite Hq;
    assert (Hlt : (dl_decoded st <? toDecode) = true) by lia; rewrite Hlt;
    [reflexivity|].
  unfold DecodeBuffers_round.
  assert (Hc0 : (LoopCount buffer >? 0) = true) by lia.
  assert (Hl0 : (LoopLength buffer >? 0) = true) by lia.
  rewrite Hc0, Hl0, Hcur, Hd. cbn [andb].
  rewrite Z.sub_diag, Z.sub_0_r. change (u32 0) with 0.
  rewrite (u32_small toDecode) by lia.
  rewrite (FAudio_min_l 0 toDecode) by lia.
  rewrite Hdec. cbn [mbind res_bind].
  rewrite Z.mul_0_l. change (u32 0) with 0. rewrite store_nothing.
  cbn [mbind res_bind].
  assert (Hlt' : (0 <? toDecode) = true) by lia. rewrite Hlt'.
  assert (H255 : (LoopCount buffer <? 255) = false) by lia. rewrite H255.
  apply (IH toDecode _ buffer next); cbn; try assumption; try lia;
    reflexivity.
Qed.

(** X10. A buffer that loops without end ([LoopCount] 255 or more) over an
    empty window ([LoopBegin = LoopLength]) hangs the decode call once the
    position is at the loop start: every round reads no frame, rewinds and
    notifies [OnLoopEnd], and the request is never filled, whatever the
    fuel. *)
Theorem DecodeBuffers_hangs_on_empty_loop fuel voice toDecode buffer next :
  src_bufferList voice = buffer :: next ->
  255 <= LoopCount buffer -> 0 < LoopLength buffer ->
  LoopBegin buffer = LoopLength buffer ->
  src_curBufferOffset voice = LoopLength buffer ->
  src_decode voice buffer (LoopLength buffer) 0 (src_format voice) = Ok [] ->
  0 < u64 (toDecode + EXTRA_DECODE_PADDING) <= src_decodeSamples voice ->
  src_decodeSamples voice < 2 ^ 32 ->
  FAudio_INTERNAL_DecodeBuffers EXTRA_DECODE_PADDING FAUDIO_END_OF_STREAM
    fuel voice toDecode = OutOfFuel.
Proof.
  intros Hq Hc Hl Hb Hcur Hdec HT Hs. unfold FAudio_INTERNAL_DecodeBuffers.
  assert (Hle : (u64 (toDecode + EXTRA_DECODE_PADDING) <=?
                 src_decodeSamples voice) = true) by lia.
  rewrite Hle. cbn [guard_res mbind res_bind].
  rewrite (DecodeBuffers_loop_stuck fuel _ _ buffer next);
    cbn; try assumption; try lia.
  reflexivity.
Qed.

End EmptyLoop.

(** [stuck_voice] asked for four frames: no fuel is enough. *)
Lemma DecodeBuffers_hangs_on_empty_loop_witness :
  FAudio_INTERNAL_DecodeBuffers 2 64 1000 stuck_voice 4 = OutOfFuel.
Proof.
  eapply DecodeBuffers_hangs_on_empty_loop.
  - reflexivity.
  - cbn. lia.
  - cbn. lia.
  - reflexivity.
  - reflexivity.
  - vm_compute. reflexivity.
  - vm_compute. split; [reflexivity|discriminate].
  - cbn. lia.
Defined.

(** ** The linear resampler in closed form *)

(** Comparisons that compute to a boolean. *)
Ltac blia :=
  first [ lia
        | apply Z.ltb_lt; lia | apply Z.leb_le; lia
        | apply Z.ltb_ge; lia | apply Z.leb_gt; lia ].

Lemma shiftr_fixed z : Z.shiftr z FIXED_PRECISION = z / 2 ^ 32.
Proof. apply Z.shiftr_div_pow2. unfold FIXED_PRECISION. lia. Qed.

Lemma land_fixed z : Z.land z FIXED_FRACTION_MASK = z mod 2 ^ 32.
Proof.
  change FIXED_FRACTION_MASK with (Z.ones 32). apply Z.land_ones. lia.
Qed.

Lemma u64_small z : 0 <= z < 2 ^ 64 -> u64 z = z.
Proof. apply Z.mod_small. Qed.

Lemma u64_add_idem a b : u64 (u64 a + b) = u64 (a + b).
Proof. unfold u64. apply Zplus_mod_idemp_l. Qed.

(** Where the resampler stands after one more step. *)
Lemma phase_step cur step r :
  (cur + (r + 1) * step) / 2 ^ 32 =
    (cur + step) / 2 ^ 32 + ((cur + step) mod 2 ^ 32 + r * step) / 2 ^ 32 /\
  (cur + (r + 1) * step) mod 2 ^ 32 =
    ((cur + step) mod 2 ^ 32 + r * step) mod 2 ^ 32.
Proof.
  replace (cur + (r + 1) * step) with ((cur + step) + r * step) by ring.
  split.
  - rewrite (Z_div_mod_eq_full (cur + step) (2 ^ 32)) at 1.
    rewrite <- Z.add_assoc, (Z.mul_comm (2 ^ 32)), Z.div_add_l by lia.
    reflexivity.
  - rewrite Z.add_mod_idemp_l by lia. reflexivity.
Qed.

Lemma decoded_at_Ok cache k d :
  load1 cache k = Ok d -> decoded_at cache k = d.
Proof.
  unfold load1, decoded_at. destruct (0 <=? k); [|discriminate].
  destruct (cache !! Z.to_nat k); [|discriminate].
  intros H. inv_res. exact H.
Qed.

Section Resampler.

Variable decodeCache : list Z.
Variable step : Z.
Hypothesis step_range : 0 <= step < 2 ^ 64 - 2 ^ 32.

Lemma mono_round_Ok p rc cur off out d0 d1 :
  load1 decodeCache p = Ok d0 -> load1 decodeCache (p + 1) = Ok d1 ->
  0 <= rc < Z.of_nat (length out) -> 0 <= cur < 2 ^ 32 ->
  ResamplePCM_mono_round decodeCache step
    {| rl_decodeCache := p; rl_resampleCache := rc; rl_cur := cur;
       rl_resampleOffset := off; rl_out := out |} =
  Ok {| rl_decodeCache := p + (cur + step) / 2 ^ 32;
        rl_resampleCache := rc + 1;
        rl_cur := (cur + step) mod 2 ^ 32;
        rl_resampleOffset := u64 (off + step);
        rl_out := <[Z.to_nat rc := lerp d0 d1 cur]> out |}.
Proof.
  intros Hd0 Hd1 Hrc Hcur. unfold ResamplePCM_mono_round.
  cbn [rl_decodeCache rl_resampleCache rl_cur rl_resampleOffset rl_out].
  rewrite Hd0, Hd1. cbn [mbind res_bind].
  rewrite store1_Ok by lia. cbn [mbind res_bind].
  rewrite (u64_small (cur + step)) by lia.
  rewrite shiftr_fixed, land_fixed. reflexivity.
Qed.

(** The mono loop (taken for every channel count but two). *)
Lemma mono_rounds n : forall p cur off rc out,
  0 <= p -> 0 <= cur < 2 ^ 32 -> 0 <= off < 2 ^ 64 -> 0 <= rc ->
  rc + Z.of_nat n <= Z.of_nat (length out) ->
  (forall i, 0 <= i < Z.of_nat n ->
     p + (cur + i * step) / 2 ^ 32 + 1 < Z.of_nat (length decodeCache)) ->
  exists st,
    rounds n (ResamplePCM_mono_round decodeCache step)
      {| rl_decodeCache := p; rl_resampleCache := rc; rl_cur := cur;
         rl_resampleOffset := off; rl_out := out |} = Ok st /\
    rl_out st =
      resampled_into decodeCache 1 p cur step rc (Z.of_nat n) out /\
    rl_resampleOffset st = u64 (off + Z.of_nat n * step).
Proof.
  induction n as [|n IH]; intros p cur off rc out Hp Hcur Hoff0 Hrc Hout Hin.
  - eexists. split; [reflexivity|]. cbn [rl_out rl_resampleOffset]. split.
    + unfold resampled_into. apply list_eq. intros i.
      rewrite list_lookup_imap. destruct (out !! i); [|reflexivity].
      cbn. rewrite Z.mul_0_r.
      destruct (0 <=? Z.of_nat i - rc) eqn:E1;
        destruct (Z.of_nat i - rc <? 0) eqn:E2; try reflexivity; lia.
    + cbn. rewrite Z.add_0_r, u64_small by lia. reflexivity.
  - pose proof (Hin 0 ltac:(lia)) as H0.
    rewrite Z.mul_0_l, Z.add_0_r, Z.div_small in H0 by lia.
    destruct (load1_Ok decodeCache p) as (d0 & Hd0 & _); [lia|].
    destruct (load1_Ok decodeCache (p + 1)) as (d1 & Hd1 & _); [lia|].
    cbn [rounds].
    rewrite (mono_round_Ok p rc cur off out d0 d1) by (assumption || lia).
    cbn [mbind res_bind].
    pose proof (Z.mod_pos_bound (cur + step) (2 ^ 32) ltac:(lia)) as Hcur'.
    assert (Hq : 0 <= (cur + step) / 2 ^ 32) by (apply Z.div_pos; lia).
    destruct (IH (p + (cur + step) / 2 ^ 32) ((cur + step) mod 2 ^ 32)
                (u64 (off + step)) (rc + 1)
                (<[Z.to_nat rc := lerp d0 d1 cur]> out))
      as (st & Hst & Hfill & Hoff); try lia.
    { apply Z.mod_pos_bound. lia. }
    { rewrite length_insert. lia. }
    { intros i Hi. destruct (phase_step cur step i) as [Hdiv _].
      pose proof (Hin (i + 1) ltac:(lia)) as Hi'. rewrite Hdiv in Hi'. lia. }
    exists st. split; [exact Hst|]. split.
    + rewrite Hfill. unfold resampled_into. apply list_eq. intros i.
      rewrite !list_lookup_imap.
      destruct (decide (i = Z.to_nat rc)) as [->|Hne].
      * rewrite list_lookup_insert_eq by lia.
        destruct (lookup_lt_is_Some_2 out (Z.to_nat rc)) as [x Hx]; [lia|].
        rewrite Hx. cbn [fmap option_fmap option_map]. f_equal.
        rewrite Z2Nat.id by lia.
        replace (rc - (rc + 1)) with (-1) by lia.
        change (0 <=? -1) with false. cbn [andb].
        rewrite Z.sub_diag. change (0 <=? 0) with true.
        assert (Hlt : (0 <? 1 * Z.of_nat (S n)) = true) by blia.
        rewrite Hlt. cbn [andb].
        change (0 / 1) with 0. change (0 mod 1) with 0.
        rewrite Z.mul_0_l, !Z.add_0_r, Z.div_small, Z.mod_small by lia.
        rewrite Z.mul_0_r, Z.add_0_r.
        rewrite (decoded_at_Ok _ _ _ Hd0), (decoded_at_Ok _ _ _ Hd1).
        reflexivity.
      * rewrite list_lookup_insert_ne by lia.
        destruct (out !! i) as [x|]; [|reflexivity].
        cbn [fmap option_fmap option_map]. f_equal.
        remember (Z.of_nat i - (rc + 1)) as r eqn:Hr.
        replace (Z.of_nat i - rc) with (r + 1) by lia.
        destruct (0 <=? r) eqn:E1.
        -- assert (E1' : (0 <=? r + 1) = true) by blia. rewrite E1'.
           destruct (r <? 1 * Z.of_nat n) eqn:E2.
           2: { assert (E2' : (r + 1 <? 1 * Z.of_nat (S n)) = false)
                  by blia.
                rewrite E2'. reflexivity. }
           assert (E2' : (r + 1 <? 1 * Z.of_nat (S n)) = true) by blia.
           rewrite E2'. cbn [andb].
           rewrite !Z.div_1_r, !Z.mod_1_r.
           destruct (phase_step cur step r) as [Hdiv Hmod].
           rewrite Hdiv, Hmod. rewrite !Z.mul_1_l, !Z.add_0_r.
           rewrite !Z.add_assoc. reflexivity.
        -- assert (E1' : (0 <=? r + 1) = false) by blia.
           rewrite E1'. reflexivity.
    + rewrite Hoff. rewrite !u64_add_idem. f_equal. lia.
Qed.

Lemma stereo_round_Ok p rc cur off out d0 d1 d2 d3 :
  load1 decodeCache p = Ok d0 -> load1 decodeCache (p + 1) = Ok d1 ->
  load1 decodeCache (p + 2) = Ok d2 -> load1 decodeCache (p + 3) = Ok d3 ->
  0 <= rc -> rc + 1 < Z.of_nat (length out) -> 0 <= cur < 2 ^ 32 ->
  ResamplePCM_stereo_round decodeCache step
    {| rl_decodeCache := p; rl_resampleCache := rc; rl_cur := cur;
       rl_resampleOffset := off; rl_out := out |} =
  Ok {| rl_decodeCache :=
          p + (cur + step) / 2 ^ 32 + (cur + step) / 2 ^ 32;
        rl_resampleCache := rc + 2;
        rl_cur := (cur + step) mod 2 ^ 32;
        rl_resampleOffset := u64 (off + step);
        rl_out := <[Z.to_nat (rc + 1) := lerp d1 d3 cur]>
                    (<[Z.to_nat rc := lerp d0 d2 cur]> out) |}.
Proof.
  intros Hd0 Hd1 Hd2 Hd3 Hrc Hrc' Hcur. unfold ResamplePCM_stereo_round.
  cbn [rl_decodeCache rl_resampleCache rl_cur rl_resampleOffset rl_out].
  rewrite Hd0, Hd1, Hd2, Hd3. cbn [mbind res_bind].
  rewrite store1_Ok by lia. cbn [mbind res_bind].
  rewrite store1_Ok by (rewrite length_insert; lia). cbn [mbind res_bind].
  rewrite (u64_small (cur + step)) by lia.
  rewrite shiftr_fixed, land_fixed. reflexivity.
Qed.

(** The stereo loop. *)
Lemma stereo_rounds n : forall p cur off rc out,
  0 <= p -> 0 <= cur < 2 ^ 32 -> 0 <= off < 2 ^ 64 -> 0 <= rc ->
  rc + 2 * Z.of_nat n <= Z.of_nat (length out) ->
  (forall i, 0 <= i < Z.of_nat n ->
     p + 2 * ((cur + i * step) / 2 ^ 32) + 3
       < Z.of_nat (length decodeCache)) ->
  exists st,
    rounds n (ResamplePCM_stereo_round decodeCache step)
      {| rl_decodeCache := p; rl_resampleCache := rc; rl_cur := cur;
         rl_resampleOffset := off; rl_out := out |} = Ok st /\
    rl_out st =
      resampled_into decodeCache 2 p cur step rc (Z.of_nat n) out /\
    rl_resampleOffset st = u64 (off + Z.of_nat n * step).
Proof.
  induction n as [|n IH]; intros p cur off rc out Hp Hcur Hoff0 Hrc Hout Hin.
  - eexists. split; [reflexivity|]. cbn [rl_out rl_resampleOffset]. split.
    + unfold resampled_into. apply list_eq. intros i.
      rewrite list_lookup_imap. destruct (out !! i); [|reflexivity].
      cbn. rewrite Z.mul_0_r.
      destruct (0 <=? Z.of_nat i - rc) eqn:E1;
        destruct (Z.of_nat i - rc <? 0) eqn:E2; try reflexivity; lia.
    + cbn. rewrite Z.add_0_r, u64_small by lia. reflexivity.
  - pose proof (Hin 0 ltac:(lia)) as H0.
    rewrite Z.mul_0_l, Z.add_0_r, Z.div_small in H0 by lia.
    destruct (load1_Ok decodeCache p) as (d0 & Hd0 & _); [lia|].
    destruct (load1_Ok decodeCache (p + 1)) as (d1 & Hd1 & _); [lia|].
    destruct (load1_Ok decodeCache (p + 2)) as (d2 & Hd2 & _); [lia|].
    destruct (load1_Ok decodeCache (p + 3)) as (d3 & Hd3 & _); [lia|].
    cbn [rounds].
    rewrite (stereo_round_Ok p rc cur off out d0 d1 d2 d3)
      by (assumption || lia).
    cbn [mbind res_bind].
    pose proof (Z.mod_pos_bound (cur + step) (2 ^ 32) ltac:(lia)) as Hcur'.
    assert (Hq : 0 <= (cur + step) / 2 ^ 32) by (apply Z.div_pos; lia).
    destruct (IH (p + (cur + step) / 2 ^ 32 + (cur + step) / 2 ^ 32)
                ((cur + step) mod 2 ^ 32)
                (u64 (off + step)) (rc + 2)
                (<[Z.to_nat (rc + 1) := lerp d1 d3 cur]>
                   (<[Z.to_nat rc := lerp d0 d2 cur]> out)))
      as (st & Hst & Hfill & Hoff); try lia.
    { apply Z.mod_pos_bound. lia. }
    { rewrite !length_insert. lia. }
    { intros i Hi. destruct (phase_step cur step i) as [Hdiv _].
      pose proof (Hin (i + 1) ltac:(lia)) as Hi'. rewrite Hdiv in Hi'. lia. }
    exists st. split; [exact Hst|]. split.
    + rewrite Hfill. unfold resampled_into. apply list_eq. intros i.
      rewrite !list_lookup_imap.
      destruct (decide (i = Z.to_nat rc)) as [->|Hne].
      * rewrite list_lookup_insert_ne, list_lookup_insert_eq by lia.
        destruct (lookup_lt_is_Some_2 out (Z.to_nat rc)) as [x Hx]; [lia|].
        rewrite Hx. cbn [fmap option_fmap option_map]. f_equal.
        rewrite Z2Nat.id by lia.
        replace (rc - (rc + 2)) with (-2) by lia.
        change (0 <=? -2) with false. cbn [andb].
        rewrite Z.sub_diag. change (0 <=? 0) with true.
        assert (Hlt : (0 <? 2 * Z.of_nat (S n)) = true) by blia.
        rewrite Hlt. cbn [andb].
        change (0 / 2) with 0. change (0 mod 2) with 0.
        rewrite Z.mul_0_l, !Z.add_0_r, Z.div_small, Z.mod_small by lia.
        rewrite Z.mul_0_r, Z.add_0_r.
        rewrite (decoded_at_Ok _ _ _ Hd0), (decoded_at_Ok _ _ _ Hd2).
        reflexivity.
      * destruct (decide (i = Z.to_nat (rc + 1))) as [->|Hne'].
        -- rewrite list_lookup_insert_eq by (rewrite length_insert; lia).
           destruct (lookup_lt_is_Some_2 out (Z.to_nat (rc + 1)))
             as [x Hx]; [lia|].
           rewrite Hx. cbn [fmap option_fmap option_map]. f_equal.
           rewrite Z2Nat.id by lia.
           replace (rc + 1 - (rc + 2)) with (-1) by lia.
           change (0 <=? -1) with false. cbn [andb].
           replace (rc + 1 - rc) with 1 by lia. change (0 <=? 1) with true.
           assert (Hlt : (1 <? 2 * Z.of_nat (S n)) = true) by blia.
           rewrite Hlt. cbn [andb].
           change (1 / 2) with 0. change (1 mod 2) with 1.
           rewrite Z.mul_0_l, !Z.add_0_r, Z.div_small, Z.mod_small by lia.
           rewrite Z.mul_0_r, Z.add_0_r.
           replace (p + 1 + 2) with (p + 3) by lia.
           rewrite (decoded_at_Ok _ _ _ Hd1), (decoded_at_Ok _ _ _ Hd3).
           reflexivity.
        -- rewrite !list_lookup_insert_ne by lia.
           destruct (out !! i) as [x|]; [|reflexivity].
           cbn [fmap option_fmap option_map]. f_equal.
           remember (Z.of_nat i - (rc + 2)) as r eqn:Hr.
           replace (Z.of_nat i - rc) with (r + 2) by lia.
           destruct (0 <=? r) eqn:E1.
           ++ assert (E1' : (0 <=? r + 2) = true) by blia. rewrite E1'.
              destruct (r <? 2 * Z.of_nat n) eqn:E2.
              2: { assert (E2' : (r + 2 <? 2 * Z.of_nat (S n)) = false)
                     by blia.
                   rewrite E2'. reflexivity. }
              assert (E2' : (r + 2 <? 2 * Z.of_nat (S n)) = true) by blia.
              rewrite E2'. cbn [andb].
              replace (r + 2) with (r + 1 * 2) by lia.
              rewrite Z.div_add, Z.mod_add by lia.
              destruct (phase_step cur step (r / 2)) as [Hdiv Hmod].
              rewrite Hdiv, Hmod. f_equal; f_equal; ring.
           ++ assert (E1' : (0 <=? r + 2) = false) by blia.
              rewrite E1'. reflexivity.
    + rewrite Hoff. rewrite !u64_add_idem. f_equal. lia.
Qed.

End Resampler.

(** X11. The linear resampler in closed form. Output frame [i] stands at
    [phase + i * step] in 32.32 fixed point, [phase] being the fraction of
    [resampleOffset] at entry: it is the interpolation, by the fraction of
    that position, between the decoded frame at its whole part and the
    frame after it, for each of the two channels of a stereo voice and for
    the one value a frame that the loop handles otherwise. The call
    succeeds when both caches are long enough for the last frame, writes
    nothing else, and moves [resampleOffset] on by [toResample * step]. *)
Theorem ResamplePCM_closed_form voice resampleCache toResample :
  let c := if nChannels (src_format voice) =? 2 then 2 else 1 in
  let phase := src_resampleOffset voice mod 2 ^ 32 in
  let step := src_resampleStep voice in
  0 <= toResample < 2 ^ 32 ->
  0 <= step < 2 ^ 64 - 2 ^ 32 ->
  0 <= src_resampleOffset voice < 2 ^ 64 ->
  0 <= resampleCache ->
  resampleCache + c * toResample
    <= Z.of_nat (length (src_outputResampleCache voice)) ->
  (0 < toResample ->
   c * ((phase + (toResample - 1) * step) / 2 ^ 32) + 2 * c
     <= Z.of_nat (length (src_decodeCache voice))) ->
  FAudio_INTERNAL_ResamplePCM voice resampleCache toResample =
    Ok (set_resample_state voice
          (resampled_into (src_decodeCache voice) c 0 phase step
             resampleCache toResample (src_outputResampleCache voice))
          (src_resampleFreqRatio voice) step
          (u64 (src_resampleOffset voice + toResample * step))).
Proof.
  intros c phase step Hn Hstep Hoff Hrc Hout Hin.
  unfold FAudio_INTERNAL_ResamplePCM.
  assert (Hlt : (toResample <? 2 ^ 32) = true) by blia. rewrite Hlt.
  rewrite land_fixed. fold phase step.
  pose proof (Z.mod_pos_bound (src_resampleOffset voice) (2 ^ 32)
                ltac:(lia)) as Hphase. fold phase in Hphase.
  assert (Hmono : forall i, 0 <= i < toResample ->
            (phase + i * step) / 2 ^ 32
              <= (phase + (toResample - 1) * step) / 2 ^ 32).
  { intros i Hi. apply Z.div_le_mono; [lia|nia]. }
  assert (Hpos : forall i, 0 <= i -> 0 <= (phase + i * step) / 2 ^ 32).
  { intros i Hi. apply Z.div_pos; [nia|lia]. }
  subst c. destruct (nChannels (src_format voice) =? 2).
  - destruct (stereo_rounds (src_decodeCache voice) step Hstep
                (Z.to_nat toResample) 0 phase (src_resampleOffset voice)
                resampleCache (src_outputResampleCache voice))
      as (st & -> & Hfill & Hoff'); try lia.
    { intros i Hi. specialize (Hmono i ltac:(lia)).
      specialize (Hpos i ltac:(lia)). lia. }
    cbn [mbind res_bind]. rewrite Hfill, Hoff', Z2Nat.id by lia.
    reflexivity.
  - destruct (mono_rounds (src_decodeCache voice) step Hstep
                (Z.to_nat toResample) 0 phase (src_resampleOffset voice)
                resampleCache (src_outputResampleCache voice))
      as (st & -> & Hfill & Hoff'); try lia.
    { intros i Hi. specialize (Hmono i ltac:(lia)).
      specialize (Hpos i ltac:(lia)). lia. }
    cbn [mbind res_bind]. rewrite Hfill, Hoff', Z2Nat.id by lia.
    reflexivity.
Qed.

(** Step 1.5 from half a frame in: the first frame lies halfway between
    the decoded frames 0 and 1, the second on the decoded frame 2. *)
Lemma ResamplePCM_closed_form_witness :
  resampled (FAudio_INTERNAL_ResamplePCM pitched_voice 0 2) =
  Some ([F32.of_pow2 1 (-2); F32.of_pow2 (-1) (-2);
         F32.of_pow2 1 (-2); F32.of_pow2 1 (-3); F32.zero; F32.zero],
        2 ^ 31 + 2 * (3 * 2 ^ 31)).
Proof.
  rewrite (ResamplePCM_closed_form pitched_voice 0 2).
  - vm_compute. reflexivity.
  - lia.
  - vm_compute. split; [discriminate|reflexivity].
  - vm_compute. split; [discriminate|reflexivity].
  - lia.
  - vm_compute. discriminate.
  - intros _. vm_compute. discriminate.
Defined.

(** ** The passes of an engine update *)

Lemma active_sources_snoc srcs done i :
  active_sources srcs (done ++ [i]) =
  active_sources srcs done ++
  match srcs !! i with
  | Some v => if src_active v then [i] else []
  | None => []
  end.
Proof.
  unfold active_sources. rewrite map_app, concat_app. cbn [map concat].
  rewrite app_nil_r. reflexivity.
Qed.

Lemma stage_members_snoc h done i q :
  stage_members h (done ++ [q]) i =
  stage_members h done i ++
  match stage_of h q with
  | Some k => if k =? i then [q] else []
  | None => []
  end.
Proof.
  unfold stage_members. rewrite map_app, concat_app. cbn [map concat].
  rewrite app_nil_r. reflexivity.
Qed.

Section Schedule.

Variable EXTRA_DECODE_PADDING : Z.
Variable FAUDIO_END_OF_STREAM : Z.
Variable FAUDIO_MAX_VOLUME_LEVEL : spec_float.
Variable FAudio_PlatformResample :
  nat -> list spec_float -> Z -> list spec_float -> Z -> list spec_float * Z.

Variable h0 : voices.
Variable srcs : list FAudioSourceVoice.
Variable subs : list nat.

Abbreviation sources_scheduled := (sources_scheduled h0 srcs).
Abbreviation stage_scheduled := (stage_scheduled h0).
Abbreviation stages_scheduled := (stages_scheduled h0 subs).

Lemma UpdateEngine_source_scheduled fuel master done i st st' :
  UpdateEngine_source EXTRA_DECODE_PADDING FAUDIO_END_OF_STREAM
    FAUDIO_MAX_VOLUME_LEVEL fuel master i st = Ok st' ->
  sources_scheduled done st -> sources_scheduled (done ++ [i]) st'.
Proof.
  unfold UpdateEngine_source, sources_scheduled, stages_kept, flags_kept.
  intros H (Hst & Hfl & Hcalls & Hidle).
  destruct (up_sources st !! i) as [voice|] eqn:Hi; [|discriminate].
  pose proof (Hfl i) as Hfi. rewrite Hi in Hfi.
  destruct (srcs !! i) as [v0|] eqn:Hv0; [|discriminate].
  cbn in Hfi. injection Hfi as Hfi.
  rewrite active_sources_snoc, Hv0, <- Hfi.
  destruct (src_active voice) eqn:Hact.
  - inv_res. destruct a as [[heap' voice'] evs]. inv_res. subst st'.
    apply MixSource_leaves in Ha as [Hlay Hact'].
    cbn [up_heap up_sources up_calls]. repeat split.
    + intros q. rewrite (same_layout_stage _ _ q Hlay). apply Hst.
    + intros j. destruct (decide (i = j)) as [<-|Hne].
      * rewrite list_lookup_insert_eq by (eapply lookup_lt_Some, Hi).
        rewrite Hv0. cbn. congruence.
      * rewrite list_lookup_insert_ne by exact Hne. apply Hfl.
    + rewrite map_app, Hcalls. reflexivity.
    + intros j v Hj Hv. destruct (decide (i = j)) as [<-|Hne].
      * congruence.
      * rewrite list_lookup_insert_ne by exact Hne. apply Hidle; assumption.
  - inv_res. subst st'. repeat split; auto.
    rewrite app_nil_r. exact Hcalls.
Qed.

Lemma UpdateEngine_submix_scheduled base sources i done q st st' :
  UpdateEngine_submix FAUDIO_MAX_VOLUME_LEVEL FAudio_PlatformResample
    i q st = Ok st' ->
  stage_scheduled base sources i done st ->
  stage_scheduled base sources i (done ++ [q]) st'.
Proof.
  unfold UpdateEngine_submix, deref, stage_scheduled, stages_kept.
  intros H (Hst & Hsrc & Hcalls).
  destruct (up_heap st !! q) as [[m|m]|] eqn:Hq;
    cbn [mbind res_bind as_submix] in H; try discriminate.
  assert (Hstage : stage_of h0 q = Some (mix_processingStage m)).
  { rewrite <- Hst. unfold stage_of. rewrite Hq. reflexivity. }
  rewrite stage_members_snoc, Hstage.
  destruct (mix_processingStage m =? i) eqn:Hi.
  - inv_res. subst st'. apply MixSubmix_layout in Ha.
    cbn [up_heap up_sources up_calls]. repeat split.
    + intros r. rewrite (same_layout_stage _ _ r Ha). apply Hst.
    + exact Hsrc.
    + rewrite Hcalls, map_app, app_assoc. reflexivity.
  - inv_res. subst st'. repeat split; auto.
    rewrite app_nil_r. exact Hcalls.
Qed.

Lemma UpdateEngine_stage_scheduled base sources i st st' :
  foldM (UpdateEngine_submix FAUDIO_MAX_VOLUME_LEVEL FAudio_PlatformResample i)
        subs st = Ok st' ->
  stages_scheduled base sources i st ->
  stages_scheduled base sources (i + 1) st'.
Proof.
  intros H (H0 & Hst & Hsrc & Hcalls).
  destruct (foldM_invariant
              (stage_scheduled (up_calls st) sources i)
              (UpdateEngine_submix FAUDIO_MAX_VOLUME_LEVEL
                 FAudio_PlatformResample i)
              (fun done q s s' Hs =>
                 UpdateEngine_submix_scheduled (up_calls st) sources i done q
                   s s' Hs)
              subs [] st st' H)
    as (Hst' & Hsrc' & Hcalls').
  { repeat split; auto. cbn. rewrite ?app_nil_r. reflexivity. }
  repeat split; auto; try lia.
  rewrite Hcalls'. cbn [app]. rewrite Hcalls, <- app_assoc. f_equal.
  rewrite (seqZ_app 0 i 1) by lia. rewrite map_app, concat_app.
  rewrite (seqZ_cons (0 + i) 1), (seqZ_nil (Z.succ (0 + i)) (Z.pred 1))
    by lia.
  cbn [map concat]. rewrite app_nil_r, Z.add_0_l. reflexivity.
Qed.

End Schedule.

Section Passes.

Variable EXTRA_DECODE_PADDING : Z.
Variable FAUDIO_END_OF_STREAM : Z.
Variable FAUDIO_MAX_VOLUME_LEVEL : spec_float.
Variable FAudio_PlatformResample :
  nat -> list spec_float -> Z -> list spec_float -> Z -> list spec_float * Z.

(** X12. The passes of an update. An update of an active engine that
    returns has called the source pass once for every active source voice,
    in list order, and then, for each stage from 0 to [submixStages - 1] in
    turn, the submix pass once for every listed submix voice of that stage,
    in list order; it has called nothing else, and a submix voice whose
    stage is not below [submixStages] is not mixed at all. An update of an
    inactive engine calls no pass. The source voices that are not active
    are left as they were. *)
Theorem UpdateEngine_schedule fuel audio output st :
  FAudio_INTERNAL_UpdateEngine EXTRA_DECODE_PADDING FAUDIO_END_OF_STREAM
    FAUDIO_MAX_VOLUME_LEVEL FAudio_PlatformResample fuel audio output =
    Ok st ->
  up_calls st = (if active audio then schedule audio else []) /\
  (forall i v, sources audio !! i = Some v -> src_active v = false ->
     up_sources st !! i = Some v).
Proof.
  unfold FAudio_INTERNAL_UpdateEngine. intros H.
  destruct (active audio); [|inv_res; subst st; split; [reflexivity|auto]].
  inv_res. rename a into m0, a0 into heap1, a1 into st1, a2 into st2.
  subst st. cbn [up_calls up_sources].
  assert (Hbind : forall q, stage_of heap1 q = stage_of (heap audio) q).
  { unfold deref in Ha. destruct (heap audio !! master audio) as [v|] eqn:Hm;
      [|discriminate]. inv_res. subst m0.
    destruct v as [m|m]; inv_res. subst heap1. intros q. unfold stage_of.
    destruct (decide (master audio = q)) as [<-|Hne].
    - rewrite lookup_insert_eq, Hm. reflexivity.
    - rewrite lookup_insert_ne by exact Hne. reflexivity. }
  assert (Hsources : sources_scheduled (heap audio) (sources audio)
                       (seq 0 (length (sources audio))) st1).
  { apply (foldM_invariant
             (sources_scheduled (heap audio) (sources audio))
             (UpdateEngine_source EXTRA_DECODE_PADDING FAUDIO_END_OF_STREAM
                FAUDIO_MAX_VOLUME_LEVEL fuel (master audio))
             (fun done i s s' =>
                UpdateEngine_source_scheduled EXTRA_DECODE_PADDING
                  FAUDIO_END_OF_STREAM FAUDIO_MAX_VOLUME_LEVEL (heap audio)
                  (sources audio) fuel (master audio) done i s s')
             _ [] _ _ Ha1).
    repeat split; cbn [up_heap up_sources up_calls]; auto. }
  destruct Hsources as (Hst1 & _ & Hcalls1 & Hidle).
  assert (Hstages : stages_scheduled (heap audio) (submixes audio)
                      (up_calls st1) (up_sources st1)
                      (0 + Z.of_nat (Z.to_nat (submixStages audio))) st2).
  { apply (for_from_steps
             (stages_scheduled (heap audio) (submixes audio)
                (up_calls st1) (up_sources st1))
             (fun i s => foldM (UpdateEngine_submix FAUDIO_MAX_VOLUME_LEVEL
                                  FAudio_PlatformResample i)
                               (submixes audio) s)
             (fun i s s' =>
                UpdateEngine_stage_scheduled FAUDIO_MAX_VOLUME_LEVEL
                  FAudio_PlatformResample (heap audio) (submixes audio)
                  (up_calls st1) (up_sources st1) i s s')
             _ _ _ _ Ha2).
    repeat split; auto; try lia. cbn. rewrite app_nil_r. reflexivity. }
  destruct Hstages as (_ & _ & Hsrc2 & Hcalls2).
  split.
  - rewrite Hcalls2, Hcalls1. unfold schedule. f_equal.
    destruct (Z_le_gt_dec 0 (submixStages audio)).
    + rewrite Z.add_0_l, Z2Nat.id by lia. reflexivity.
    + rewrite Z.add_0_l. replace (Z.to_nat (submixStages audio)) with 0%nat
        by lia.
      rewrite (seqZ_nil 0 (submixStages audio)) by lia. reflexivity.
  - rewrite Hsrc2. exact Hidle.
Qed.

End Passes.

(** [busy_engine]: the first and the third source voice, then the submix
    voice of stage 0, then that of stage 1; the voice of stage 5 is left
    out. *)
Lemma UpdateEngine_schedule_witness :
  calls_of (FAudio_INTERNAL_UpdateEngine 2 64 max_volume_2_24 copy_resampler
              40 busy_engine [F32.zero; F32.zero]) =
    Some (schedule busy_engine) /\
  schedule busy_engine =
    [Call_MixSource 0; Call_MixSource 2; Call_MixSubmix 2; Call_MixSubmix 1].
Proof.
  assert (Hs : schedule busy_engine =
               [Call_MixSource 0; Call_MixSource 2;
                Call_MixSubmix 2; Call_MixSubmix 1])
    by (vm_compute; reflexivity).
  split; [|exact Hs].
  assert (Hcalls : calls_of (FAudio_INTERNAL_UpdateEngine 2 64 max_volume_2_24
                     copy_resampler 40 busy_engine [F32.zero; F32.zero]) <>
                   None) by (vm_compute; discriminate).
  destruct (FAudio_INTERNAL_UpdateEngine 2 64 max_volume_2_24 copy_resampler
              40 busy_engine [F32.zero; F32.zero]) as [st| |] eqn:Hrun;
    try (exfalso; apply Hcalls; reflexivity).
  cbn [calls_of]. f_equal.
  apply (UpdateEngine_schedule 2 64 max_volume_2_24 copy_resampler 40
           busy_engine [F32.zero; F32.zero] st Hrun).
Defined.
(** ** The notifications of a pass and of an update *)

Lemma notify_decode_event cbk f e :
  buffer_event e -> (registered cbk f = true -> asked_for cbk e) ->
  Forall (decode_event cbk) (notify cbk f e).
Proof.
  intros He Hask. unfold notify.
  destruct (registered cbk f); repeat constructor; auto.
Qed.

Lemma round_effect_decode_events cbk buffer next q' tr evs :
  round_effect cbk buffer next q' evs ->
  Forall (decode_event cbk) tr -> Forall (decode_event cbk) (tr ++ evs).
Proof.
  intros Heff Htr. apply Forall_app. split; [exact Htr|].
  destruct Heff as [started Hs|started Hs Hpos|started ended Hs Hen Hle];
    repeat (apply Forall_app; split);
    try (destruct Hs as [->| ->]); try (destruct Hen as [->| ->]);
    try (apply notify_decode_event; [exact I|intros H; exact H]);
    constructor.
Qed.

Lemma decode_events_buffer_events cbk evs :
  Forall (decode_event cbk) evs -> Forall buffer_event evs.
Proof. intros H. eapply Forall_impl; [exact H|]. intros e [He _]. exact He. Qed.

Lemma decode_events_asked_for cbk evs :
  Forall (decode_event cbk) evs -> Forall (asked_for cbk) evs.
Proof. intros H. eapply Forall_impl; [exact H|]. intros e [_ He]. exact He. Qed.

Section Notifications.

Variable EXTRA_DECODE_PADDING : Z.
Variable FAUDIO_END_OF_STREAM : Z.
Variable FAUDIO_MAX_VOLUME_LEVEL : spec_float.

Lemma MixSource_round_events fuel st st' :
  MixSource_round EXTRA_DECODE_PADDING FAUDIO_END_OF_STREAM fuel st = Ok st' ->
  src_callback (ml_voice st') = src_callback (ml_voice st) /\
  exists evs, ml_trace st' = ml_trace st ++ evs /\
              Forall (decode_event (src_callback (ml_voice st))) evs.
Proof.
  unfold MixSource_round. intros H. inv_res.
  destruct a as [[[v1 td] ro] evs]. inv_res.
  destruct a0 as [[v2 tr2] rc2]. inv_res. subst st'.
  cbn [ml_trace ml_voice].
  match goal with
  | Hd : FAudio_INTERNAL_DecodeBuffers _ _ _ _ _ = Ok _ |- _ =>
      destruct (DecodeBuffers_invariant EXTRA_DECODE_PADDING
                  FAUDIO_END_OF_STREAM (src_callback (ml_voice st))
                  (fun _ tr =>
                     Forall (decode_event (src_callback (ml_voice st))) tr)
                  (round_effect_decode_events _)
                  _ _ _ _ _ _ _ [] eq_refl Hd (Forall_nil_2 _))
        as [Hev Hcb]
  end.
  assert (Hv2 : src_callback v2 = src_callback v1).
  { match goal with
    | Hr : (if _ then _ else _) = Ok (v2, _, _) |- _ =>
        destruct (src_resampleStep v1 =? FIXED_ONE); inv_res; subst
    end.
    - match goal with
      | Hc : MixSource_convert _ _ _ = Ok _ |- _ =>
          unfold MixSource_convert in Hc;
          destruct (_ <? _) in Hc; inv_res; subst; reflexivity
      end.
    - match goal with
      | Hc : FAudio_INTERNAL_ResamplePCM _ _ _ = Ok _ |- _ =>
          unfold FAudio_INTERNAL_ResamplePCM in Hc;
          destruct (_ <? _) in Hc; inv_res; subst; reflexivity
      end. }
  split.
  - destruct (src_bufferList v2); cbn [set_decode_state src_callback];
      congruence.
  - exists evs. split; [reflexivity|exact Hev].
Qed.

Lemma MixSource_loop_events fuel : forall st st',
  MixSource_loop EXTRA_DECODE_PADDING FAUDIO_END_OF_STREAM fuel st = Ok st' ->
  src_callback (ml_voice st') = src_callback (ml_voice st) /\
  exists evs, ml_trace st' = ml_trace st ++ evs /\
              Forall (decode_event (src_callback (ml_voice st))) evs.
Proof.
  assert (Hsame : forall st : mix_loop,
            src_callback (ml_voice st) = src_callback (ml_voice st) /\
            exists evs, ml_trace st = ml_trace st ++ evs /\
                        Forall (decode_event (src_callback (ml_voice st)))
                          evs).
  { intros st. split; [reflexivity|]. exists [].
    rewrite app_nil_r. split; [reflexivity|constructor]. }
  induction fuel as [|fuel IH]; intros st st' Hrun;
    cbn [MixSource_loop] in Hrun;
    destruct (src_bufferList (ml_voice st)) as [|buffer next] eqn:Hq;
    try (inv_res; subst st'; apply Hsame);
    destruct (ml_mixed st <? src_outputSamples (ml_voice st));
    try (inv_res; subst st'; apply Hsame).
  inv_res. rename a into st1.
  destruct (MixSource_round_events _ _ _ Ha) as (Hcb1 & evs1 & Htr1 & Hev1).
  destruct (IH _ _ Hrun) as (Hcb2 & evs2 & Htr2 & Hev2).
  split; [congruence|]. exists (evs1 ++ evs2). split.
  - rewrite Htr2, Htr1, app_assoc. reflexivity.
  - rewrite Hcb1 in Hev2. apply Forall_app. auto.
Qed.

(** X13. The notifications of a source pass, in order:
    [OnVoiceProcessingPassStart] with [decodeSamples * sizeof (int16_t)]
    bytes; then, when buffers are queued, notifications of the decode loop
    only (buffer start and end, loop end, stream end), and
    [OnVoiceProcessingPassEnd] last. Each of them, those of the decode
    loop included, is delivered only where the voice has registered its
    callback; with nothing queued the pass start is all there is. *)
Theorem MixSource_notifications fuel master heap voice heap' voice' tr :
  FAudio_INTERNAL_MixSource EXTRA_DECODE_PADDING FAUDIO_END_OF_STREAM
    FAUDIO_MAX_VOLUME_LEVEL fuel master heap voice = Ok (heap', voice', tr) ->
  exists evs,
    Forall buffer_event evs /\
    Forall (asked_for (src_callback voice)) tr /\
    tr =
      notify (src_callback voice) OnVoiceProcessingPassStart
        (Ev_OnVoiceProcessingPassStart (u32 (src_decodeSamples voice * 2))) ++
      evs ++
      match src_bufferList voice with
      | [] => []
      | _ :: _ =>
          notify (src_callback voice) OnVoiceProcessingPassEnd
            Ev_OnVoiceProcessingPassEnd
      end /\
    (src_bufferList voice = [] -> evs = []).
Proof.
  unfold FAudio_INTERNAL_MixSource. intros H. inv_res. rename a into v1.
  destruct (MixSource_step_keeps _ _ _ _ Ha) as [Hq1 Hcb1].
  assert (Hds : src_decodeSamples v1 = src_decodeSamples voice).
  { unfold MixSource_step in Ha. destruct (negb _); inv_res; subst;
      reflexivity. }
  rewrite Hcb1, Hds, Hq1 in H.
  assert (Hpass : forall f e,
            (registered (src_callback voice) f = true ->
             asked_for (src_callback voice) e) ->
            Forall (asked_for (src_callback voice))
              (notify (src_callback voice) f e)).
  { intros f e Hask. unfold notify.
    destruct (registered (src_callback voice) f); repeat constructor.
    auto. }
  destruct (src_bufferList voice) as [|b q] eqn:Hq.
  - inv_res. subst. exists []. split; [constructor|].
    rewrite !app_nil_r. split; [|split; reflexivity].
    apply Hpass. intros Hr. exact Hr.
  - inv_res. rename a into st.
    destruct (MixSource_loop_events _ _ _ Ha0) as (Hcb & evs & Htr & Hev).
    cbn [ml_voice ml_trace] in Hcb, Htr, Hev. rewrite Hcb1 in Hev.
    assert (Hend : tr =
              ml_trace st ++
              notify (src_callback voice) OnVoiceProcessingPassEnd
                Ev_OnVoiceProcessingPassEnd).
    { destruct (ml_mixed st =? 0); [inv_res; subst; reflexivity|].
      destruct (SendCount _ =? 0); inv_res; subst; reflexivity. }
    rewrite Htr, <- app_assoc in Hend.
    exists evs. split; [eapply decode_events_buffer_events, Hev|].
    split; [|split; [exact Hend|discriminate]].
    rewrite Hend. repeat (apply Forall_app; split).
    + apply Hpass. intros Hr. exact Hr.
    + eapply decode_events_asked_for, Hev.
    + apply Hpass. intros Hr. exact Hr.
Qed.

End Notifications.

(** A voice with every callback and a buffer queued. *)
Lemma MixSource_notifications_witness :
  exists evs,
    Forall buffer_event evs /\
    Forall (asked_for (src_callback (feeding_voice true 2)))
      ([Ev_OnVoiceProcessingPassStart 128] ++ evs ++
       [Ev_OnVoiceProcessingPassEnd]) /\
    trace_of_mix
      (FAudio_INTERNAL_MixSource 2 64 max_volume_2_24 40 0%nat
         (heap busy_engine) (feeding_voice true 2)) =
    Some ([Ev_OnVoiceProcessingPassStart 128] ++ evs ++
          [Ev_OnVoiceProcessingPassEnd]).
Proof.
  assert (Hc : trace_of_mix
                 (FAudio_INTERNAL_MixSource 2 64 max_volume_2_24 40 0%nat
                    (heap busy_engine) (feeding_voice true 2)) <> None)
    by (vm_compute; discriminate).
  destruct (FAudio_INTERNAL_MixSource 2 64 max_volume_2_24 40 0%nat
              (heap busy_engine) (feeding_voice true 2))
    as [[[heap' voice'] tr]| |] eqn:Hrun;
    try (exfalso; apply Hc; reflexivity).
  destruct (MixSource_notifications 2 64 max_volume_2_24 40 0%nat
              (heap busy_engine) (feeding_voice true 2) heap' voice' tr Hrun)
    as (evs & Hev & Hask & Htr & _).
  exists evs. split; [exact Hev|].
  split; [rewrite Htr in Hask; exact Hask|].
  cbn [trace_of_mix]. f_equal. exact Htr.
Defined.

Lemma buffer_event_voice_event evs :
  Forall buffer_event evs -> Forall voice_event evs.
Proof.
  intros H. eapply Forall_impl; [exact H|].
  intros e He. destruct e; try exact I; destruct He.
Qed.

Lemma notify_voice_event cbk f e :
  voice_event e -> Forall voice_event (notify cbk f e).
Proof.
  intros He. unfold notify. destruct (registered cbk f); repeat constructor.
  exact He.
Qed.

Section UpdateNotifications.

Variable EXTRA_DECODE_PADDING : Z.
Variable FAUDIO_END_OF_STREAM : Z.
Variable FAUDIO_MAX_VOLUME_LEVEL : spec_float.
Variable FAudio_PlatformResample :
  nat -> list spec_float -> Z -> list spec_float -> Z -> list spec_float * Z.

Lemma MixSource_voice_events fuel master heap voice heap' voice' tr :
  FAudio_INTERNAL_MixSource EXTRA_DECODE_PADDING FAUDIO_END_OF_STREAM
    FAUDIO_MAX_VOLUME_LEVEL fuel master heap voice = Ok (heap', voice', tr) ->
  Forall voice_event tr.
Proof.
  unfold FAudio_INTERNAL_MixSource. intros H. inv_res. rename a into v1.
  destruct (src_bufferList v1) as [|b q].
  - inv_res. subst. apply notify_voice_event. exact I.
  - inv_res. rename a into st.
    destruct (MixSource_loop_events _ _ _ _ _ Ha0) as (_ & evs & Htr & Hev).
    cbn [ml_trace] in Htr.
    assert (Hall : Forall voice_event
                     (ml_trace st ++
                      notify (src_callback v1) OnVoiceProcessingPassEnd
                        Ev_OnVoiceProcessingPassEnd)).
    { rewrite Htr. repeat (apply Forall_app; split).
      - apply notify_voice_event. exact I.
      - eapply buffer_event_voice_event, decode_events_buffer_events, Hev.
      - apply notify_voice_event. exact I. }
    destruct (ml_mixed st =? 0); [inv_res; subst; exact Hall|].
    destruct (SendCount _ =? 0); inv_res; subst; exact Hall.
Qed.

Lemma UpdateEngine_source_events fuel master start done i st st' :
  UpdateEngine_source EXTRA_DECODE_PADDING FAUDIO_END_OF_STREAM
    FAUDIO_MAX_VOLUME_LEVEL fuel master i st = Ok st' ->
  (exists middle, up_trace st = start ++ middle /\
                  Forall voice_event middle) ->
  (fun (_ : list nat) (s : update) =>
     exists middle, up_trace s = start ++ middle /\
                    Forall voice_event middle) (done ++ [i]) st'.
Proof.
  unfold UpdateEngine_source. intros H (middle & Htr & Hev).
  destruct (up_sources st !! i) as [voice|]; [|discriminate].
  destruct (src_active voice).
  - inv_res. destruct a as [[heap' voice'] evs]. inv_res. subst st'.
    cbn [up_trace]. exists (middle ++ evs). split.
    + rewrite Htr, app_assoc. reflexivity.
    + apply Forall_app. split; [exact Hev|].
      eapply MixSource_voice_events. eassumption.
  - inv_res. subst st'. exists middle. auto.
Qed.

Lemma UpdateEngine_submix_trace i q st st' :
  UpdateEngine_submix FAUDIO_MAX_VOLUME_LEVEL FAudio_PlatformResample
    i q st = Ok st' ->
  up_trace st' = up_trace st.
Proof.
  unfold UpdateEngine_submix. intros H. inv_res.
  destruct (_ =? _); inv_res; subst st'; reflexivity.
Qed.

(** X14. The notifications of an update. An update of an active engine
    delivers [OnProcessingPassStart] to every engine callback that has it,
    in list order, before any notification of a voice, and
    [OnProcessingPassEnd] in the same way after all of them; between the
    two there are notifications of source voices only. An update of an
    engine that is not active delivers nothing. *)
Theorem UpdateEngine_notifications fuel audio output st :
  FAudio_INTERNAL_UpdateEngine EXTRA_DECODE_PADDING FAUDIO_END_OF_STREAM
    FAUDIO_MAX_VOLUME_LEVEL FAudio_PlatformResample fuel audio output =
    Ok st ->
  if active audio then
    exists middle,
      Forall voice_event middle /\
      up_trace st =
        engine_notify OnProcessingPassStart Ev_OnProcessingPassStart
          (callbacks audio) ++
        middle ++
        engine_notify OnProcessingPassEnd Ev_OnProcessingPassEnd
          (callbacks audio)
  else up_trace st = [].
Proof.
  unfold FAudio_INTERNAL_UpdateEngine. intros H.
  destruct (active audio); [|inv_res; subst st; reflexivity].
  inv_res. rename a into m0, a0 into heap1, a1 into st1, a2 into st2.
  subst st. cbn [up_trace].
  set (start := engine_notify OnProcessingPassStart Ev_OnProcessingPassStart
                  (callbacks audio)) in *.
  assert (Hsources : exists middle,
            up_trace st1 = start ++ middle /\ Forall voice_event middle).
  { apply (foldM_invariant
             (fun (_ : list nat) (s : update) =>
                exists middle, up_trace s = start ++ middle /\
                               Forall voice_event middle)
             (UpdateEngine_source EXTRA_DECODE_PADDING FAUDIO_END_OF_STREAM
                FAUDIO_MAX_VOLUME_LEVEL fuel (master audio))
             (fun done i s s' =>
                UpdateEngine_source_events fuel (master audio) start done i
                  s s')
             _ [] _ _ Ha1).
    exists []. cbn [up_trace]. rewrite app_nil_r.
    split; [reflexivity|constructor]. }
  destruct Hsources as (middle & Htr1 & Hev).
  assert (Hstages : up_trace st2 = up_trace st1).
  { eapply (for_loop_invariant (fun s => up_trace s = up_trace st1));
      [|exact Ha2|reflexivity].
    intros i s s' Hs Hq. cbv beta in Hs. rewrite <- Hq.
    apply (foldM_invariant
             (fun (_ : list nat) s0 => up_trace s0 = up_trace s)
             (UpdateEngine_submix FAUDIO_MAX_VOLUME_LEVEL
                FAudio_PlatformResample i)
             (fun done q s0 s0' Hs0 Hq0 =>
                eq_trans (UpdateEngine_submix_trace i q s0 s0' Hs0) Hq0)
             (submixes audio) [] s s' Hs eq_refl). }
  exists middle. split; [exact Hev|].
  rewrite Hstages, Htr1, <- app_assoc. reflexivity.
Qed.

End UpdateNotifications.

(** [busy_engine] has two engine callbacks, the second without
    [OnProcessingPassEnd]. *)
Lemma UpdateEngine_notifications_witness :
  exists middle,
    Forall voice_event middle /\
    trace_of_update
      (FAudio_INTERNAL_UpdateEngine 2 64 max_volume_2_24 copy_resampler 40
         busy_engine [F32.zero; F32.zero]) =
    Some ([Ev_OnProcessingPassStart 0; Ev_OnProcessingPassStart 1] ++
          middle ++ [Ev_OnProcessingPassEnd 0]).
Proof.
  assert (Hc : trace_of_update
                 (FAudio_INTERNAL_UpdateEngine 2 64 max_volume_2_24
                    copy_resampler 40 busy_engine [F32.zero; F32.zero]) <>
               None) by (vm_compute; discriminate).
  destruct (FAudio_INTERNAL_UpdateEngine 2 64 max_volume_2_24 copy_resampler
              40 busy_engine [F32.zero; F32.zero]) as [st| |] eqn:Hrun;
    try (exfalso; apply Hc; reflexivity).
  destruct (UpdateEngine_notifications 2 64 max_volume_2_24 copy_resampler 40
              busy_engine [F32.zero; F32.zero] st Hrun)
    as (middle & Hev & Htr).
  exists middle. split; [exact Hev|]. cbn [trace_of_update]. f_equal.
  exact Htr.
Defined.

(** ** What the mix passes leave alone *)

Lemma load1_elem_of {A} (mem : list A) i a : load1 mem i = Ok a -> a ∈ mem.
Proof.
  unfold load1. destruct (0 <=? i); [|discriminate].
  destruct (mem !! Z.to_nat i) as [x|] eqn:Hx; [|discriminate].
  intros H. inv_res. subst x. eapply list_elem_of_lookup_2, Hx.
Qed.

(** A part of a source voice that neither decoding nor resampling
    writes. *)
Section Kept.

Variable EXTRA_DECODE_PADDING : Z.
Variable FAUDIO_END_OF_STREAM : Z.
Variable T : Type.
Variable part : FAudioSourceVoice -> T.
Hypothesis part_decode : forall v cache queue off dec,
  part (set_decode_state v cache queue off dec) = part v.
Hypothesis part_resample : forall v out ratio step offset,
  part (set_resample_state v out ratio step offset) = part v.

Lemma DecodeBuffers_round_kept toDecode buffer next st st' :
  DecodeBuffers_round FAUDIO_END_OF_STREAM toDecode buffer next st = Ok st' ->
  part (dl_voice st') = part (dl_voice st).
Proof.
  unfold DecodeBuffers_round. intros H. inv_res.
  destruct (_ <? _) in H; [|inv_res; subst st'; apply part_decode].
  destruct (LoopCount buffer >? 0); [inv_res; subst st'; apply part_decode|].
  destruct next; inv_res; subst st'; apply part_decode.
Qed.

Lemma DecodeBuffers_loop_kept fuel : forall toDecode st st',
  DecodeBuffers_loop FAUDIO_END_OF_STREAM fuel toDecode st = Ok st' ->
  part (dl_voice st') = part (dl_voice st).
Proof.
  induction fuel as [|fuel IH]; intros toDecode st st' H;
    cbn [DecodeBuffers_loop] in H;
    destruct (src_bufferList (dl_voice st)) as [|buffer next];
    try (inv_res; subst st'; reflexivity);
    destruct (dl_decoded st <? toDecode);
    try (inv_res; subst st'; reflexivity).
  inv_res. apply IH in H. apply DecodeBuffers_round_kept in Ha. congruence.
Qed.

Lemma MixSource_round_kept fuel st st' :
  MixSource_round EXTRA_DECODE_PADDING FAUDIO_END_OF_STREAM fuel st = Ok st' ->
  part (ml_voice st') = part (ml_voice st).
Proof.
  unfold MixSource_round. intros H. inv_res.
  destruct a as [[[v1 td] ro] evs]. inv_res.
  destruct a0 as [[v2 tr2] rc2]. inv_res. subst st'. cbn [ml_voice].
  assert (H1 : part v1 = part (ml_voice st)).
  { match goal with
    | Hd : FAudio_INTERNAL_DecodeBuffers _ _ _ _ _ = Ok _ |- _ =>
        unfold FAudio_INTERNAL_DecodeBuffers in Hd; inv_res
    end.
    match goal with
    | Hl : DecodeBuffers_loop _ _ _ _ = Ok _ |- _ =>
        apply DecodeBuffers_loop_kept in Hl; cbn [dl_voice] in Hl
    end.
    congruence. }
  assert (H2 : part v2 = part v1).
  { match goal with
    | Hr : (if _ then _ else _) = Ok (v2, _, _) |- _ =>
        destruct (src_resampleStep v1 =? FIXED_ONE); inv_res; subst
    end.
    - match goal with
      | Hc : MixSource_convert _ _ _ = Ok _ |- _ =>
          unfold MixSource_convert in Hc;
          destruct (_ <? _) in Hc; inv_res; subst; apply part_resample
      end.
    - match goal with
      | Hc : FAudio_INTERNAL_ResamplePCM _ _ _ = Ok _ |- _ =>
          unfold FAudio_INTERNAL_ResamplePCM in Hc;
          destruct (_ <? _) in Hc; inv_res; subst; apply part_resample
      end. }
  destruct (src_bufferList v2); rewrite part_decode; congruence.
Qed.

Lemma MixSource_loop_kept fuel : forall st st',
  MixSource_loop EXTRA_DECODE_PADDING FAUDIO_END_OF_STREAM fuel st = Ok st' ->
  part (ml_voice st') = part (ml_voice st).
Proof.
  induction fuel as [|fuel IH]; intros st st' H; cbn [MixSource_loop] in H;
    destruct (src_bufferList (ml_voice st)) as [|buffer next];
    try (inv_res; subst st'; reflexivity);
    destruct (ml_mixed st <? src_outputSamples (ml_voice st));
    try (inv_res; subst st'; reflexivity).
  inv_res. apply IH in H. apply MixSource_round_kept in Ha. congruence.
Qed.

Lemma MixSource_step_kept master heap voice voice' :
  MixSource_step master heap voice = Ok voice' -> part voice' = part voice.
Proof.
  unfold MixSource_step. destruct (negb _); intros H; inv_res; subst;
    [apply part_resample|reflexivity].
Qed.

End Kept.

Section Frame.

Variable EXTRA_DECODE_PADDING : Z.
Variable FAUDIO_END_OF_STREAM : Z.
Variable FAUDIO_MAX_VOLUME_LEVEL : spec_float.
Variable FAudio_PlatformResample :
  nat -> list spec_float -> Z -> list spec_float -> Z -> list spec_float * Z.

Lemma accumulate_other heap out idx x heap' q :
  accumulate FAUDIO_MAX_VOLUME_LEVEL heap out idx x = Ok heap' ->
  q <> out -> heap' !! q = heap !! q.
Proof.
  unfold accumulate. intros H Hq. inv_res. subst heap'.
  apply lookup_insert_ne. congruence.
Qed.

Lemma MixSource_sends_other voice mixed heap heap' q :
  MixSource_sends FAUDIO_MAX_VOLUME_LEVEL voice mixed heap = Ok heap' ->
  q ∉ targets (src_common voice) -> heap' !! q = heap !! q.
Proof.
  unfold MixSource_sends. intros H Hq.
  eapply (for_loop_invariant (fun h => h !! q = heap !! q));
    [|exact H|reflexivity].
  clear H. intros i h1 h1' H Hacc. cbv beta in H. inv_res.
  rename a into send.
  assert (Hne : q <> pOutputVoice send).
  { intros ->. apply Hq. unfold targets. apply list_elem_of_fmap.
    exists send. split; [reflexivity|]. eapply load1_elem_of. eassumption. }
  eapply (for_loop_invariant (fun h => h !! q = heap !! q));
    [|exact H|exact Hacc].
  clear - Hne. intros j h2 h2' H Hacc. cbv beta in H.
  eapply (for_loop_invariant (fun h => h !! q = heap !! q));
    [|exact H|exact Hacc].
  clear - Hne. intros co h3 h3' H Hacc. cbv beta in H.
  eapply (for_loop_invariant (fun h => h !! q = heap !! q));
    [|exact H|exact Hacc].
  clear - Hne. intros ci h4 h4' H Hacc. cbv beta in H. inv_res.
  rewrite <- Hacc. eapply accumulate_other; eassumption.
Qed.

(** X15. What a source pass leaves alone. Of the voices the sends can
    reach it changes none but the targets of this voice's sends, and of a
    target nothing but the values of its stream: kind, stage and sizes
    stay. Of the source voice it changes the playback state only: sends
    and volumes, cache sizes, format, callbacks, the [active] flag, the
    frequency ratio asked for and the decoder are as before. *)
Theorem MixSource_frame fuel master heap voice heap' voice' tr :
  FAudio_INTERNAL_MixSource EXTRA_DECODE_PADDING FAUDIO_END_OF_STREAM
    FAUDIO_MAX_VOLUME_LEVEL fuel master heap voice = Ok (heap', voice', tr) ->
  (forall q, q ∉ targets (src_common voice) -> heap' !! q = heap !! q) /\
  same_layout heap heap' /\
  src_setup voice' = src_setup voice /\
  src_decode voice' = src_decode voice.
Proof.
  intros H.
  pose proof (MixSource_leaves _ _ _ _ _ _ _ _ _ _ H) as [Hlay _].
  unfold FAudio_INTERNAL_MixSource in H. inv_res. rename a into v1.
  assert (Hk : forall (T : Type) (part : FAudioSourceVoice -> T),
            (forall v cache queue off dec,
               part (set_decode_state v cache queue off dec) = part v) ->
            (forall v out ratio step offset,
               part (set_resample_state v out ratio step offset) = part v) ->
            part voice' = part voice).
  { intros T part Hd Hr.
    rewrite <- (MixSource_step_kept T part Hr _ _ _ _ Ha).
    destruct (src_bufferList v1); [inv_res; subst; reflexivity|].
    inv_res. rename a into st.
    match goal with
    | Hl : MixSource_loop _ _ _ _ = Ok _ |- _ =>
        apply (MixSource_loop_kept _ _ T part Hd Hr) in Hl;
        cbn [ml_voice] in Hl
    end.
    destruct (ml_mixed st =? 0); [inv_res; subst; congruence|].
    destruct (SendCount _ =? 0); inv_res; subst; congruence. }
  split; [|split; [exact Hlay|split]].
  - intros q Hq.
    assert (Hc : src_common v1 = src_common voice).
    { apply (MixSource_step_kept _ src_common (fun _ _ _ _ _ => eq_refl)
               _ _ _ _ Ha). }
    destruct (src_bufferList v1); [inv_res; subst; reflexivity|].
    inv_res. rename a into st.
    assert (Hcs : src_common (ml_voice st) = src_common voice).
    { match goal with
      | Hl : MixSource_loop _ _ _ _ = Ok _ |- _ =>
          apply (MixSource_loop_kept _ _ _ src_common
                   (fun _ _ _ _ _ => eq_refl) (fun _ _ _ _ _ => eq_refl))
            in Hl; cbn [ml_voice] in Hl
      end. congruence. }
    destruct (ml_mixed st =? 0); [inv_res; subst; reflexivity|].
    destruct (SendCount _ =? 0); [inv_res; subst; reflexivity|].
    inv_res. subst. eapply MixSource_sends_other; [eassumption|].
    rewrite Hcs. exact Hq.
  - apply (Hk _ src_setup); reflexivity.
  - apply (Hk _ src_decode); reflexivity.
Qed.

End Frame.

(** A pass of a voice that feeds the submix voice at 2. *)
Lemma MixSource_frame_witness :
  match FAudio_INTERNAL_MixSource 2 64 max_volume_2_24 40 0%nat
          (heap busy_engine) (feeding_voice true 2) with
  | Ok (heap', voice', _) =>
      (forall q, q ∉ targets (src_common (feeding_voice true 2)) ->
         heap' !! q = heap busy_engine !! q) /\
      same_layout (heap busy_engine) heap' /\
      src_setup voice' = src_setup (feeding_voice true 2) /\
      src_decode voice' = src_decode (feeding_voice true 2)
  | _ => False
  end /\
  trace_of_mix
    (FAudio_INTERNAL_MixSource 2 64 max_volume_2_24 40 0%nat
       (heap busy_engine) (feeding_voice true 2)) <> None.
Proof.
  assert (Hc : trace_of_mix
                 (FAudio_INTERNAL_MixSource 2 64 max_volume_2_24 40 0%nat
                    (heap busy_engine) (feeding_voice true 2)) <> None)
    by (vm_compute; discriminate).
  split; [|exact Hc].
  destruct (FAudio_INTERNAL_MixSource 2 64 max_volume_2_24 40 0%nat
              (heap busy_engine) (feeding_voice true 2))
    as [[[heap' voice'] tr]| |] eqn:Hrun;
    try (apply Hc; reflexivity).
  exact (MixSource_frame 2 64 max_volume_2_24 40 0%nat (heap busy_engine)
           (feeding_voice true 2) heap' voice' tr Hrun).
Defined.

(** *** The volumes of a submix voice *)

Section Volumes.

Variable m : FAudioSubmixVoice.
Variable cache : list spec_float.
Variable n : Z.

Hypothesis frames : 0 <= n.
Hypothesis channels : 0 <= mix_inputChannels m.
Hypothesis small : n * mix_inputChannels m < 2 ^ 32.
Hypothesis room : n * mix_inputChannels m <= Z.of_nat (length cache).
Hypothesis volumes :
  mix_inputChannels m <= Z.of_nat (length (channelVolume (mix_common m))).

Lemma with_volumes_next k x :
  0 <= k -> cache !! Z.to_nat k = Some x ->
  <[Z.to_nat k :=
      F32.mul
        (F32.mul x
           (default F32.zero
              (channelVolume (mix_common m)
                 !! Z.to_nat (k mod mix_inputChannels m))))
        (volume (mix_common m))]> (with_volumes m k cache) =
  with_volumes m (k + 1) cache.
Proof.
  intros Hk Hx. apply list_eq. intros i. unfold with_volumes.
  rewrite list_lookup_insert, !list_lookup_imap, length_imap.
  destruct (decide (Z.to_nat k = i /\ (Z.to_nat k < length cache)%nat))
    as [[<- _]|Hne].
  - rewrite Hx. simpl. rewrite Z2Nat.id by lia.
    assert (Hlt : (k <? k + 1) = true) by lia. rewrite Hlt. reflexivity.
  - destruct (cache !! i) as [y|] eqn:Hy; [|reflexivity]. simpl.
    assert (Hi : Z.to_nat k <> i).
    { intros <-. apply Hne. split; [reflexivity|].
      eapply lookup_lt_Some, Hy. }
    destruct (Z.of_nat i <? k) eqn:H1; destruct (Z.of_nat i <? k + 1) eqn:H2;
      try reflexivity; lia.
Qed.

Lemma volume_loop_channels i k : forall ci,
  0 <= i < n -> 0 <= ci -> ci + Z.of_nat k <= mix_inputChannels m ->
  for_from ci k
    (fun ci cache =>
       x ← load1 cache (u32 (i * mix_inputChannels m + ci));
       cv ← load1 (channelVolume (mix_common m)) ci;
       store1 cache (u32 (i * mix_inputChannels m + ci))
         (F32.mul (F32.mul x cv) (volume (mix_common m))))
    (with_volumes m (i * mix_inputChannels m + ci) cache) =
  Ok (with_volumes m (i * mix_inputChannels m + ci + Z.of_nat k) cache).
Proof.
  induction k as [|k IH]; intros ci Hi Hci Hk.
  - cbn [for_from]. rewrite Z.add_0_r. reflexivity.
  - cbn [for_from]. set (C := mix_inputChannels m) in *.
    remember (i * C + ci) as idx eqn:Hidx.
    assert (Hr : 0 <= idx < n * C) by nia.
    destruct (index_of_frame C i ci) as [_ Hmod]; [lia|lia|].
    rewrite <- Hidx in Hmod.
    rewrite (u32_small idx) by lia.
    destruct (lookup_lt_is_Some_2 cache (Z.to_nat idx)) as [x Hx]; [lia|].
    destruct (load1_Ok (with_volumes m idx cache) idx) as (x' & -> & Hx').
    { unfold with_volumes. rewrite length_imap. lia. }
    assert (x' = x) as ->.
    { unfold with_volumes in Hx'. rewrite list_lookup_imap, Hx in Hx'.
      simpl in Hx'. rewrite Z2Nat.id, Z.ltb_irrefl in Hx' by lia.
      congruence. }
    cbn [mbind res_bind].
    destruct (load1_Ok (channelVolume (mix_common m)) ci) as (cv & -> & Hcv);
      [lia|].
    cbn [mbind res_bind].
    rewrite store1_Ok by (unfold with_volumes; rewrite length_imap; lia).
    cbn [mbind res_bind].
    replace cv
      with (default F32.zero
              (channelVolume (mix_common m) !! Z.to_nat (idx mod C)))
      by (rewrite Hmod, Hcv; reflexivity).
    pose proof (with_volumes_next idx x) as Hn. fold C in Hn.
    rewrite Hn by (lia || exact Hx).
    replace (idx + 1) with (i * C + (ci + 1)) by lia.
    rewrite IH by lia. f_equal. f_equal. lia.
Qed.

Lemma volume_loop_frames k : forall i,
  0 <= i -> i + Z.of_nat k <= n ->
  for_from i k
    (fun i cache =>
       for_loop (mix_inputChannels m)
         (fun ci cache =>
            x ← load1 cache (u32 (i * mix_inputChannels m + ci));
            cv ← load1 (channelVolume (mix_common m)) ci;
            store1 cache (u32 (i * mix_inputChannels m + ci))
              (F32.mul (F32.mul x cv) (volume (mix_common m))))
         cache)
    (with_volumes m (i * mix_inputChannels m) cache) =
  Ok (with_volumes m ((i + Z.of_nat k) * mix_inputChannels m) cache).
Proof.
  induction k as [|k IH]; intros i Hi Hk.
  - cbn [for_from]. rewrite Z.add_0_r. reflexivity.
  - cbn [for_from].
    pose proof (volume_loop_channels i (Z.to_nat (mix_inputChannels m)) 0)
      as Hc.
    rewrite Z.add_0_r in Hc.
    replace (i * mix_inputChannels m +
             Z.of_nat (Z.to_nat (mix_inputChannels m)))
      with ((i + 1) * mix_inputChannels m) in Hc by lia.
    change (for_from 0 (Z.to_nat (mix_inputChannels m)) ?b ?s)
      with (for_loop (mix_inputChannels m) b s) in Hc.
    rewrite Hc by lia. cbn [mbind res_bind].
    rewrite IH by lia. f_equal. f_equal. lia.
Qed.

Lemma with_volumes_0 : with_volumes m 0 cache = cache.
Proof.
  apply list_eq. intros i. unfold with_volumes. rewrite list_lookup_imap.
  destruct (cache !! i); [|reflexivity]. simpl.
  assert (Hf : (Z.of_nat i <? 0) = false) by (apply Z.ltb_ge; lia).
  rewrite Hf. reflexivity.
Qed.

(** X16. The volumes of a submix voice. Each of the first
    [resampled * inputChannels] values of the cache is multiplied once by
    the volume of its channel and by the volume of the voice; the values
    behind them are left alone. The loop does not fail when the cache
    holds that many values and every channel has a volume. *)
Theorem MixSubmix_volume_closed_form :
  MixSubmix_volume m n cache =
    Ok (with_volumes m (n * mix_inputChannels m) cache).
Proof.
  unfold MixSubmix_volume, for_loop at 1.
  rewrite <- with_volumes_0 at 1.
  pose proof (volume_loop_frames (Z.to_nat n) 0) as Hf.
  rewrite Z.mul_0_l in Hf. rewrite Hf by lia.
  f_equal. f_equal. lia.
Qed.

End Volumes.

Lemma MixSubmix_volume_closed_form_witness :
  MixSubmix_volume balanced_mix 1 (replicate 4 (F32.of_Z 1)) =
    Ok (with_volumes balanced_mix (1 * mix_inputChannels balanced_mix)
          (replicate 4 (F32.of_Z 1))) /\
  with_volumes balanced_mix 2 (replicate 4 (F32.of_Z 1)) =
    [F32.of_pow2 1 (-2); F32.of_Z 1; F32.of_Z 1; F32.of_Z 1].
Proof.
  split; [|vm_compute; reflexivity].
  apply MixSubmix_volume_closed_form; cbn; lia.
Defined.

(** *** What a submix pass leaves alone *)

Lemma deref_submix heap p v m :
  deref heap p = Ok v -> as_submix v = Ok m -> heap !! p = Some (Submix m).
Proof.
  unfold deref. intros H Hv.
  destruct (heap !! p) as [o|]; [|discriminate]. injection H as ->.
  destruct v; cbn in Hv; congruence.
Qed.

Ltac submix_at Hp :=
  match goal with
  | Hd : deref ?h ?p = Ok ?v, Hs : as_submix ?v = Ok ?m |- _ =>
      pose proof (deref_submix h p v m Hd Hs) as Hp; clear Hd Hs
  end.

Section SubmixFrame.

Variable FAUDIO_MAX_VOLUME_LEVEL : spec_float.
Variable FAudio_PlatformResample :
  nat -> list spec_float -> Z -> list spec_float -> Z -> list spec_float * Z.

Lemma accumulate_keeps p m heap h out idx x h' :
  accumulate FAUDIO_MAX_VOLUME_LEVEL h out idx x = Ok h' ->
  out ∈ targets (mix_common m) ->
  sends_keep p m heap h -> sends_keep p m heap h'.
Proof.
  unfold accumulate, deref. intros H Hout [(m' & Hp & Hs & Hc) Hq].
  destruct (h !! out) as [o|] eqn:Ho; cbn [mbind res_bind] in H;
    [|discriminate].
  inv_res. subst h'. split.
  - destruct (decide (out = p)) as [->|Hne].
    + rewrite Hp in Ho. injection Ho as <-.
      exists (set_inputCache m' a0). rewrite lookup_insert_eq.
      repeat split; assumption.
    + exists m'. rewrite lookup_insert_ne by exact Hne.
      repeat split; assumption.
  - intros q Hqp Hqt. rewrite lookup_insert_ne by congruence.
    apply Hq; assumption.
Qed.

Lemma MixSubmix_sends_keeps p resampled m heap heap' :
  heap !! p = Some (Submix m) ->
  MixSubmix_sends FAUDIO_MAX_VOLUME_LEVEL p resampled heap = Ok heap' ->
  sends_keep p m heap heap'.
Proof.
  unfold MixSubmix_sends. intros Hp H. inv_res.
  submix_at Hm. rewrite Hp in Hm. injection Hm as <-.
  eapply (for_loop_invariant (sends_keep p m heap)); [|exact H|].
  2:{ split; [exists m; repeat split; assumption|reflexivity]. }
  clear H. intros i h1 h1' H Hacc. cbv beta in H. inv_res.
  rename a into send.
  assert (Hin : pOutputVoice send ∈ targets (mix_common m)).
  { unfold targets. apply list_elem_of_fmap.
    exists send. split; [reflexivity|]. eapply load1_elem_of. eassumption. }
  eapply (for_loop_invariant (sends_keep p m heap)); [|exact H|exact Hacc].
  clear - Hin. intros j h2 h2' H Hacc. cbv beta in H.
  eapply (for_loop_invariant (sends_keep p m heap)); [|exact H|exact Hacc].
  clear - Hin. intros co h3 h3' H Hacc. cbv beta in H.
  eapply (for_loop_invariant (sends_keep p m heap)); [|exact H|exact Hacc].
  clear - Hin. intros ci h4 h4' H Hacc. cbv beta in H. inv_res.
  eapply accumulate_keeps; eassumption.
Qed.

Lemma MixSubmix_end_keeps p m heap heap' :
  heap !! p = Some (Submix m) ->
  MixSubmix_end p heap = Ok heap' ->
  sends_keep p m heap heap'.
Proof.
  unfold MixSubmix_end. intros Hp H. inv_res.
  submix_at Hm. rewrite Hp in Hm. injection Hm as <-.
  subst heap'. split.
  - exists (set_inputCache m a0). rewrite lookup_insert_eq.
    repeat split.
  - intros q Hq _. apply lookup_insert_ne. congruence.
Qed.

(** X17. What a submix pass leaves alone. The pass of the voice at [p]
    changes no voice but [p] and the targets of its sends. Of the voice at
    [p] it changes the two caches only: sends and volumes, channels,
    rates, sizes, resampler and stage are as before, and its resampled
    values are what the resampler returned with the volumes applied (what
    they were, for a voice without sends); the send loop, also one that
    sends the voice to itself, does not touch them. *)
Theorem MixSubmix_frame p heap heap' :
  FAudio_INTERNAL_MixSubmix FAUDIO_MAX_VOLUME_LEVEL FAudio_PlatformResample
    p heap = Ok heap' ->
  exists m m',
    heap !! p = Some (Submix m) /\ heap' !! p = Some (Submix m') /\
    mix_setup m' = mix_setup m /\
    MixSubmix_resampled FAudio_PlatformResample m =
      Ok (mix_outputResampleCache m') /\
    forall q, q <> p -> q ∉ targets (mix_common m) ->
      heap' !! q = heap !! q.
Proof.
  unfold FAudio_INTERNAL_MixSubmix, MixSubmix_resampled. intros H. inv_res.
  submix_at Hp.
  match type of Hp with _ = Some (Submix ?v) => rename v into m end.
  exists m. destruct (SendCount (mix_common m) =? 0).
  - destruct (MixSubmix_end_keeps _ _ _ _ Hp H) as [(m' & Hp' & Hs & Hc) Hq].
    exists m'. rewrite Hc. repeat split; assumption.
  - destruct (FAudio_PlatformResample _ _ _ _ _) as [cache resampled].
    inv_res.
    match goal with
    | Hv : MixSubmix_volume _ _ _ = Ok ?c |- _ =>
        rename c into cache'; rename Hv into Hvol
    end.
    match goal with
    | Hs : MixSubmix_sends _ _ _ ?h = Ok _ |- _ =>
        assert (Hp1 : h !! p = Some (Submix (set_outputResampleCache m cache')))
          by apply lookup_insert_eq;
        destruct (MixSubmix_sends_keeps _ _ _ _ _ Hp1 Hs)
          as [(m1 & Hm1 & Hs1 & Hc1) Hq1]
    end.
    destruct (MixSubmix_end_keeps _ _ _ _ Hm1 H) as [(m' & Hp' & Hs & Hc) Hq].
    exists m'. split; [exact Hp|]. split; [exact Hp'|].
    split; [rewrite Hs, Hs1; reflexivity|].
    split; [rewrite Hc, Hc1; exact Hvol|].
    assert (Hcm : mix_common m1 = mix_common m).
    { change (mix_common m)
        with (mix_common (set_outputResampleCache m cache')).
      unfold mix_setup in Hs1. congruence. }
    intros q Hqp Hqt. rewrite Hq, Hq1; try assumption.
    + apply lookup_insert_ne. congruence.
    + rewrite Hcm. exact Hqt.
Qed.

End SubmixFrame.

Lemma MixSubmix_frame_witness :
  streams_after
    (FAudio_INTERNAL_MixSubmix max_volume_2_24 copy_resampler 1
       balanced_voices) =
    Some ([F32.of_pow2 1 (-2); F32.of_Z 1; F32.of_pow2 1 (-2); F32.of_Z 1],
          replicate 4 F32.zero) /\
  match FAudio_INTERNAL_MixSubmix max_volume_2_24 copy_resampler 1
          balanced_voices with
  | Ok heap' =>
      exists m m',
        balanced_voices !! 1%nat = Some (Submix m) /\
        heap' !! 1%nat = Some (Submix m') /\
        mix_setup m' = mix_setup m /\
        MixSubmix_resampled copy_resampler m =
          Ok (mix_outputResampleCache m') /\
        forall q, q <> 1%nat -> q ∉ targets (mix_common m) ->
          heap' !! q = balanced_voices !! q
  | _ => False
  end.
Proof.
  assert (Hc : streams_after
                 (FAudio_INTERNAL_MixSubmix max_volume_2_24 copy_resampler 1
                    balanced_voices) =
               Some ([F32.of_pow2 1 (-2); F32.of_Z 1; F32.of_pow2 1 (-2);
                      F32.of_Z 1], replicate 4 F32.zero))
    by (vm_compute; reflexivity).
  split; [exact Hc|].
  destruct (FAudio_INTERNAL_MixSubmix max_volume_2_24 copy_resampler 1
              balanced_voices) as [heap'| |] eqn:Hrun;
    try discriminate Hc.
  exact (MixSubmix_frame max_volume_2_24 copy_resampler 1 balanced_voices
           heap' Hrun).
Defined.
(** ** A resample step of zero *)

Section ZeroStep.

Variable EXTRA_DECODE_PADDING : Z.
Variable FAUDIO_END_OF_STREAM : Z.
Variable FAUDIO_MAX_VOLUME_LEVEL : spec_float.

Lemma DecodeBuffers_keeps_step fuel voice toDecode voice' n reset evs :
  FAudio_INTERNAL_DecodeBuffers EXTRA_DECODE_PADDING FAUDIO_END_OF_STREAM
    fuel voice toDecode = Ok (voice', n, reset, evs) ->
  src_resampleStep voice' = src_resampleStep voice.
Proof.
  unfold FAudio_INTERNAL_DecodeBuffers. intros H. inv_res. subst.
  match goal with
  | Hl : DecodeBuffers_loop _ _ _ _ = Ok _ |- _ =>
      apply (DecodeBuffers_loop_kept _ _ src_resampleStep
               (fun _ _ _ _ _ => eq_refl)) in Hl; exact Hl
  end.
Qed.

Lemma MixSource_round_zero_step fuel st st' :
  src_resampleStep (ml_voice st) = 0 ->
  MixSource_round EXTRA_DECODE_PADDING FAUDIO_END_OF_STREAM fuel st <> Ok st'.
Proof.
  unfold MixSource_round. intros Hz H. inv_res.
  destruct a as [[[v1 td] ro] evs]. inv_res.
  match goal with
  | Hd : FAudio_INTERNAL_DecodeBuffers _ _ _ _ _ = Ok _,
    Hg : guard_res _ = Ok _ |- _ =>
      apply DecodeBuffers_keeps_step in Hd; rewrite Hz in Hd;
      rewrite Hd in Hg; discriminate Hg
  end.
Qed.

(** X18. A resample step of zero. When the step that the pass works with
    is 0 (as [DOUBLE_TO_FIXED] gives for a rate ratio of 0) and the voice
    has a buffer queued and a block of at least one frame to fill, the
    pass has no result whatever the fuel: the first round divides by the
    step. *)
Theorem MixSource_zero_step fuel master heap voice r :
  step_of_pass master heap voice = Some 0 ->
  src_bufferList voice <> [] ->
  0 < src_outputSamples voice ->
  FAudio_INTERNAL_MixSource EXTRA_DECODE_PADDING FAUDIO_END_OF_STREAM
    FAUDIO_MAX_VOLUME_LEVEL fuel master heap voice <> Ok r.
Proof.
  unfold step_of_pass, FAudio_INTERNAL_MixSource. intros Hs Hq Hn H.
  destruct (MixSource_step master heap voice) as [v1| |] eqn:Hv1;
    try discriminate Hs.
  injection Hs as Hz. cbn [mbind res_bind] in H.
  pose proof (MixSource_step_kept _ src_bufferList
                (fun _ _ _ _ _ => eq_refl) _ _ _ _ Hv1) as Hb.
  pose proof (MixSource_step_kept _ src_outputSamples
                (fun _ _ _ _ _ => eq_refl) _ _ _ _ Hv1) as Ho.
  destruct (src_bufferList v1) as [|buffer next] eqn:Hl; [congruence|].
  inv_res. rename a into st.
  match goal with
  | Hloop : MixSource_loop _ _ _ _ = Ok _ |- _ =>
      destruct fuel as [|fuel]; cbn [MixSource_loop ml_voice ml_mixed] in Hloop;
      rewrite Hl, Ho in Hloop;
      assert (Hlt : (0 <? src_outputSamples voice) = true)
        by (apply Z.ltb_lt; exact Hn);
      rewrite Hlt in Hloop; [discriminate Hloop|]; inv_res
  end.
  match goal with
  | Hr : MixSource_round _ _ _ _ = Ok _ |- _ =>
      eapply MixSource_round_zero_step; [|exact Hr]; exact Hz
  end.
Qed.

End ZeroStep.

Lemma MixSource_zero_step_witness :
  step_of_pass 0 {[ 0%nat := master_48k 2 ]} halted_voice = Some 0 /\
  forall r,
    FAudio_INTERNAL_MixSource 2 64 max_volume_2_24 40 0%nat
      {[ 0%nat := master_48k 2 ]} halted_voice <> Ok r.
Proof.
  assert (Hs : step_of_pass 0 {[ 0%nat := master_48k 2 ]} halted_voice
               = Some 0) by (vm_compute; reflexivity).
  split; [exact Hs|]. intros r.
  apply MixSource_zero_step; [exact Hs|discriminate|reflexivity].
Defined.

(** ** An update is the run of its mix passes *)

Section Flow.

Variable EXTRA_DECODE_PADDING : Z.
Variable FAUDIO_END_OF_STREAM : Z.
Variable FAUDIO_MAX_VOLUME_LEVEL : spec_float.
Variable FAudio_PlatformResample :
  nat -> list spec_float -> Z -> list spec_float -> Z -> list spec_float * Z.

Local Abbreviation passes :=
  (replay EXTRA_DECODE_PADDING FAUDIO_END_OF_STREAM FAUDIO_MAX_VOLUME_LEVEL
     FAudio_PlatformResample).
Local Abbreviation follows :=
  (replayed EXTRA_DECODE_PADDING FAUDIO_END_OF_STREAM FAUDIO_MAX_VOLUME_LEVEL
     FAudio_PlatformResample).









End Flow.


(** What the pass of voice 1 finds and makes in that update: the block
    begins with the frames 0.5 and 0.25 in its accumulator, the pass of
    voice 2 adds its own 0.5 and 0.25 to them, and the sums are its output
    after its own pass. *)
Lemma stage_order_accumulator_example :
  accumulator_after 1
    (replay 2 64 max_volume_2_24 copy_resampler 40 0 []
       (bound_heap sample_engine [F32.zero; F32.zero], [])) =
    Some [F32.of_pow2 1 (-1); F32.of_pow2 1 (-2)] /\
  accumulator_after 1
    (replay 2 64 max_volume_2_24 copy_resampler 40 0 [Call_MixSubmix 2]
       (bound_heap sample_engine [F32.zero; F32.zero], [])) =
    Some [F32.of_Z 1; F32.of_pow2 1 (-1)] /\
  output_after 1
    (replay 2 64 max_volume_2_24 copy_resampler 40 0
       [Call_MixSubmix 2; Call_MixSubmix 1]
       (bound_heap sample_engine [F32.zero; F32.zero], [])) =
    Some [F32.of_Z 1; F32.of_pow2 1 (-1)].
Proof. repeat split; vm_compute; reflexivity. Qed.
(** ** The FFmpeg decoder *)

Import FFmpeg.

Lemma pRealloc_length {A} (fresh : A) mem n :
  0 <= n -> Z.of_nat (length (pRealloc fresh mem n)) = n.
Proof.
  intros Hn. unfold pRealloc.
  rewrite length_app, length_take, length_replicate. lia.
Qed.

Lemma pRealloc_same {A} (fresh : A) mem :
  pRealloc fresh mem (Z.of_nat (length mem)) = mem.
Proof.
  unfold pRealloc. rewrite Nat2Z.id, Nat.sub_diag, firstn_all.
  apply app_nil_r.
Qed.

Lemma store_other {A} (mem : list A) off vals mem' (i : nat) :
  store mem off vals = Ok mem' ->
  Z.of_nat i < off \/ off + Z.of_nat (length vals) <= Z.of_nat i ->
  mem' !! i = mem !! i.
Proof.
  unfold store. intros H Hi.
  destruct (0 <=? off) eqn:H0;
    destruct (off + Z.of_nat (length vals) <=? Z.of_nat (length mem)) eqn:H1;
    simpl in H; inv_res. subst mem'.
  apply Z.leb_le in H0, H1.
  destruct Hi as [Hi|Hi].
  - rewrite lookup_app_l by (rewrite length_take; lia).
    apply lookup_take_lt. lia.
  - rewrite lookup_app_r by (rewrite length_take; lia).
    rewrite lookup_app_r by (rewrite length_take; lia).
    rewrite lookup_drop, length_take. f_equal. lia.
Qed.

Section ConvertCache.

Context {AVCodecContext : Type}.
Variable channels : AVCodecContext -> Z.
Variable av_sample_fmt_is_planar : AVCodecContext -> bool.
Variable fresh_word : Z.

Variable frame : AVFrame.
Variable chans : Z.

Section Planar.

Variable cache : list Z.
Hypothesis holds : frame_holds frame chans true.
Hypothesis room : nb_samples frame * chans <= Z.of_nat (length cache).

Lemma interleaved_next k w :
  0 <= k < Z.of_nat (length cache) ->
  plane frame (k mod chans) !! Z.to_nat (k / chans) = Some w ->
  <[Z.to_nat k := w]> (interleaved frame chans true k cache) =
  interleaved frame chans true (k + 1) cache.
Proof.
  intros Hk Hw. apply list_eq. intros i. unfold interleaved.
  rewrite list_lookup_insert, !list_lookup_imap, length_imap.
  destruct (decide (Z.to_nat k = i /\ (Z.to_nat k < length cache)%nat))
    as [[<- _]|Hne].
  - destruct (lookup_lt_is_Some_2 cache (Z.to_nat k)) as [x Hx]; [lia|].
    rewrite Hx. simpl. rewrite Z2Nat.id by lia.
    assert (Hlt : (k <? k + 1) = true) by (apply Z.ltb_lt; lia).
    rewrite Hlt, Hw. reflexivity.
  - destruct (cache !! i) as [y|] eqn:Hy; [|reflexivity]. simpl.
    assert (Hi : Z.to_nat k <> i) by (intros <-; apply Hne; split; [|lia];
                                        reflexivity).
    destruct (Z.of_nat i <? k) eqn:H1; destruct (Z.of_nat i <? k + 1) eqn:H2;
      try reflexivity; lia.
Qed.

Lemma planar_loop_channels s k : forall c,
  0 <= s < nb_samples frame -> 0 <= c -> c + Z.of_nat k <= chans ->
  for_from c k
    (fun c '(cache, dst) =>
       w ← load1 (plane frame c) s;
       cache ← store1 cache dst w;
       Ok (cache, dst + 1))
    (interleaved frame chans true (s * chans + c) cache, s * chans + c) =
  Ok (interleaved frame chans true (s * chans + c + Z.of_nat k) cache,
      s * chans + c + Z.of_nat k).
Proof.
  destruct holds as (Hn & Hc & Hsmall & Hplanes).
  induction k as [|k IH]; intros c Hs Hc0 Hk.
  - cbn [for_from]. rewrite Z.add_0_r. reflexivity.
  - cbn [for_from].
    remember (s * chans + c) as idx eqn:Hidx.
    assert (Hr : 0 <= idx < nb_samples frame * chans) by nia.
    destruct (index_of_frame chans s c) as [Hdiv Hmod]; [lia|lia|].
    rewrite <- Hidx in Hdiv, Hmod.
    destruct (load1_Ok (plane frame c) s) as (w & -> & Hw).
    { specialize (Hplanes c). lia. }
    cbn [mbind res_bind].
    rewrite store1_Ok by (unfold interleaved; rewrite length_imap; lia).
    cbn [mbind res_bind].
    rewrite (interleaved_next idx w)
      by (try lia; rewrite Hdiv, Hmod; exact Hw).
    replace (idx + 1) with (s * chans + (c + 1)) by lia.
    rewrite IH by lia. f_equal. f_equal; [f_equal|]; lia.
Qed.

Lemma planar_loop_frames k : forall s,
  0 <= s -> s + Z.of_nat k <= nb_samples frame ->
  for_from s k
    (fun s st =>
       for_loop chans
         (fun c '(cache, dst) =>
            w ← load1 (plane frame c) s;
            cache ← store1 cache dst w;
            Ok (cache, dst + 1))
         st)
    (interleaved frame chans true (s * chans) cache, s * chans) =
  Ok (interleaved frame chans true ((s + Z.of_nat k) * chans) cache,
      (s + Z.of_nat k) * chans).
Proof.
  destruct holds as (Hn & Hc & Hsmall & Hplanes).
  induction k as [|k IH]; intros s Hs Hk.
  - cbn [for_from]. rewrite Z.add_0_r. reflexivity.
  - cbn [for_from].
    pose proof (planar_loop_channels s (Z.to_nat chans) 0) as Hch.
    rewrite Z.add_0_r in Hch.
    replace (s * chans + Z.of_nat (Z.to_nat chans))
      with ((s + 1) * chans) in Hch by lia.
    change (for_from 0 (Z.to_nat chans) ?b ?st)
      with (for_loop chans b st) in Hch.
    rewrite Hch by lia. cbn [mbind res_bind].
    rewrite IH by lia. f_equal. f_equal; [f_equal|]; lia.
Qed.

Lemma interleaved_0 planar : interleaved frame chans planar 0 cache = cache.
Proof.
  apply list_eq. intros i. unfold interleaved. rewrite list_lookup_imap.
  destruct (cache !! i); [|reflexivity]. simpl.
  assert (Hf : (Z.of_nat i <? 0) = false) by (apply Z.ltb_ge; lia).
  rewrite Hf. reflexivity.
Qed.

Lemma Fill_planar_closed :
  Fill_planar frame chans cache =
    Ok (interleaved frame chans true (nb_samples frame * chans) cache,
        nb_samples frame * chans).
Proof.
  destruct holds as (Hn & Hc & Hsmall & Hplanes).
  unfold Fill_planar, for_loop at 1.
  rewrite <- (interleaved_0 true) at 1.
  pose proof (planar_loop_frames (Z.to_nat (nb_samples frame)) 0) as Hf.
  rewrite Z.mul_0_l in Hf. rewrite Hf by lia.
  f_equal. f_equal; [f_equal|]; lia.
Qed.

End Planar.

Section Packed.

Variable cache : list Z.
Hypothesis holds : frame_holds frame chans false.
Hypothesis room : nb_samples frame * chans <= Z.of_nat (length cache).

Lemma Fill_packed_closed :
  load (plane frame 0) 0 (nb_samples frame * chans) ≫= store cache 0 =
    Ok (interleaved frame chans false (nb_samples frame * chans) cache).
Proof.
  destruct holds as (Hn & Hc & Hsmall & Hplane).
  set (total := nb_samples frame * chans) in *.
  assert (Ht : 0 <= total) by (subst total; nia).
  rewrite load_Ok by lia. cbn [mbind res_bind].
  change (Z.to_nat 0) with 0%nat. rewrite drop_0.
  rewrite store_Ok by (rewrite ?length_take; lia).
  f_equal. change (Z.to_nat 0) with 0%nat.
  rewrite take_0, Nat.add_0_l, app_nil_l, length_take.
  replace (Z.to_nat total `min` length (plane frame 0))%nat
    with (Z.to_nat total) by lia.
  apply list_eq. intros i. unfold interleaved. rewrite list_lookup_imap.
  destruct (decide (i < Z.to_nat total)%nat) as [Hi|Hi].
  - rewrite lookup_app_l by (rewrite length_take; lia).
    rewrite lookup_take_lt by exact Hi.
    destruct (lookup_lt_is_Some_2 cache i) as [x Hx]; [lia|].
    destruct (lookup_lt_is_Some_2 (plane frame 0) i) as [w Hw]; [lia|].
    rewrite Hx, Hw. simpl.
    assert (Hlt : (Z.of_nat i <? total) = true) by (apply Z.ltb_lt; lia).
    rewrite Hlt. reflexivity.
  - rewrite lookup_app_r by (rewrite length_take; lia).
    rewrite length_take, lookup_drop.
    replace (Z.to_nat total + (i - Z.to_nat total `min` length (plane frame 0)))%nat
      with i by lia.
    destruct (cache !! i); [|reflexivity]. simpl.
    assert (Hlt : (Z.of_nat i <? total) = false) by (apply Z.ltb_ge; lia).
    rewrite Hlt. reflexivity.
Qed.

End Packed.

End ConvertCache.

Lemma bind_ends {A B} (m : res A) (f : A -> res B) :
  m <> OutOfFuel -> (forall a, m = Ok a -> f a <> OutOfFuel) ->
  m ≫= f <> OutOfFuel.
Proof.
  intros Hm Hf. destruct m as [a| |]; cbn; [apply Hf; reflexivity| |];
    congruence.
Qed.

Lemma for_from_ends {S} (body : Z -> S -> res S) :
  (forall i st, body i st <> OutOfFuel) ->
  forall n i st, for_from i n body st <> OutOfFuel.
Proof.
  intros Hbody. induction n as [|n IH]; intros i st; cbn [for_from];
    [discriminate|].
  apply bind_ends; [apply Hbody|]. intros st' _. apply IH.
Qed.

Lemma Decode_seek_ends table byteOffset : forall fuel packetIdx,
  0 <= packetIdx < 2 ^ 32 ->
  Z.of_nat (length table) <= Z.of_nat fuel ->
  Decode_seek fuel table byteOffset packetIdx <> OutOfFuel.
Proof.
  assert (Hgen : forall fuel p, 0 <= p < 2 ^ 32 ->
            (p < Z.of_nat (length table) -> p <= Z.of_nat fuel) ->
            Decode_seek fuel table byteOffset p <> OutOfFuel).
  { induction fuel as [|fuel IH]; intros p Hp Hfuel; cbn [Decode_seek];
      destruct (p >? 0) eqn:Hpos; try discriminate.
    - unfold load1. destruct (0 <=? p); [|discriminate].
      destruct (table !! Z.to_nat p) as [bytes|] eqn:Hb; [|discriminate].
      apply lookup_lt_Some in Hb. lia.
    - apply bind_ends; [apply load1_ends|]. intros bytes Hb.
      destruct (bytes >? byteOffset); [|discriminate].
      rewrite (u32_small (p - 1)) by lia. apply IH; [lia|].
      intros Hlt. unfold load1 in Hb. destruct (0 <=? p); [|discriminate].
      destruct (table !! Z.to_nat p) eqn:Hl; [|discriminate].
      apply lookup_lt_Some in Hl. lia. }
  intros fuel p Hp Hfuel. apply Hgen; [exact Hp|]. lia.
Qed.

Section Decoder.

Context {AVCodecContext : Type}.
Variable channels : AVCodecContext -> Z.
Variable av_sample_fmt_is_planar : AVCodecContext -> bool.
Variable avcodec_receive_frame :
  AVCodecContext -> AVFrame -> AVCodecContext * AVFrame * Z.
Variable avcodec_send_packet :
  AVCodecContext -> list byte -> Z -> AVCodecContext * Z.
Variable AVERROR_EAGAIN : Z.
Variable AV_INPUT_BUFFER_PADDING_SIZE : Z.
Variable fresh_byte : byte.
Variable fresh_word : Z.

Local Abbreviation state := (@FAudioFFmpeg AVCodecContext).
Local Abbreviation Fill_loop :=
  (Fill_loop avcodec_receive_frame avcodec_send_packet AVERROR_EAGAIN
     AV_INPUT_BUFFER_PADDING_SIZE fresh_byte).
Local Abbreviation Fill_round :=
  (Fill_round avcodec_receive_frame avcodec_send_packet AVERROR_EAGAIN
     AV_INPUT_BUFFER_PADDING_SIZE fresh_byte).
Local Abbreviation Fill_copy :=
  (Fill_copy channels av_sample_fmt_is_planar fresh_word).
Local Abbreviation FillConvertCache :=
  (FAudio_INTERNAL_FillConvertCache channels av_sample_fmt_is_planar
     avcodec_receive_frame avcodec_send_packet AVERROR_EAGAIN
     AV_INPUT_BUFFER_PADDING_SIZE fresh_byte fresh_word).

Lemma fed_refl (f : state) : fed f f.
Proof. repeat split. Qed.

Lemma fed_trans (f1 f2 f3 : state) : fed f1 f2 -> fed f2 f3 -> fed f1 f3.
Proof. unfold fed. intuition congruence. Qed.

Lemma Fill_pad_fed (f f' : state) buffer :
  Fill_pad AV_INPUT_BUFFER_PADDING_SIZE fresh_byte f buffer = Ok f' ->
  fed f f'.
Proof.
  unfold Fill_pad. intros H. inv_res. subst f'.
  destruct (paddingBytes f <? _); repeat split.
Qed.

Lemma Fill_round_fed size buffer (f : state) p r :
  Fill_round size buffer (f, p) = Ok r ->
  match r with
  | inl (f', _) => fed f f'
  | inr f' => fed f f'
  end.
Proof.
  unfold Fill_round. intros H.
  destruct (avcodec_receive_frame (av_ctx f) (av_frame f))
    as [[ctx frame] averr].
  destruct (averr =? AVERROR_EAGAIN).
  - cbn [encOffset set_codec] in H.
    destruct (encOffset f >=? AudioBytes buffer).
    + inv_res. subst r. repeat split.
    + inv_res. destruct a as [f1 p1].
      assert (Hf1 : fed f f1).
      { destruct (_ >? _) in Ha; inv_res.
        - subst. apply Fill_pad_fed in Ha0. exact Ha0.
        - subst. repeat split. }
      destruct (avcodec_send_packet _ _ _) as [ctx' averr'].
      inv_res. subst r. destruct Hf1 as (? & ? & ? & ? & ?).
      repeat split; assumption.
  - inv_res. subst r. repeat split.
Qed.

Lemma Fill_loop_fed fuel size buffer : forall (f : state) p f',
  Fill_loop fuel size buffer (f, p) = Ok f' -> fed f f'.
Proof.
  induction fuel as [|fuel IH]; intros f p f' H; cbn [FFmpeg.Fill_loop] in H;
    [discriminate|].
  inv_res. apply Fill_round_fed in Ha. destruct a as [[f1 p1]|f1].
  - eapply fed_trans; [exact Ha|]. eapply IH, H.
  - inv_res. subst. exact Ha.
Qed.

Lemma Fill_copy_converted (f f' : state) :
  Fill_copy f = Ok f' -> converted f f'.
Proof.
  unfold FFmpeg.Fill_copy, FAudio_INTERNAL_ResizeConvertCache. intros H.
  inv_res. subst f'. destruct (_ >? _); repeat split.
Qed.

(** The frame that a refill converts, and the cache it leaves. *)
Lemma Fill_copy_closed (f : state) :
  frame_holds (av_frame f) (channels (av_ctx f))
    (av_sample_fmt_is_planar (av_ctx f)) ->
  Z.of_nat (length (convertCache f)) = convertCapacity f ->
  Fill_copy f =
    Ok (set_convert f
          (Z.max (convertCapacity f)
             (nb_samples (av_frame f) * channels (av_ctx f)))
          (nb_samples (av_frame f)) 0
          (interleaved (av_frame f) (channels (av_ctx f))
             (av_sample_fmt_is_planar (av_ctx f))
             (nb_samples (av_frame f) * channels (av_ctx f))
             (pRealloc fresh_word (convertCache f)
                (Z.max (convertCapacity f)
                   (nb_samples (av_frame f) * channels (av_ctx f)))))).
Proof.
  intros Hholds Hlen. unfold FFmpeg.Fill_copy.
  set (frame := av_frame f) in *. set (chans := channels (av_ctx f)) in *.
  set (total := nb_samples frame * chans).
  assert (Hr : 0 <= total < 2 ^ 32).
  { destruct Hholds as (? & ? & ? & _). subst total. nia. }
  rewrite (u32_small total) by exact Hr.
  rewrite (u32_small (nb_samples frame))
    by (destruct Hholds as (? & _); lia).
  unfold FAudio_INTERNAL_ResizeConvertCache.
  destruct (total >? convertCapacity f) eqn:Hgrow.
  - cbn [convertCache convertCapacity set_convert av_ctx].
    fold chans. replace (Z.max (convertCapacity f) total) with total by lia.
    assert (Hroom : total <=
              Z.of_nat (length (pRealloc fresh_word (convertCache f) total)))
      by (rewrite pRealloc_length; lia).
    destruct (av_sample_fmt_is_planar (av_ctx f)).
    + rewrite (Fill_planar_closed frame chans _ Hholds Hroom).
      reflexivity.
    + pose proof (Fill_packed_closed frame chans _ Hholds Hroom) as Hp.
      fold total in Hp.
      destruct (load (plane frame 0) 0 total) as [ws| |];
        cbn [mbind res_bind] in Hp |- *; try discriminate Hp.
      rewrite Hp. reflexivity.
  - replace (Z.max (convertCapacity f) total) with (convertCapacity f) by lia.
    replace (pRealloc fresh_word (convertCache f) (convertCapacity f))
      with (convertCache f)
      by (rewrite <- Hlen; symmetry; apply pRealloc_same).
    fold chans.
    assert (Hroom : total <= Z.of_nat (length (convertCache f))) by lia.
    destruct (av_sample_fmt_is_planar (av_ctx f)).
    + rewrite (Fill_planar_closed frame chans _ Hholds Hroom).
      reflexivity.
    + pose proof (Fill_packed_closed frame chans _ Hholds Hroom) as Hp.
      fold total in Hp.
      destruct (load (plane frame 0) 0 total) as [ws| |];
        cbn [mbind res_bind] in Hp |- *; try discriminate Hp.
      rewrite Hp. reflexivity.
Qed.

(** X19. The convert cache after a refill. When
    FAudio_INTERNAL_FillConvertCache returns and the frame that the codec
    left holds what it says, the cache holds that frame interleaved: from
    a planar frame sample [s] of channel [c] is the word at
    [s * channels + c], from a packed frame the words of plane 0 stay in
    their order. The cache has grown to the size of the frame if it was
    smaller and is never shrunk, what lies behind the frame is what was
    there, [convertSamples] is the sample count of the frame and
    [convertOffset] is 0. *)
Theorem FillConvertCache_interleaves fuel nBlockAlign (f : state) buffer f' :
  FAudio_INTERNAL_FillConvertCache channels av_sample_fmt_is_planar
    avcodec_receive_frame avcodec_send_packet AVERROR_EAGAIN
    AV_INPUT_BUFFER_PADDING_SIZE fresh_byte fresh_word
    fuel nBlockAlign f buffer = Ok f' ->
  frame_holds (av_frame f') (channels (av_ctx f'))
    (av_sample_fmt_is_planar (av_ctx f')) ->
  Z.of_nat (length (convertCache f)) = convertCapacity f ->
  convertSamples f' = nb_samples (av_frame f') /\
  convertOffset f' = 0 /\
  convertCapacity f' =
    Z.max (convertCapacity f)
      (nb_samples (av_frame f') * channels (av_ctx f')) /\
  Z.of_nat (length (convertCache f')) = convertCapacity f' /\
  convertCache f' =
    interleaved (av_frame f') (channels (av_ctx f'))
      (av_sample_fmt_is_planar (av_ctx f'))
      (nb_samples (av_frame f') * channels (av_ctx f'))
      (pRealloc fresh_word (convertCache f) (convertCapacity f')).
Proof.
  unfold FAudio_INTERNAL_FillConvertCache. intros H Hholds Hlen. inv_res.
  rename a into f1.
  destruct (Fill_loop_fed _ _ _ _ _ _ Ha) as (_ & Hcap & _ & _ & Hcache).
  destruct (Fill_copy_converted _ _ H) as (Hctx & Hframe & _).
  rewrite Hctx, Hframe in Hholds.
  rewrite (Fill_copy_closed f1 Hholds) in H by congruence.
  injection H as <-. cbn [convertSamples convertOffset convertCapacity
                          convertCache set_convert av_ctx av_frame].
  rewrite Hcap, Hcache.
  repeat split.
  unfold interleaved. rewrite length_imap. apply pRealloc_length.
  destruct Hholds as (? & ? & ? & _). lia.
Qed.

Local Abbreviation Decode_round :=
  (Decode_round channels av_sample_fmt_is_planar avcodec_receive_frame
     avcodec_send_packet AVERROR_EAGAIN AV_INPUT_BUFFER_PADDING_SIZE
     fresh_byte fresh_word).
Local Abbreviation Decode_loop :=
  (Decode_loop channels av_sample_fmt_is_planar avcodec_receive_frame
     avcodec_send_packet AVERROR_EAGAIN AV_INPUT_BUFFER_PADDING_SIZE
     fresh_byte fresh_word).
Local Abbreviation Decode_reseek :=
  (Decode_reseek channels av_sample_fmt_is_planar avcodec_receive_frame
     avcodec_send_packet AVERROR_EAGAIN AV_INPUT_BUFFER_PADDING_SIZE
     fresh_byte fresh_word).
Local Abbreviation DecodeFFMPEG :=
  (FAudio_INTERNAL_DecodeFFMPEG channels av_sample_fmt_is_planar
     avcodec_receive_frame avcodec_send_packet AVERROR_EAGAIN
     AV_INPUT_BUFFER_PADDING_SIZE fresh_byte fresh_word).

Lemma FillConvertCache_decOffset fuel nBlockAlign (f : state) buffer f' :
  FillConvertCache fuel nBlockAlign f buffer = Ok f' ->
  decOffset f' = decOffset f.
Proof.
  unfold FAudio_INTERNAL_FillConvertCache. intros H. inv_res.
  destruct (Fill_loop_fed _ _ _ _ _ _ Ha) as (Hd & _).
  destruct (Fill_copy_converted _ _ H) as (_ & _ & _ & Hd' & _).
  congruence.
Qed.

Section Copy.

Variable format : FAudioWaveFormatEx.
Variable buffer : FAudioBuffer.
Variable samples : Z.
Variable decodeCache : list Z.
Variable position : Z.

Hypothesis channels_range : 0 <= nChannels format.
Hypothesis samples_range : 0 <= samples < 2 ^ 32.

Local Abbreviation copy_keeps :=
  (copy_keeps (nChannels format) samples decodeCache position).

Lemma Decode_round_keeps fuel st r :
  Decode_round fuel format buffer samples st = Ok r ->
  cl_done st < samples ->
  copy_keeps st ->
  match r with inl st' => copy_keeps st' | inr st' => copy_keeps st' end.
Proof.
  unfold FFmpeg.Decode_round. intros H Hlt (Hpos & Hlen & Hdone & Hrest).
  inv_res. rename a into f.
  assert (Hf : decOffset f = position).
  { destruct (_ >=? _) in Ha; inv_res; [|congruence].
    apply FillConvertCache_decOffset in Ha. congruence. }
  destruct (u32 (convertSamples f - convertOffset f) <=? 0) eqn:Hav.
  - inv_res. subst r. repeat split; cbn; try assumption; lia.
  - inv_res. subst r. rename a into ws. rename a0 into cache.
    set (available := u32 (convertSamples f - convertOffset f)) in *.
    set (todo := FAudio_min available (u32 (samples - cl_done st))) in *.
    assert (Hleft : u32 (samples - cl_done st) = samples - cl_done st)
      by (apply u32_small; lia).
    assert (Htodo : 0 < todo <= samples - cl_done st).
    { subst todo. rewrite Hleft. unfold FAudio_min.
      destruct (available <? samples - cl_done st) eqn:Hm; lia. }
    pose proof (load_length _ _ _ _ Ha0) as Hws.
    pose proof (store_length _ _ _ _ Ha1) as Hcl.
    assert (Hu : forall z, 0 <= z -> 0 <= u32 z <= z).
    { intros z Hz. unfold u32. split; [apply Z.mod_pos_bound; lia|].
      apply Z.mod_le; lia. }
    repeat split; cbn [cl_ffmpeg cl_decodeCache cl_done decOffset set_convert].
    + exact Hf.
    + congruence.
    + unfold u32. apply Z.mod_pos_bound. lia.
    + rewrite u32_small by lia. lia.
    + intros i Hi. rewrite <- Hrest by exact Hi.
      eapply store_other; [exact Ha1|]. right. rewrite Hws.
      pose proof (Hu (cl_done st * nChannels format) ltac:(nia)).
      pose proof (Hu (todo * nChannels format) ltac:(nia)).
      nia.
Qed.

Lemma Decode_loop_keeps fuel : forall st st',
  Decode_loop fuel format buffer samples st = Ok st' ->
  copy_keeps st -> copy_keeps st'.
Proof.
  induction fuel as [|fuel IH]; intros st st' H Hk;
    cbn [FFmpeg.Decode_loop] in H;
    destruct (cl_done st <? samples) eqn:Hlt;
    try (inv_res; subst st'; exact Hk); try discriminate H.
  inv_res. apply Z.ltb_lt in Hlt.
  pose proof (Decode_round_keeps _ _ _ Ha Hlt Hk) as Hr.
  destruct a as [st1|st1].
  - eapply IH; [exact H|exact Hr].
  - inv_res. subst st'. exact Hr.
Qed.

End Copy.

Lemma Decode_reposition_position cur (f f' : state) :
  Decode_reposition cur f = (f', false) -> decOffset f' = cur.
Proof.
  unfold Decode_reposition.
  destruct (cur <? decOffset f) eqn:Hlt.
  - destruct (_ >=? _); intros H; inversion H. reflexivity.
  - destruct (cur >? decOffset f) eqn:Hgt; intros H; inversion H. subst f'.
    lia.
Qed.

Lemma Decode_reseek_position fuel voice buffer (f f' : state) :
  Decode_reseek fuel voice buffer f = Ok f' ->
  decOffset f' = voice_curBufferOffset voice.
Proof.
  unfold FFmpeg.Decode_reseek. intros H.
  destruct (voice_bufferWMA voice); [|discriminate H].
  inv_res. subst f'. reflexivity.
Qed.

(** X20. Where a decode call leaves the decoder and the decode cache.
    Whichever way the call went (in step, rewound inside the cache, or a
    seek), when it returns the decoder stands at the voice's offset plus
    the frames asked for, [decOffset == curBufferOffset + samples] in
    32 bits; the decode cache keeps its size and every word behind the
    [samples * nChannels] that were asked for. *)
Theorem DecodeFFMPEG_position fuel voice buffer decodeCache samples
    (f' : state) cache' :
  FAudio_INTERNAL_DecodeFFMPEG channels av_sample_fmt_is_planar
    avcodec_receive_frame avcodec_send_packet AVERROR_EAGAIN
    AV_INPUT_BUFFER_PADDING_SIZE fresh_byte fresh_word
    fuel voice buffer decodeCache samples = Ok (f', cache') ->
  0 <= nChannels (voice_format voice) ->
  0 <= samples < 2 ^ 32 ->
  decOffset f' = u32 (voice_curBufferOffset voice + samples) /\
  length cache' = length decodeCache /\
  forall i : nat,
    samples * nChannels (voice_format voice) <= Z.of_nat i ->
    cache' !! i = decodeCache !! i.
Proof.
  unfold FAudio_INTERNAL_DecodeFFMPEG. intros H Hch Hs.
  destruct (Decode_reposition _ _) as [f0 reseek] eqn:Hrep.
  inv_res. rename a into f1, a0 into st. subst f' a1.
  assert (Hf1 : decOffset f1 = voice_curBufferOffset voice).
  { destruct reseek; inv_res.
    - eapply Decode_reseek_position, Ha.
    - subst f1. eapply Decode_reposition_position, Hrep. }
  assert (Hk : copy_keeps (nChannels (voice_format voice)) samples decodeCache
                 (voice_curBufferOffset voice) st).
  { eapply Decode_loop_keeps; [exact Hch|exact Hs|exact Ha0|].
    repeat split; cbn; try assumption; lia. }
  destruct Hk as (Hpos & Hlen & Hdone & Hrest).
  cbn [decOffset set_offsets]. rewrite Hpos.
  split; [reflexivity|].
  destruct (cl_done st <? samples) eqn:Hlt; inv_res.
  - split; [rewrite (store_length _ _ _ _ Ha1); exact Hlen|].
    intros i Hi. rewrite <- Hrest by exact Hi.
    eapply store_other; [exact Ha1|]. right.
    rewrite length_replicate.
    assert (Hu : forall z, 0 <= z -> 0 <= u32 z <= z).
    { intros z Hz. unfold u32. split; [apply Z.mod_pos_bound; lia|].
      apply Z.mod_le; lia. }
    pose proof (Hu (cl_done st * nChannels (voice_format voice))
                  ltac:(nia)).
    pose proof (Hu ((samples - cl_done st) * nChannels (voice_format voice))
                  ltac:(nia)).
    nia.
  - subst cache'. split; [exact Hlen|exact Hrest].
Qed.

(** X21. A request that the convert cache can serve. When the voice is
    in step with the decoder and the frame in the convert cache has at
    least [samples] frames left, the call copies them to the head of the
    decode cache and moves [convertOffset] and [decOffset] on by
    [samples]: the codec is not called, nothing is refilled and nothing is
    zeroed. *)
Theorem DecodeFFMPEG_from_cache fuel voice buffer decodeCache samples :
  let f : state := voice_ffmpeg voice in
  let chans := nChannels (voice_format voice) in
  voice_curBufferOffset voice = decOffset f ->
  0 < samples ->
  0 <= convertOffset f ->
  convertOffset f + samples <= convertSamples f < 2 ^ 32 ->
  0 <= chans ->
  (convertOffset f + samples) * chans < 2 ^ 32 ->
  (convertOffset f + samples) * chans
    <= Z.of_nat (length (convertCache f)) ->
  samples * chans <= Z.of_nat (length decodeCache) ->
  FAudio_INTERNAL_DecodeFFMPEG channels av_sample_fmt_is_planar
    avcodec_receive_frame avcodec_send_packet AVERROR_EAGAIN
    AV_INPUT_BUFFER_PADDING_SIZE fresh_byte fresh_word
    (S fuel) voice buffer decodeCache samples =
    Ok (set_offsets
          (set_convert f (convertCapacity f) (convertSamples f)
             (convertOffset f + samples) (convertCache f))
          (encOffset f) (u32 (decOffset f + samples)),
        take (Z.to_nat (samples * chans))
          (drop (Z.to_nat (convertOffset f * chans)) (convertCache f)) ++
        drop (Z.to_nat (samples * chans)) decodeCache).
Proof.
  intros f chans Hstep Hs Hco Hcs Hch Hsmall Hroom Hout.
  unfold FAudio_INTERNAL_DecodeFFMPEG, Decode_reposition.
  fold f chans. rewrite Hstep.
  rewrite Z.ltb_irrefl.
  assert (Hgt : (decOffset f >? decOffset f) = false) by lia.
  rewrite Hgt. cbn [mbind res_bind FFmpeg.Decode_loop cl_done].
  assert (Hlt : (0 <? samples) = true) by (apply Z.ltb_lt; lia).
  rewrite Hlt. unfold FFmpeg.Decode_round. cbn [cl_ffmpeg cl_done
                                               cl_decodeCache].
  assert (Hfull : (convertOffset f >=? convertSamples f) = false) by lia.
  rewrite Hfull. cbn [mbind res_bind].
  assert (Hav : u32 (convertSamples f - convertOffset f) =
                convertSamples f - convertOffset f)
    by (apply u32_small; lia).
  rewrite Hav.
  assert (Hpos : (convertSamples f - convertOffset f <=? 0) = false)
    by (apply Z.leb_gt; lia).
  rewrite Hpos. rewrite Z.sub_0_r, (u32_small samples) by lia.
  assert (Htodo : FAudio_min (convertSamples f - convertOffset f) samples
                  = samples).
  { unfold FAudio_min.
    destruct (convertSamples f - convertOffset f <? samples) eqn:Hm; lia. }
  rewrite Htodo. fold chans.
  rewrite (u32_small (convertOffset f * chans)) by nia.
  rewrite (u32_small (samples * chans)) by nia.
  rewrite load_Ok by nia. cbn [mbind res_bind].
  rewrite Z.mul_0_l. change (u32 0) with 0.
  assert (Hlen : length (take (Z.to_nat (samples * chans))
                           (drop (Z.to_nat (convertOffset f * chans))
                              (convertCache f))) =
                 Z.to_nat (samples * chans)).
  { rewrite length_take, length_drop. nia. }
  rewrite store_Ok by (rewrite ?Hlen; nia). cbn [mbind res_bind].
  rewrite Hlen. change (Z.to_nat 0) with 0%nat. rewrite take_0.
  rewrite Z.add_0_l, (u32_small samples) by lia.
  rewrite (u32_small (convertOffset f + samples)) by lia.
  assert (Hend : forall st : @copy_loop AVCodecContext,
            cl_done st = samples ->
            Decode_loop fuel (voice_format voice) buffer samples st = Ok st).
  { intros st Hd. destruct fuel; cbn [FFmpeg.Decode_loop];
      rewrite Hd, Z.ltb_irrefl; reflexivity. }
  rewrite Hend by reflexivity. cbn [mbind res_bind cl_done cl_decodeCache
                                     cl_ffmpeg].
  rewrite Z.ltb_irrefl. cbn [mbind res_bind]. reflexivity.
Qed.

(** X24. Silence at the end of a buffer. The voice is in step with the
    decoder, the convert cache is used up, every byte of the buffer has
    been sent, and the codec has nothing more: it answers
    [AVERROR(EAGAIN)] and leaves an empty frame. Then the call fills the
    [samples * nChannels] words asked for with zeros, leaves the rest of
    the decode cache alone, and still moves [decOffset] on by [samples]. *)
Theorem DecodeFFMPEG_silence fuel voice buffer decodeCache samples ctx' frame' :
  let f : state := voice_ffmpeg voice in
  let chans := nChannels (voice_format voice) in
  avcodec_receive_frame (av_ctx f) (av_frame f) =
    (ctx', frame', AVERROR_EAGAIN) ->
  nb_samples frame' = 0 ->
  AudioBytes buffer <= encOffset f ->
  voice_curBufferOffset voice = decOffset f ->
  convertSamples f <= convertOffset f ->
  0 <= convertCapacity f ->
  0 < samples < 2 ^ 32 ->
  0 <= samples * chans < 2 ^ 32 ->
  samples * chans <= Z.of_nat (length decodeCache) ->
  exists f' : state,
    FAudio_INTERNAL_DecodeFFMPEG channels av_sample_fmt_is_planar
      avcodec_receive_frame avcodec_send_packet AVERROR_EAGAIN
      AV_INPUT_BUFFER_PADDING_SIZE fresh_byte fresh_word
      (S fuel) voice buffer decodeCache samples =
      Ok (f', replicate (Z.to_nat (samples * chans)) 0 ++
              drop (Z.to_nat (samples * chans)) decodeCache) /\
    decOffset f' = u32 (decOffset f + samples) /\
    convertSamples f' = 0 /\ convertOffset f' = 0.
Proof.
  intros f chans Hrecv Hempty Hsent Hstep Hused Hcap Hs Hsmall Hroom.
  unfold FAudio_INTERNAL_DecodeFFMPEG, Decode_reposition.
  fold f chans. rewrite Hstep, Z.ltb_irrefl.
  assert (Hgt : (decOffset f >? decOffset f) = false) by lia.
  rewrite Hgt. cbn [mbind res_bind FFmpeg.Decode_loop cl_done].
  assert (Hlt : (0 <? samples) = true) by (apply Z.ltb_lt; lia).
  rewrite Hlt. unfold FFmpeg.Decode_round.
  cbn [cl_ffmpeg cl_done cl_decodeCache].
  assert (Hfull : (convertOffset f >=? convertSamples f) = true) by lia.
  rewrite Hfull.
  assert (Hfill :
    FillConvertCache (S fuel) (nBlockAlign (voice_format voice)) f buffer =
      Ok (set_convert (set_codec f ctx' frame') (convertCapacity f) 0 0
            (convertCache f))).
  { unfold FAudio_INTERNAL_FillConvertCache.
    cbn [FFmpeg.Fill_loop]. unfold FFmpeg.Fill_round. rewrite Hrecv.
    rewrite Z.eqb_refl. cbn [encOffset set_codec].
    assert (Hge : (encOffset f >=? AudioBytes buffer) = true) by lia.
    rewrite Hge. cbn [mbind res_bind].
    unfold FFmpeg.Fill_copy. cbn [av_frame av_ctx set_codec].
    rewrite Hempty, Z.mul_0_l. change (u32 0) with 0.
    unfold FAudio_INTERNAL_ResizeConvertCache.
    cbn [convertCapacity set_codec].
    assert (Hno : (0 >? convertCapacity f) = false) by lia.
    rewrite Hno. cbn [av_ctx convertCache convertCapacity set_codec].
    destruct (av_sample_fmt_is_planar ctx').
    - unfold Fill_planar, for_loop. rewrite Hempty. reflexivity.
    - rewrite load_Ok by lia. cbn [mbind res_bind].
      change (Z.to_nat 0) with 0%nat. rewrite take_0.
      rewrite store_Ok by (cbn [length]; lia). reflexivity. }
  rewrite Hfill. cbn [mbind res_bind convertSamples convertOffset
                      set_convert].
  change (u32 (0 - 0) <=? 0) with true. cbn [mbind res_bind cl_done
                                             cl_decodeCache cl_ffmpeg].
  rewrite Hlt, Z.mul_0_l, Z.sub_0_r. change (u32 0) with 0. fold chans.
  rewrite (u32_small (samples * chans)) by lia.
  rewrite store_Ok by (rewrite ?length_replicate; lia).
  cbn [mbind res_bind]. rewrite length_replicate.
  change (Z.to_nat 0) with 0%nat. rewrite take_0, Nat.add_0_l, app_nil_l.
  eexists. split; [reflexivity|]. repeat split.
Qed.

(** *** Termination *)

Section Termination.

Variable buffer : FAudioBuffer.
Variable size : Z.
Hypothesis size_pos : 0 < size.
Hypothesis bytes_range : AudioBytes buffer + size <= 2 ^ 32.

Lemma Fill_pad_encOffset (f f' : state) :
  Fill_pad AV_INPUT_BUFFER_PADDING_SIZE fresh_byte f buffer = Ok f' ->
  encOffset f' = encOffset f.
Proof.
  unfold Fill_pad. intros H. inv_res. subst f'.
  destruct (paddingBytes f <? _); reflexivity.
Qed.

Lemma Fill_round_progress (f : state) p r :
  Fill_round size buffer (f, p) = Ok r ->
  0 <= encOffset f ->
  match r with
  | inl (f', _) =>
      encOffset f < AudioBytes buffer /\ encOffset f' = encOffset f + size
  | inr f' => encOffset f' = encOffset f
  end.
Proof.
  unfold FFmpeg.Fill_round. intros H Henc.
  destruct (avcodec_receive_frame (av_ctx f) (av_frame f))
    as [[ctx frame] averr].
  destruct (averr =? AVERROR_EAGAIN).
  - cbn [encOffset set_codec] in H.
    destruct (encOffset f >=? AudioBytes buffer) eqn:Hge.
    + inv_res. subst r. reflexivity.
    + inv_res. destruct a as [f1 p1].
      assert (Hf1 : encOffset f1 = encOffset f).
      { destruct (_ >? _) in Ha; inv_res; subst.
        - apply Fill_pad_encOffset in Ha0. exact Ha0.
        - reflexivity. }
      destruct (avcodec_send_packet _ _ _) as [ctx' averr'].
      inv_res. subst r. cbn [encOffset set_offsets set_codec].
      rewrite Hf1. split; [lia|]. apply u32_small. lia.
  - inv_res. subst r. reflexivity.
Qed.

Lemma Fill_round_ends (st : state * packet_data) :
  Fill_round size buffer st <> OutOfFuel.
Proof.
  unfold FFmpeg.Fill_round. destruct st as [f p].
  destruct (avcodec_receive_frame (av_ctx f) (av_frame f))
    as [[ctx frame] averr].
  destruct (averr =? AVERROR_EAGAIN).
  - destruct (_ >=? _); [discriminate|].
    apply bind_ends.
    + destruct (_ >? _); [|discriminate].
      apply bind_ends; [|discriminate].
      unfold Fill_pad. apply bind_ends; [apply load_ends|]. intros bytes _.
      apply bind_ends; [apply store_ends|]. intros mem _.
      apply bind_ends; [apply store_ends|]. discriminate.
    + intros [f1 p1] _. destruct (avcodec_send_packet _ _ _) as [ctx' e].
      apply bind_ends; [apply guard_res_ends|]. discriminate.
  - apply bind_ends; [apply guard_res_ends|]. discriminate.
Qed.

Lemma Fill_loop_ends fuel : forall (f : state) p,
  0 <= encOffset f ->
  Z.max 0 (AudioBytes buffer - encOffset f) < Z.of_nat fuel ->
  Fill_loop fuel size buffer (f, p) <> OutOfFuel /\
  forall f', Fill_loop fuel size buffer (f, p) = Ok f' -> 0 <= encOffset f'.
Proof.
  induction fuel as [|fuel IH]; intros f p Henc Hfuel; [lia|].
  cbn [FFmpeg.Fill_loop].
  pose proof (Fill_round_ends (f, p)) as Hends.
  destruct (Fill_round size buffer (f, p)) as [r| |] eqn:Hr;
    cbn [mbind res_bind]; [|split; [discriminate|intros ? ?; discriminate]|
                            congruence].
  pose proof (Fill_round_progress _ _ _ Hr Henc) as Hp.
  destruct r as [[f1 p1]|f1].
  - destruct Hp as [Hlt Hf1]. apply IH; lia.
  - split; [discriminate|]. intros f' H. inv_res. subst f'. lia.
Qed.

Lemma Fill_copy_ends (f : state) : Fill_copy f <> OutOfFuel.
Proof.
  unfold FFmpeg.Fill_copy. apply bind_ends; [|discriminate].
  destruct (av_sample_fmt_is_planar _).
  - apply bind_ends; [|intros [c d] _; discriminate].
    unfold Fill_planar, for_loop. apply for_from_ends. intros s st.
    unfold for_loop. apply for_from_ends. intros c [cache dst].
    apply bind_ends; [apply load1_ends|]. intros w _.
    apply bind_ends; [|discriminate].
    unfold store1. destruct (_ && _); discriminate.
  - apply bind_ends; [apply load_ends|]. intros ws _. apply store_ends.
Qed.

Lemma FillConvertCache_ends fuel (f : state) :
  0 <= encOffset f ->
  Z.max 0 (AudioBytes buffer) < Z.of_nat fuel ->
  FillConvertCache fuel size f buffer <> OutOfFuel /\
  forall f', FillConvertCache fuel size f buffer = Ok f' ->
             0 <= encOffset f'.
Proof.
  intros Henc Hfuel. unfold FAudio_INTERNAL_FillConvertCache.
  destruct (Fill_loop_ends fuel f (InAudioData (encOffset f)) Henc
              ltac:(lia)) as [Hends Hpos].
  split.
  - apply bind_ends; [exact Hends|]. intros f1 _. apply Fill_copy_ends.
  - intros f' H. inv_res.
    destruct (Fill_copy_converted _ _ H) as (_ & _ & He & _).
    rewrite He. eapply Hpos, Ha.
Qed.

Variable format : FAudioWaveFormatEx.
Hypothesis size_of_format : nBlockAlign format = size.
Variable samples : Z.
Hypothesis samples_range : 0 <= samples < 2 ^ 32.

Lemma Decode_round_ends fuel (st : @copy_loop AVCodecContext) :
  0 <= encOffset (cl_ffmpeg st) ->
  Z.max 0 (AudioBytes buffer) < Z.of_nat fuel ->
  Decode_round fuel format buffer samples st <> OutOfFuel.
Proof.
  intros Henc Hfuel. unfold FFmpeg.Decode_round. rewrite size_of_format.
  apply bind_ends.
  - destruct (_ >=? _); [|discriminate].
    apply FillConvertCache_ends; assumption.
  - intros f _. destruct (_ <=? 0); [discriminate|].
    apply bind_ends; [apply load_ends|]. intros ws _.
    apply bind_ends; [apply store_ends|]. discriminate.
Qed.

Lemma Decode_round_progress fuel (st : @copy_loop AVCodecContext) r :
  Decode_round fuel format buffer samples st = Ok r ->
  0 <= encOffset (cl_ffmpeg st) ->
  Z.max 0 (AudioBytes buffer) < Z.of_nat fuel ->
  0 <= cl_done st < samples ->
  match r with
  | inl st' =>
      cl_done st < cl_done st' <= samples /\ 0 <= encOffset (cl_ffmpeg st')
  | inr _ => True
  end.
Proof.
  unfold FFmpeg.Decode_round. rewrite size_of_format.
  intros H Henc Hfuel Hdone. inv_res. rename a into f.
  assert (Hf : 0 <= encOffset f).
  { destruct (_ >=? _) in Ha; inv_res; [|subst; exact Henc].
    eapply FillConvertCache_ends; eassumption. }
  destruct (u32 (convertSamples f - convertOffset f) <=? 0) eqn:Hav;
    inv_res; subst r; [exact I|].
  cbn [cl_done cl_ffmpeg encOffset set_convert].
  set (available := u32 (convertSamples f - convertOffset f)) in *.
  assert (Hleft : u32 (samples - cl_done st) = samples - cl_done st)
    by (apply u32_small; lia).
  rewrite Hleft.
  assert (Htodo : 0 < FAudio_min available (samples - cl_done st)
                  <= samples - cl_done st).
  { unfold FAudio_min.
    destruct (available <? samples - cl_done st) eqn:Hm; lia. }
  rewrite u32_small by lia. split; [lia|exact Hf].
Qed.

Lemma Decode_loop_ends fuel : forall st : @copy_loop AVCodecContext,
  0 <= encOffset (cl_ffmpeg st) ->
  0 <= cl_done st <= samples ->
  samples - cl_done st + Z.max 0 (AudioBytes buffer) < Z.of_nat fuel ->
  Decode_loop fuel format buffer samples st <> OutOfFuel.
Proof.
  induction fuel as [|fuel IH]; intros st Henc Hdone Hfuel; [lia|].
  cbn [FFmpeg.Decode_loop].
  destruct (cl_done st <? samples) eqn:Hlt; [|discriminate].
  apply Z.ltb_lt in Hlt.
  pose proof (Decode_round_ends (S fuel) st Henc ltac:(lia)) as Hends.
  destruct (Decode_round (S fuel) format buffer samples st) as [r| |] eqn:Hr;
    cbn [mbind res_bind]; [|discriminate|congruence].
  pose proof (Decode_round_progress _ _ _ Hr Henc ltac:(lia) ltac:(lia))
    as Hp.
  destruct r as [st1|st1]; [|discriminate].
  destruct Hp as [Hd He]. apply IH; [exact He|lia|lia].
Qed.

End Termination.

Lemma Decode_reposition_encOffset cur (f f' : state) reseek :
  Decode_reposition cur f = (f', reseek) -> encOffset f' = encOffset f.
Proof.
  unfold Decode_reposition.
  destruct (cur <? decOffset f); [destruct (_ >=? _)|destruct (_ >? _)];
    intros H; inversion H; reflexivity.
Qed.

(** X22. The decoder returns. For a format whose block alignment is
    above 0, and whatever the codec answers, fuel above
    [samples + AudioBytes] never runs out: the packet search, every refill
    and the copy loop end. *)
Theorem DecodeFFMPEG_ends fuel voice buffer decodeCache samples :
  0 < nBlockAlign (voice_format voice) ->
  0 <= AudioBytes buffer ->
  AudioBytes buffer + nBlockAlign (voice_format voice) <= 2 ^ 32 ->
  0 <= encOffset (voice_ffmpeg voice) ->
  0 <= samples < 2 ^ 32 ->
  samples + AudioBytes buffer < Z.of_nat fuel ->
  FAudio_INTERNAL_DecodeFFMPEG channels av_sample_fmt_is_planar
    avcodec_receive_frame avcodec_send_packet AVERROR_EAGAIN
    AV_INPUT_BUFFER_PADDING_SIZE fresh_byte fresh_word
    fuel voice buffer decodeCache samples <> OutOfFuel.
Proof.
  intros Hsize Hbytes Hrange Henc Hs Hfuel.
  unfold FAudio_INTERNAL_DecodeFFMPEG.
  destruct (Decode_reposition _ _) as [f0 reseek] eqn:Hrep.
  pose proof (Decode_reposition_encOffset _ _ _ _ Hrep) as Hf0.
  assert (Hfill : forall f : state, 0 <= encOffset f ->
            FillConvertCache fuel (nBlockAlign (voice_format voice)) f buffer
              <> OutOfFuel /\
            forall f', FillConvertCache fuel (nBlockAlign (voice_format voice))
                         f buffer = Ok f' -> 0 <= encOffset f').
  { intros f Hf. apply FillConvertCache_ends; try assumption. lia. }
  assert (Hseek : (if reseek then Decode_reseek fuel voice buffer f0
                   else Ok f0) <> OutOfFuel /\
                  forall f1, (if reseek then Decode_reseek fuel voice buffer f0
                              else Ok f0) = Ok f1 -> 0 <= encOffset f1).
  { destruct reseek.
    - unfold FFmpeg.Decode_reseek.
      destruct (voice_bufferWMA voice) as [wma|];
        [|split; [discriminate|intros ? ?; discriminate]].
      split.
      + apply bind_ends; [apply Decode_seek_ends; [apply u32_range|lia]|].
        intros idx _. apply bind_ends.
        { destruct (idx =? 0); [discriminate|apply load1_ends]. }
        intros c _. apply bind_ends.
        { apply Hfill. cbn. apply u32_range. }
        intros f1 _. apply bind_ends; [apply guard_res_ends|]. discriminate.
      + intros f1 H. inv_res. subst f1. cbn [encOffset set_offsets set_convert].
        match goal with
        | Hc : FAudio_INTERNAL_FillConvertCache _ _ _ _ _ _ _ _ _ _ _ _ = Ok _
          |- _ => eapply Hfill; [|exact Hc]; cbn; apply u32_range
        end.
    - split; [discriminate|]. intros f1 H. inv_res. subst f1. lia. }
  destruct Hseek as [Hends Hpos].
  apply bind_ends; [exact Hends|]. intros f1 Hf1.
  apply bind_ends.
  - apply (Decode_loop_ends buffer (nBlockAlign (voice_format voice)));
      try assumption; cbn; try reflexivity; try lia.
    eapply Hpos, Hf1.
  - intros st _. apply bind_ends; [|discriminate].
    destruct (_ <? _); [apply store_ends|discriminate].
Qed.

End Decoder.

(** *** The packet of a position *)

Lemma Decode_seek_finds table byteOffset : forall fuel packetIdx,
  0 <= packetIdx < Z.of_nat (length table) ->
  packetIdx <= Z.of_nat fuel ->
  packetIdx < 2 ^ 32 ->
  exists idx,
    Decode_seek fuel table byteOffset packetIdx = Ok idx /\
    0 <= idx <= packetIdx /\
    (forall j, idx < j <= packetIdx ->
       exists bytes, table !! Z.to_nat j = Some bytes /\ byteOffset < bytes) /\
    (0 < idx ->
       exists bytes, table !! Z.to_nat idx = Some bytes /\
                     bytes <= byteOffset).
Proof.
  induction fuel as [|fuel IH]; intros p Hp Hfuel Hsmall.
  - assert (p = 0) as -> by lia. exists 0. cbn.
    repeat split; try lia; intros; lia.
  - cbn [Decode_seek]. destruct (p >? 0) eqn:Hpos.
    + destruct (load1_Ok table p) as (bytes & -> & Hb); [lia|].
      cbn [mbind res_bind].
      destruct (bytes >? byteOffset) eqn:Hgt.
      * rewrite (u32_small (p - 1)) by lia.
        destruct (IH (p - 1)) as (idx & -> & Hr & Hup & Hat); try lia.
        exists idx. split; [reflexivity|]. split; [lia|].
        split; [|exact Hat].
        intros j Hj. destruct (decide (j = p)) as [->|Hne].
        -- exists bytes. split; [exact Hb|lia].
        -- apply Hup. lia.
      * exists p. split; [reflexivity|]. split; [lia|]. split.
        -- intros j Hj. lia.
        -- intros _. exists bytes. split; [exact Hb|lia].
    + exists p. split; [reflexivity|]. split; [lia|].
      split; intros; lia.
Qed.

(** X23. The packet that a seek starts from. For a buffer whose table of
    cumulative decoded bytes has an entry for each of its [PacketCount]
    packets, the search of FAudio_INTERNAL_DecodeFFMPEG returns without a
    fault, and what it returns is the last packet whose cumulative count
    is at most the byte position, or packet 0 when every later packet
    counts more: each packet behind the one returned has a count above the
    position. *)
Theorem DecodeFFMPEG_seek_packet wma byteOffset :
  0 < PacketCount wma <=
    Z.of_nat (length (pDecodedPacketCumulativeBytes wma)) ->
  PacketCount wma <= 2 ^ 32 ->
  exists idx,
    Decode_seek (length (pDecodedPacketCumulativeBytes wma))
      (pDecodedPacketCumulativeBytes wma) byteOffset
      (u32 (PacketCount wma - 1)) = Ok idx /\
    0 <= idx < PacketCount wma /\
    (forall j, idx < j < PacketCount wma ->
       exists bytes,
         pDecodedPacketCumulativeBytes wma !! Z.to_nat j = Some bytes /\
         byteOffset < bytes) /\
    (0 < idx ->
       exists bytes,
         pDecodedPacketCumulativeBytes wma !! Z.to_nat idx = Some bytes /\
         bytes <= byteOffset).
Proof.
  intros Hcount Hsmall. rewrite u32_small by lia.
  destruct (Decode_seek_finds (pDecodedPacketCumulativeBytes wma) byteOffset
              (length (pDecodedPacketCumulativeBytes wma))
              (PacketCount wma - 1)) as (idx & Hrun & Hr & Hup & Hat);
    try lia.
  exists idx. split; [exact Hrun|]. split; [lia|]. split; [|exact Hat].
  intros j Hj. apply Hup. lia.
Qed.

(** *** Examples with the codec [echo_receive], [echo_send] *)

Lemma FillConvertCache_interleaves_witness :
  echo_fill 4 4 echo_start echo_buffer = Ok echo_filled /\
  convertSamples echo_filled = nb_samples (av_frame echo_filled) /\
  convertOffset echo_filled = 0 /\
  convertCapacity echo_filled =
    Z.max (convertCapacity echo_start)
      (nb_samples (av_frame echo_filled) *
       echo_channels (av_ctx echo_filled)) /\
  Z.of_nat (length (convertCache echo_filled)) =
    convertCapacity echo_filled /\
  convertCache echo_filled =
    interleaved (av_frame echo_filled) (echo_channels (av_ctx echo_filled))
      (echo_planar (av_ctx echo_filled))
      (nb_samples (av_frame echo_filled) *
       echo_channels (av_ctx echo_filled))
      (pRealloc 0 (convertCache echo_start) (convertCapacity echo_filled)).
Proof.
  assert (Hrun : echo_fill 4 4 echo_start echo_buffer = Ok echo_filled)
    by (vm_compute; reflexivity).
  split; [exact Hrun|].
  apply (FillConvertCache_interleaves echo_channels echo_planar
           echo_receive echo_send (-11) 2 x00 0 4 4 echo_start echo_buffer
           echo_filled Hrun).
  - unfold frame_holds, echo_planar, echo_channels. cbn.
    repeat split; try lia.
    intros c Hc.
    assert (c = 0 \/ c = 1) as [-> | ->] by lia; vm_compute; discriminate.
  - reflexivity.
Defined.

Lemma DecodeFFMPEG_position_witness :
  decoded_words
    (echo_decode 20 (echo_voice 0 echo_start) echo_buffer (replicate 10 7) 3)
    = Some [1; 3; 2; 4; 5; 7; 7; 7; 7; 7] /\
  match echo_decode 20 (echo_voice 0 echo_start) echo_buffer
          (replicate 10 7) 3 with
  | Ok (f', cache') =>
      decOffset f' = u32 (0 + 3) /\
      length cache' = length (replicate 10 7) /\
      forall i : nat, 3 * 2 <= Z.of_nat i ->
        cache' !! i = replicate 10 7 !! i
  | _ => False
  end.
Proof.
  assert (Hc : decoded_words
                 (echo_decode 20 (echo_voice 0 echo_start) echo_buffer
                    (replicate 10 7) 3)
               = Some [1; 3; 2; 4; 5; 7; 7; 7; 7; 7])
    by (vm_compute; reflexivity).
  split; [exact Hc|].
  destruct (echo_decode 20 (echo_voice 0 echo_start) echo_buffer
              (replicate 10 7) 3) as [[f' cache']| |] eqn:Hrun.
  2, 3: discriminate Hc.
  assert (Hch : 0 <= nChannels (voice_format (echo_voice 0 echo_start)))
    by (cbn; lia).
  assert (Hs : 0 <= 3 < 2 ^ 32) by lia.
  exact (DecodeFFMPEG_position echo_channels echo_planar echo_receive
           echo_send (-11) 2 x00 0 20 (echo_voice 0 echo_start) echo_buffer
           (replicate 10 7) 3 f' cache' Hrun Hch Hs).
Defined.

Lemma DecodeFFMPEG_from_cache_witness :
  echo_decode 1 (echo_voice 0 echo_filled) echo_buffer (replicate 4 7) 1 =
    Ok (set_offsets (set_convert echo_filled 4 2 1 [1; 3; 2; 4]) 4 1,
        [1; 3; 7; 7]).
Proof.
  apply (DecodeFFMPEG_from_cache echo_channels echo_planar echo_receive
           echo_send (-11) 2 x00 0 0 (echo_voice 0 echo_filled) echo_buffer
           (replicate 4 7) 1); cbn; lia.
Defined.

Lemma DecodeFFMPEG_ends_witness :
  echo_decode 20 (echo_voice 0 echo_start) echo_buffer (replicate 10 7) 3
    <> OutOfFuel.
Proof.
  apply (DecodeFFMPEG_ends echo_channels echo_planar echo_receive
           echo_send (-11) 2 x00 0 20 (echo_voice 0 echo_start) echo_buffer
           (replicate 10 7) 3); cbn; lia.
Defined.

Lemma DecodeFFMPEG_seek_packet_witness :
  exists idx,
    Decode_seek 3 [100; 200; 300] 250 (u32 (3 - 1)) = Ok idx /\
    0 <= idx < 3 /\
    (forall j, idx < j < 3 ->
       exists bytes,
         [100; 200; 300] !! Z.to_nat j = Some bytes /\ 250 < bytes) /\
    (0 < idx ->
       exists bytes,
         [100; 200; 300] !! Z.to_nat idx = Some bytes /\ bytes <= 250).
Proof.
  apply (DecodeFFMPEG_seek_packet three_packets 250); cbn; lia.
Defined.

Lemma DecodeFFMPEG_silence_witness :
  exists f',
    echo_decode 1 (echo_voice 4 echo_drained) echo_buffer (replicate 6 7) 2 =
      Ok (f', replicate (Z.to_nat (2 * 2)) 0 ++
              drop (Z.to_nat (2 * 2)) (replicate 6 7)) /\
    decOffset f' = u32 (decOffset echo_drained + 2) /\
    convertSamples f' = 0 /\ convertOffset f' = 0.
Proof.
  apply (DecodeFFMPEG_silence echo_channels echo_planar echo_receive
           echo_send (-11) 2 x00 0 0 (echo_voice 4 echo_drained) echo_buffer
           (replicate 6 7) 2 []
           {| nb_samples := 0; data := [] |});
    try reflexivity; cbn; lia.
Defined.
